(** * ICS-20 transfer packet data: wire codec, validation and memo probing

    A shallow embedding of [modules/apps/transfer/types/packet.pb.go]
    (the gogoproto-generated codec of [FungibleTokenPacketData],
    [FungibleTokenPacketDataV2] and [Token]) and of the hand-written
    methods of [FungibleTokenPacketData] ([ValidateBasic], [GetBytes] and
    the ADR-8 callback getters).

    Conventions.
    - A Go [byte] is a [Byte.byte]; a [[]byte] and a Go [string] are both
      [list byte] (a Go string is an immutable byte sequence).
    - Go's [int] is the 64-bit signed integer, [uint64] the 64-bit unsigned
      one; both are carried in [Z] with the wrap-around written out.
    - A function that can fail returns a [result]: [Ok], an [Err]or value,
      a run-time [Panic] (index out of range, nil dereference), or
      [OutOfFuel] when the fuel given to a loop of the model is exhausted. *)

From stdpp Require Import base gmap strings list sorting.
From Stdlib Require Import ZArith Lia Permutation.
From Stdlib.Strings Require Import Byte.

Local Open Scope Z_scope.

(** ** Machine integers and bytes *)

Definition byte_to_Z (b : byte) : Z := Z.of_N (Byte.to_N b).

(** [uint8(z)]: truncation to the low eight bits. *)
Definition uint8 (z : Z) : byte :=
  match Byte.of_N (Z.to_N (z mod 256)) with
  | Some b => b
  | None => x00
  end.

(** [uint64] arithmetic results are reduced modulo 2^64. *)
Definition wrapU64 (z : Z) : Z := z mod 2 ^ 64.

(** [int] (and the conversion [int(x)] of a [uint64]): two's complement on
    64 bits. *)
Definition wrapInt (z : Z) : Z := (z + 2 ^ 63) mod 2 ^ 64 - 2 ^ 63.

(** [int32(x)]: two's complement on 32 bits. *)
Definition int32 (z : Z) : Z := (z + 2 ^ 31) mod 2 ^ 32 - 2 ^ 31.

Definition addInt (a b : Z) : Z := wrapInt (a + b).
Definition subInt (a b : Z) : Z := wrapInt (a - b).

(** The largest [int]. *)
Abbreviation maxInt := (2 ^ 63 - 1)%Z.

(** [len(s)] *)
Definition len {A} (s : list A) : Z := Z.of_nat (length s).

(** ** Errors and results *)

Inductive error : Type :=
| ErrInvalidLengthPacket
| ErrIntOverflowPacket
| ErrUnexpectedEndOfGroupPacket
| ErrUnexpectedEOF
| ErrWiretypeEndGroup
| ErrIllegalTag (fieldNum wire : Z)
| ErrWrongWireType (wireType : Z) (field : string)
| ErrIllegalWireType (wireType : Z).

Inductive result (A : Type) : Type :=
| Ok (a : A)
| Err (e : error)
| Panic
| OutOfFuel.

Arguments Ok {A} a.
Arguments Err {A} e.
Arguments Panic {A}.
Arguments OutOfFuel {A}.

Definition bind {A B} (r : result A) (k : A -> result B) : result B :=
  match r with
  | Ok a => k a
  | Err e => Err e
  | Panic => Panic
  | OutOfFuel => OutOfFuel
  end.

Notation "'let*' p ':=' c 'in' k" := (bind c (fun p => k))
  (at level 10, p pattern, c at level 100, k at level 200).

(** A run that ended by itself: a value or an error, but neither a panic
    nor an exhausted fuel. *)
Definition returns {A} (r : result A) : Prop :=
  match r with
  | Ok _ | Err _ => True
  | Panic | OutOfFuel => False
  end.

Definition is_err {A} (r : result A) : Prop :=
  match r with
  | Err _ => True
  | _ => False
  end.

(** ** Slices *)

(** [dAtA[i]], with Go's bounds check. *)
Definition index (dAtA : list byte) (i : Z) : result byte :=
  if (i <? 0) || (len dAtA <=? i) then Panic
  else match dAtA !! Z.to_nat i with
       | Some b => Ok b
       | None => Panic
       end.

(** [dAtA[lo:hi]], with Go's bounds check. *)
Definition slice (dAtA : list byte) (lo hi : Z) : result (list byte) :=
  if (0 <=? lo) && (lo <=? hi) && (hi <=? len dAtA)
  then Ok (take (Z.to_nat (hi - lo)) (drop (Z.to_nat lo) dAtA))
  else Panic.

(** [dAtA[lo:]] *)
Definition sliceFrom (dAtA : list byte) (lo : Z) : result (list byte) :=
  slice dAtA lo (len dAtA).

(** [dAtA[:hi]] *)
Definition sliceTo (dAtA : list byte) (hi : Z) : result (list byte) :=
  slice dAtA 0 hi.

(** ** Reading varints

    The generated decoders inline the same loop at every varint:
<<
    for shift := uint(0); ; shift += 7 {
        if shift >= 64 { return ErrIntOverflowPacket }
        if iNdEx >= l { return io.ErrUnexpectedEOF }
        b := dAtA[iNdEx]
        iNdEx++
        v |= uint64(b&0x7F) << shift
        if b < 0x80 { break }
    }
>>
    The copies differ only in how the byte is accumulated, which is the
    parameter [acc]. The loop returns the accumulated value and the new
    [iNdEx]. *)

Fixpoint varintLoop (acc : Z -> Z -> Z -> Z) (dAtA : list byte)
    (fuel : nat) (shift iNdEx v : Z) : result (Z * Z) :=
  match fuel with
  | O => OutOfFuel
  | S fuel' =>
      if 64 <=? shift then Err ErrIntOverflowPacket
      else if len dAtA <=? iNdEx then Err ErrUnexpectedEOF
      else
        let* b := index dAtA iNdEx in
        let iNdEx := addInt iNdEx 1 in
        let v := acc v (byte_to_Z b) shift in
        if byte_to_Z b <? 128 then Ok (v, iNdEx)
        else varintLoop acc dAtA fuel' (shift + 7) iNdEx v
  end.

(** [v |= uint64(b&0x7F) << shift] *)
Definition accU64 (v b shift : Z) : Z :=
  Z.lor v (wrapU64 (Z.shiftl (Z.land b 127) shift)).

(** [v |= int(b&0x7F) << shift]; the result is an [int], the bits shifted
    beyond the 64th are lost. *)
Definition accInt (v b shift : Z) : Z :=
  wrapInt (Z.lor v (Z.shiftl (Z.land b 127) shift)).

(** [skipPacket]'s wire type 0 reads the bytes and keeps nothing. *)
Definition accSkip (v b shift : Z) : Z := v.

(** Eleven rounds are enough: the eleventh finds [shift = 70 >= 64]. *)
Definition varintFuel : nat := 11.

Definition readVarintU64 (dAtA : list byte) (iNdEx : Z) : result (Z * Z) :=
  varintLoop accU64 dAtA varintFuel 0 iNdEx 0.

Definition readVarintInt (dAtA : list byte) (iNdEx : Z) : result (Z * Z) :=
  varintLoop accInt dAtA varintFuel 0 iNdEx 0.

Definition skipVarint (dAtA : list byte) (iNdEx : Z) : result (Z * Z) :=
  varintLoop accSkip dAtA varintFuel 0 iNdEx 0.

(** ** The messages *)

(** [FungibleTokenPacketData]: the legacy single-denomination payload. *)
Record FungibleTokenPacketData : Type := mkFungibleTokenPacketData {
  Denom : list byte;
  Amount : list byte;
  Sender : list byte;
  Receiver : list byte;
  Memo : list byte
}.

(** [Token]: [Amount] is a [uint64]. *)
Record Token : Type := mkToken {
  Token_Denom : list byte;
  Token_Amount : Z;
  Token_Trace : list (list byte)
}.

(** [FungibleTokenPacketDataV2]: [Tokens] is a [[]*Token], a list of
    pointers each of which may be nil ([None]). *)
Record FungibleTokenPacketDataV2 : Type := mkFungibleTokenPacketDataV2 {
  V2_Tokens : list (option Token);
  V2_Sender : list byte;
  V2_Receiver : list byte;
  V2_Memo : list byte
}.

(** The zero values [FungibleTokenPacketData{}], [Token{}] and
    [FungibleTokenPacketDataV2{}]. *)
Definition FungibleTokenPacketData_zero : FungibleTokenPacketData :=
  mkFungibleTokenPacketData [] [] [] [] [].
Definition Token_zero : Token := mkToken [] 0 [].
Definition FungibleTokenPacketDataV2_zero : FungibleTokenPacketDataV2 :=
  mkFungibleTokenPacketDataV2 [] [] [] [].

(** ** Decoding *)

(** The head of every iteration of the three [Unmarshal] loops: the tag
    varint, split into field number and wire type. Returns
    [(fieldNum, wireType, iNdEx)]. *)
Definition readTag (dAtA : list byte) (iNdEx : Z) : result (Z * Z * Z) :=
  let* (wire, iNdEx) := readVarintU64 dAtA iNdEx in
  let fieldNum := int32 (Z.shiftr wire 3) in
  let wireType := Z.land wire 7 in
  if wireType =? 4 then Err ErrWiretypeEndGroup
  else if fieldNum <=? 0 then Err (ErrIllegalTag fieldNum wire)
  else Ok (fieldNum, wireType, iNdEx).

(** The body of a [case] for a string field (also used for the elements
    of the repeated string field [Trace]): returns
    [(string(dAtA[iNdEx:postIndex]), postIndex)]. *)
Definition readString (field : string) (dAtA : list byte)
    (wireType iNdEx : Z) : result (list byte * Z) :=
  if negb (wireType =? 2) then Err (ErrWrongWireType wireType field)
  else
    let* (stringLen, iNdEx) := readVarintU64 dAtA iNdEx in
    let intStringLen := wrapInt stringLen in
    if intStringLen <? 0 then Err ErrInvalidLengthPacket
    else
      let postIndex := addInt iNdEx intStringLen in
      if postIndex <? 0 then Err ErrInvalidLengthPacket
      else if postIndex >? len dAtA then Err ErrUnexpectedEOF
      else
        let* s := slice dAtA iNdEx postIndex in
        Ok (s, postIndex).

(** One round of [skipPacket]'s loop, from [(iNdEx, depth)] to the new
    [(iNdEx, depth)]. *)
Definition skipStep (dAtA : list byte) (iNdEx depth : Z) : result (Z * Z) :=
  let* (wire, iNdEx) := readVarintU64 dAtA iNdEx in
  let wireType := Z.land wire 7 in
  let* (iNdEx, depth) :=
    if wireType =? 0 then
      let* (_, iNdEx) := skipVarint dAtA iNdEx in Ok (iNdEx, depth)
    else if wireType =? 1 then Ok (addInt iNdEx 8, depth)
    else if wireType =? 2 then
      let* (length, iNdEx) := readVarintInt dAtA iNdEx in
      if length <? 0 then Err ErrInvalidLengthPacket
      else Ok (addInt iNdEx length, depth)
    else if wireType =? 3 then Ok (iNdEx, addInt depth 1)
    else if wireType =? 4 then
      if depth =? 0 then Err ErrUnexpectedEndOfGroupPacket
      else Ok (iNdEx, subInt depth 1)
    else if wireType =? 5 then Ok (addInt iNdEx 4, depth)
    else Err (ErrIllegalWireType wireType) in
  if iNdEx <? 0 then Err ErrInvalidLengthPacket
  else Ok (iNdEx, depth).

Fixpoint skipLoop (dAtA : list byte) (fuel : nat) (iNdEx depth : Z)
    : result Z :=
  if iNdEx <? len dAtA then
    match fuel with
    | O => OutOfFuel
    | S fuel' =>
        let* (iNdEx, depth) := skipStep dAtA iNdEx depth in
        if depth =? 0 then Ok iNdEx
        else skipLoop dAtA fuel' iNdEx depth
    end
  else Err ErrUnexpectedEOF.

(** [skipPacket(dAtA)]: the number of bytes of the field (or group) at the
    head of [dAtA]. Every round reads at least one byte, so [len dAtA]
    rounds are enough. *)
Definition skipPacket (dAtA : list byte) : result Z :=
  skipLoop dAtA (length dAtA) 0 0.

(** The [default] case of the three [Unmarshal] loops. *)
Definition skipUnknown (dAtA : list byte) (preIndex : Z) : result Z :=
  let iNdEx := preIndex in
  let* rest := sliceFrom dAtA iNdEx in
  let* skippy := skipPacket rest in
  if (skippy <? 0) || (addInt iNdEx skippy <? 0)
  then Err ErrInvalidLengthPacket
  else if addInt iNdEx skippy >? len dAtA then Err ErrUnexpectedEOF
  else Ok (addInt iNdEx skippy).

(** The loop [for iNdEx < l { ... }] shared by the three [Unmarshal]
    functions, over the body [step] of one round, and the final check
    [if iNdEx > l]. *)
Section UnmarshalLoop.
Context {M : Type}.
Variable step : list byte -> Z -> M -> result (Z * M).

Fixpoint unmarshalLoop (dAtA : list byte) (fuel : nat) (iNdEx : Z)
    (m : M) : result M :=
  if iNdEx <? len dAtA then
    match fuel with
    | O => OutOfFuel
    | S fuel' =>
        let* (iNdEx, m) := step dAtA iNdEx m in
        unmarshalLoop dAtA fuel' iNdEx m
    end
  else if iNdEx >? len dAtA then Err ErrUnexpectedEOF
  else Ok m.
End UnmarshalLoop.

Definition set_Denom (s : list byte) (m : FungibleTokenPacketData) :=
  mkFungibleTokenPacketData s (Amount m) (Sender m) (Receiver m) (Memo m).
Definition set_Amount (s : list byte) (m : FungibleTokenPacketData) :=
  mkFungibleTokenPacketData (Denom m) s (Sender m) (Receiver m) (Memo m).
Definition set_Sender (s : list byte) (m : FungibleTokenPacketData) :=
  mkFungibleTokenPacketData (Denom m) (Amount m) s (Receiver m) (Memo m).
Definition set_Receiver (s : list byte) (m : FungibleTokenPacketData) :=
  mkFungibleTokenPacketData (Denom m) (Amount m) (Sender m) s (Memo m).
Definition set_Memo (s : list byte) (m : FungibleTokenPacketData) :=
  mkFungibleTokenPacketData (Denom m) (Amount m) (Sender m) (Receiver m) s.

(** One round of [FungibleTokenPacketData.Unmarshal]. *)
Definition FungibleTokenPacketData_step (dAtA : list byte) (iNdEx : Z)
    (m : FungibleTokenPacketData) : result (Z * FungibleTokenPacketData) :=
  let preIndex := iNdEx in
  let* (fieldNum, wireType, iNdEx) := readTag dAtA iNdEx in
  if fieldNum =? 1 then
    let* (s, iNdEx) := readString "Denom" dAtA wireType iNdEx in
    Ok (iNdEx, set_Denom s m)
  else if fieldNum =? 2 then
    let* (s, iNdEx) := readString "Amount" dAtA wireType iNdEx in
    Ok (iNdEx, set_Amount s m)
  else if fieldNum =? 3 then
    let* (s, iNdEx) := readString "Sender" dAtA wireType iNdEx in
    Ok (iNdEx, set_Sender s m)
  else if fieldNum =? 4 then
    let* (s, iNdEx) := readString "Receiver" dAtA wireType iNdEx in
    Ok (iNdEx, set_Receiver s m)
  else if fieldNum =? 5 then
    let* (s, iNdEx) := readString "Memo" dAtA wireType iNdEx in
    Ok (iNdEx, set_Memo s m)
  else
    let* iNdEx := skipUnknown dAtA preIndex in
    Ok (iNdEx, m).

(** [m.Unmarshal(dAtA)]: the message [m] as the call leaves it, or the
    error. The receiver is not reset: fields absent from [dAtA] keep the
    value they have in [m]. *)
Definition FungibleTokenPacketData_Unmarshal (m : FungibleTokenPacketData)
    (dAtA : list byte) : result FungibleTokenPacketData :=
  unmarshalLoop FungibleTokenPacketData_step dAtA (length dAtA) 0 m.

Definition set_Token_Denom (s : list byte) (m : Token) :=
  mkToken s (Token_Amount m) (Token_Trace m).
Definition set_Token_Amount (v : Z) (m : Token) :=
  mkToken (Token_Denom m) v (Token_Trace m).
Definition append_Token_Trace (s : list byte) (m : Token) :=
  mkToken (Token_Denom m) (Token_Amount m) (Token_Trace m ++ [s]).

(** One round of [Token.Unmarshal]. *)
Definition Token_step (dAtA : list byte) (iNdEx : Z) (m : Token)
    : result (Z * Token) :=
  let preIndex := iNdEx in
  let* (fieldNum, wireType, iNdEx) := readTag dAtA iNdEx in
  if fieldNum =? 1 then
    let* (s, iNdEx) := readString "Denom" dAtA wireType iNdEx in
    Ok (iNdEx, set_Token_Denom s m)
  else if fieldNum =? 2 then
    if negb (wireType =? 0) then Err (ErrWrongWireType wireType "Amount")
    else
      let* (v, iNdEx) := readVarintU64 dAtA iNdEx in
      Ok (iNdEx, set_Token_Amount v m)
  else if fieldNum =? 3 then
    let* (s, iNdEx) := readString "Trace" dAtA wireType iNdEx in
    Ok (iNdEx, append_Token_Trace s m)
  else
    let* iNdEx := skipUnknown dAtA preIndex in
    Ok (iNdEx, m).

Definition Token_Unmarshal (m : Token) (dAtA : list byte) : result Token :=
  unmarshalLoop Token_step dAtA (length dAtA) 0 m.

Definition append_V2_Tokens (t : Token) (m : FungibleTokenPacketDataV2) :=
  mkFungibleTokenPacketDataV2 (V2_Tokens m ++ [Some t])
    (V2_Sender m) (V2_Receiver m) (V2_Memo m).
Definition set_V2_Sender (s : list byte) (m : FungibleTokenPacketDataV2) :=
  mkFungibleTokenPacketDataV2 (V2_Tokens m) s (V2_Receiver m) (V2_Memo m).
Definition set_V2_Receiver (s : list byte) (m : FungibleTokenPacketDataV2) :=
  mkFungibleTokenPacketDataV2 (V2_Tokens m) (V2_Sender m) s (V2_Memo m).
Definition set_V2_Memo (s : list byte) (m : FungibleTokenPacketDataV2) :=
  mkFungibleTokenPacketDataV2 (V2_Tokens m) (V2_Sender m) (V2_Receiver m) s.

(** The [case 1] of [FungibleTokenPacketDataV2.Unmarshal]: the bounds of
    the embedded message, then [Token.Unmarshal] of a fresh [&Token{}] on
    the sub-slice. Returns the token and [postIndex]. *)
Definition readToken (dAtA : list byte) (wireType iNdEx : Z)
    : result (Token * Z) :=
  if negb (wireType =? 2) then Err (ErrWrongWireType wireType "Tokens")
  else
    let* (msglen, iNdEx) := readVarintInt dAtA iNdEx in
    if msglen <? 0 then Err ErrInvalidLengthPacket
    else
      let postIndex := addInt iNdEx msglen in
      if postIndex <? 0 then Err ErrInvalidLengthPacket
      else if postIndex >? len dAtA then Err ErrUnexpectedEOF
      else
        let* sub := slice dAtA iNdEx postIndex in
        let* t := Token_Unmarshal Token_zero sub in
        Ok (t, postIndex).

(** One round of [FungibleTokenPacketDataV2.Unmarshal]. *)
Definition FungibleTokenPacketDataV2_step (dAtA : list byte) (iNdEx : Z)
    (m : FungibleTokenPacketDataV2)
    : result (Z * FungibleTokenPacketDataV2) :=
  let preIndex := iNdEx in
  let* (fieldNum, wireType, iNdEx) := readTag dAtA iNdEx in
  if fieldNum =? 1 then
    let* (t, iNdEx) := readToken dAtA wireType iNdEx in
    Ok (iNdEx, append_V2_Tokens t m)
  else if fieldNum =? 2 then
    let* (s, iNdEx) := readString "Sender" dAtA wireType iNdEx in
    Ok (iNdEx, set_V2_Sender s m)
  else if fieldNum =? 3 then
    let* (s, iNdEx) := readString "Receiver" dAtA wireType iNdEx in
    Ok (iNdEx, set_V2_Receiver s m)
  else if fieldNum =? 4 then
    let* (s, iNdEx) := readString "Memo" dAtA wireType iNdEx in
    Ok (iNdEx, set_V2_Memo s m)
  else
    let* iNdEx := skipUnknown dAtA preIndex in
    Ok (iNdEx, m).

Definition FungibleTokenPacketDataV2_Unmarshal
    (m : FungibleTokenPacketDataV2) (dAtA : list byte)
    : result FungibleTokenPacketDataV2 :=
  unmarshalLoop FungibleTokenPacketDataV2_step dAtA (length dAtA) 0 m.

(** ** Encoding *)

(** [bits.Len64(x)]: the number of bits needed to write [x]. *)
Definition bitsLen64 (x : Z) : Z := if x =? 0 then 0 else Z.log2 x + 1.

(** [sovPacket(x)]: the number of bytes of the varint of [x]. *)
Definition sovPacket (x : Z) : Z := (bitsLen64 (Z.lor x 1) + 6) / 7.

(** [dAtA[i] = b], with Go's bounds check. *)
Definition setAt (dAtA : list byte) (i : Z) (b : byte)
    : result (list byte) :=
  if (i <? 0) || (len dAtA <=? i) then Panic
  else Ok (<[Z.to_nat i := b]> dAtA).

(** [copy(dAtA[i:], s)]: the slice expression panics out of bounds; [copy]
    writes as many bytes as fit. *)
Definition copyAt (dAtA : list byte) (i : Z) (s : list byte)
    : result (list byte) :=
  if (i <? 0) || (len dAtA <? i) then Panic
  else
    let k := Nat.min (length s) (length dAtA - Z.to_nat i) in
    Ok (take (Z.to_nat i) dAtA ++ take k s ++ drop (Z.to_nat i + k) dAtA).

(** The loop and the last store of [encodeVarintPacket]. A [uint64] has at
    most ten groups of seven bits. *)
Fixpoint encodeVarintLoop (fuel : nat) (dAtA : list byte) (offset v : Z)
    : result (list byte) :=
  match fuel with
  | O => OutOfFuel
  | S fuel' =>
      if 128 <=? v then
        let* dAtA := setAt dAtA offset (uint8 (Z.lor (Z.land v 127) 128)) in
        encodeVarintLoop fuel' dAtA (addInt offset 1) (Z.shiftr v 7)
      else setAt dAtA offset (uint8 v)
  end.

(** [encodeVarintPacket(dAtA, offset, v)]: writes the varint of [v] so that
    it ends just before [offset]; returns the buffer and the position of
    its first byte. *)
Definition encodeVarintPacket (dAtA : list byte) (offset v : Z)
    : result (list byte * Z) :=
  let offset := subInt offset (sovPacket v) in
  let base := offset in
  let* dAtA := encodeVarintLoop 10 dAtA offset v in
  Ok (dAtA, base).

(** The block the generated code repeats for every string that is written
    (the state is the buffer and the write position [i]):
<<
    i -= len(s)
    copy(dAtA[i:], s)
    i = encodeVarintPacket(dAtA, i, uint64(len(s)))
    i--
    dAtA[i] = tag
>> *)
Definition putString (tag : byte) (s : list byte) (st : list byte * Z)
    : result (list byte * Z) :=
  let '(dAtA, i) := st in
  let i := subInt i (len s) in
  let* dAtA := copyAt dAtA i s in
  let* (dAtA, i) := encodeVarintPacket dAtA i (wrapU64 (len s)) in
  let i := subInt i 1 in
  let* dAtA := setAt dAtA i tag in
  Ok (dAtA, i).

(** The same block under its guard [if len(s) > 0]. *)
Definition putStringOpt (tag : byte) (s : list byte) (st : list byte * Z)
    : result (list byte * Z) :=
  if len s >? 0 then putString tag s st else Ok st.

(** A [for] loop over a list that threads a state and stops at the first
    failure. *)
Fixpoint forEach {A S : Type} (f : A -> S -> result S) (l : list A) (st : S)
    : result S :=
  match l with
  | [] => Ok st
  | a :: l' => let* st := f a st in forEach f l' st
  end.

Definition FungibleTokenPacketData_MarshalToSizedBuffer
    (m : FungibleTokenPacketData) (dAtA : list byte)
    : result (list byte * Z) :=
  let i := len dAtA in
  let* st := putStringOpt x2a (Memo m) (dAtA, i) in
  let* st := putStringOpt x22 (Receiver m) st in
  let* st := putStringOpt x1a (Sender m) st in
  let* st := putStringOpt x12 (Amount m) st in
  let* (dAtA, i) := putStringOpt x0a (Denom m) st in
  Ok (dAtA, subInt (len dAtA) i).

Definition FungibleTokenPacketData_Size (m : FungibleTokenPacketData) : Z :=
  let sizeOf (n : Z) (s : list byte) : Z :=
    let l := len s in
    if l >? 0 then addInt n (addInt (addInt 1 l) (sovPacket (wrapU64 l)))
    else n in
  let n := sizeOf 0 (Denom m) in
  let n := sizeOf n (Amount m) in
  let n := sizeOf n (Sender m) in
  let n := sizeOf n (Receiver m) in
  let n := sizeOf n (Memo m) in
  n.

(** [make([]byte, size)] *)
Definition make (size : Z) : result (list byte) :=
  if size <? 0 then Panic else Ok (replicate (Z.to_nat size) x00).

Definition FungibleTokenPacketData_Marshal (m : FungibleTokenPacketData)
    : result (list byte) :=
  let size := FungibleTokenPacketData_Size m in
  let* dAtA := make size in
  let* sub := sliceTo dAtA size in
  let* (dAtA, n) := FungibleTokenPacketData_MarshalToSizedBuffer m sub in
  sliceTo dAtA n.

(** [Token.MarshalToSizedBuffer]; on a nil receiver the first field access
    ([m.Trace]) is a nil dereference. The loop over [Trace] runs from the
    last element to the first. *)
Definition Token_MarshalToSizedBuffer (m : option Token) (dAtA : list byte)
    : result (list byte * Z) :=
  match m with
  | None => Panic
  | Some m =>
      let i := len dAtA in
      let* st := forEach (putString x1a) (rev (Token_Trace m)) (dAtA, i) in
      let* st :=
        if negb (Token_Amount m =? 0) then
          let '(dAtA, i) := st in
          let* (dAtA, i) := encodeVarintPacket dAtA i (Token_Amount m) in
          let i := subInt i 1 in
          let* dAtA := setAt dAtA i x10 in
          Ok (dAtA, i)
        else Ok st in
      let* (dAtA, i) := putStringOpt x0a (Token_Denom m) st in
      Ok (dAtA, subInt (len dAtA) i)
  end.

(** [Token.Size]; a nil receiver has size 0. *)
Definition Token_Size (m : option Token) : Z :=
  match m with
  | None => 0
  | Some m =>
      let n := 0 in
      let l := len (Token_Denom m) in
      let n :=
        if l >? 0 then addInt n (addInt (addInt 1 l) (sovPacket (wrapU64 l)))
        else n in
      let n :=
        if negb (Token_Amount m =? 0)
        then addInt n (addInt 1 (sovPacket (Token_Amount m)))
        else n in
      fold_left
        (fun n s =>
           let l := len s in
           addInt n (addInt (addInt 1 l) (sovPacket (wrapU64 l))))
        (Token_Trace m) n
  end.

Definition Token_Marshal (m : option Token) : result (list byte) :=
  let size := Token_Size m in
  let* dAtA := make size in
  let* sub := sliceTo dAtA size in
  let* (dAtA, n) := Token_MarshalToSizedBuffer m sub in
  sliceTo dAtA n.

(** The body of the loop over [Tokens]: the token writes into the
    sub-slice [dAtA[:i]], which shares the array of [dAtA]. *)
Definition putToken (t : option Token) (st : list byte * Z)
    : result (list byte * Z) :=
  let '(dAtA, i) := st in
  let* sub := sliceTo dAtA i in
  let* (sub, size) := Token_MarshalToSizedBuffer t sub in
  let dAtA := sub ++ drop (Z.to_nat i) dAtA in
  let i := subInt i size in
  let* (dAtA, i) := encodeVarintPacket dAtA i (wrapU64 size) in
  let i := subInt i 1 in
  let* dAtA := setAt dAtA i x0a in
  Ok (dAtA, i).

Definition FungibleTokenPacketDataV2_MarshalToSizedBuffer
    (m : FungibleTokenPacketDataV2) (dAtA : list byte)
    : result (list byte * Z) :=
  let i := len dAtA in
  let* st := putStringOpt x22 (V2_Memo m) (dAtA, i) in
  let* st := putStringOpt x1a (V2_Receiver m) st in
  let* st := putStringOpt x12 (V2_Sender m) st in
  let* (dAtA, i) := forEach putToken (rev (V2_Tokens m)) st in
  Ok (dAtA, subInt (len dAtA) i).

Definition FungibleTokenPacketDataV2_Size (m : FungibleTokenPacketDataV2)
    : Z :=
  let sizeOf (n : Z) (s : list byte) : Z :=
    let l := len s in
    if l >? 0 then addInt n (addInt (addInt 1 l) (sovPacket (wrapU64 l)))
    else n in
  let n :=
    fold_left
      (fun n e =>
         let l := Token_Size e in
         addInt n (addInt (addInt 1 l) (sovPacket (wrapU64 l))))
      (V2_Tokens m) 0 in
  let n := sizeOf n (V2_Sender m) in
  let n := sizeOf n (V2_Receiver m) in
  let n := sizeOf n (V2_Memo m) in
  n.

Definition FungibleTokenPacketDataV2_Marshal (m : FungibleTokenPacketDataV2)
    : result (list byte) :=
  let size := FungibleTokenPacketDataV2_Size m in
  let* dAtA := make size in
  let* sub := sliceTo dAtA size in
  let* (dAtA, n) := FungibleTokenPacketDataV2_MarshalToSizedBuffer m sub in
  sliceTo dAtA n.

(** ** The wire format, as lists

    What the encoders are expected to leave in the buffer, written as
    plain list functions. The encoders above are proved to produce exactly
    these lists ([*_Marshal_wire] below). *)

(** The varint of [v]: groups of seven bits, least significant first, all
    but the last with the continuation bit set. *)
Fixpoint varintBytes (fuel : nat) (v : Z) : list byte :=
  match fuel with
  | O => []
  | S fuel' =>
      if 128 <=? v
      then uint8 (Z.lor (Z.land v 127) 128) :: varintBytes fuel' (Z.shiftr v 7)
      else [uint8 v]
  end.

Definition varint (v : Z) : list byte := varintBytes 10 v.

(** A length-delimited field: tag, length, contents. *)
Definition wireString (tag : byte) (s : list byte) : list byte :=
  tag :: varint (len s) ++ s.

Definition wireStringOpt (tag : byte) (s : list byte) : list byte :=
  if len s >? 0 then wireString tag s else [].

Definition FungibleTokenPacketData_wire (m : FungibleTokenPacketData)
    : list byte :=
  wireStringOpt x0a (Denom m) ++ wireStringOpt x12 (Amount m) ++
  wireStringOpt x1a (Sender m) ++ wireStringOpt x22 (Receiver m) ++
  wireStringOpt x2a (Memo m).

Definition wireAmount (v : Z) : list byte :=
  if v =? 0 then [] else x10 :: varint v.

Definition Token_wire (m : Token) : list byte :=
  wireStringOpt x0a (Token_Denom m) ++ wireAmount (Token_Amount m) ++
  concat (map (wireString x1a) (Token_Trace m)).

Definition wireToken (m : Token) : list byte :=
  wireString x0a (Token_wire m).

Definition FungibleTokenPacketDataV2_wire (tokens : list Token)
    (sender receiver memo : list byte) : list byte :=
  concat (map wireToken tokens) ++
  wireStringOpt x12 sender ++ wireStringOpt x1a receiver ++
  wireStringOpt x22 memo.

(** What [putToken] writes for an element of [Tokens]. *)
Definition wireTokenPtr (o : option Token) : list byte :=
  match o with
  | Some t => wireToken t
  | None => []
  end.

(** ** Predicates used in the proofs *)

(** The two accumulators agree with plain addition as long as nothing is
    shifted out; [bound] is [2^64] for [accU64] and [2^63] for [accInt]. *)
Definition additive (acc : Z -> Z -> Z -> Z) (bound : Z) : Prop :=
  forall a b s, 0 <= s -> 0 <= a < 2 ^ s ->
    a + (b mod 128) * 2 ^ s < bound ->
    acc a b s = a + (b mod 128) * 2 ^ s.

(** What the decoding loop needs from the body of a round: a round that
    succeeds moves forward and stays inside the buffer; it succeeds in the
    same way when the buffer is embedded in a longer one; and it never
    panics. *)
Record step_ok {M : Type} (step : list byte -> Z -> M -> result (Z * M))
    : Prop := {
  step_progress : forall d i m i' m',
    len d <= maxInt -> step d i m = Ok (i', m') -> 0 <= i /\ i < i' <= len d;
  step_frame : forall pre d suf i m i' m',
    len (pre ++ d ++ suf) <= maxInt -> step d i m = Ok (i', m') ->
    step (pre ++ d ++ suf) (len pre + i) m = Ok (len pre + i', m');
  step_returns : forall d i m,
    len d <= maxInt -> 0 <= i < len d -> returns (step d i m)
}.

(** A token is well formed when its [Amount] is a [uint64]. *)
Definition Token_wf (t : Token) : Prop := 0 <= Token_Amount t < 2 ^ 64.

(** A block of an encoder writes the bytes [c]: started on a buffer
    [front ++ done] at position [len front] with enough room, it leaves
    [c] just before [done] and its position at the start of [c], touching
    nothing of [done]. *)
Definition writes (f : list byte * Z -> result (list byte * Z))
    (c : list byte) : Prop :=
  forall front done : list byte,
    len c <= len front -> len (front ++ done) <= maxInt ->
    exists front' : list byte,
      len front' = len front - len c /\
      f (front ++ done, len front) = Ok (front' ++ c ++ done, len front').

(** ** Values that Go can hold

    [len] returns an [int]: the encoding of a message held in memory has a
    length below [2^63]. A [Token] holds a [uint64]. *)

Definition FungibleTokenPacketData_fits (m : FungibleTokenPacketData) : Prop :=
  len (FungibleTokenPacketData_wire m) <= maxInt.

Definition Token_fits (t : Token) : Prop :=
  Token_wf t /\ len (Token_wire t) <= maxInt.

(** A multi-token payload all of whose [Tokens] entries are non-nil
    pointers to well-formed tokens. *)
Definition FungibleTokenPacketDataV2_of (ts : list Token)
    (sender receiver memo : list byte) : FungibleTokenPacketDataV2 :=
  mkFungibleTokenPacketDataV2 (map Some ts) sender receiver memo.

Definition FungibleTokenPacketDataV2_fits (ts : list Token)
    (sender receiver memo : list byte) : Prop :=
  Forall Token_wf ts /\
  len (FungibleTokenPacketDataV2_wire ts sender receiver memo) <= maxInt.

(** ** Sample values *)

(** ["uatom"], ["100"], ["alice"], ["bob"], no memo. *)
Definition sample_packet : FungibleTokenPacketData :=
  mkFungibleTokenPacketData
    [x75; x61; x74; x6f; x6d] [x31; x30; x30] [x61; x6c; x69; x63; x65]
    [x62; x6f; x62] [].

(** 300 ["uatom"] that crossed ["transfer"] and an empty hop. *)
Definition sample_token : Token :=
  mkToken [x75; x61; x74; x6f; x6d] 300
    [[x74; x72; x61; x6e; x73; x66; x65; x72]; []].


(** ** Fields of any number

    A field as the protobuf wire format defines it, outside groups: the
    tag varint [fieldNum << 3 | wireType], then the value. *)

Inductive wireValue : Type :=
| WVarint (v : Z)
| WFixed64 (bs : list byte)
| WBytes (bs : list byte)
| WFixed32 (bs : list byte).

Definition wireTypeOf (wv : wireValue) : Z :=
  match wv with
  | WVarint _ => 0
  | WFixed64 _ => 1
  | WBytes _ => 2
  | WFixed32 _ => 5
  end.

Definition wireBody (wv : wireValue) : list byte :=
  match wv with
  | WVarint v => varint v
  | WFixed64 bs => bs
  | WBytes bs => varint (len bs) ++ bs
  | WFixed32 bs => bs
  end.

Definition wireValue_wf (wv : wireValue) : Prop :=
  match wv with
  | WVarint v => 0 <= v < 2 ^ 64
  | WFixed64 bs => len bs = 8
  | WBytes bs => True
  | WFixed32 bs => len bs = 4
  end.

Definition wireTag (fieldNum : Z) (wv : wireValue) : list byte :=
  varint (fieldNum * 8 + wireTypeOf wv).

Definition wireField (fieldNum : Z) (wv : wireValue) : list byte :=
  wireTag fieldNum wv ++ wireBody wv.

(** Field numbers go from 1 to [2^29 - 1]. *)
Definition fieldNum_wf (fieldNum : Z) : Prop := 1 <= fieldNum < 2 ^ 29.

(** ** The forwarding state tracker *)

Module ForwardingTracker.

(** Modelled from the spec: the Forwarding State Tracker (section 4.3 and
    the Forwarding State Entry of section 3) is not among the sources; the
    definitions below follow the text of the specification. *)

(** The key: (channel identifier, port identifier, sequence number) of the
    packet this chain just sent onward. *)
Definition PacketKey : Type := (string * string * N)%type.

(** A hop is a (port, channel) pair. *)
Definition Hop : Type := (string * string)%type.

Record ForwardingInstruction : Type := mkForwardingInstruction {
  hops : list Hop;
  retryOnFailure : bool
}.

(** One escrow or mint operation to reverse on failure. *)
Inductive LedgerOp : Type :=
| Unescrowed (denom : string) (amount : N)
| Minted (denom : string) (amount : N).

Record Entry : Type := mkEntry {
  originalPacket : PacketKey;
  toReverse : list LedgerOp;
  originalSender : string;
  remaining : option ForwardingInstruction
}.

(** The escrow ledger: per channel and denomination, the balance held. *)
Record State : Type := mkState {
  tracker : gmap PacketKey Entry;
  ledger : gmap (string * string) N
}.

Inductive beginResult : Type :=
| Begun (st : State)
| DuplicateForward.

Inductive resolveResult : Type :=
| Found (e : Entry)
| NotFound.

(** [begin(outgoingPacketKey, entry)]: fails with [DuplicateForward] if the
    key already has an open entry. *)
Definition begin (k : PacketKey) (e : Entry) (st : State) : beginResult :=
  match tracker st !! k with
  | Some _ => DuplicateForward
  | None => Begun (mkState (<[k := e]> (tracker st)) (ledger st))
  end.

(** [resolve(outgoingPacketKey)]: lookup and remove in one step. *)
Definition resolve (k : PacketKey) (st : State) : resolveResult * State :=
  match tracker st !! k with
  | Some e => (Found e, mkState (delete k (tracker st)) (ledger st))
  | None => (NotFound, st)
  end.

End ForwardingTracker.

(** ** Validation of the legacy payload *)

Inductive validationError : Type :=
| ErrInvalidAmount
| ErrInvalidAddress
| ErrInvalidDenomForTransfer.

(** [ValidateBasic] calls three functions that are not in the sources:
    [sdkmath.NewIntFromString] (cosmossdk.io/math), which returns the
    parsed integer when its [ok] flag is set; [strings.TrimSpace] (Go's
    standard library); and [ValidatePrefixedDenom] (another file of this
    package), which returns nil ([None]) or an error. They are the
    parameters of the definition. *)
Section ValidateBasic.
Variable NewIntFromString : list byte -> option Z.
Variable TrimSpace : list byte -> list byte.
Variable ValidatePrefixedDenom : list byte -> option validationError.

(** [s == ""] *)
Definition isEmptyString (s : list byte) : bool :=
  match s with
  | [] => true
  | _ :: _ => false
  end.

(** [ftpd.ValidateBasic()]: [None] is the nil error. *)
Definition ValidateBasic (ftpd : FungibleTokenPacketData)
    : option validationError :=
  match NewIntFromString (Amount ftpd) with
  | None => Some ErrInvalidAmount
  | Some amount =>
      if negb (0 <? amount) then Some ErrInvalidAmount
      else if isEmptyString (TrimSpace (Sender ftpd))
      then Some ErrInvalidAddress
      else if isEmptyString (TrimSpace (Receiver ftpd))
      then Some ErrInvalidAddress
      else ValidatePrefixedDenom (Denom ftpd)
  end.

(** The condition under which the specification says [ValidateBasic]
    returns nil: the amount parses to a strictly positive integer, sender
    and receiver are non-empty strings, the denomination is accepted. *)
Definition valid_as_specified (ftpd : FungibleTokenPacketData) : Prop :=
  (exists amount, NewIntFromString (Amount ftpd) = Some amount /\ 0 < amount)
  /\ Sender ftpd <> [] /\ Receiver ftpd <> []
  /\ ValidatePrefixedDenom (Denom ftpd) = None.

(** The same condition with non-blank sender and receiver: something is
    left of them once leading and trailing white space is trimmed. *)
Definition valid_non_blank (ftpd : FungibleTokenPacketData) : Prop :=
  (exists amount, NewIntFromString (Amount ftpd) = Some amount /\ 0 < amount)
  /\ TrimSpace (Sender ftpd) <> [] /\ TrimSpace (Receiver ftpd) <> []
  /\ ValidatePrefixedDenom (Denom ftpd) = None.
End ValidateBasic.

(** Stand-ins for the three functions, exact on the inputs they are used
    on below. [TrimSpace_ascii] is [strings.TrimSpace] on strings of ASCII
    bytes (the white space of Go's [asciiSpace] table: tab, line feed,
    vertical tab, form feed, carriage return, space). *)
Definition isAsciiSpace (b : byte) : bool :=
  let c := byte_to_Z b in
  (c =? 9) || (c =? 10) || (c =? 11) || (c =? 12) || (c =? 13) || (c =? 32).

Fixpoint trimLeft (s : list byte) : list byte :=
  match s with
  | b :: s' => if isAsciiSpace b then trimLeft s' else s
  | [] => []
  end.

Definition TrimSpace_ascii (s : list byte) : list byte :=
  rev (trimLeft (rev (trimLeft s))).

(** [NewIntFromString] on a string of decimal digits. *)
Definition digitValue (b : byte) : option Z :=
  let c := byte_to_Z b in
  if (48 <=? c) && (c <=? 57) then Some (c - 48) else None.

Fixpoint parseDigits (acc : Z) (s : list byte) : option Z :=
  match s with
  | [] => Some acc
  | b :: s' =>
      match digitValue b with
      | Some d => parseDigits (10 * acc + d) s'
      | None => None
      end
  end.

Definition NewIntFromString_decimal (s : list byte) : option Z :=
  match s with
  | [] => None
  | _ => parseDigits 0 s
  end.

(** Modelled from the spec: the denomination grammar of section 3
    (alphanumerics, [/], [.], [-], length-bounded; a bound of 128 bytes
    is assumed here). *)
Definition isDenomByte (b : byte) : bool :=
  let c := byte_to_Z b in
  ((48 <=? c) && (c <=? 57)) || ((65 <=? c) && (c <=? 90)) ||
  ((97 <=? c) && (c <=? 122)) || (c =? 47) || (c =? 46) || (c =? 45).

Definition ValidatePrefixedDenom_grammar (s : list byte)
    : option validationError :=
  if negb (isEmptyString s) && forallb isDenomByte s && (len s <=? 128)
  then None else Some ErrInvalidDenomForTransfer.

(** ["uatom"], amount ["1"], a sender that is one space, receiver ["b"]. *)
Definition blank_sender_packet : FungibleTokenPacketData :=
  mkFungibleTokenPacketData [x75; x61; x74; x6f; x6d] [x31] [x20] [x62] [].

(** ** Memo probing (ADR-8 callback data) *)

(** What [encoding/json] decodes into an [interface{}]: nil, bool, number,
    string, array, or a [map[string]interface{}] (here the list of its
    entries, looked up by key). *)
#[warnings="-register-all"]
Inductive jsonValue : Type :=
| JNull
| JBool (b : bool)
| JNumber (literal : string)
| JString (s : list byte)
| JArray (elements : list jsonValue)
| JObject (entries : list (string * jsonValue)).

(** [m[key]], with the [ok] flag as the option. *)
Fixpoint mapIndex (key : string) (m : list (string * jsonValue))
    : option jsonValue :=
  match m with
  | [] => None
  | (k, v) :: m' => if String.eqb k key then Some v else mapIndex key m'
  end.

(** [json.Unmarshal] into a [map[string]interface{}] and
    [base64.StdEncoding.DecodeString] belong to Go's standard library; they
    are the parameters of the getters. [json_Unmarshal_map] returns [None]
    for a non-nil error and otherwise the map it leaves in [jsonObject]. *)
Section CallbackData.
Variable json_Unmarshal_map : list byte -> option (list (string * jsonValue)).
Variable base64_DecodeString : list byte -> option (list byte).

(** [ftpd.getCallbackData()]: [None] is the nil map. *)
Definition getCallbackData (ftpd : FungibleTokenPacketData)
    : option (list (string * jsonValue)) :=
  if len (Memo ftpd) =? 0 then None
  else
    match json_Unmarshal_map (Memo ftpd) with
    | None => None
    | Some jsonObject =>
        match mapIndex "callback" jsonObject with
        | Some (JObject callbackData) => Some callbackData
        | _ => None
        end
    end.

Definition GetSourceCallbackAddress (ftpd : FungibleTokenPacketData)
    : list byte :=
  match getCallbackData ftpd with
  | None => []
  | Some callbackData =>
      match mapIndex "src_callback_address" callbackData with
      | Some (JString srcCallbackAddress) => srcCallbackAddress
      | _ => []
      end
  end.

Definition GetDestCallbackAddress (ftpd : FungibleTokenPacketData)
    : list byte :=
  match getCallbackData ftpd with
  | None => []
  | Some callbackData =>
      match mapIndex "dest_callback_address" callbackData with
      | Some (JString srcCallbackAddress) => srcCallbackAddress
      | _ => []
      end
  end.

(** [ftpd.GetUserDefinedCustomMessage()]: [None] is the nil slice. *)
Definition GetUserDefinedCustomMessage (ftpd : FungibleTokenPacketData)
    : option (list byte) :=
  match getCallbackData ftpd with
  | None => None
  | Some callbackData =>
      match mapIndex "callback_msg" callbackData with
      | Some (JString callbackMsg) => base64_DecodeString callbackMsg
      | _ => None
      end
  end.

(** The memo holds no callback object: it is empty, or not JSON that
    decodes into a map, or a map whose ["callback"] is not an object. *)
Definition no_callback_object (ftpd : FungibleTokenPacketData) : Prop :=
  Memo ftpd = [] \/
  json_Unmarshal_map (Memo ftpd) = None \/
  exists jsonObject,
    json_Unmarshal_map (Memo ftpd) = Some jsonObject /\
    forall callbackData,
      mapIndex "callback" jsonObject <> Some (JObject callbackData).

(** The memo holds the callback object [callbackData]. *)
Definition callback_object (ftpd : FungibleTokenPacketData)
    (callbackData : list (string * jsonValue)) : Prop :=
  Memo ftpd <> [] /\
  exists jsonObject,
    json_Unmarshal_map (Memo ftpd) = Some jsonObject /\
    mapIndex "callback" jsonObject = Some (JObject callbackData).
End CallbackData.

(** A memo with a callback object: the bytes of
    [{"callback":{"src_callback_address":"a"}}]. *)
Definition callback_memo : list byte :=
  [x7b; x22; x63; x61; x6c; x6c; x62; x61; x63; x6b; x22; x3a; x7b;
   x22; x73; x72; x63; x5f; x63; x61; x6c; x6c; x62; x61; x63; x6b;
   x5f; x61; x64; x64; x72; x65; x73; x73; x22; x3a; x22; x61; x22;
   x7d; x7d].

Fixpoint bytes_eqb (s t : list byte) : bool :=
  match s, t with
  | [], [] => true
  | a :: s', b :: t' => Byte.eqb a b && bytes_eqb s' t'
  | _, _ => false
  end.

(** What [json.Unmarshal] makes of that memo; every other input is
    reported as an error. *)
Definition json_Unmarshal_sample (memo : list byte)
    : option (list (string * jsonValue)) :=
  if bytes_eqb memo callback_memo
  then Some [("callback"%string,
              JObject [("src_callback_address"%string, JString [x61])])]
  else None.

Definition callback_packet : FungibleTokenPacketData :=
  mkFungibleTokenPacketData [x75; x61; x74; x6f; x6d] [x31] [x61] [x62]
    callback_memo.

(** ** Canonical bytes *)

(** Modelled from the spec: [GetBytes] is
    [sdk.MustSortJSON(mustProtoMarshalJSON(&ftpd))] and neither function
    is among the sources. Section 4.2 describes the result as a
    deterministic JSON encoding with sorted keys. In the model, the proto
    JSON form of the message is an object with one member per non-empty
    field, named as the JSON tags of the struct say; [MustSortJSON] reads
    the object into a Go map, whose iteration order is not specified, and
    writes the members with the keys in increasing order. How a string
    value is written (escapes) is the parameter [encodeString]. *)

Definition jsonFields (ftpd : FungibleTokenPacketData)
    : list (string * list byte) :=
  List.filter (fun kv => negb (isEmptyString kv.2))
    [("denom"%string, Denom ftpd); ("amount"%string, Amount ftpd);
     ("sender"%string, Sender ftpd); ("receiver"%string, Receiver ftpd);
     ("memo"%string, Memo ftpd)].

(** Keys are compared as Go compares strings, byte by byte. *)
Definition keyLe (x y : string * list byte) : Prop :=
  String.leb x.1 y.1 = true.

#[global] Instance keyLe_dec (x y : string * list byte)
  : Decision (keyLe x y).
Proof. unfold keyLe. apply _. Defined.

Definition sortByKey (entries : list (string * list byte))
    : list (string * list byte) :=
  merge_sort keyLe entries.

(** Modelled from the spec: the members that section 4.2 expects in the
    canonical object, in the order in which it expects them: the fields the
    payload carries, under their JSON names, by increasing key. *)
Definition canonicalFields (ftpd : FungibleTokenPacketData)
    : list (string * list byte) :=
  List.filter (fun kv => negb (isEmptyString kv.2))
    [("amount"%string, Amount ftpd); ("denom"%string, Denom ftpd);
     ("memo"%string, Memo ftpd); ("receiver"%string, Receiver ftpd);
     ("sender"%string, Sender ftpd)].

(** One key comes strictly before another. *)
Definition keyLt (x y : string * list byte) : Prop :=
  String.ltb x.1 y.1 = true.

Fixpoint joinComma (l : list (list byte)) : list byte :=
  match l with
  | [] => []
  | [x] => x
  | x :: l' => x ++ [x2c] ++ joinComma l'
  end.

Section Canonical.
Variable encodeString : list byte -> list byte.

Definition encodeMember (kv : string * list byte) : list byte :=
  [x22] ++ String.list_byte_of_string kv.1 ++ [x22; x3a]
  ++ encodeString kv.2.

Definition encodeObject (entries : list (string * list byte)) : list byte :=
  [x7b] ++ joinComma (map encodeMember entries) ++ [x7d].

(** [MustSortJSON] of the object whose members the map yields in the
    order [entries]. *)
Definition MustSortJSON (entries : list (string * list byte)) : list byte :=
  encodeObject (sortByKey entries).

Definition GetBytes (ftpd : FungibleTokenPacketData) : list byte :=
  MustSortJSON (jsonFields ftpd).
End Canonical.

(** A string writer for the samples: the bytes between double quotes. *)
Definition encodeString_plain (s : list byte) : list byte :=
  [x22] ++ s ++ [x22].

(** ** The other entry points of the generated code *)

(** [m.MarshalTo(dAtA)] is [m.MarshalToSizedBuffer(dAtA[:m.Size()])]. The
    argument is used only in the slice expression [dAtA[:size]], which Go
    checks against the capacity of the slice: [dAtA] stands here for the
    array of the slice up to its capacity. The sub-slice shares that array;
    the result is the array as the call leaves it, with the count that
    [MarshalToSizedBuffer] returns. *)
Definition FungibleTokenPacketData_MarshalTo (m : FungibleTokenPacketData)
    (dAtA : list byte) : result (list byte * Z) :=
  let size := FungibleTokenPacketData_Size m in
  let* sub := sliceTo dAtA size in
  let* (sub, n) := FungibleTokenPacketData_MarshalToSizedBuffer m sub in
  Ok (sub ++ drop (Z.to_nat size) dAtA, n).

Definition FungibleTokenPacketDataV2_MarshalTo
    (m : FungibleTokenPacketDataV2) (dAtA : list byte)
    : result (list byte * Z) :=
  let size := FungibleTokenPacketDataV2_Size m in
  let* sub := sliceTo dAtA size in
  let* (sub, n) := FungibleTokenPacketDataV2_MarshalToSizedBuffer m sub in
  Ok (sub ++ drop (Z.to_nat size) dAtA, n).

Definition Token_MarshalTo (m : option Token) (dAtA : list byte)
    : result (list byte * Z) :=
  let size := Token_Size m in
  let* sub := sliceTo dAtA size in
  let* (sub, n) := Token_MarshalToSizedBuffer m sub in
  Ok (sub ++ drop (Z.to_nat size) dAtA, n).

(** [m.XXX_Marshal(b, deterministic)]. With [deterministic] set the call
    goes to [xxx_messageInfo_*.Marshal] of the protobuf library, the
    parameter [messageInfo_Marshal]. Otherwise [b] is extended to its
    capacity ([b] stands for that array), [MarshalToSizedBuffer] fills it
    from the end, and the first [n] bytes are returned. *)
Section XXX_Marshal.
Context {M : Type}.
Variable messageInfo_Marshal : list byte -> M -> bool -> result (list byte).
Variable MarshalToSizedBuffer : M -> list byte -> result (list byte * Z).

Definition XXX_Marshal (m : M) (b : list byte) (deterministic : bool)
    : result (list byte) :=
  if deterministic then messageInfo_Marshal b m deterministic
  else
    let* (b, n) := MarshalToSizedBuffer m b in
    sliceTo b n.
End XXX_Marshal.

Definition FungibleTokenPacketData_XXX_Marshal messageInfo_Marshal :=
  XXX_Marshal messageInfo_Marshal FungibleTokenPacketData_MarshalToSizedBuffer.
Definition FungibleTokenPacketDataV2_XXX_Marshal messageInfo_Marshal :=
  XXX_Marshal messageInfo_Marshal
    FungibleTokenPacketDataV2_MarshalToSizedBuffer.
Definition Token_XXX_Marshal messageInfo_Marshal :=
  XXX_Marshal messageInfo_Marshal Token_MarshalToSizedBuffer.

(** [m.XXX_Unmarshal(b)] and [m.XXX_Size()] *)
Definition FungibleTokenPacketData_XXX_Unmarshal :=
  FungibleTokenPacketData_Unmarshal.
Definition FungibleTokenPacketDataV2_XXX_Unmarshal :=
  FungibleTokenPacketDataV2_Unmarshal.
Definition Token_XXX_Unmarshal := Token_Unmarshal.
Definition FungibleTokenPacketData_XXX_Size := FungibleTokenPacketData_Size.
Definition FungibleTokenPacketDataV2_XXX_Size :=
  FungibleTokenPacketDataV2_Size.
Definition Token_XXX_Size := Token_Size.

(** [sozPacket(x)]: [sovPacket] of the zigzag form
    [uint64((x << 1) ^ uint64((int64(x) >> 63)))]. The shift of the
    [int64] is arithmetic: all ones for a negative number, zero otherwise. *)
Definition sozPacket (x : Z) : Z :=
  sovPacket
    (wrapU64 (Z.lxor (wrapU64 (Z.shiftl x 1))
                     (wrapU64 (Z.shiftr (wrapInt x) 63)))).

(** The zigzag form of a signed number, as the protobuf encoding defines
    it. *)
Definition zigzag (z : Z) : Z := if z <? 0 then - 2 * z - 1 else 2 * z.

(** ** More of the wire format *)

(** The tag of field [fieldNum] with wire type [wireType]. *)
Definition wireKey (fieldNum wireType : Z) : list byte :=
  varint (fieldNum * 8 + wireType).

(** The bytes of a varint as the decoder sees it: a last byte below [0x80]
    after bytes that all have the continuation bit. *)
Fixpoint varintEnds (c : list byte) : bool :=
  match c with
  | [] => false
  | [b] => byte_to_Z b <? 128
  | b :: c' => (128 <=? byte_to_Z b) && varintEnds c'
  end.

(** The number those bytes write: seven bits a byte, the least significant
    group first. *)
Fixpoint varintValue (c : list byte) : Z :=
  match c with
  | [] => 0
  | b :: c' => byte_to_Z b mod 128 + 128 * varintValue c'
  end.

(** Bytes that all have the continuation bit: a varint that has not ended
    yet. *)
Definition unterminated (c : list byte) : Prop :=
  Forall (fun b => 128 <= byte_to_Z b) c.

(** An accumulator of the varint loop adds the seven bits at [shift] and
    then wraps with [W]; [W] keeps what fits in 63 bits. *)
Record acc_wraps (acc : Z -> Z -> Z -> Z) (W : Z -> Z) : Prop := {
  acc_wrap : forall a b s, 0 <= s < 64 -> 0 <= a < 2 ^ s ->
    acc a b s = W (a + (b mod 128) * 2 ^ s);
  wrap_small : forall x, 0 <= x < 2 ^ 63 -> W x = x
}.

(** Merging, as decoding a second message into a decoded one does it: a
    string or a number of the second message replaces the one of the first
    unless it is empty or zero, and the elements of a list are appended. *)
Definition orElse (s old : list byte) : list byte :=
  if len s >? 0 then s else old.

Definition FungibleTokenPacketData_merge (m p : FungibleTokenPacketData)
    : FungibleTokenPacketData :=
  mkFungibleTokenPacketData (orElse (Denom p) (Denom m))
    (orElse (Amount p) (Amount m)) (orElse (Sender p) (Sender m))
    (orElse (Receiver p) (Receiver m)) (orElse (Memo p) (Memo m)).

Definition Token_merge (m t : Token) : Token :=
  mkToken (orElse (Token_Denom t) (Token_Denom m))
    (if Token_Amount t =? 0 then Token_Amount m else Token_Amount t)
    (Token_Trace m ++ Token_Trace t).

Definition FungibleTokenPacketDataV2_merge (m : FungibleTokenPacketDataV2)
    (ts : list Token) (sender receiver memo : list byte)
    : FungibleTokenPacketDataV2 :=
  mkFungibleTokenPacketDataV2 (V2_Tokens m ++ map Some ts)
    (orElse sender (V2_Sender m)) (orElse receiver (V2_Receiver m))
    (orElse memo (V2_Memo m)).

(** [U] rejects the tail [t] after [a] with the error [e]: whenever [a]
    decodes (into any receiver), decoding [a ++ t] into the same receiver
    returns [e]. With [a] empty, [t] is the whole input. *)
Definition rejects {M} (U : M -> list byte -> result M)
    (a t : list byte) (e : error) : Prop :=
  forall m0 m1 : M, U m0 a = Ok m1 -> U m0 (a ++ t) = Err e.

(** The error for a declared length [n] (a [uint64] read after the tag)
    that does not fit in what is left of the input, [pos] being the index
    after the length varint: a length that is negative as an [int]
    ([2^63 <= n]) or whose end index [pos + n] overflows the [int] is
    [ErrInvalidLengthPacket]; otherwise the field runs past the end of the
    input, [io.ErrUnexpectedEOF]. *)
Definition lengthError (pos n : Z) : error :=
  if (n <? 2 ^ 63) && (pos + n <=? maxInt)
  then ErrUnexpectedEOF else ErrInvalidLengthPacket.

(** The fields of the three messages as the [switch] of each decoder has
    them: number, wire type, and the name the wrong-wire-type error
    carries. *)
Definition FungibleTokenPacketData_fields : list (Z * (Z * string)) :=
  [(1, (2, "Denom"%string)); (2, (2, "Amount"%string));
   (3, (2, "Sender"%string)); (4, (2, "Receiver"%string));
   (5, (2, "Memo"%string))].

Definition FungibleTokenPacketDataV2_fields : list (Z * (Z * string)) :=
  [(1, (2, "Tokens"%string)); (2, (2, "Sender"%string));
   (3, (2, "Receiver"%string)); (4, (2, "Memo"%string))].

Definition Token_fields : list (Z * (Z * string)) :=
  [(1, (2, "Denom"%string)); (2, (0, "Amount"%string));
   (3, (2, "Trace"%string))].

(** ** Inputs made of well-formed fields

    A well-formed field as it can stand in the input of a decoder: one of
    the fields of the message with a value of the field's type, or a field
    whose number the message does not know. [*_field_bytes] is the field on
    the wire, [*_field_apply] what the [case] of the decoder does with
    it. *)

Inductive FungibleTokenPacketData_field : Type :=
| FDenom (s : list byte)
| FAmount (s : list byte)
| FSender (s : list byte)
| FReceiver (s : list byte)
| FMemo (s : list byte)
| FUnknown (fieldNum : Z) (wv : wireValue).

Definition FungibleTokenPacketData_field_bytes
    (f : FungibleTokenPacketData_field) : list byte :=
  match f with
  | FDenom s => wireString x0a s
  | FAmount s => wireString x12 s
  | FSender s => wireString x1a s
  | FReceiver s => wireString x22 s
  | FMemo s => wireString x2a s
  | FUnknown fieldNum wv => wireField fieldNum wv
  end.

Definition FungibleTokenPacketData_field_wf
    (f : FungibleTokenPacketData_field) : Prop :=
  match f with
  | FUnknown fieldNum wv =>
      fieldNum_wf fieldNum /\ wireValue_wf wv /\ 5 < fieldNum
  | _ => True
  end.

Definition FungibleTokenPacketData_field_apply
    (m : FungibleTokenPacketData) (f : FungibleTokenPacketData_field)
    : FungibleTokenPacketData :=
  match f with
  | FDenom s => set_Denom s m
  | FAmount s => set_Amount s m
  | FSender s => set_Sender s m
  | FReceiver s => set_Receiver s m
  | FMemo s => set_Memo s m
  | FUnknown _ _ => m
  end.

Inductive Token_field : Type :=
| TDenom (s : list byte)
| TAmount (v : Z)
| TTrace (s : list byte)
| TUnknown (fieldNum : Z) (wv : wireValue).

Definition Token_field_bytes (f : Token_field) : list byte :=
  match f with
  | TDenom s => wireString x0a s
  | TAmount v => x10 :: varint v
  | TTrace s => wireString x1a s
  | TUnknown fieldNum wv => wireField fieldNum wv
  end.

Definition Token_field_wf (f : Token_field) : Prop :=
  match f with
  | TAmount v => 0 <= v < 2 ^ 64
  | TUnknown fieldNum wv =>
      fieldNum_wf fieldNum /\ wireValue_wf wv /\ 3 < fieldNum
  | _ => True
  end.

Definition Token_field_apply (m : Token) (f : Token_field) : Token :=
  match f with
  | TDenom s => set_Token_Denom s m
  | TAmount v => set_Token_Amount v m
  | TTrace s => append_Token_Trace s m
  | TUnknown _ _ => m
  end.

(** An entry of [Tokens] is an embedded message: the fields of a token. *)
Inductive FungibleTokenPacketDataV2_field : Type :=
| VToken (fields : list Token_field)
| VSender (s : list byte)
| VReceiver (s : list byte)
| VMemo (s : list byte)
| VUnknown (fieldNum : Z) (wv : wireValue).

Definition FungibleTokenPacketDataV2_field_bytes
    (f : FungibleTokenPacketDataV2_field) : list byte :=
  match f with
  | VToken fields => wireString x0a (concat (map Token_field_bytes fields))
  | VSender s => wireString x12 s
  | VReceiver s => wireString x1a s
  | VMemo s => wireString x22 s
  | VUnknown fieldNum wv => wireField fieldNum wv
  end.

Definition FungibleTokenPacketDataV2_field_wf
    (f : FungibleTokenPacketDataV2_field) : Prop :=
  match f with
  | VToken fields => Forall Token_field_wf fields
  | VUnknown fieldNum wv =>
      fieldNum_wf fieldNum /\ wireValue_wf wv /\ 4 < fieldNum
  | _ => True
  end.

Definition FungibleTokenPacketDataV2_field_apply
    (m : FungibleTokenPacketDataV2) (f : FungibleTokenPacketDataV2_field)
    : FungibleTokenPacketDataV2 :=
  match f with
  | VToken fields =>
      append_V2_Tokens (fold_left Token_field_apply fields Token_zero) m
  | VSender s => set_V2_Sender s m
  | VReceiver s => set_V2_Receiver s m
  | VMemo s => set_V2_Memo s m
  | VUnknown _ _ => m
  end.

(** A block of an encoder panics when the room before the write position
    is shorter than the bytes [c] it writes (the counterpart of
    [writes]). *)
Definition overflows (f : list byte * Z -> result (list byte * Z))
    (c : list byte) : Prop :=
  forall front done : list byte,
    len front < len c -> len c <= maxInt ->
    len (front ++ done) <= maxInt ->
    f (front ++ done, len front) = Panic.

(** ** Groups

    [skipPacket] knows the two group wire types: 3 opens a group and 4
    closes the innermost open one. An item of the wire format is a field,
    or a group: a start tag, items, and an end tag (whose field number the
    code does not compare with the one of the start tag). *)
#[warnings="-register-all"]
Inductive wireItem : Type :=
| IField (fieldNum : Z) (wv : wireValue)
| IGroup (fieldNum endNum : Z) (items : list wireItem).

Fixpoint wireItem_bytes (it : wireItem) : list byte :=
  match it with
  | IField fieldNum wv => wireField fieldNum wv
  | IGroup fieldNum endNum items =>
      wireKey fieldNum 3 ++ concat (map wireItem_bytes items)
      ++ wireKey endNum 4
  end.

Fixpoint wireItem_wf (it : wireItem) : Prop :=
  match it with
  | IField fieldNum wv => fieldNum_wf fieldNum /\ wireValue_wf wv
  | IGroup fieldNum endNum items =>
      fieldNum_wf fieldNum /\ fieldNum_wf endNum /\
      (fix all (l : list wireItem) : Prop :=
         match l with
         | [] => True
         | it' :: l' => wireItem_wf it' /\ all l'
         end) items
  end.

(** The field number at the head of an item. *)
Definition wireItem_num (it : wireItem) : Z :=
  match it with
  | IField fieldNum _ => fieldNum
  | IGroup fieldNum _ _ => fieldNum
  end.

(** ** What a decoded message holds *)

(** Every entry of [Tokens] is a non-nil pointer to a token whose
    [Amount] is a [uint64]. *)
Definition FungibleTokenPacketDataV2_wf (m : FungibleTokenPacketDataV2)
    : Prop :=
  Forall (fun o => exists t, o = Some t /\ Token_wf t) (V2_Tokens m).

(** Two buffers of the same length with the same first [j] bytes. *)
Definition agree (j : Z) (a b : list byte) : Prop :=
  len a = len b /\ take (Z.to_nat j) a = take (Z.to_nat j) b.

(** A block of an encoder keeps what is before the position it returns:
    the position only moves down, and the buffer keeps its length and its
    bytes below the new position. *)
Definition keeps_front (f : list byte * Z -> result (list byte * Z))
    : Prop :=
  forall (dAtA dAtA' : list byte) (i i' : Z),
    0 <= i <= len dAtA -> len dAtA <= maxInt ->
    f (dAtA, i) = Ok (dAtA', i') ->
    0 <= i' <= i /\ agree i' dAtA' dAtA.

(** * Properties *)

(** ** Bytes and machine integers *)

Lemma byte_to_Z_range (b : byte) : 0 <= byte_to_Z b < 256.
Proof.
  unfold byte_to_Z. pose proof (Byte.to_N_bounded b). lia.
Qed.

Lemma byte_to_Z_uint8 (z : Z) : byte_to_Z (uint8 z) = z mod 256.
Proof.
  unfold uint8, byte_to_Z.
  assert (Hr : 0 <= z mod 256 < 256) by (apply Z.mod_pos_bound; lia).
  destruct (Byte.of_N (Z.to_N (z mod 256))) as [b|] eqn:E.
  - apply Byte.to_of_N in E. rewrite E. lia.
  - apply Byte.of_N_None_iff in E. lia.
Qed.

Lemma uint8_byte_to_Z (b : byte) : uint8 (byte_to_Z b) = b.
Proof.
  unfold uint8. pose proof (byte_to_Z_range b) as Hr.
  rewrite Z.mod_small by lia. unfold byte_to_Z.
  rewrite N2Z.id, Byte.of_to_N. reflexivity.
Qed.

Lemma wrapInt_small (z : Z) : - 2 ^ 63 <= z < 2 ^ 63 -> wrapInt z = z.
Proof. intros H. unfold wrapInt. rewrite Z.mod_small; lia. Qed.

Lemma wrapInt_range (z : Z) : - 2 ^ 63 <= wrapInt z < 2 ^ 63.
Proof.
  unfold wrapInt.
  pose proof (Z.mod_pos_bound (z + 2 ^ 63) (2 ^ 64)). lia.
Qed.

Lemma wrapU64_small (z : Z) : 0 <= z < 2 ^ 64 -> wrapU64 z = z.
Proof. intros H. unfold wrapU64. rewrite Z.mod_small; lia. Qed.

Lemma wrapU64_range (z : Z) : 0 <= wrapU64 z < 2 ^ 64.
Proof. unfold wrapU64. apply Z.mod_pos_bound. lia. Qed.

Lemma addInt_small (a b : Z) :
  - 2 ^ 63 <= a + b < 2 ^ 63 -> addInt a b = a + b.
Proof. apply wrapInt_small. Qed.

Lemma subInt_small (a b : Z) :
  - 2 ^ 63 <= a - b < 2 ^ 63 -> subInt a b = a - b.
Proof. apply wrapInt_small. Qed.

Lemma len_nonneg {A} (l : list A) : 0 <= len l.
Proof. unfold len. lia. Qed.

Lemma len_app {A} (l k : list A) : len (l ++ k) = len l + len k.
Proof. unfold len. rewrite length_app. lia. Qed.

Lemma len_cons {A} (x : A) (l : list A) : len (x :: l) = 1 + len l.
Proof. unfold len. simpl. lia. Qed.

Lemma len_nil {A} : len (@nil A) = 0.
Proof. reflexivity. Qed.

(** ** Results *)

Lemma bind_Ok {A B} (r : result A) (k : A -> result B) (b : B) :
  bind r k = Ok b -> exists a, r = Ok a /\ k a = Ok b.
Proof. destruct r; simpl; intros H; try discriminate. eauto. Qed.

Lemma bind_returns {A B} (r : result A) (k : A -> result B) :
  returns r -> (forall a, r = Ok a -> returns (k a)) -> returns (bind r k).
Proof. destruct r; simpl; auto. Qed.

(** ** Indexing and slicing *)

Lemma index_Ok (dAtA : list byte) (i : Z) :
  0 <= i < len dAtA -> exists b, index dAtA i = Ok b.
Proof.
  intros H. unfold index.
  destruct (Z.ltb_spec i 0); [lia|].
  destruct (Z.leb_spec (len dAtA) i); [lia|]. simpl.
  destruct (dAtA !! Z.to_nat i) as [b|] eqn:E; [eauto|].
  apply lookup_ge_None in E. unfold len in *. lia.
Qed.

Lemma index_inv (dAtA : list byte) (i : Z) (b : byte) :
  index dAtA i = Ok b -> 0 <= i < len dAtA /\ dAtA !! Z.to_nat i = Some b.
Proof.
  unfold index.
  destruct (Z.ltb_spec i 0); [discriminate|].
  destruct (Z.leb_spec (len dAtA) i); [discriminate|]. simpl.
  destruct (dAtA !! Z.to_nat i) eqn:E; [|discriminate].
  intros [= ->]. split; [lia | reflexivity].
Qed.

Lemma index_intro (dAtA : list byte) (i : Z) (b : byte) :
  0 <= i -> dAtA !! Z.to_nat i = Some b -> index dAtA i = Ok b.
Proof.
  intros Hi Hb. unfold index.
  pose proof (lookup_lt_Some _ _ _ Hb) as Hlt.
  destruct (Z.ltb_spec i 0); [lia|].
  destruct (Z.leb_spec (len dAtA) i); [unfold len in *; lia|].
  simpl. rewrite Hb. reflexivity.
Qed.

Lemma index_frame (pre d suf : list byte) (i : Z) (b : byte) :
  index d i = Ok b -> index (pre ++ d ++ suf) (len pre + i) = Ok b.
Proof.
  intros H. apply index_inv in H as [Hi Hb].
  pose proof (len_nonneg pre).
  apply index_intro; [lia|].
  replace (Z.to_nat (len pre + i)) with (length pre + Z.to_nat i)%nat
    by (unfold len; lia).
  rewrite lookup_app_r by lia.
  replace (length pre + Z.to_nat i - length pre)%nat with (Z.to_nat i) by lia.
  apply lookup_app_l_Some, Hb.
Qed.

Lemma slice_inv (dAtA : list byte) (lo hi : Z) (s : list byte) :
  slice dAtA lo hi = Ok s ->
  0 <= lo <= hi /\ hi <= len dAtA /\
  s = take (Z.to_nat (hi - lo)) (drop (Z.to_nat lo) dAtA).
Proof.
  unfold slice.
  destruct (Z.leb_spec 0 lo); simpl; [|discriminate].
  destruct (Z.leb_spec lo hi); simpl; [|discriminate].
  destruct (Z.leb_spec hi (len dAtA)); simpl; [|discriminate].
  intros [= <-]. auto.
Qed.

Lemma slice_Ok (dAtA : list byte) (lo hi : Z) :
  0 <= lo <= hi -> hi <= len dAtA ->
  slice dAtA lo hi = Ok (take (Z.to_nat (hi - lo)) (drop (Z.to_nat lo) dAtA)).
Proof.
  intros [H1 H2] H3. unfold slice.
  destruct (Z.leb_spec 0 lo); [|lia].
  destruct (Z.leb_spec lo hi); [|lia].
  destruct (Z.leb_spec hi (len dAtA)); [|lia]. reflexivity.
Qed.

Lemma slice_len (dAtA : list byte) (lo hi : Z) (s : list byte) :
  slice dAtA lo hi = Ok s -> len s = hi - lo.
Proof.
  intros H. apply slice_inv in H as (H1 & H2 & ->).
  unfold len in *. rewrite length_take, length_drop. lia.
Qed.

Lemma slice_frame (pre d suf : list byte) (lo hi : Z) (s : list byte) :
  slice d lo hi = Ok s ->
  slice (pre ++ d ++ suf) (len pre + lo) (len pre + hi) = Ok s.
Proof.
  intros H. apply slice_inv in H as (H1 & H2 & ->).
  pose proof (len_nonneg pre). pose proof (len_nonneg suf).
  rewrite slice_Ok by (rewrite ?len_app; lia). f_equal.
  replace (len pre + hi - (len pre + lo)) with (hi - lo) by lia.
  replace (Z.to_nat (len pre + lo)) with (length pre + Z.to_nat lo)%nat
    by (unfold len; lia).
  rewrite drop_app_add.
  rewrite drop_app_le by (unfold len in *; lia).
  rewrite take_app_le; [reflexivity|].
  rewrite length_drop. unfold len in *. lia.
Qed.

Lemma slice_all (d : list byte) : slice d 0 (len d) = Ok d.
Proof.
  pose proof (len_nonneg d).
  rewrite slice_Ok by lia. f_equal. simpl.
  rewrite Z.sub_0_r. unfold len. rewrite Nat2Z.id. apply firstn_all.
Qed.

Lemma slice_middle (pre d suf : list byte) :
  slice (pre ++ d ++ suf) (len pre) (len pre + len d) = Ok d.
Proof.
  replace (len pre) with (len pre + 0) at 1 by lia.
  apply slice_frame, slice_all.
Qed.

(** ** Bit arithmetic of varints *)

Lemma land_127 (v : Z) : Z.land v 127 = v mod 128.
Proof. change 127 with (Z.ones 7). rewrite Z.land_ones by lia. reflexivity. Qed.

Lemma lor_disjoint (a c s : Z) :
  0 <= s -> 0 <= a < 2 ^ s -> Z.lor a (c * 2 ^ s) = a + c * 2 ^ s.
Proof.
  intros Hs Ha. symmetry. apply Z.add_nocarry_lor.
  apply Z.bits_inj'. intros n Hn.
  rewrite Z.land_spec, Z.bits_0.
  destruct (Z.lt_ge_cases n s) as [Hlt|Hge].
  - rewrite (Z.mul_pow2_bits_low c s n Hlt). apply andb_false_r.
  - rewrite <- (Z.mod_small a (2 ^ s)) by lia.
    rewrite Z.mod_pow2_bits_high by lia. reflexivity.
Qed.

Lemma lor_128 (v : Z) : Z.lor (Z.land v 127) 128 = v mod 128 + 128.
Proof.
  rewrite land_127.
  pose proof (Z.mod_pos_bound v 128 ltac:(lia)).
  change 128 with (1 * 2 ^ 7) at 2. rewrite lor_disjoint; lia.
Qed.

Lemma shiftr_7 (v : Z) : Z.shiftr v 7 = v / 128.
Proof. rewrite Z.shiftr_div_pow2 by lia. reflexivity. Qed.

Lemma accU64_add (a b s : Z) :
  0 <= s -> 0 <= a < 2 ^ s -> a + (b mod 128) * 2 ^ s < 2 ^ 64 ->
  accU64 a b s = a + (b mod 128) * 2 ^ s.
Proof.
  intros Hs Ha Hb. unfold accU64.
  pose proof (Z.mod_pos_bound b 128 ltac:(lia)).
  rewrite land_127, Z.shiftl_mul_pow2 by lia.
  rewrite wrapU64_small by nia. apply lor_disjoint; lia.
Qed.

Lemma accInt_add (a b s : Z) :
  0 <= s -> 0 <= a < 2 ^ s -> a + (b mod 128) * 2 ^ s < 2 ^ 63 ->
  accInt a b s = a + (b mod 128) * 2 ^ s.
Proof.
  intros Hs Ha Hb. unfold accInt.
  pose proof (Z.mod_pos_bound b 128 ltac:(lia)).
  rewrite land_127, Z.shiftl_mul_pow2 by lia.
  rewrite lor_disjoint by lia.
  apply wrapInt_small. nia.
Qed.

Lemma accU64_additive : additive accU64 (2 ^ 64).
Proof. intros a b s. apply accU64_add. Qed.

Lemma accInt_additive : additive accInt (2 ^ 63).
Proof. intros a b s. apply accInt_add. Qed.

(** ** [sovPacket] counts the bytes of a varint *)

Lemma sovPacket_small (v : Z) : 0 <= v < 128 -> sovPacket v = 1.
Proof.
  intros Hv. unfold sovPacket, bitsLen64.
  assert (H1 : 0 < Z.lor v 1).
  { assert (Z.lor v 1 <> 0) by (rewrite Z.lor_eq_0_iff; lia).
    pose proof (proj2 (Z.lor_nonneg v 1) ltac:(lia)). lia. }
  destruct (Z.eqb_spec (Z.lor v 1) 0); [lia|].
  assert (Z.log2 (Z.lor v 1) < 7).
  { rewrite Z.log2_lor by lia. change (Z.log2 1) with 0.
    pose proof (Z.log2_nonneg v).
    destruct (Z.eq_dec v 0) as [->|]; [simpl; lia|].
    assert (Z.log2 v < 7) by (apply Z.log2_lt_pow2; lia). lia. }
  pose proof (Z.log2_nonneg (Z.lor v 1)).
  symmetry. apply Z.div_unique with (r := Z.log2 (Z.lor v 1)); lia.
Qed.

Lemma sovPacket_step (v : Z) :
  128 <= v -> sovPacket v = 1 + sovPacket (v / 128).
Proof.
  intros Hv. unfold sovPacket, bitsLen64.
  assert (Hq : 1 <= v / 128) by (apply Z.div_le_lower_bound; lia).
  assert (H1 : forall x, 0 < x -> Z.lor x 1 <> 0 /\
                                  Z.log2 (Z.lor x 1) = Z.log2 x).
  { intros x Hx. split; [rewrite Z.lor_eq_0_iff; lia|].
    rewrite Z.log2_lor by lia. change (Z.log2 1) with 0.
    pose proof (Z.log2_nonneg x). lia. }
  destruct (H1 v ltac:(lia)) as [Hn1 ->].
  destruct (H1 (v / 128) ltac:(lia)) as [Hn2 ->].
  destruct (Z.eqb_spec (Z.lor v 1) 0); [lia|].
  destruct (Z.eqb_spec (Z.lor (v / 128) 1) 0); [lia|].
  assert (Hl : Z.log2 (v / 128) = Z.log2 v - 7).
  { rewrite <- shiftr_7, Z.log2_shiftr by lia.
    assert (7 <= Z.log2 v) by (apply Z.log2_le_pow2; lia). lia. }
  rewrite Hl.
  replace (Z.log2 v + 1 + 6) with (1 * 7 + (Z.log2 v - 7 + 1 + 6)) by lia.
  rewrite Z.div_add_l by lia. reflexivity.
Qed.

Lemma varintBytes_len (k : nat) (v : Z) :
  0 <= v < 2 ^ (7 * Z.of_nat k) -> (1 <= k)%nat ->
  len (varintBytes k v) = sovPacket v.
Proof.
  revert v. induction k as [|k IH]; intros v Hv Hk; [lia|].
  simpl. destruct (Z.leb_spec 128 v) as [Hge|Hlt].
  - rewrite len_cons, shiftr_7, sovPacket_step by lia.
    assert (Hq : 1 <= v / 128) by (apply Z.div_le_lower_bound; lia).
    assert (Hu : v / 128 < 2 ^ (7 * Z.of_nat k)).
    { apply Z.div_lt_upper_bound; [lia|].
      replace (7 * Z.of_nat (S k)) with (7 + 7 * Z.of_nat k) in Hv by lia.
      rewrite Z.pow_add_r in Hv by lia. lia. }
    rewrite IH; [lia|lia|].
    destruct k; [simpl in Hu; lia | lia].
  - rewrite sovPacket_small by lia. reflexivity.
Qed.

Lemma varint_len (v : Z) : 0 <= v < 2 ^ 64 -> len (varint v) = sovPacket v.
Proof.
  intros Hv. apply varintBytes_len; [|lia].
  assert (2 ^ 64 <= 2 ^ (7 * Z.of_nat 10)) by (apply Z.pow_le_mono_r; lia).
  lia.
Qed.

Lemma sovPacket_pos (v : Z) : 0 <= v < 2 ^ 64 -> 1 <= sovPacket v <= 10.
Proof.
  intros Hv. rewrite <- varint_len by lia. unfold varint.
  assert (forall k x, (1 <= k)%nat ->
            1 <= len (varintBytes k x) <= Z.of_nat k) as H.
  { induction k as [|k IH]; intros x Hk; [lia|]. simpl.
    destruct (128 <=? x).
    - rewrite len_cons. destruct k.
      + simpl. rewrite len_nil. lia.
      + specialize (IH (Z.shiftr x 7) ltac:(lia)). lia.
    - rewrite len_cons, len_nil. lia. }
  specialize (H 10%nat v ltac:(lia)). lia.
Qed.

(** ** The varint loop *)

Ltac destruct_bind H :=
  let a := fresh "a" in
  let E1 := fresh "E" in
  apply bind_Ok in H as (a & E1 & H).

Lemma varintLoop_progress acc (d : list byte) (n : nat) (s i v v' i' : Z) :
  len d <= maxInt ->
  varintLoop acc d n s i v = Ok (v', i') -> 0 <= i /\ i < i' <= len d.
Proof.
  intros Hd. revert s i v.
  induction n as [|n IH]; intros s i v H; simpl in H; [discriminate|].
  destruct (64 <=? s); [discriminate|].
  destruct (Z.leb_spec (len d) i); [discriminate|].
  destruct_bind H. apply index_inv in E as [Hi _].
  rewrite addInt_small in H by lia.
  destruct (byte_to_Z a <? 128).
  - injection H as <- <-. lia.
  - apply IH in H. lia.
Qed.

Lemma varintLoop_frame acc (pre d suf : list byte) (n : nat)
    (s i v v' i' : Z) :
  len (pre ++ d ++ suf) <= maxInt ->
  varintLoop acc d n s i v = Ok (v', i') ->
  varintLoop acc (pre ++ d ++ suf) n s (len pre + i) v
  = Ok (v', len pre + i').
Proof.
  rewrite !len_app. intros Hd.
  pose proof (len_nonneg pre). pose proof (len_nonneg suf).
  revert s i v.
  induction n as [|n IH]; intros s i v H'; simpl in *; [discriminate|].
  destruct (64 <=? s); [discriminate|].
  destruct (Z.leb_spec (len d) i); [discriminate|].
  destruct_bind H'. pose proof (index_inv _ _ _ E) as [Hi _].
  rewrite !len_app.
  destruct (Z.leb_spec (len pre + (len d + len suf)) (len pre + i)); [lia|].
  rewrite (index_frame pre d suf i a E). simpl.
  rewrite addInt_small in H' by lia.
  rewrite addInt_small by lia.
  destruct (byte_to_Z a <? 128).
  - injection H' as <- <-. f_equal. f_equal. lia.
  - apply IH in H'. rewrite <- H'. f_equal. lia.
Qed.

Lemma varintLoop_returns acc (d : list byte) (n : nat) (s i v : Z) :
  len d <= maxInt -> 0 <= i -> (1 <= n)%nat ->
  64 <= s + 7 * Z.of_nat n - 7 ->
  returns (varintLoop acc d n s i v).
Proof.
  intros Hd. revert s i v.
  induction n as [|n IH]; intros s i v Hi Hn Hs; [lia|]. simpl.
  destruct (Z.leb_spec 64 s); [exact I|].
  destruct (Z.leb_spec (len d) i); [exact I|].
  destruct (index_Ok d i ltac:(lia)) as [b ->]. simpl.
  destruct (byte_to_Z b <? 128); [exact I|].
  rewrite addInt_small by lia.
  apply IH; lia.
Qed.

Lemma varintLoop_bytes acc (bound : Z) :
  additive acc bound -> bound <= 2 ^ 64 ->
  forall (k n : nat) (pre suf : list byte) (v a s : Z),
    (1 <= k <= n)%nat -> 0 <= v < 2 ^ (7 * Z.of_nat k) ->
    0 <= s < 64 -> 0 <= a < 2 ^ s -> a + v * 2 ^ s < bound ->
    len (pre ++ varintBytes k v ++ suf) <= maxInt ->
    varintLoop acc (pre ++ varintBytes k v ++ suf) n s (len pre) a
    = Ok (a + v * 2 ^ s, len pre + len (varintBytes k v)).
Proof.
  intros Hacc Hbound.
  induction k as [|k IH]; intros n pre suf v a s Hk Hv Hs Ha Hov Hd; [lia|].
  destruct n as [|n]; [lia|].
  assert (HP : 0 < 2 ^ s) by (apply Z.pow_pos_nonneg; lia).
  pose proof (Z.mod_pos_bound v 128 ltac:(lia)) as Hm.
  pose proof (Z.div_mod v 128 ltac:(lia)) as Hdm.
  pose proof (len_nonneg pre).
  simpl varintBytes in *.
  destruct (Z.leb_spec 128 v) as [Hge|Hlt]; cbv iota in Hd |- *.
  - rewrite shiftr_7 in Hd |- *.
    set (b0 := uint8 (Z.lor (Z.land v 127) 128)) in *.
    assert (Hb0 : byte_to_Z b0 = v mod 128 + 128).
    { unfold b0. rewrite byte_to_Z_uint8, lor_128, Z.mod_small; lia. }
    assert (Hq : 1 <= v / 128) by (apply Z.div_le_lower_bound; lia).
    assert (Hu : v / 128 < 2 ^ (7 * Z.of_nat k)).
    { apply Z.div_lt_upper_bound; [lia|].
      replace (7 * Z.of_nat (S k)) with (7 + 7 * Z.of_nat k) in Hv by lia.
      rewrite Z.pow_add_r in Hv by lia. lia. }
    assert (Hk1 : (1 <= k)%nat) by (destruct k; [simpl in Hu; lia | lia]).
    assert (Hs7 : s + 7 < 64).
    { destruct (Z.lt_ge_cases (s + 7) 64) as [|Hc]; [assumption|].
      assert (2 ^ 64 <= 2 ^ (s + 7)) by (apply Z.pow_le_mono_r; lia).
      rewrite Z.pow_add_r in * by lia. nia. }
    assert (HP7 : 2 ^ (s + 7) = 2 ^ s * 128)
      by (rewrite Z.pow_add_r by lia; reflexivity).
    assert (Hmod : (v mod 128 + 128) mod 128 = v mod 128).
    { rewrite <- Z.add_mod_idemp_r by lia. change (128 mod 128) with 0.
      rewrite Z.add_0_r, Z.mod_mod; lia. }
    specialize (IH n (pre ++ [b0]) suf (v / 128)
                  (a + v mod 128 * 2 ^ s) (s + 7)).
    rewrite <- app_assoc in IH. simpl app in IH.
    replace (len (pre ++ [b0])) with (len pre + 1) in IH
      by (rewrite len_app, len_cons, len_nil; lia).
    rewrite !len_app, !len_cons in Hd.
    simpl varintLoop.
    destruct (Z.leb_spec 64 s); [lia|].
    rewrite !len_app, !len_cons.
    pose proof (len_nonneg (varintBytes k (v / 128))).
    pose proof (len_nonneg suf). rewrite !len_app.
    match goal with |- context [?x <=? len pre] =>
      destruct (Z.leb_spec x (len pre)); [lia|] end.
    rewrite (index_intro _ (len pre) b0); [|lia|]; cycle 1.
    { apply list_lookup_middle. unfold len. lia. }
    simpl. rewrite Hb0.
    destruct (Z.ltb_spec (v mod 128 + 128) 128); [lia|].
    rewrite addInt_small by lia.
    rewrite Hacc; rewrite ?Hmod; [|lia|lia|nia].
    rewrite IH; [f_equal; f_equal; [rewrite HP7; nia | lia] | ..];
      rewrite ?HP7, ?len_app, ?len_cons, ?len_app; try lia; try nia.
  - assert (Hb0 : byte_to_Z (uint8 v) = v).
    { rewrite byte_to_Z_uint8, Z.mod_small; lia. }
    simpl varintLoop.
    destruct (Z.leb_spec 64 s); [lia|].
    rewrite !len_app, !len_cons, len_nil in Hd.
    rewrite !len_app, !len_cons, ?len_nil.
    pose proof (len_nonneg suf).
    match goal with |- context [?x <=? len pre] =>
      destruct (Z.leb_spec x (len pre)); [lia|] end.
    rewrite (index_intro _ (len pre) (uint8 v)); [|lia|]; cycle 1.
    { apply list_lookup_middle. unfold len. lia. }
    simpl. rewrite Hb0.
    destruct (Z.ltb_spec v 128); [|lia].
    rewrite addInt_small by lia.
    rewrite Hacc; rewrite ?Z.mod_small; try lia.
    all: try (f_equal; f_equal; lia).
Qed.

Lemma readVarintU64_varint (pre suf : list byte) (v : Z) :
  0 <= v < 2 ^ 64 -> len (pre ++ varint v ++ suf) <= maxInt ->
  readVarintU64 (pre ++ varint v ++ suf) (len pre)
  = Ok (v, len pre + len (varint v)).
Proof.
  intros Hv Hd. unfold readVarintU64, varint, varintFuel.
  assert (2 ^ 64 <= 2 ^ (7 * Z.of_nat 10)) by (apply Z.pow_le_mono_r; lia).
  rewrite (varintLoop_bytes accU64 (2 ^ 64) accU64_additive ltac:(lia));
    change (2 ^ 0) with 1; try lia; try exact Hd.
  f_equal. f_equal. lia.
Qed.

Lemma readVarintInt_varint (pre suf : list byte) (v : Z) :
  0 <= v < 2 ^ 63 -> len (pre ++ varint v ++ suf) <= maxInt ->
  readVarintInt (pre ++ varint v ++ suf) (len pre)
  = Ok (v, len pre + len (varint v)).
Proof.
  intros Hv Hd. unfold readVarintInt, varint, varintFuel.
  assert (2 ^ 63 <= 2 ^ (7 * Z.of_nat 10)) by (apply Z.pow_le_mono_r; lia).
  rewrite (varintLoop_bytes accInt (2 ^ 63) accInt_additive ltac:(lia));
    change (2 ^ 0) with 1; try lia; try exact Hd.
  f_equal. f_equal. lia.
Qed.

(** ** Stepping through the decoders

    [bool_prop] turns the outcome of every comparison into a proposition
    for [lia]; [case_if H] splits on the test of the conditional at the head
    of [H]; [inv_ok H] opens a chain of binds and tests that ended in [Ok]. *)

Ltac bool_prop :=
  repeat match goal with
  | H : negb _ = true |- _ => apply negb_true_iff in H
  | H : negb _ = false |- _ => apply negb_false_iff in H
  | H : (_ || _) = false |- _ => apply orb_false_iff in H as [? ?]
  | H : (_ && _) = true |- _ => apply andb_true_iff in H as [? ?]
  | H : (_ <? _) = true |- _ => apply Z.ltb_lt in H
  | H : (_ <? _) = false |- _ => apply Z.ltb_ge in H
  | H : (_ <=? _) = true |- _ => apply Z.leb_le in H
  | H : (_ <=? _) = false |- _ => apply Z.leb_gt in H
  | H : (_ =? _) = true |- _ => apply Z.eqb_eq in H
  | H : (_ =? _) = false |- _ => apply Z.eqb_neq in H
  | H : (_ >? _) = _ |- _ => rewrite Z.gtb_ltb in H
  end.

Ltac case_if H :=
  match type of H with
  | (if ?c then _ else _) = _ =>
      let E := fresh "C" in destruct c eqn:E; try discriminate H
  end.

Ltac inv_ok H :=
  repeat first
    [ progress cbv beta zeta in H
    | case_if H
    | match type of H with
      | bind ?c _ = Ok _ =>
          let a := fresh "a" in
          let E := fresh "E" in
          destruct c as [a| | |] eqn:E; cbn [bind] in H;
          try discriminate H
      | (let '(_, _) := ?p in _) = Ok _ => destruct p
      | Ok _ = Ok _ => injection H as H
      end ];
  bool_prop.

Lemma addInt_nonneg (a b : Z) :
  0 <= a <= maxInt -> 0 <= b <= maxInt -> 0 <= addInt a b ->
  addInt a b = a + b.
Proof.
  unfold addInt, wrapInt. intros Ha Hb H.
  destruct (Z.lt_ge_cases (a + b) (2 ^ 63)).
  - rewrite Z.mod_small in * by lia. lia.
  - replace (a + b + 2 ^ 63) with (a + b - 2 ^ 63 + 1 * 2 ^ 64) in * by lia.
    rewrite Z.mod_add in * by lia.
    rewrite Z.mod_small in * by lia. lia.
Qed.

Lemma readTag_progress (d : list byte) (i fieldNum wireType i' : Z) :
  len d <= maxInt ->
  readTag d i = Ok (fieldNum, wireType, i') ->
  0 <= i /\ i < i' <= len d /\ 0 < fieldNum /\ 0 <= wireType < 8.
Proof.
  intros Hd H. unfold readTag in H. inv_ok H.
  apply varintLoop_progress in E; [|assumption].
  subst.
  pose proof (Z.mod_pos_bound z 8 ltac:(lia)).
  change 7 with (Z.ones 3). rewrite Z.land_ones by lia.
  change (2 ^ 3) with 8. lia.
Qed.

Lemma readTag_frame (pre d suf : list byte) (i : Z) r :
  len (pre ++ d ++ suf) <= maxInt ->
  readTag d i = Ok r ->
  readTag (pre ++ d ++ suf) (len pre + i) = Ok (r.1.1, r.1.2, len pre + r.2).
Proof.
  intros Hd H. unfold readTag in *.
  destruct (readVarintU64 d i) as [[wire i1]| | |] eqn:E; try discriminate H.
  unfold readVarintU64 in *.
  rewrite (varintLoop_frame _ pre d suf _ _ _ _ _ _ Hd E).
  cbn [bind] in *.
  destruct (Z.land wire 7 =? 4); [discriminate|].
  destruct (int32 (Z.shiftr wire 3) <=? 0); [discriminate|].
  injection H as <-. reflexivity.
Qed.

Lemma readTag_returns (d : list byte) (i : Z) :
  len d <= maxInt -> 0 <= i -> returns (readTag d i).
Proof.
  intros Hd Hi. unfold readTag, readVarintU64.
  pose proof (varintLoop_returns accU64 d varintFuel 0 i 0 Hd Hi) as H.
  specialize (H ltac:(unfold varintFuel; lia) ltac:(unfold varintFuel; lia)).
  destruct (varintLoop accU64 d varintFuel 0 i 0) as [[w j]| | |];
    try exact H; simpl.
  destruct (Z.land w 7 =? 4); [exact I|].
  destruct (int32 (Z.shiftr w 3) <=? 0); exact I.
Qed.

Lemma readString_progress f (d : list byte) (wt i : Z) s i' :
  len d <= maxInt ->
  readString f d wt i = Ok (s, i') ->
  0 <= i /\ i < i' <= len d /\ wt = 2.
Proof.
  intros Hd H. unfold readString in H. inv_ok H.
  pose proof (varintLoop_progress _ _ _ _ _ _ _ _ Hd E) as Hp.
  subst. pose proof (wrapInt_range z).
  rewrite addInt_nonneg in * by lia. lia.
Qed.

Lemma readString_frame f (pre d suf : list byte) (wt i : Z) s i' :
  len (pre ++ d ++ suf) <= maxInt ->
  readString f d wt i = Ok (s, i') ->
  readString f (pre ++ d ++ suf) wt (len pre + i) = Ok (s, len pre + i').
Proof.
  intros HD H.
  assert (Hd : len d <= maxInt).
  { rewrite !len_app in HD. pose proof (len_nonneg pre).
    pose proof (len_nonneg suf). lia. }
  pose proof (readString_progress _ _ _ _ _ _ Hd H) as (Hi & Hi' & ->).
  unfold readString in *. simpl negb in *. cbv iota in *.
  destruct (readVarintU64 d i) as [[v i1]| | |] eqn:E; try discriminate H.
  unfold readVarintU64 in *.
  pose proof (varintLoop_progress _ _ _ _ _ _ _ _ Hd E) as Hp.
  rewrite (varintLoop_frame _ pre d suf _ _ _ _ _ _ HD E).
  cbn [bind] in *.
  destruct (Z.ltb_spec (wrapInt v) 0); [discriminate|].
  pose proof (wrapInt_range v).
  destruct (Z.ltb_spec (addInt i1 (wrapInt v)) 0); [discriminate|].
  rewrite addInt_nonneg in H by lia.
  rewrite Z.gtb_ltb in H.
  destruct (Z.ltb_spec (len d) (i1 + wrapInt v)); [discriminate|].
  destruct (slice d i1 (i1 + wrapInt v)) as [s'| | |] eqn:Es;
    try discriminate H.
  simpl in H. injection H as <- <-.
  pose proof (len_nonneg pre). pose proof (len_nonneg suf).
  rewrite !len_app in *.
  rewrite addInt_small by lia.
  destruct (Z.ltb_spec (len pre + i1 + wrapInt v) 0); [lia|].
  rewrite Z.gtb_ltb.
  destruct (Z.ltb_spec (len pre + (len d + len suf))
              (len pre + i1 + wrapInt v)); [lia|].
  replace (len pre + i1 + wrapInt v) with (len pre + (i1 + wrapInt v)) by lia.
  rewrite (slice_frame pre d suf _ _ _ Es). reflexivity.
Qed.

Lemma readString_returns f (d : list byte) (wt i : Z) :
  len d <= maxInt -> 0 <= i -> returns (readString f d wt i).
Proof.
  intros Hd Hi. unfold readString.
  destruct (negb (wt =? 2)); [exact I|].
  unfold readVarintU64.
  pose proof (varintLoop_returns accU64 d varintFuel 0 i 0 Hd Hi) as H.
  specialize (H ltac:(unfold varintFuel; lia) ltac:(unfold varintFuel; lia)).
  destruct (varintLoop accU64 d varintFuel 0 i 0) as [[v j]| | |] eqn:E;
    try exact H; simpl.
  apply varintLoop_progress in E; [|assumption].
  destruct (Z.ltb_spec (wrapInt v) 0); [exact I|].
  pose proof (wrapInt_range v).
  destruct (Z.ltb_spec (addInt j (wrapInt v)) 0); [exact I|].
  rewrite addInt_nonneg by lia.
  rewrite Z.gtb_ltb.
  destruct (Z.ltb_spec (len d) (j + wrapInt v)); [exact I|].
  rewrite slice_Ok by lia. exact I.
Qed.

(** ** [skipPacket] *)

Lemma len_frame_bound (pre d suf : list byte) :
  len (pre ++ d ++ suf) <= maxInt -> len d <= maxInt.
Proof.
  rewrite !len_app. pose proof (len_nonneg pre). pose proof (len_nonneg suf).
  lia.
Qed.

Lemma varintLoop_suffix acc (d suf : list byte) (n : nat) (s i v : Z) r :
  len (d ++ suf) <= maxInt ->
  varintLoop acc d n s i v = Ok r ->
  varintLoop acc (d ++ suf) n s i v = Ok r.
Proof.
  intros Hd H. destruct r as [v' i'].
  pose proof (varintLoop_frame acc [] d suf n s i v v' i' Hd H) as F.
  exact F.
Qed.

Lemma varintLoop_accInt_range (d : list byte) (n : nat) (s i v v' i' : Z) :
  - 2 ^ 63 <= v < 2 ^ 63 ->
  varintLoop accInt d n s i v = Ok (v', i') -> - 2 ^ 63 <= v' < 2 ^ 63.
Proof.
  revert s i v.
  induction n as [|n IH]; intros s i v Hv H; simpl in H; [discriminate|].
  destruct (64 <=? s); [discriminate|].
  destruct (len d <=? i); [discriminate|].
  destruct (index d i) as [b| | |]; try discriminate H. cbn [bind] in H.
  destruct (byte_to_Z b <? 128).
  - injection H as <- <-. apply wrapInt_range.
  - eapply IH; [|exact H]. apply wrapInt_range.
Qed.

Lemma skipStep_progress (d : list byte) (i depth i' depth' : Z) :
  len d <= maxInt ->
  skipStep d i depth = Ok (i', depth') ->
  0 <= i /\ i < i' <= maxInt.
Proof.
  intros Hd H. unfold skipStep, readVarintU64, skipVarint, readVarintInt in H.
  destruct (varintLoop accU64 d varintFuel 0 i 0) as [[w i1]| | |] eqn:E;
    try discriminate H.
  apply varintLoop_progress in E; [|assumption].
  cbn [bind] in H.
  assert (Hw : forall k, 0 <= k <= maxInt -> 0 <= addInt i1 k ->
                         i < addInt i1 k <= maxInt).
  { intros k Hk Hn.
    pose proof (addInt_nonneg i1 k ltac:(lia) ltac:(lia) Hn) as Heq.
    pose proof (wrapInt_range (i1 + k)) as Hr. fold (addInt i1 k) in Hr.
    lia. }
  destruct (Z.land w 7 =? 0).
  { destruct (varintLoop accSkip d varintFuel 0 i1 0) as [[v i2]| | |] eqn:E2;
      try discriminate H.
    apply varintLoop_progress in E2; [|assumption].
    cbn [bind] in H. inv_ok H. subst. lia. }
  destruct (Z.land w 7 =? 1).
  { cbn [bind] in H. inv_ok H. subst.
    split; [lia|]. apply Hw; lia. }
  destruct (Z.land w 7 =? 2).
  { destruct (varintLoop accInt d varintFuel 0 i1 0) as [[v i2]| | |] eqn:E2;
      try discriminate H.
    pose proof (varintLoop_accInt_range d varintFuel 0 i1 0 v i2
                  ltac:(lia) E2) as Hv.
    apply varintLoop_progress in E2; [|assumption].
    cbn [bind] in H.
    destruct (Z.ltb_spec v 0); [discriminate|].
    cbn [bind] in H. inv_ok H. subst. split; [lia|].
    match goal with Hn : 0 <= addInt i2 v |- _ =>
      pose proof (addInt_nonneg i2 v ltac:(lia) ltac:(lia) Hn) as Heq end.
    pose proof (wrapInt_range (i2 + v)) as Hr. fold (addInt i2 v) in Hr.
    lia. }
  destruct (Z.land w 7 =? 3).
  { cbn [bind] in H. inv_ok H. subst. lia. }
  destruct (Z.land w 7 =? 4).
  { destruct (depth =? 0); [discriminate|].
    cbn [bind] in H. inv_ok H. subst. lia. }
  destruct (Z.land w 7 =? 5); [|discriminate].
  cbn [bind] in H. inv_ok H. subst.
  split; [lia|]. apply Hw; lia.
Qed.

Lemma skipStep_suffix (d suf : list byte) (i depth : Z) r :
  len (d ++ suf) <= maxInt ->
  skipStep d i depth = Ok r -> skipStep (d ++ suf) i depth = Ok r.
Proof.
  intros Hd H. unfold skipStep, readVarintU64, skipVarint, readVarintInt in *.
  destruct (varintLoop accU64 d varintFuel 0 i 0) as [[w i1]| | |] eqn:E;
    try discriminate H.
  rewrite (varintLoop_suffix _ _ suf _ _ _ _ _ Hd E).
  cbn [bind] in *.
  destruct (Z.land w 7 =? 0).
  { destruct (varintLoop accSkip d varintFuel 0 i1 0) as [[v i2]| | |] eqn:E2;
      try discriminate H.
    rewrite (varintLoop_suffix _ _ suf _ _ _ _ _ Hd E2). exact H. }
  destruct (Z.land w 7 =? 1); [exact H|].
  destruct (Z.land w 7 =? 2); [|exact H].
  destruct (varintLoop accInt d varintFuel 0 i1 0) as [[v i2]| | |] eqn:E2;
    try discriminate H.
  rewrite (varintLoop_suffix _ _ suf _ _ _ _ _ Hd E2). exact H.
Qed.

Lemma readVarint_returns acc (d : list byte) (i : Z) :
  len d <= maxInt -> 0 <= i -> returns (varintLoop acc d varintFuel 0 i 0).
Proof.
  intros Hd Hi. apply varintLoop_returns; unfold varintFuel; lia.
Qed.

Lemma skipStep_returns (d : list byte) (i depth : Z) :
  len d <= maxInt -> 0 <= i -> returns (skipStep d i depth).
Proof.
  intros Hd Hi. unfold skipStep, readVarintU64, skipVarint, readVarintInt.
  pose proof (readVarint_returns accU64 d i Hd Hi) as H.
  destruct (varintLoop accU64 d varintFuel 0 i 0) as [[w i1]| | |] eqn:E;
    try exact H.
  apply varintLoop_progress in E; [|assumption].
  cbn [bind].
  assert (Hfin : forall j dep, returns
            (if j <? 0 then Err ErrInvalidLengthPacket
             else Ok (j, dep) : result (Z * Z))).
  { intros j dep. destruct (j <? 0); exact I. }
  destruct (Z.land w 7 =? 0).
  { pose proof (readVarint_returns accSkip d i1 Hd ltac:(lia)) as H2.
    destruct (varintLoop accSkip d varintFuel 0 i1 0) as [[v i2]| | |];
      try exact H2. cbn [bind]. apply Hfin. }
  destruct (Z.land w 7 =? 1); [cbn [bind]; apply Hfin|].
  destruct (Z.land w 7 =? 2).
  { pose proof (readVarint_returns accInt d i1 Hd ltac:(lia)) as H2.
    destruct (varintLoop accInt d varintFuel 0 i1 0) as [[v i2]| | |];
      try exact H2. cbn [bind].
    destruct (v <? 0); [exact I|]. cbn [bind]. apply Hfin. }
  destruct (Z.land w 7 =? 3); [cbn [bind]; apply Hfin|].
  destruct (Z.land w 7 =? 4).
  { destruct (depth =? 0); [exact I|]. cbn [bind]. apply Hfin. }
  destruct (Z.land w 7 =? 5); [cbn [bind]; apply Hfin|exact I].
Qed.

Lemma skipLoop_progress (d : list byte) (fuel : nat) (i depth n : Z) :
  len d <= maxInt ->
  skipLoop d fuel i depth = Ok n -> 0 <= i /\ i < n <= maxInt.
Proof.
  intros Hd. revert i depth.
  induction fuel as [|fuel IH]; intros i depth H; simpl in H.
  - destruct (i <? len d); discriminate.
  - destruct (i <? len d); [|discriminate].
    destruct (skipStep d i depth) as [[i1 d1]| | |] eqn:E; try discriminate H.
    apply skipStep_progress in E; [|assumption]. cbn [bind] in H.
    destruct (d1 =? 0).
    + injection H as <-. lia.
    + apply IH in H. lia.
Qed.

Lemma skipLoop_suffix (d suf : list byte) (fuel : nat) (i depth n : Z) :
  len (d ++ suf) <= maxInt ->
  skipLoop d fuel i depth = Ok n -> skipLoop (d ++ suf) fuel i depth = Ok n.
Proof.
  intros Hd. revert i depth.
  induction fuel as [|fuel IH]; intros i depth H; simpl in *.
  - destruct (i <? len d); discriminate.
  - destruct (Z.ltb_spec i (len d)); [|discriminate].
    rewrite len_app. pose proof (len_nonneg suf).
    destruct (Z.ltb_spec i (len d + len suf)); [|lia].
    destruct (skipStep d i depth) as [[i1 d1]| | |] eqn:E; try discriminate H.
    rewrite (skipStep_suffix _ suf _ _ _ Hd E). cbn [bind] in *.
    destruct (d1 =? 0); [exact H|]. apply IH, H.
Qed.

Lemma skipLoop_fuel_mono (d : list byte) (fuel fuel' : nat) (i depth n : Z) :
  (fuel <= fuel')%nat ->
  skipLoop d fuel i depth = Ok n -> skipLoop d fuel' i depth = Ok n.
Proof.
  revert fuel' i depth.
  induction fuel as [|fuel IH]; intros fuel' i depth Hf H; simpl in H.
  - destruct (i <? len d); discriminate.
  - destruct fuel' as [|fuel']; [lia|]. simpl.
    destruct (i <? len d); [|discriminate].
    destruct (skipStep d i depth) as [[i1 d1]| | |]; try discriminate H.
    cbn [bind] in *. destruct (d1 =? 0); [exact H|].
    apply IH; [lia | exact H].
Qed.

Lemma skipLoop_returns (d : list byte) (fuel : nat) (i depth : Z) :
  len d <= maxInt -> 0 <= i -> len d - i <= Z.of_nat fuel ->
  returns (skipLoop d fuel i depth).
Proof.
  intros Hd. revert i depth.
  induction fuel as [|fuel IH]; intros i depth Hi Hf; simpl.
  - destruct (Z.ltb_spec i (len d)); [lia | exact I].
  - destruct (Z.ltb_spec i (len d)); [|exact I].
    pose proof (skipStep_returns d i depth Hd Hi) as Hr.
    destruct (skipStep d i depth) as [[i1 d1]| | |] eqn:E; try exact Hr.
    apply skipStep_progress in E; [|assumption]. cbn [bind].
    destruct (d1 =? 0); [exact I|]. apply IH; lia.
Qed.

Lemma skipPacket_returns (d : list byte) :
  len d <= maxInt -> returns (skipPacket d).
Proof.
  intros Hd. apply skipLoop_returns; unfold len in *; lia.
Qed.

Lemma skipPacket_progress (d : list byte) (n : Z) :
  len d <= maxInt -> skipPacket d = Ok n -> 0 < n <= maxInt.
Proof.
  intros Hd H. apply skipLoop_progress in H; [lia | assumption].
Qed.

Lemma skipPacket_suffix (d suf : list byte) (n : Z) :
  len (d ++ suf) <= maxInt ->
  skipPacket d = Ok n -> skipPacket (d ++ suf) = Ok n.
Proof.
  intros Hd H. unfold skipPacket in *.
  apply skipLoop_fuel_mono with (fuel := length d).
  - rewrite length_app. lia.
  - apply skipLoop_suffix; assumption.
Qed.

Lemma sliceFrom_frame (pre d suf : list byte) (i : Z) rest :
  sliceFrom d i = Ok rest ->
  sliceFrom (pre ++ d ++ suf) (len pre + i) = Ok (rest ++ suf).
Proof.
  unfold sliceFrom. intros H. apply slice_inv in H as (H1 & H2 & ->).
  pose proof (len_nonneg pre). pose proof (len_nonneg suf).
  rewrite slice_Ok by (rewrite ?len_app; lia). f_equal.
  rewrite !len_app.
  replace (Z.to_nat (len pre + i)) with (length pre + Z.to_nat i)%nat
    by (unfold len; lia).
  rewrite drop_app_add.
  rewrite drop_app_le by (unfold len in *; lia).
  rewrite !firstn_all2; [reflexivity| |].
  - rewrite length_drop. unfold len in *. lia.
  - rewrite length_app, length_drop. unfold len in *. lia.
Qed.

Lemma skipUnknown_progress (d : list byte) (i i' : Z) :
  len d <= maxInt ->
  skipUnknown d i = Ok i' -> 0 <= i /\ i < i' <= len d.
Proof.
  intros Hd H. unfold skipUnknown in H.
  destruct (sliceFrom d i) as [rest| | |] eqn:Es; try discriminate H.
  cbn [bind] in H.
  destruct (skipPacket rest) as [n| | |] eqn:Ek; try discriminate H.
  cbn [bind] in H. unfold sliceFrom in Es.
  pose proof (slice_len _ _ _ _ Es) as Hl.
  apply slice_inv in Es as (H1 & H2 & _).
  apply skipPacket_progress in Ek; [|lia].
  inv_ok H. subst.
  rewrite addInt_nonneg in * by lia. lia.
Qed.

Lemma skipUnknown_frame (pre d suf : list byte) (i i' : Z) :
  len (pre ++ d ++ suf) <= maxInt ->
  skipUnknown d i = Ok i' ->
  skipUnknown (pre ++ d ++ suf) (len pre + i) = Ok (len pre + i').
Proof.
  intros HD H. pose proof (len_frame_bound _ _ _ HD) as Hd.
  pose proof (skipUnknown_progress _ _ _ Hd H) as Hp.
  unfold skipUnknown in *.
  destruct (sliceFrom d i) as [rest| | |] eqn:Es; try discriminate H.
  rewrite (sliceFrom_frame pre d suf i rest Es). cbn [bind] in *.
  destruct (skipPacket rest) as [n| | |] eqn:Ek; try discriminate H.
  unfold sliceFrom in Es. pose proof (slice_len _ _ _ _ Es) as Hl.
  assert (Hrs : len (rest ++ suf) <= maxInt).
  { rewrite !len_app in *. pose proof (len_nonneg pre). lia. }
  rewrite (skipPacket_suffix rest suf n Hrs Ek).
  pose proof (skipPacket_progress rest n ltac:(lia) Ek) as Hn.
  cbn [bind] in *. inv_ok H. subst.
  rewrite addInt_nonneg in * by lia.
  pose proof (len_nonneg pre). pose proof (len_nonneg suf).
  rewrite (addInt_small (len pre + i) n) by (rewrite !len_app in HD; lia).
  destruct (Z.ltb_spec n 0); [lia|].
  destruct (Z.ltb_spec (len pre + i + n) 0); [lia|].
  cbn [orb]. rewrite Z.gtb_ltb, !len_app.
  destruct (Z.ltb_spec (len pre + (len d + len suf)) (len pre + i + n));
    [lia|].
  rewrite (addInt_small i n) by lia. apply f_equal. lia.
Qed.

Lemma skipUnknown_returns (d : list byte) (i : Z) :
  len d <= maxInt -> 0 <= i <= len d -> returns (skipUnknown d i).
Proof.
  intros Hd Hi. unfold skipUnknown, sliceFrom.
  rewrite slice_Ok by lia. cbn [bind].
  set (rest := take _ _).
  assert (Hl : len rest <= maxInt).
  { unfold rest, len in *. rewrite length_take, length_drop. lia. }
  pose proof (skipPacket_returns rest Hl) as Hr.
  destruct (skipPacket rest) as [n| | |]; try exact Hr. cbn [bind].
  destruct (_ || _); [exact I|].
  destruct (_ >? _); exact I.
Qed.

(** ** The decoding loop, for any well-behaved round

    The three [Unmarshal] functions are the same loop over different
    rounds. What the loop needs from a round [step] is collected in
    [step_ok]: a round that succeeds moves forward and stays inside the
    buffer; it succeeds in the same way when the buffer is embedded in a
    longer one; and it never panics. *)

Section Loop.
Context {M : Type}.
Variable step : list byte -> Z -> M -> result (Z * M).
Hypothesis Hstep : step_ok step.

Lemma unmarshalLoop_end (d : list byte) (fuel : nat) (m : M) :
  unmarshalLoop step d fuel (len d) m = Ok m.
Proof.
  destruct fuel; simpl; rewrite Z.ltb_irrefl, Z.gtb_ltb, Z.ltb_irrefl;
    reflexivity.
Qed.

Lemma unmarshalLoop_unroll (d : list byte) (fuel : nat) (i i' : Z)
    (m m' : M) :
  i < len d -> step d i m = Ok (i', m') ->
  unmarshalLoop step d (S fuel) i m = unmarshalLoop step d fuel i' m'.
Proof.
  intros Hi Hs. simpl. destruct (Z.ltb_spec i (len d)); [|lia].
  rewrite Hs. reflexivity.
Qed.

Lemma unmarshalLoop_fail (d : list byte) (fuel : nat) (i : Z) (m : M) e :
  i < len d -> step d i m = Err e ->
  unmarshalLoop step d (S fuel) i m = Err e.
Proof.
  intros Hi Hs. simpl. destruct (Z.ltb_spec i (len d)); [|lia].
  rewrite Hs. reflexivity.
Qed.

Lemma unmarshalLoop_fuel_mono (d : list byte) (fuel fuel' : nat) (i : Z)
    (m : M) r :
  (fuel <= fuel')%nat -> r <> OutOfFuel ->
  unmarshalLoop step d fuel i m = r -> unmarshalLoop step d fuel' i m = r.
Proof.
  revert fuel' i m.
  induction fuel as [|fuel IH]; intros fuel' i m Hf Hr H.
  - simpl in H. destruct fuel'; simpl; destruct (i <? len d);
      try assumption; congruence.
  - destruct fuel' as [|fuel']; [lia|]. simpl in *.
    destruct (i <? len d); [|assumption].
    destruct (step d i m) as [[i1 m1]| | |]; cbn [bind] in *;
      try assumption.
    apply IH; [lia | assumption | assumption].
Qed.

Lemma unmarshalLoop_returns (d : list byte) (fuel : nat) (i : Z) (m : M) :
  len d <= maxInt -> 0 <= i -> len d - i <= Z.of_nat fuel ->
  returns (unmarshalLoop step d fuel i m).
Proof.
  intros Hd. revert i m.
  induction fuel as [|fuel IH]; intros i m Hi Hf; simpl.
  - destruct (Z.ltb_spec i (len d)); [lia|].
    destruct (i >? len d); exact I.
  - destruct (Z.ltb_spec i (len d)).
    + pose proof (step_returns step Hstep d i m Hd ltac:(lia)) as Hr.
      destruct (step d i m) as [[i1 m1]| | |] eqn:E; try exact Hr.
      apply (step_progress step Hstep) in E; [|assumption].
      cbn [bind]. apply IH; lia.
    + destruct (i >? len d); exact I.
Qed.

(** A run that decodes [d] completely does the same inside a longer
    buffer, and leaves the loop at the end of [d]. *)
Lemma unmarshalLoop_frame (pre d suf : list byte) (fuel k : nat) (i : Z)
    (m m' : M) r :
  len (pre ++ d ++ suf) <= maxInt ->
  unmarshalLoop step d fuel i m = Ok m' ->
  r <> OutOfFuel ->
  unmarshalLoop step (pre ++ d ++ suf) k (len pre + len d) m' = r ->
  unmarshalLoop step (pre ++ d ++ suf) (fuel + k) (len pre + i) m = r.
Proof.
  intros HD. pose proof (len_frame_bound _ _ _ HD) as Hd.
  pose proof (len_nonneg pre). pose proof (len_nonneg suf).
  revert i m.
  induction fuel as [|fuel IH]; intros i m H1 Hr H2.
  - simpl in H1. destruct (Z.ltb_spec i (len d)); [discriminate|].
    rewrite Z.gtb_ltb in H1.
    destruct (Z.ltb_spec (len d) i); [discriminate|].
    injection H1 as <-. replace i with (len d) by lia.
    simpl. exact H2.
  - simpl in H1. destruct (Z.ltb_spec i (len d)).
    + destruct (step d i m) as [[i1 m1]| | |] eqn:E; try discriminate H1.
      cbn [bind] in H1.
      pose proof (step_frame step Hstep pre d suf _ _ _ _ HD E) as F.
      replace (S fuel + k)%nat with (S (fuel + k)) by lia.
      assert (Hlt : len pre + i < len (pre ++ d ++ suf))
        by (rewrite !len_app; lia).
      rewrite (unmarshalLoop_unroll (pre ++ d ++ suf) (fuel + k)
                 (len pre + i) (len pre + i1) m m1 Hlt F).
      apply IH; assumption.
    + rewrite Z.gtb_ltb in H1.
      destruct (Z.ltb_spec (len d) i); [discriminate|].
      injection H1 as <-. replace i with (len d) by lia.
      apply unmarshalLoop_fuel_mono with (fuel := k); [lia|assumption..].
Qed.

(** Decoding a concatenation: the second part is decoded into the message
    the first part left. *)
Lemma unmarshalLoop_app (a b : list byte) (m0 m1 m2 : M) :
  len (a ++ b) <= maxInt ->
  unmarshalLoop step a (length a) 0 m0 = Ok m1 ->
  unmarshalLoop step b (length b) 0 m1 = Ok m2 ->
  unmarshalLoop step (a ++ b) (length (a ++ b)) 0 m0 = Ok m2.
Proof.
  intros Hab Ha Hb.
  rewrite length_app.
  pose proof (unmarshalLoop_frame [] a b (length a) (length b) 0 m0 m1
                (Ok m2) Hab Ha ltac:(discriminate)) as F.
  simpl in F. apply F. clear F.
  pose proof (unmarshalLoop_frame a b [] (length b) 0 0 m1 m2
                (Ok m2)) as G.
  rewrite app_nil_r, Z.add_0_r, Nat.add_0_r in G.
  apply G; [assumption | assumption | discriminate |].
  rewrite <- len_app. apply unmarshalLoop_end.
Qed.

(** A failing round right after a completely decoded prefix fails the
    whole run. *)
Lemma unmarshalLoop_app_fail (a b : list byte) (m0 m1 : M) e :
  len (a ++ b) <= maxInt -> 0 < len b ->
  unmarshalLoop step a (length a) 0 m0 = Ok m1 ->
  step (a ++ b) (len a) m1 = Err e ->
  unmarshalLoop step (a ++ b) (length (a ++ b)) 0 m0 = Err e.
Proof.
  intros Hab Hb Ha Hs.
  rewrite length_app.
  pose proof (unmarshalLoop_frame [] a b (length a) (length b) 0 m0 m1
                (Err e) Hab Ha ltac:(discriminate)) as F.
  simpl in F. apply F. clear F.
  destruct (length b) as [|n] eqn:E; [unfold len in Hb; lia|].
  apply unmarshalLoop_fail; [rewrite len_app, ?len_nil; lia | assumption].
Qed.
End Loop.

(** ** The three rounds are well behaved *)

(** Splits the [switch fieldNum] of a round found in [H]. *)
Ltac split_cases H :=
  repeat match type of H with
         | (if ?c then _ else _) = Ok _ => destruct c
         end.

Ltac split_cases_goal :=
  repeat match goal with
         | |- context [if ?c =? ?n then _ else _] => destruct (c =? n)
         end.

Ltac progress_case H Hd :=
  match type of H with
  | bind (readString ?f ?d ?wt ?i) _ = _ =>
      let E := fresh "E" in
      destruct (readString f d wt i) as [[? ?]| | |] eqn:E;
      try discriminate H; cbn [bind] in H; injection H as <- <-;
      apply readString_progress in E; [lia | exact Hd]
  | bind (skipUnknown ?d ?i) _ = _ =>
      let E := fresh "E" in
      destruct (skipUnknown d i) as [?| | |] eqn:E;
      try discriminate H; cbn [bind] in H; injection H as <- <-;
      apply skipUnknown_progress in E; [lia | exact Hd]
  end.

Ltac frame_case H HD :=
  match type of H with
  | bind (readString ?f ?d ?wt ?i) _ = _ =>
      let E := fresh "E" in
      destruct (readString f d wt i) as [[? ?]| | |] eqn:E;
      try discriminate H; cbn [bind] in H; injection H as <- <-;
      rewrite (readString_frame _ _ _ _ _ _ _ _ HD E); reflexivity
  | bind (skipUnknown ?d ?i) _ = _ =>
      let E := fresh "E" in
      destruct (skipUnknown d i) as [?| | |] eqn:E;
      try discriminate H; cbn [bind] in H; injection H as <- <-;
      rewrite (skipUnknown_frame _ _ _ _ _ HD E); reflexivity
  end.

Ltac returns_case Hd :=
  match goal with
  | |- returns (bind (readString ?f ?d ?wt ?i) _) =>
      let R := fresh "R" in
      pose proof (readString_returns f d wt i Hd ltac:(lia)) as R;
      destruct (readString f d wt i) as [[? ?]| | |]; exact R || exact I
  | |- returns (bind (skipUnknown ?d ?i) _) =>
      let R := fresh "R" in
      pose proof (skipUnknown_returns d i Hd ltac:(lia)) as R;
      destruct (skipUnknown d i) as [?| | |]; exact R || exact I
  end.

Lemma FungibleTokenPacketData_step_ok : step_ok FungibleTokenPacketData_step.
Proof.
  split.
  - intros d i m i' m' Hd H. unfold FungibleTokenPacketData_step in H.
    destruct (readTag d i) as [[[fn wt] i1]| | |] eqn:E; try discriminate H.
    cbn [bind] in H. apply readTag_progress in E; [|assumption].
    split_cases H; progress_case H Hd.
  - intros pre d suf i m i' m' HD H.
    unfold FungibleTokenPacketData_step in *.
    destruct (readTag d i) as [[[fn wt] i1]| | |] eqn:E; try discriminate H.
    rewrite (readTag_frame _ _ _ _ _ HD E).
    cbn [bind fst snd] in *.
    split_cases H; frame_case H HD.
  - intros d i m Hd Hi. unfold FungibleTokenPacketData_step.
    pose proof (readTag_returns d i Hd ltac:(lia)) as R.
    destruct (readTag d i) as [[[fn wt] i1]| | |] eqn:E; try exact R.
    cbn [bind]. apply readTag_progress in E; [|assumption].
    split_cases_goal; returns_case Hd.
Qed.

Lemma Token_step_ok : step_ok Token_step.
Proof.
  split.
  - intros d i m i' m' Hd H. unfold Token_step in H.
    destruct (readTag d i) as [[[fn wt] i1]| | |] eqn:E; try discriminate H.
    cbn [bind] in H. apply readTag_progress in E; [|assumption].
    split_cases H; try progress_case H Hd; try discriminate H.
    unfold readVarintU64 in H.
    destruct (varintLoop accU64 d varintFuel 0 i1 0) as [[v i2]| | |] eqn:E2;
      try discriminate H.
    cbn [bind] in H. injection H as <- <-.
    apply varintLoop_progress in E2; [lia | assumption].
  - intros pre d suf i m i' m' HD H. unfold Token_step in *.
    destruct (readTag d i) as [[[fn wt] i1]| | |] eqn:E; try discriminate H.
    rewrite (readTag_frame _ _ _ _ _ HD E).
    cbn [bind fst snd] in *.
    split_cases H; try frame_case H HD; try discriminate H.
    unfold readVarintU64 in *.
    destruct (varintLoop accU64 d varintFuel 0 i1 0) as [[v i2]| | |] eqn:E2;
      try discriminate H.
    rewrite (varintLoop_frame _ _ _ _ _ _ _ _ _ _ HD E2).
    cbn [bind] in *. injection H as <- <-. reflexivity.
  - intros d i m Hd Hi. unfold Token_step.
    pose proof (readTag_returns d i Hd ltac:(lia)) as R.
    destruct (readTag d i) as [[[fn wt] i1]| | |] eqn:E; try exact R.
    cbn [bind]. apply readTag_progress in E; [|assumption].
    split_cases_goal; try returns_case Hd.
    destruct (negb (wt =? 0)); [exact I|].
    pose proof (readVarint_returns accU64 d i1 Hd ltac:(lia)) as R2.
    unfold readVarintU64.
    destruct (varintLoop accU64 d varintFuel 0 i1 0) as [[v i2]| | |];
      exact R2 || exact I.
Qed.

Lemma Token_Unmarshal_returns (m : Token) (d : list byte) :
  len d <= maxInt -> returns (Token_Unmarshal m d).
Proof.
  intros Hd. apply (unmarshalLoop_returns _ Token_step_ok); unfold len in *; lia.
Qed.

Lemma readToken_progress (d : list byte) (wt i : Z) t i' :
  len d <= maxInt ->
  readToken d wt i = Ok (t, i') -> 0 <= i /\ i <= i' <= len d.
Proof.
  intros Hd H. unfold readToken, readVarintInt in H.
  destruct (negb (wt =? 2)); [discriminate|].
  destruct (varintLoop accInt d varintFuel 0 i 0) as [[v i1]| | |] eqn:E;
    try discriminate H.
  pose proof (varintLoop_accInt_range d varintFuel 0 i 0 v i1
                ltac:(lia) E) as Hv.
  apply varintLoop_progress in E; [|assumption].
  cbn [bind] in H. inv_ok H. subst.
  rewrite addInt_nonneg in * by lia. lia.
Qed.

Lemma readToken_frame (pre d suf : list byte) (wt i : Z) t i' :
  len (pre ++ d ++ suf) <= maxInt ->
  readToken d wt i = Ok (t, i') ->
  readToken (pre ++ d ++ suf) wt (len pre + i) = Ok (t, len pre + i').
Proof.
  intros HD H. pose proof (len_frame_bound _ _ _ HD) as Hd.
  unfold readToken, readVarintInt in *.
  destruct (negb (wt =? 2)); [discriminate|].
  destruct (varintLoop accInt d varintFuel 0 i 0) as [[v i1]| | |] eqn:E;
    try discriminate H.
  pose proof (varintLoop_accInt_range d varintFuel 0 i 0 v i1
                ltac:(lia) E) as Hv.
  rewrite (varintLoop_frame _ _ _ _ _ _ _ _ _ _ HD E).
  apply varintLoop_progress in E; [|assumption].
  cbn [bind] in *.
  destruct (Z.ltb_spec v 0); [discriminate|].
  destruct (Z.ltb_spec (addInt i1 v) 0); [discriminate|].
  rewrite addInt_nonneg in H by lia.
  rewrite Z.gtb_ltb in H.
  destruct (Z.ltb_spec (len d) (i1 + v)); [discriminate|].
  destruct (slice d i1 (i1 + v)) as [sub| | |] eqn:Es; try discriminate H.
  cbn [bind] in H.
  destruct (Token_Unmarshal Token_zero sub) as [t'| | |] eqn:Et;
    try discriminate H.
  cbn [bind] in H. injection H as <- <-.
  pose proof (len_nonneg pre). pose proof (len_nonneg suf).
  rewrite !len_app in *.
  rewrite addInt_small by lia.
  destruct (Z.ltb_spec (len pre + i1 + v) 0); [lia|].
  rewrite Z.gtb_ltb.
  destruct (Z.ltb_spec (len pre + (len d + len suf)) (len pre + i1 + v));
    [lia|].
  replace (len pre + i1 + v) with (len pre + (i1 + v)) by lia.
  rewrite (slice_frame pre d suf _ _ _ Es). cbn [bind].
  rewrite Et. reflexivity.
Qed.

Lemma readToken_returns (d : list byte) (wt i : Z) :
  len d <= maxInt -> 0 <= i -> returns (readToken d wt i).
Proof.
  intros Hd Hi. unfold readToken, readVarintInt.
  destruct (negb (wt =? 2)); [exact I|].
  pose proof (readVarint_returns accInt d i Hd Hi) as R.
  destruct (varintLoop accInt d varintFuel 0 i 0) as [[v i1]| | |] eqn:E;
    try exact R.
  pose proof (varintLoop_accInt_range d varintFuel 0 i 0 v i1
                ltac:(lia) E) as Hv.
  apply varintLoop_progress in E; [|assumption].
  cbn [bind].
  destruct (Z.ltb_spec v 0); [exact I|].
  destruct (Z.ltb_spec (addInt i1 v) 0); [exact I|].
  rewrite addInt_nonneg by lia.
  rewrite Z.gtb_ltb.
  destruct (Z.ltb_spec (len d) (i1 + v)); [exact I|].
  rewrite slice_Ok by lia. cbn [bind].
  set (sub := take _ _).
  assert (Hs : len sub <= maxInt).
  { unfold sub, len in *. rewrite length_take, length_drop. lia. }
  pose proof (Token_Unmarshal_returns Token_zero sub Hs) as R2.
  destruct (Token_Unmarshal Token_zero sub); exact R2 || exact I.
Qed.

Lemma FungibleTokenPacketDataV2_step_ok :
  step_ok FungibleTokenPacketDataV2_step.
Proof.
  split.
  - intros d i m i' m' Hd H. unfold FungibleTokenPacketDataV2_step in H.
    destruct (readTag d i) as [[[fn wt] i1]| | |] eqn:E; try discriminate H.
    cbn [bind] in H. apply readTag_progress in E; [|assumption].
    split_cases H; try progress_case H Hd.
    destruct (readToken d wt i1) as [[t i2]| | |] eqn:E2;
      try discriminate H.
    cbn [bind] in H. injection H as <- <-.
    apply readToken_progress in E2; [lia | assumption].
  - intros pre d suf i m i' m' HD H.
    unfold FungibleTokenPacketDataV2_step in *.
    destruct (readTag d i) as [[[fn wt] i1]| | |] eqn:E; try discriminate H.
    rewrite (readTag_frame _ _ _ _ _ HD E).
    cbn [bind fst snd] in *.
    split_cases H; try frame_case H HD.
    destruct (readToken d wt i1) as [[t i2]| | |] eqn:E2;
      try discriminate H.
    rewrite (readToken_frame _ _ _ _ _ _ _ HD E2).
    cbn [bind] in *. injection H as <- <-. reflexivity.
  - intros d i m Hd Hi. unfold FungibleTokenPacketDataV2_step.
    pose proof (readTag_returns d i Hd ltac:(lia)) as R.
    destruct (readTag d i) as [[[fn wt] i1]| | |] eqn:E; try exact R.
    cbn [bind]. apply readTag_progress in E; [|assumption].
    split_cases_goal; try returns_case Hd.
    pose proof (readToken_returns d wt i1 Hd ltac:(lia)) as R2.
    destruct (readToken d wt i1) as [[t i2]| | |]; exact R2 || exact I.
Qed.

(** ** Decoding one encoded field *)

Lemma varintBytes_S (k : nat) (v : Z) :
  varintBytes (S k) v =
  if 128 <=? v
  then uint8 (Z.lor (Z.land v 127) 128) :: varintBytes k (Z.shiftr v 7)
  else [uint8 v].
Proof. reflexivity. Qed.

Lemma varint_small (v : Z) : 0 <= v < 128 -> varint v = [uint8 v].
Proof.
  intros Hv. unfold varint. rewrite varintBytes_S.
  destruct (Z.leb_spec 128 v); [lia | reflexivity].
Qed.

Lemma readVarintU64_byte (pre rest : list byte) (t : byte) :
  byte_to_Z t < 128 -> len (pre ++ t :: rest) <= maxInt ->
  readVarintU64 (pre ++ t :: rest) (len pre) = Ok (byte_to_Z t, len pre + 1).
Proof.
  intros Ht Hd. pose proof (byte_to_Z_range t) as Hr.
  pose proof (readVarintU64_varint pre rest (byte_to_Z t)) as H.
  rewrite varint_small, uint8_byte_to_Z in H by lia.
  apply H; [lia | exact Hd].
Qed.

Lemma readTag_byte (pre rest : list byte) (t : byte) (fn wt : Z) :
  byte_to_Z t < 128 ->
  int32 (Z.shiftr (byte_to_Z t) 3) = fn -> Z.land (byte_to_Z t) 7 = wt ->
  wt <> 4 -> 0 < fn ->
  len (pre ++ t :: rest) <= maxInt ->
  readTag (pre ++ t :: rest) (len pre) = Ok (fn, wt, len pre + 1).
Proof.
  intros Ht Hfn Hwt H4 Hpos Hd. unfold readTag.
  rewrite readVarintU64_byte by assumption. cbn [bind].
  rewrite Hfn, Hwt.
  destruct (Z.eqb_spec wt 4); [contradiction|].
  destruct (Z.leb_spec fn 0); [lia|]. reflexivity.
Qed.

Lemma readString_wire f (pre s suf : list byte) :
  len (pre ++ varint (len s) ++ s ++ suf) <= maxInt ->
  readString f (pre ++ varint (len s) ++ s ++ suf) 2 (len pre)
  = Ok (s, len pre + len (varint (len s)) + len s).
Proof.
  intros Hd. unfold readString. cbn [Z.eqb Pos.eqb negb].
  pose proof (len_nonneg pre). pose proof (len_nonneg s).
  pose proof (len_nonneg suf). pose proof (len_nonneg (varint (len s))).
  assert (Hl : len pre + (len (varint (len s)) + (len s + len suf))
               <= maxInt) by (rewrite !len_app in Hd; exact Hd).
  rewrite readVarintU64_varint by (try assumption; lia). cbn [bind].
  rewrite wrapInt_small by lia.
  destruct (Z.ltb_spec (len s) 0); [lia|].
  rewrite addInt_small by lia.
  destruct (Z.ltb_spec (len pre + len (varint (len s)) + len s) 0); [lia|].
  rewrite Z.gtb_ltb, !len_app.
  match goal with |- context [?a <? ?b] =>
    destruct (Z.ltb_spec a b); [lia|] end.
  replace (pre ++ varint (len s) ++ s ++ suf)
    with ((pre ++ varint (len s)) ++ s ++ suf)
    by (rewrite <- app_assoc; reflexivity).
  replace (len pre + len (varint (len s))) with (len (pre ++ varint (len s)))
    by (rewrite len_app; reflexivity).
  rewrite slice_middle. reflexivity.
Qed.

(** A tag byte followed by a length-delimited payload, read at [len pre]. *)
Lemma readTag_readString f (pre s suf : list byte) (t : byte) (fn : Z) :
  byte_to_Z t < 128 ->
  int32 (Z.shiftr (byte_to_Z t) 3) = fn -> Z.land (byte_to_Z t) 7 = 2 ->
  0 < fn ->
  len (pre ++ wireString t s ++ suf) <= maxInt ->
  readTag (pre ++ wireString t s ++ suf) (len pre) = Ok (fn, 2, len pre + 1)
  /\ readString f (pre ++ wireString t s ++ suf) 2 (len pre + 1)
     = Ok (s, len pre + len (wireString t s)).
Proof.
  intros Ht Hfn Hwt Hpos Hd. unfold wireString in *.
  cbn [app] in *. split.
  - apply readTag_byte; try assumption. lia.
  - replace (pre ++ t :: (varint (len s) ++ s) ++ suf)
      with ((pre ++ [t]) ++ varint (len s) ++ s ++ suf) in *
      by (rewrite <- !app_assoc; reflexivity).
    replace (len pre + 1) with (len (pre ++ [t]))
      by (rewrite len_app, len_cons, len_nil; lia).
    rewrite readString_wire by assumption.
    apply f_equal. apply f_equal.
    rewrite !len_app, !len_cons, len_nil, len_app. lia.
Qed.

Lemma unmarshalLoop_single {M} (step : list byte -> Z -> M -> result (Z * M))
    (d : list byte) (m m' : M) :
  0 < len d -> step d 0 m = Ok (len d, m') ->
  unmarshalLoop step d (length d) 0 m = Ok m'.
Proof.
  intros Hd Hs. destruct (length d) as [|n] eqn:E; [unfold len in Hd; lia|].
  rewrite (unmarshalLoop_unroll step d n 0 (len d) m m' Hd Hs).
  apply unmarshalLoop_end.
Qed.

Lemma unmarshalLoop_nil {M} (step : list byte -> Z -> M -> result (Z * M))
    (m : M) : unmarshalLoop step [] 0 0 m = Ok m.
Proof. reflexivity. Qed.

Lemma wireString_len_pos (t : byte) (s : list byte) :
  0 < len (wireString t s).
Proof.
  unfold wireString. rewrite len_cons.
  pose proof (len_nonneg (varint (len s) ++ s)). lia.
Qed.

Lemma len_zero_nil {A} (l : list A) : len l = 0 -> l = [].
Proof. destruct l; [reflexivity|]. rewrite len_cons, <- (Z.add_0_r 0).
  pose proof (len_nonneg l). lia. Qed.


Lemma wireString_head f (t : byte) (s : list byte) (fn : Z) :
  byte_to_Z t < 128 ->
  int32 (Z.shiftr (byte_to_Z t) 3) = fn -> Z.land (byte_to_Z t) 7 = 2 ->
  0 < fn ->
  len (wireString t s) <= maxInt ->
  readTag (wireString t s) 0 = Ok (fn, 2, 1)
  /\ readString f (wireString t s) 2 1 = Ok (s, len (wireString t s)).
Proof.
  intros Ht Hfn Hwt Hpos Hd.
  destruct (readTag_readString f [] s [] t fn Ht Hfn Hwt Hpos) as [R1 R2].
  { rewrite app_nil_r. exact Hd. }
  rewrite app_nil_r in R1, R2. cbn [app] in R1, R2.
  change (len []) with 0 in R1, R2. split; assumption.
Qed.

Ltac decode_string_field f t fn step :=
  let Hd := fresh "Hd" in
  let R1 := fresh "R" in
  let R2 := fresh "R" in
  intros Hd;
  apply unmarshalLoop_single; [apply wireString_len_pos|];
  match goal with
  | |- _ (wireString _ ?s) 0 _ = _ =>
      destruct (wireString_head f t s fn) as [R1 R2];
      [reflexivity | reflexivity | reflexivity | lia | exact Hd |]
  end;
  unfold step; rewrite R1; cbn [bind Z.eqb Pos.eqb];
  rewrite R2; reflexivity.

Lemma FungibleTokenPacketData_decode_Denom s m :
  len (wireString x0a s) <= maxInt ->
  FungibleTokenPacketData_Unmarshal m (wireString x0a s)
  = Ok (set_Denom s m).
Proof. decode_string_field "Denom"%string x0a 1 FungibleTokenPacketData_step. Qed.

Lemma FungibleTokenPacketData_decode_Amount s m :
  len (wireString x12 s) <= maxInt ->
  FungibleTokenPacketData_Unmarshal m (wireString x12 s)
  = Ok (set_Amount s m).
Proof. decode_string_field "Amount"%string x12 2 FungibleTokenPacketData_step. Qed.

Lemma FungibleTokenPacketData_decode_Sender s m :
  len (wireString x1a s) <= maxInt ->
  FungibleTokenPacketData_Unmarshal m (wireString x1a s)
  = Ok (set_Sender s m).
Proof. decode_string_field "Sender"%string x1a 3 FungibleTokenPacketData_step. Qed.

Lemma FungibleTokenPacketData_decode_Receiver s m :
  len (wireString x22 s) <= maxInt ->
  FungibleTokenPacketData_Unmarshal m (wireString x22 s)
  = Ok (set_Receiver s m).
Proof. decode_string_field "Receiver"%string x22 4 FungibleTokenPacketData_step. Qed.

Lemma FungibleTokenPacketData_decode_Memo s m :
  len (wireString x2a s) <= maxInt ->
  FungibleTokenPacketData_Unmarshal m (wireString x2a s)
  = Ok (set_Memo s m).
Proof. decode_string_field "Memo"%string x2a 5 FungibleTokenPacketData_step. Qed.

Lemma Token_decode_Denom s m :
  len (wireString x0a s) <= maxInt ->
  Token_Unmarshal m (wireString x0a s) = Ok (set_Token_Denom s m).
Proof. decode_string_field "Denom"%string x0a 1 Token_step. Qed.

Lemma Token_decode_Trace s m :
  len (wireString x1a s) <= maxInt ->
  Token_Unmarshal m (wireString x1a s) = Ok (append_Token_Trace s m).
Proof. decode_string_field "Trace"%string x1a 3 Token_step. Qed.

Lemma FungibleTokenPacketDataV2_decode_Sender s m :
  len (wireString x12 s) <= maxInt ->
  FungibleTokenPacketDataV2_Unmarshal m (wireString x12 s)
  = Ok (set_V2_Sender s m).
Proof.
  decode_string_field "Sender"%string x12 2 FungibleTokenPacketDataV2_step.
Qed.

Lemma FungibleTokenPacketDataV2_decode_Receiver s m :
  len (wireString x1a s) <= maxInt ->
  FungibleTokenPacketDataV2_Unmarshal m (wireString x1a s)
  = Ok (set_V2_Receiver s m).
Proof.
  decode_string_field "Receiver"%string x1a 3 FungibleTokenPacketDataV2_step.
Qed.

Lemma FungibleTokenPacketDataV2_decode_Memo s m :
  len (wireString x22 s) <= maxInt ->
  FungibleTokenPacketDataV2_Unmarshal m (wireString x22 s)
  = Ok (set_V2_Memo s m).
Proof.
  decode_string_field "Memo"%string x22 4 FungibleTokenPacketDataV2_step.
Qed.

Lemma readTag_head (rest : list byte) (t : byte) (fn wt : Z) :
  byte_to_Z t < 128 ->
  int32 (Z.shiftr (byte_to_Z t) 3) = fn -> Z.land (byte_to_Z t) 7 = wt ->
  wt <> 4 -> 0 < fn ->
  len (t :: rest) <= maxInt ->
  readTag (t :: rest) 0 = Ok (fn, wt, 1).
Proof.
  intros Ht Hfn Hwt H4 Hpos Hd.
  exact (readTag_byte [] rest t fn wt Ht Hfn Hwt H4 Hpos Hd).
Qed.

Lemma Token_decode_Amount (v : Z) (m : Token) :
  0 <= v < 2 ^ 64 ->
  Token_Unmarshal m (x10 :: varint v) = Ok (set_Token_Amount v m).
Proof.
  intros Hv.
  assert (Hl : len (x10 :: varint v) <= maxInt).
  { rewrite len_cons, varint_len by lia.
    pose proof (sovPacket_pos v Hv). lia. }
  apply unmarshalLoop_single.
  { rewrite len_cons. pose proof (len_nonneg (varint v)). lia. }
  unfold Token_step.
  rewrite (readTag_head (varint v) x10 2 0);
    [|reflexivity|reflexivity|reflexivity|lia|lia|exact Hl].
  cbn [bind Z.eqb Pos.eqb negb].
  pose proof (readVarintU64_varint [x10] [] v Hv) as R.
  rewrite app_nil_r in R. cbn [app] in R.
  change (len [x10]) with 1 in R. rewrite R by exact Hl.
  cbn [bind]. apply f_equal. f_equal.
  rewrite !len_cons. lia.
Qed.

Lemma readToken_wire (pre suf : list byte) (t : Token) (w : list byte) :
  Token_Unmarshal Token_zero w = Ok t ->
  len (pre ++ varint (len w) ++ w ++ suf) <= maxInt ->
  readToken (pre ++ varint (len w) ++ w ++ suf) 2 (len pre)
  = Ok (t, len pre + len (varint (len w)) + len w).
Proof.
  intros Ht Hd. unfold readToken. cbn [Z.eqb Pos.eqb negb].
  pose proof (len_nonneg pre). pose proof (len_nonneg w).
  pose proof (len_nonneg suf). pose proof (len_nonneg (varint (len w))).
  assert (Hl : len pre + (len (varint (len w)) + (len w + len suf))
               <= maxInt) by (rewrite !len_app in Hd; exact Hd).
  rewrite readVarintInt_varint by (try assumption; lia). cbn [bind].
  destruct (Z.ltb_spec (len w) 0); [lia|].
  rewrite addInt_small by lia.
  destruct (Z.ltb_spec (len pre + len (varint (len w)) + len w) 0); [lia|].
  rewrite Z.gtb_ltb, !len_app.
  match goal with |- context [?a <? ?b] =>
    destruct (Z.ltb_spec a b); [lia|] end.
  replace (pre ++ varint (len w) ++ w ++ suf)
    with ((pre ++ varint (len w)) ++ w ++ suf)
    by (rewrite <- app_assoc; reflexivity).
  replace (len pre + len (varint (len w))) with (len (pre ++ varint (len w)))
    by (rewrite len_app; reflexivity).
  rewrite slice_middle. cbn [bind]. rewrite Ht. reflexivity.
Qed.

Lemma FungibleTokenPacketDataV2_decode_Token (t : Token) (w : list byte) m :
  Token_Unmarshal Token_zero w = Ok t ->
  len (wireString x0a w) <= maxInt ->
  FungibleTokenPacketDataV2_Unmarshal m (wireString x0a w)
  = Ok (append_V2_Tokens t m).
Proof.
  intros Ht Hd.
  apply unmarshalLoop_single; [apply wireString_len_pos|].
  unfold FungibleTokenPacketDataV2_step, wireString in *.
  rewrite (readTag_head (varint (len w) ++ w) x0a 1 2);
    [|reflexivity|reflexivity|reflexivity|lia|lia|exact Hd].
  cbn [bind Z.eqb Pos.eqb].
  pose proof (readToken_wire [x0a] [] t w Ht) as R.
  rewrite app_nil_r in R. cbn [app] in R.
  change (len [x0a]) with 1 in R. rewrite R by exact Hd.
  cbn [bind]. apply f_equal. f_equal.
  rewrite !len_cons, len_app. lia.
Qed.

(** ** Decoding a whole encoded message *)

Lemma decode_opt {M} (U : M -> list byte -> result M)
    (set : list byte -> M -> M) (t : byte) (s : list byte) (m : M) :
  (forall m, U m [] = Ok m) ->
  (len (wireString t s) <= maxInt -> U m (wireString t s) = Ok (set s m)) ->
  len (wireStringOpt t s) <= maxInt ->
  U m (wireStringOpt t s) = Ok (if len s >? 0 then set s m else m).
Proof.
  intros Hnil Hdec Hd. unfold wireStringOpt in *.
  destruct (len s >? 0); [apply Hdec, Hd | apply Hnil].
Qed.

Lemma FungibleTokenPacketData_Unmarshal_nil m :
  FungibleTokenPacketData_Unmarshal m [] = Ok m.
Proof. reflexivity. Qed.

Lemma Token_Unmarshal_nil m : Token_Unmarshal m [] = Ok m.
Proof. reflexivity. Qed.

Lemma FungibleTokenPacketDataV2_Unmarshal_nil m :
  FungibleTokenPacketDataV2_Unmarshal m [] = Ok m.
Proof. reflexivity. Qed.

Lemma FungibleTokenPacketData_Unmarshal_app a b m0 m1 m2 :
  len (a ++ b) <= maxInt ->
  FungibleTokenPacketData_Unmarshal m0 a = Ok m1 ->
  FungibleTokenPacketData_Unmarshal m1 b = Ok m2 ->
  FungibleTokenPacketData_Unmarshal m0 (a ++ b) = Ok m2.
Proof. apply (unmarshalLoop_app _ FungibleTokenPacketData_step_ok). Qed.

Lemma Token_Unmarshal_app a b m0 m1 m2 :
  len (a ++ b) <= maxInt ->
  Token_Unmarshal m0 a = Ok m1 -> Token_Unmarshal m1 b = Ok m2 ->
  Token_Unmarshal m0 (a ++ b) = Ok m2.
Proof. apply (unmarshalLoop_app _ Token_step_ok). Qed.

Lemma FungibleTokenPacketDataV2_Unmarshal_app a b m0 m1 m2 :
  len (a ++ b) <= maxInt ->
  FungibleTokenPacketDataV2_Unmarshal m0 a = Ok m1 ->
  FungibleTokenPacketDataV2_Unmarshal m1 b = Ok m2 ->
  FungibleTokenPacketDataV2_Unmarshal m0 (a ++ b) = Ok m2.
Proof. apply (unmarshalLoop_app _ FungibleTokenPacketDataV2_step_ok). Qed.

(** Bounds on the parts of a bounded concatenation, for [lia]. *)
Ltac len_parts :=
  rewrite ?len_app in *;
  repeat match goal with
         | |- context [len ?l] =>
             lazymatch goal with
             | _ : 0 <= len l |- _ => fail
             | _ => pose proof (len_nonneg l)
             end
         | _ : context [len ?l] |- _ =>
             lazymatch goal with
             | _ : 0 <= len l |- _ => fail
             | _ => pose proof (len_nonneg l)
             end
         end.

Theorem FungibleTokenPacketData_Unmarshal_wire (p : FungibleTokenPacketData) :
  len (FungibleTokenPacketData_wire p) <= maxInt ->
  FungibleTokenPacketData_Unmarshal FungibleTokenPacketData_zero
    (FungibleTokenPacketData_wire p) = Ok p.
Proof.
  intros Hd. unfold FungibleTokenPacketData_wire in *.
  set (U := FungibleTokenPacketData_Unmarshal).
  assert (Hnil : forall m, U m [] = Ok m) by reflexivity.
  pose proof (fun s m => decode_opt U set_Denom x0a s m Hnil
     (FungibleTokenPacketData_decode_Denom s m)) as D1.
  pose proof (fun s m => decode_opt U set_Amount x12 s m Hnil
     (FungibleTokenPacketData_decode_Amount s m)) as D2.
  pose proof (fun s m => decode_opt U set_Sender x1a s m Hnil
     (FungibleTokenPacketData_decode_Sender s m)) as D3.
  pose proof (fun s m => decode_opt U set_Receiver x22 s m Hnil
     (FungibleTokenPacketData_decode_Receiver s m)) as D4.
  pose proof (fun s m => decode_opt U set_Memo x2a s m Hnil
     (FungibleTokenPacketData_decode_Memo s m)) as D5.
  unfold U in *.
  eapply FungibleTokenPacketData_Unmarshal_app; [exact Hd | apply D1 | ].
  { clear -Hd. len_parts. lia. }
  eapply FungibleTokenPacketData_Unmarshal_app; [| apply D2 | ].
  { clear -Hd. len_parts. lia. }
  { clear -Hd. len_parts. lia. }
  eapply FungibleTokenPacketData_Unmarshal_app; [| apply D3 | ].
  { clear -Hd. len_parts. lia. }
  { clear -Hd. len_parts. lia. }
  eapply FungibleTokenPacketData_Unmarshal_app; [| apply D4 | ].
  { clear -Hd. len_parts. lia. }
  { clear -Hd. len_parts. lia. }
  rewrite D5 by (clear -Hd; len_parts; lia).
  f_equal. clear.
  destruct p as [[|? ?] [|? ?] [|? ?] [|? ?] [|? ?]]; reflexivity.
Qed.

Lemma Token_decode_Traces (tr : list (list byte)) (m : Token) :
  len (concat (map (wireString x1a) tr)) <= maxInt ->
  Token_Unmarshal m (concat (map (wireString x1a) tr))
  = Ok (mkToken (Token_Denom m) (Token_Amount m) (Token_Trace m ++ tr)).
Proof.
  revert m. induction tr as [|s tr IH]; intros m Hd.
  - rewrite app_nil_r. destruct m; reflexivity.
  - cbn [map concat] in *.
    eapply Token_Unmarshal_app; [exact Hd | apply Token_decode_Trace | ].
    { clear -Hd. len_parts. lia. }
    rewrite IH by (clear -Hd; len_parts; lia).
    destruct m; cbn. rewrite <- app_assoc. reflexivity.
Qed.

Lemma wireAmount_len (v : Z) : 0 <= v < 2 ^ 64 -> len (wireAmount v) <= 11.
Proof.
  intros Hv. unfold wireAmount. destruct (v =? 0); [rewrite len_nil; lia|].
  rewrite len_cons, varint_len by lia. pose proof (sovPacket_pos v Hv). lia.
Qed.

Lemma Token_decode_wireAmount (v : Z) (m : Token) :
  0 <= v < 2 ^ 64 ->
  Token_Unmarshal m (wireAmount v)
  = Ok (if v =? 0 then m else set_Token_Amount v m).
Proof.
  intros Hv. unfold wireAmount. destruct (v =? 0); [reflexivity|].
  apply Token_decode_Amount, Hv.
Qed.

Theorem Token_Unmarshal_wire (t : Token) :
  Token_wf t -> len (Token_wire t) <= maxInt ->
  Token_Unmarshal Token_zero (Token_wire t) = Ok t.
Proof.
  intros Hwf Hd. unfold Token_wire, Token_wf in *.
  pose proof (fun s m => decode_opt Token_Unmarshal set_Token_Denom x0a s m
     Token_Unmarshal_nil (Token_decode_Denom s m)) as D1.
  eapply Token_Unmarshal_app; [exact Hd | apply D1 | ].
  { clear -Hd. len_parts. lia. }
  eapply Token_Unmarshal_app; [| apply Token_decode_wireAmount, Hwf | ].
  { clear -Hd. len_parts. lia. }
  rewrite Token_decode_Traces by (clear -Hd; len_parts; lia).
  f_equal. clear -Hwf.
  destruct t as [[|? ?] a tr]; cbn in *;
    destruct (Z.eqb_spec a 0) as [->|]; reflexivity.
Qed.

Lemma FungibleTokenPacketDataV2_decode_Tokens (ts : list Token)
    (m : FungibleTokenPacketDataV2) :
  Forall Token_wf ts ->
  len (concat (map wireToken ts)) <= maxInt ->
  FungibleTokenPacketDataV2_Unmarshal m (concat (map wireToken ts))
  = Ok (mkFungibleTokenPacketDataV2 (V2_Tokens m ++ map Some ts)
          (V2_Sender m) (V2_Receiver m) (V2_Memo m)).
Proof.
  revert m. induction ts as [|t ts IH]; intros m Hwf Hd.
  - cbn. rewrite app_nil_r. destruct m; reflexivity.
  - cbn [map concat] in *. inversion Hwf as [|? ? Ht Hts]; subst.
    assert (Hw : len (wireToken t) <= maxInt)
      by (clear -Hd; len_parts; lia).
    eapply FungibleTokenPacketDataV2_Unmarshal_app; [exact Hd | | ].
    + unfold wireToken in *.
      apply FungibleTokenPacketDataV2_decode_Token; [|exact Hw].
      apply Token_Unmarshal_wire; [exact Ht|].
      clear -Hw. unfold wireString in Hw. rewrite len_cons in Hw.
      len_parts. lia.
    + rewrite IH; [|exact Hts|clear -Hd; len_parts; lia].
      destruct m; cbn. rewrite <- app_assoc. reflexivity.
Qed.

Theorem FungibleTokenPacketDataV2_Unmarshal_wire (ts : list Token)
    (sender receiver memo : list byte) :
  Forall Token_wf ts ->
  len (FungibleTokenPacketDataV2_wire ts sender receiver memo) <= maxInt ->
  FungibleTokenPacketDataV2_Unmarshal FungibleTokenPacketDataV2_zero
    (FungibleTokenPacketDataV2_wire ts sender receiver memo)
  = Ok (mkFungibleTokenPacketDataV2 (map Some ts) sender receiver memo).
Proof.
  intros Hwf Hd. unfold FungibleTokenPacketDataV2_wire in *.
  set (U := FungibleTokenPacketDataV2_Unmarshal).
  assert (Hnil : forall m, U m [] = Ok m) by reflexivity.
  pose proof (fun s m => decode_opt U set_V2_Sender x12 s m Hnil
     (FungibleTokenPacketDataV2_decode_Sender s m)) as D2.
  pose proof (fun s m => decode_opt U set_V2_Receiver x1a s m Hnil
     (FungibleTokenPacketDataV2_decode_Receiver s m)) as D3.
  pose proof (fun s m => decode_opt U set_V2_Memo x22 s m Hnil
     (FungibleTokenPacketDataV2_decode_Memo s m)) as D4.
  unfold U in *.
  eapply FungibleTokenPacketDataV2_Unmarshal_app; [exact Hd | | ].
  { apply FungibleTokenPacketDataV2_decode_Tokens; [exact Hwf|].
    clear -Hd. len_parts. lia. }
  eapply FungibleTokenPacketDataV2_Unmarshal_app; [| apply D2 | ].
  { clear -Hd. len_parts. lia. }
  { clear -Hd. len_parts. lia. }
  eapply FungibleTokenPacketDataV2_Unmarshal_app; [| apply D3 | ].
  { clear -Hd. len_parts. lia. }
  { clear -Hd. len_parts. lia. }
  rewrite D4 by (clear -Hd; len_parts; lia).
  f_equal. clear.
  destruct sender, receiver, memo; reflexivity.
Qed.

(** ** Writing into the buffer *)

Lemma split_front (front : list byte) (k : Z) :
  0 <= k <= len front ->
  exists a hole, front = a ++ hole /\ len a = len front - k /\ len hole = k.
Proof.
  intros Hk. exists (take (Z.to_nat (len front - k)) front),
    (drop (Z.to_nat (len front - k)) front).
  split; [symmetry; apply take_drop|].
  unfold len in *. rewrite length_take, length_drop. lia.
Qed.

Lemma setAt_middle (a rest : list byte) (h b : byte) :
  setAt (a ++ h :: rest) (len a) b = Ok (a ++ b :: rest).
Proof.
  unfold setAt. pose proof (len_nonneg a). pose proof (len_nonneg rest).
  rewrite len_app, len_cons.
  destruct (Z.ltb_spec (len a) 0); [lia|].
  destruct (Z.leb_spec (len a + (1 + len rest)) (len a)); [lia|].
  cbn [orb]. f_equal. unfold len. rewrite Nat2Z.id.
  replace (length a) with (length a + 0)%nat at 1 by lia.
  rewrite insert_app_r. reflexivity.
Qed.

Lemma copyAt_middle (a hole rest s : list byte) :
  len hole = len s ->
  copyAt (a ++ hole ++ rest) (len a) s = Ok (a ++ s ++ rest).
Proof.
  intros Hh. unfold copyAt.
  pose proof (len_nonneg a). pose proof (len_nonneg rest).
  pose proof (len_nonneg hole).
  rewrite !len_app.
  destruct (Z.ltb_spec (len a) 0); [lia|].
  destruct (Z.ltb_spec (len a + (len hole + len rest)) (len a)); [lia|].
  cbn [orb]. f_equal. unfold len in *. rewrite Nat2Z.id.
  rewrite !length_app.
  replace (length s `min` (length a + (length hole + length rest) - length a))%nat
    with (length s) by lia.
  rewrite take_app_length, firstn_all.
  rewrite drop_app_add.
  replace (length s) with (length hole) by lia.
  rewrite drop_app_length. reflexivity.
Qed.

Lemma encodeVarintLoop_spec (k : nat) :
  forall (a hole rest : list byte) (v : Z),
    (1 <= k)%nat -> 0 <= v < 2 ^ (7 * Z.of_nat k) ->
    len hole = len (varintBytes k v) ->
    len (a ++ hole ++ rest) <= maxInt ->
    encodeVarintLoop k (a ++ hole ++ rest) (len a) v
    = Ok (a ++ varintBytes k v ++ rest).
Proof.
  induction k as [|k IH]; intros a hole rest v Hk Hv Hh Hd; [lia|].
  rewrite varintBytes_S in *. cbn [encodeVarintLoop].
  destruct (Z.leb_spec 128 v) as [Hge|Hlt].
  - rewrite len_cons in Hh.
    destruct hole as [|h hole]; [rewrite len_nil in Hh;
      pose proof (len_nonneg (varintBytes k (Z.shiftr v 7))); lia|].
    rewrite len_cons in Hh. cbn [app].
    rewrite setAt_middle. cbn [bind].
    pose proof (len_nonneg a). pose proof (len_nonneg hole).
    pose proof (len_nonneg rest).
    rewrite addInt_small
      by (rewrite !len_app, len_cons in Hd; lia).
    set (b0 := uint8 (Z.lor (Z.land v 127) 128)).
    replace (a ++ b0 :: hole ++ rest) with ((a ++ [b0]) ++ hole ++ rest)
      by (rewrite <- app_assoc; reflexivity).
    replace (len a + 1) with (len (a ++ [b0]))
      by (rewrite len_app, len_cons, len_nil; lia).
    rewrite shiftr_7 in *.
    assert (Hq : 1 <= v / 128) by (apply Z.div_le_lower_bound; lia).
    assert (Hu : v / 128 < 2 ^ (7 * Z.of_nat k)).
    { apply Z.div_lt_upper_bound; [lia|].
      replace (7 * Z.of_nat (S k)) with (7 + 7 * Z.of_nat k) in Hv by lia.
      rewrite Z.pow_add_r in Hv by lia. lia. }
    assert (Hk1 : (1 <= k)%nat) by (destruct k; [simpl in Hu; lia | lia]).
    rewrite IH; try lia.
    + rewrite <- app_assoc. reflexivity.
    + rewrite !len_app, !len_cons, len_nil in *. lia.
  - rewrite len_cons, len_nil in Hh.
    destruct hole as [|h [|h' hole]]; rewrite ?len_cons, ?len_nil in Hh;
      try lia; try (pose proof (len_nonneg hole); lia).
    cbn [app]. apply setAt_middle.
Qed.

Lemma encodeVarintPacket_spec (front done : list byte) (v : Z) :
  0 <= v < 2 ^ 64 -> sovPacket v <= len front ->
  len (front ++ done) <= maxInt ->
  exists front',
    len front' = len front - sovPacket v /\
    encodeVarintPacket (front ++ done) (len front) v
    = Ok (front' ++ varint v ++ done, len front').
Proof.
  intros Hv Hs Hd. pose proof (sovPacket_pos v Hv) as Hp.
  destruct (split_front front (sovPacket v) ltac:(lia))
    as (a & hole & -> & Ha & Hh).
  exists a. split; [exact Ha|].
  unfold encodeVarintPacket. pose proof (len_nonneg a).
  rewrite subInt_small by (len_parts; lia).
  replace (len (a ++ hole) - sovPacket v) with (len a) by lia.
  rewrite <- app_assoc in *.
  assert (Hv' : 0 <= v < 2 ^ (7 * Z.of_nat 10)).
  { assert (2 ^ 64 <= 2 ^ (7 * Z.of_nat 10))
      by (apply Z.pow_le_mono_r; lia). lia. }
  rewrite (encodeVarintLoop_spec 10 a hole done v ltac:(lia) Hv');
    [reflexivity| |exact Hd].
  fold (varint v). rewrite varint_len by lia. exact Hh.
Qed.

Lemma setAt_front (front done : list byte) (b : byte) :
  1 <= len front ->
  exists front',
    len front' = len front - 1 /\
    setAt (front ++ done) (len front - 1) b = Ok (front' ++ b :: done).
Proof.
  intros Hl.
  destruct (split_front front 1 ltac:(lia)) as (a & hole & -> & Ha & Hh).
  destruct hole as [|h [|h' hole]]; rewrite ?len_cons, ?len_nil in Hh;
    try lia; try (pose proof (len_nonneg hole); lia).
  exists a. split; [exact Ha|].
  rewrite <- Ha, <- app_assoc. cbn [app]. apply setAt_middle.
Qed.

Lemma copyAt_front (front done s : list byte) :
  len s <= len front ->
  exists front',
    len front' = len front - len s /\
    copyAt (front ++ done) (len front - len s) s = Ok (front' ++ s ++ done).
Proof.
  intros Hl. pose proof (len_nonneg s).
  destruct (split_front front (len s) ltac:(lia))
    as (a & hole & -> & Ha & Hh).
  exists a. split; [exact Ha|].
  rewrite <- Ha, <- app_assoc. apply copyAt_middle, Hh.
Qed.

Lemma wireString_len (t : byte) (s : list byte) :
  len s < 2 ^ 64 ->
  len (wireString t s) = 1 + sovPacket (len s) + len s.
Proof.
  intros Hs. unfold wireString.
  rewrite len_cons, len_app, varint_len; [lia|].
  pose proof (len_nonneg s). lia.
Qed.

Lemma wireString_len_gt (t : byte) (s : list byte) :
  len s < len (wireString t s).
Proof.
  unfold wireString. rewrite len_cons, len_app.
  pose proof (len_nonneg (varint (len s))). lia.
Qed.

Lemma putString_writes (t : byte) (s : list byte) :
  writes (putString t s) (wireString t s).
Proof.
  intros front done Hc Hd.
  pose proof (len_nonneg s) as Hs0. pose proof (len_nonneg front).
  pose proof (len_nonneg done).
  assert (Hs : len s < 2 ^ 63) by (rewrite len_app in Hd;
    unfold wireString in Hc; rewrite len_cons, len_app in Hc;
    pose proof (len_nonneg (varint (len s))); lia).
  rewrite wireString_len in Hc by lia.
  pose proof (sovPacket_pos (len s) ltac:(lia)) as Hp.
  unfold putString.
  rewrite subInt_small by (rewrite len_app in Hd; lia).
  destruct (copyAt_front front done s ltac:(lia)) as (f1 & Hf1 & ->).
  cbn [bind]. rewrite <- Hf1. rewrite wrapU64_small by lia.
  destruct (encodeVarintPacket_spec f1 (s ++ done) (len s) ltac:(lia)
              ltac:(lia)) as (f2 & Hf2 & ->).
  { rewrite !len_app in *. lia. }
  cbn [bind].
  rewrite subInt_small by (rewrite len_app in Hd; lia).
  destruct (setAt_front f2 (varint (len s) ++ s ++ done) t ltac:(lia))
    as (f3 & Hf3 & ->).
  cbn [bind]. exists f3. split.
  - rewrite wireString_len by lia. lia.
  - rewrite Hf3. unfold wireString. cbn [app]. rewrite <- app_assoc.
    reflexivity.
Qed.

Lemma writes_nil : writes Ok [].
Proof.
  intros front done _ _. exists front. rewrite len_nil. split; [lia|].
  reflexivity.
Qed.

Lemma putStringOpt_writes (t : byte) (s : list byte) :
  writes (putStringOpt t s) (wireStringOpt t s).
Proof.
  unfold putStringOpt, wireStringOpt.
  destruct (len s >? 0); [apply putString_writes | apply writes_nil].
Qed.

Lemma writes_seq f g (c1 c2 : list byte) :
  writes f c1 -> writes g c2 ->
  writes (fun st => let* st := f st in g st) (c2 ++ c1).
Proof.
  intros Hf Hg front done Hc Hd.
  rewrite len_app in Hc.
  pose proof (len_nonneg c1). pose proof (len_nonneg c2).
  destruct (Hf front done ltac:(lia) Hd) as (f1 & Hf1 & ->).
  cbn [bind].
  destruct (Hg f1 (c1 ++ done) ltac:(lia)) as (f2 & Hf2 & ->).
  { rewrite !len_app in *. lia. }
  exists f2. split; [rewrite len_app; lia|].
  rewrite <- app_assoc. reflexivity.
Qed.

Lemma writes_forEach {A} (f : A -> list byte * Z -> result (list byte * Z))
    (c : A -> list byte) (l : list A) :
  (forall a, In a l -> writes (f a) (c a)) ->
  writes (forEach f l) (concat (map c (rev l))).
Proof.
  induction l as [|a l IH]; intros Hf.
  - apply writes_nil.
  - cbn [rev]. rewrite map_app, concat_app. cbn [map concat].
    rewrite app_nil_r. cbn [forEach].
    apply writes_seq; [apply Hf; left; reflexivity|].
    apply IH. intros b Hb. apply Hf. right. exact Hb.
Qed.

(** ** The encoders produce the wire format *)

Lemma sizeOf_string (n : Z) (t : byte) (s : list byte) :
  0 <= n -> n + len (wireStringOpt t s) <= maxInt ->
  (if len s >? 0
   then addInt n (addInt (addInt 1 (len s)) (sovPacket (wrapU64 (len s))))
   else n) = n + len (wireStringOpt t s).
Proof.
  intros Hn Hb. unfold wireStringOpt in *.
  destruct (len s >? 0); [|rewrite len_nil; lia].
  pose proof (len_nonneg s).
  assert (Hs : len s < 2 ^ 63).
  { unfold wireString in Hb. rewrite len_cons, len_app in Hb.
    pose proof (len_nonneg (varint (len s))). lia. }
  rewrite wireString_len in * by lia.
  pose proof (sovPacket_pos (len s) ltac:(lia)).
  rewrite wrapU64_small by lia.
  rewrite (addInt_small 1 (len s)) by lia.
  rewrite (addInt_small (1 + len s)) by lia.
  rewrite addInt_small by lia. lia.
Qed.

Lemma FungibleTokenPacketData_Size_wire (m : FungibleTokenPacketData) :
  len (FungibleTokenPacketData_wire m) <= maxInt ->
  FungibleTokenPacketData_Size m = len (FungibleTokenPacketData_wire m).
Proof.
  intros Hd. unfold FungibleTokenPacketData_Size,
    FungibleTokenPacketData_wire in *. cbv zeta.
  rewrite !len_app in *.
  pose proof (len_nonneg (wireStringOpt x0a (Denom m))).
  pose proof (len_nonneg (wireStringOpt x12 (Amount m))).
  pose proof (len_nonneg (wireStringOpt x1a (Sender m))).
  pose proof (len_nonneg (wireStringOpt x22 (Receiver m))).
  pose proof (len_nonneg (wireStringOpt x2a (Memo m))).
  rewrite (sizeOf_string 0 x0a (Denom m)) by lia.
  rewrite (sizeOf_string _ x12 (Amount m)) by lia.
  rewrite (sizeOf_string _ x1a (Sender m)) by lia.
  rewrite (sizeOf_string _ x22 (Receiver m)) by lia.
  rewrite (sizeOf_string _ x2a (Memo m)) by lia.
  lia.
Qed.

(** From a block that writes [wire] to the function that returns the
    buffer and the number of bytes written. *)
Lemma writes_sized f (wire dAtA : list byte) :
  writes f wire -> len wire <= len dAtA -> len dAtA <= maxInt ->
  exists front',
    len front' = len dAtA - len wire /\
    (let* (d, i) := f (dAtA, len dAtA) in Ok (d, subInt (len d) i))
    = Ok (front' ++ wire, len wire).
Proof.
  intros Hw Hl Hd.
  destruct (Hw dAtA [] Hl) as (f1 & Hf1 & E).
  { rewrite app_nil_r. exact Hd. }
  rewrite !app_nil_r in E. exists f1. split; [exact Hf1|].
  rewrite E. cbn [bind]. apply f_equal. f_equal.
  pose proof (len_nonneg wire). pose proof (len_nonneg f1).
  rewrite len_app, subInt_small; lia.
Qed.

(** Two chains of binds over the same calls are equal: split on the
    outcome of each call in turn. *)
Ltac same_binds :=
  repeat (try reflexivity;
          match goal with
          | |- context [bind ?c _] =>
              lazymatch c with
              | bind _ _ => fail
              | Ok _ => fail
              | _ => destruct c as [?| | |]; cbn [bind]
              end
          end);
  try reflexivity.

Lemma FungibleTokenPacketData_MarshalToSizedBuffer_wire
    (m : FungibleTokenPacketData) (dAtA : list byte) :
  len (FungibleTokenPacketData_wire m) <= len dAtA -> len dAtA <= maxInt ->
  exists front',
    len front' = len dAtA - len (FungibleTokenPacketData_wire m) /\
    FungibleTokenPacketData_MarshalToSizedBuffer m dAtA
    = Ok (front' ++ FungibleTokenPacketData_wire m,
          len (FungibleTokenPacketData_wire m)).
Proof.
  intros Hl Hd.
  pose proof (writes_seq _ _ _ _ (putStringOpt_writes x2a (Memo m))
    (writes_seq _ _ _ _ (putStringOpt_writes x22 (Receiver m))
    (writes_seq _ _ _ _ (putStringOpt_writes x1a (Sender m))
    (writes_seq _ _ _ _ (putStringOpt_writes x12 (Amount m))
       (putStringOpt_writes x0a (Denom m)))))) as W.
  rewrite <- !app_assoc in W.
  destruct (writes_sized _ _ dAtA W Hl Hd) as (f1 & Hf1 & E).
  exists f1. split; [exact Hf1|].
  unfold FungibleTokenPacketData_wire. rewrite <- E.
  unfold FungibleTokenPacketData_MarshalToSizedBuffer. cbv beta zeta.
  same_binds.
Qed.

Lemma make_Ok (size : Z) :
  0 <= size -> exists dAtA, make size = Ok dAtA /\ len dAtA = size.
Proof.
  intros Hs. unfold make. destruct (Z.ltb_spec size 0); [lia|].
  eexists. split; [reflexivity|]. unfold len. rewrite length_replicate. lia.
Qed.

(** The frame shared by the three [Marshal] functions. *)
Lemma Marshal_wire (size : Z) (mtsb : list byte -> result (list byte * Z))
    (wire : list byte) :
  size = len wire -> len wire <= maxInt ->
  (forall dAtA, len wire <= len dAtA -> len dAtA <= maxInt ->
     exists front', len front' = len dAtA - len wire /\
                    mtsb dAtA = Ok (front' ++ wire, len wire)) ->
  (let* dAtA := make size in
   let* sub := sliceTo dAtA size in
   let* (dAtA, n) := mtsb sub in
   sliceTo dAtA n) = Ok wire.
Proof.
  intros -> Hd Hm. pose proof (len_nonneg wire) as H0.
  destruct (make_Ok (len wire) H0) as (dAtA & -> & Hl). cbn [bind].
  unfold sliceTo. rewrite <- Hl at 1. rewrite slice_all. cbn [bind].
  destruct (Hm dAtA ltac:(lia) ltac:(lia)) as (f1 & Hf1 & ->).
  cbn [bind].
  assert (f1 = []) as -> by (apply len_zero_nil; lia).
  cbn [app]. apply slice_all.
Qed.

Theorem FungibleTokenPacketData_Marshal_wire (m : FungibleTokenPacketData) :
  len (FungibleTokenPacketData_wire m) <= maxInt ->
  FungibleTokenPacketData_Marshal m = Ok (FungibleTokenPacketData_wire m).
Proof.
  intros Hd. unfold FungibleTokenPacketData_Marshal. cbv zeta.
  apply Marshal_wire.
  - apply FungibleTokenPacketData_Size_wire, Hd.
  - exact Hd.
  - apply FungibleTokenPacketData_MarshalToSizedBuffer_wire.
Qed.

Lemma wireAmount_writes (v : Z) :
  0 <= v < 2 ^ 64 ->
  writes (fun st =>
            if negb (v =? 0) then
              let '(dAtA, i) := st in
              let* (dAtA, i) := encodeVarintPacket dAtA i v in
              let i := subInt i 1 in
              let* dAtA := setAt dAtA i x10 in
              Ok (dAtA, i)
            else Ok st) (wireAmount v).
Proof.
  intros Hv. unfold wireAmount.
  destruct (v =? 0); cbn [negb]; [apply writes_nil|].
  intros front done Hc Hd. rewrite len_cons, varint_len in Hc by lia.
  pose proof (sovPacket_pos v Hv) as Hp.
  pose proof (len_nonneg front). pose proof (len_nonneg done).
  destruct (encodeVarintPacket_spec front done v Hv ltac:(lia) Hd)
    as (f2 & Hf2 & ->).
  cbn [bind].
  rewrite subInt_small by (rewrite len_app in Hd; lia).
  destruct (setAt_front f2 (varint v ++ done) x10 ltac:(lia))
    as (f3 & Hf3 & ->).
  cbn [bind]. exists f3. split.
  - rewrite len_cons, varint_len by lia. lia.
  - rewrite Hf3. reflexivity.
Qed.

Lemma Token_MarshalToSizedBuffer_wire (t : Token) (dAtA : list byte) :
  Token_wf t ->
  len (Token_wire t) <= len dAtA -> len dAtA <= maxInt ->
  exists front',
    len front' = len dAtA - len (Token_wire t) /\
    Token_MarshalToSizedBuffer (Some t) dAtA
    = Ok (front' ++ Token_wire t, len (Token_wire t)).
Proof.
  intros Hwf Hl Hd.
  pose proof (writes_seq _ _ _ _
    (writes_forEach (putString x1a) (wireString x1a) (rev (Token_Trace t))
       (fun a _ => putString_writes x1a a))
    (writes_seq _ _ _ _ (wireAmount_writes (Token_Amount t) Hwf)
       (putStringOpt_writes x0a (Token_Denom t)))) as W.
  rewrite rev_involutive, <- !app_assoc in W.
  destruct (writes_sized _ _ dAtA W Hl Hd) as (f1 & Hf1 & E).
  exists f1. split; [exact Hf1|].
  unfold Token_wire. rewrite <- E.
  unfold Token_MarshalToSizedBuffer. cbv beta zeta.
  destruct (forEach (putString x1a) (rev (Token_Trace t)) (dAtA, len dAtA))
    as [[d1 i1]| | |]; cbn [bind]; try reflexivity.
  destruct (negb (Token_Amount t =? 0)); [|reflexivity].
  same_binds.
Qed.

Lemma sizeOf_traces (tr : list (list byte)) (n : Z) :
  0 <= n -> n + len (concat (map (wireString x1a) tr)) <= maxInt ->
  fold_left
    (fun n s =>
       let l := len s in
       addInt n (addInt (addInt 1 l) (sovPacket (wrapU64 l)))) tr n
  = n + len (concat (map (wireString x1a) tr)).
Proof.
  revert n. induction tr as [|s tr IH]; intros n Hn Hb.
  - cbn. rewrite len_nil. lia.
  - cbn [fold_left map concat] in *. rewrite len_app in *.
    pose proof (len_nonneg s).
    pose proof (len_nonneg (concat (map (wireString x1a) tr))).
    assert (Hs : len s < 2 ^ 63).
    { pose proof (wireString_len_gt x1a s). lia. }
    rewrite wireString_len in * by lia.
    pose proof (sovPacket_pos (len s) ltac:(lia)).
    cbv zeta. rewrite wrapU64_small by lia.
    rewrite (addInt_small 1 (len s)) by lia.
    rewrite (addInt_small (1 + len s)) by lia.
    rewrite addInt_small by lia.
    rewrite IH by lia. lia.
Qed.

Lemma Token_Size_wire (t : Token) :
  Token_wf t -> len (Token_wire t) <= maxInt ->
  Token_Size (Some t) = len (Token_wire t).
Proof.
  intros Hwf Hd. unfold Token_Size, Token_wire, Token_wf in *. cbv zeta.
  rewrite !len_app in *.
  pose proof (len_nonneg (wireStringOpt x0a (Token_Denom t))).
  pose proof (len_nonneg (wireAmount (Token_Amount t))).
  pose proof (len_nonneg (concat (map (wireString x1a) (Token_Trace t)))).
  rewrite (sizeOf_string 0 x0a (Token_Denom t)) by lia.
  assert (Ha : (if negb (Token_Amount t =? 0)
                then addInt (0 + len (wireStringOpt x0a (Token_Denom t)))
                       (addInt 1 (sovPacket (Token_Amount t)))
                else 0 + len (wireStringOpt x0a (Token_Denom t)))
               = len (wireStringOpt x0a (Token_Denom t))
                 + len (wireAmount (Token_Amount t))).
  { unfold wireAmount in *.
    destruct (Token_Amount t =? 0); cbn [negb]; cbv iota in *;
      [change (len (@nil byte)) with 0 in *; lia|].
    rewrite len_cons, varint_len in * by lia.
    pose proof (sovPacket_pos (Token_Amount t) Hwf).
    rewrite (addInt_small 1) by lia. rewrite addInt_small by lia. lia. }
  rewrite Ha. rewrite sizeOf_traces by lia. lia.
Qed.

Theorem Token_Marshal_wire (t : Token) :
  Token_wf t -> len (Token_wire t) <= maxInt ->
  Token_Marshal (Some t) = Ok (Token_wire t).
Proof.
  intros Hwf Hd. unfold Token_Marshal. cbv zeta.
  apply Marshal_wire.
  - apply Token_Size_wire; assumption.
  - exact Hd.
  - intros dAtA. apply Token_MarshalToSizedBuffer_wire, Hwf.
Qed.

Lemma sliceTo_front (front done : list byte) :
  sliceTo (front ++ done) (len front) = Ok front.
Proof.
  pose proof (slice_middle [] front done) as H.
  cbn [app] in H. change (len []) with 0 in H. exact H.
Qed.

Lemma wireToken_len (t : Token) :
  len (Token_wire t) < 2 ^ 64 ->
  len (wireToken t)
  = 1 + sovPacket (len (Token_wire t)) + len (Token_wire t).
Proof. apply wireString_len. Qed.

Lemma putToken_writes (t : Token) :
  Token_wf t -> writes (putToken (Some t)) (wireToken t).
Proof.
  intros Hwf front done Hc Hd.
  pose proof (len_nonneg (Token_wire t)) as Hw0.
  pose proof (len_nonneg front). pose proof (len_nonneg done).
  pose proof (wireString_len_gt x0a (Token_wire t)) as Hgt.
  fold (wireToken t) in Hgt.
  assert (Hw : len (Token_wire t) < 2 ^ 63) by (rewrite len_app in Hd; lia).
  rewrite wireToken_len in Hc by lia.
  pose proof (sovPacket_pos (len (Token_wire t)) ltac:(lia)) as Hp.
  unfold putToken. rewrite sliceTo_front. cbn [bind].
  destruct (Token_MarshalToSizedBuffer_wire t front Hwf)
    as (f1 & Hf1 & ->); [lia | rewrite len_app in Hd; lia |].
  cbn [bind].
  replace (drop (Z.to_nat (len front)) (front ++ done)) with done
    by (unfold len; rewrite Nat2Z.id, drop_app_length; reflexivity).
  rewrite subInt_small by (rewrite len_app in Hd; lia).
  rewrite <- Hf1, <- app_assoc. rewrite wrapU64_small by lia.
  destruct (encodeVarintPacket_spec f1 (Token_wire t ++ done)
              (len (Token_wire t)) ltac:(lia) ltac:(lia))
    as (f2 & Hf2 & ->).
  { rewrite !len_app in *. lia. }
  cbn [bind].
  rewrite subInt_small by (rewrite len_app in Hd; lia).
  destruct (setAt_front f2
              (varint (len (Token_wire t)) ++ Token_wire t ++ done) x0a
              ltac:(lia)) as (f3 & Hf3 & ->).
  cbn [bind]. exists f3. split.
  - rewrite wireToken_len by lia. lia.
  - rewrite Hf3. unfold wireToken, wireString. cbn [app].
    rewrite <- app_assoc. reflexivity.
Qed.

Lemma wireTokenPtr_map (ts : list Token) :
  map wireTokenPtr (map Some ts) = map wireToken ts.
Proof. rewrite map_map. reflexivity. Qed.

Lemma FungibleTokenPacketDataV2_MarshalToSizedBuffer_wire
    (ts : list Token) (sender receiver memo dAtA : list byte) :
  Forall Token_wf ts ->
  len (FungibleTokenPacketDataV2_wire ts sender receiver memo) <= len dAtA ->
  len dAtA <= maxInt ->
  exists front',
    len front'
    = len dAtA - len (FungibleTokenPacketDataV2_wire ts sender receiver memo)
    /\
    FungibleTokenPacketDataV2_MarshalToSizedBuffer
      (mkFungibleTokenPacketDataV2 (map Some ts) sender receiver memo) dAtA
    = Ok (front' ++ FungibleTokenPacketDataV2_wire ts sender receiver memo,
          len (FungibleTokenPacketDataV2_wire ts sender receiver memo)).
Proof.
  intros Hwf Hl Hd.
  assert (Ht : forall a, In a (rev (map Some ts)) ->
                 writes (putToken a) (wireTokenPtr a)).
  { intros a Ha. apply in_rev, in_map_iff in Ha as (t & <- & Hin).
    apply putToken_writes. rewrite List.Forall_forall in Hwf.
    apply Hwf, Hin. }
  pose proof (writes_seq _ _ _ _ (putStringOpt_writes x22 memo)
    (writes_seq _ _ _ _ (putStringOpt_writes x1a receiver)
    (writes_seq _ _ _ _ (putStringOpt_writes x12 sender)
       (writes_forEach putToken wireTokenPtr (rev (map Some ts)) Ht)))) as W.
  rewrite rev_involutive, wireTokenPtr_map, <- !app_assoc in W.
  destruct (writes_sized _ _ dAtA W Hl Hd) as (f1 & Hf1 & E).
  exists f1. split; [exact Hf1|].
  unfold FungibleTokenPacketDataV2_wire. rewrite <- E.
  unfold FungibleTokenPacketDataV2_MarshalToSizedBuffer.
  cbv beta zeta. cbn [V2_Tokens V2_Sender V2_Receiver V2_Memo].
  same_binds.
Qed.

Lemma sizeOf_tokens (ts : list Token) (n : Z) :
  Forall Token_wf ts ->
  0 <= n -> n + len (concat (map wireToken ts)) <= maxInt ->
  fold_left
    (fun n e =>
       let l := Token_Size e in
       addInt n (addInt (addInt 1 l) (sovPacket (wrapU64 l))))
    (map Some ts) n
  = n + len (concat (map wireToken ts)).
Proof.
  intros Hwf. revert n. induction Hwf as [|t ts Ht Hts IH]; intros n Hn Hb.
  - cbn. rewrite len_nil. lia.
  - cbn [fold_left map concat] in *. rewrite len_app in *.
    pose proof (len_nonneg (Token_wire t)).
    pose proof (len_nonneg (concat (map wireToken ts))).
    pose proof (wireString_len_gt x0a (Token_wire t)) as Hgt.
    fold (wireToken t) in Hgt.
    assert (Hw : len (Token_wire t) < 2 ^ 63) by lia.
    pose proof (sovPacket_pos (len (Token_wire t)) ltac:(lia)).
    rewrite wireToken_len in * by lia.
    cbv zeta. rewrite Token_Size_wire by (try assumption; lia).
    rewrite wrapU64_small by lia.
    rewrite (addInt_small 1 (len (Token_wire t))) by lia.
    rewrite (addInt_small (1 + len (Token_wire t))) by lia.
    rewrite addInt_small by lia.
    rewrite IH by lia. lia.
Qed.

Lemma FungibleTokenPacketDataV2_Size_wire (ts : list Token)
    (sender receiver memo : list byte) :
  Forall Token_wf ts ->
  len (FungibleTokenPacketDataV2_wire ts sender receiver memo) <= maxInt ->
  FungibleTokenPacketDataV2_Size
    (mkFungibleTokenPacketDataV2 (map Some ts) sender receiver memo)
  = len (FungibleTokenPacketDataV2_wire ts sender receiver memo).
Proof.
  intros Hwf Hd. unfold FungibleTokenPacketDataV2_Size,
    FungibleTokenPacketDataV2_wire in *. cbv zeta.
  cbn [V2_Tokens V2_Sender V2_Receiver V2_Memo].
  rewrite !len_app in *.
  pose proof (len_nonneg (concat (map wireToken ts))).
  pose proof (len_nonneg (wireStringOpt x12 sender)).
  pose proof (len_nonneg (wireStringOpt x1a receiver)).
  pose proof (len_nonneg (wireStringOpt x22 memo)).
  rewrite sizeOf_tokens by (try assumption; lia).
  rewrite (sizeOf_string _ x12 sender) by lia.
  rewrite (sizeOf_string _ x1a receiver) by lia.
  rewrite (sizeOf_string _ x22 memo) by lia.
  lia.
Qed.

Theorem FungibleTokenPacketDataV2_Marshal_wire (ts : list Token)
    (sender receiver memo : list byte) :
  Forall Token_wf ts ->
  len (FungibleTokenPacketDataV2_wire ts sender receiver memo) <= maxInt ->
  FungibleTokenPacketDataV2_Marshal
    (mkFungibleTokenPacketDataV2 (map Some ts) sender receiver memo)
  = Ok (FungibleTokenPacketDataV2_wire ts sender receiver memo).
Proof.
  intros Hwf Hd. unfold FungibleTokenPacketDataV2_Marshal. cbv zeta.
  apply Marshal_wire.
  - apply FungibleTokenPacketDataV2_Size_wire; assumption.
  - exact Hd.
  - intros dAtA. apply FungibleTokenPacketDataV2_MarshalToSizedBuffer_wire.
    exact Hwf.
Qed.

(** * The claims *)

(** C1. Round trip: for every packet payload [p] of either wire form that
    Go can hold (an encoding shorter than [2^63] bytes; for the multi-token
    form, non-nil tokens whose amounts are [uint64]), [Marshal p] succeeds
    and [Unmarshal] of the bytes it returns, into a fresh message, succeeds
    and gives back [p]: every field, the order of [Tokens] and the order
    of each [Trace] included. *)
Theorem C1_roundtrip :
  (forall p : FungibleTokenPacketData,
     FungibleTokenPacketData_fits p ->
     exists b,
       FungibleTokenPacketData_Marshal p = Ok b /\
       FungibleTokenPacketData_Unmarshal FungibleTokenPacketData_zero b
       = Ok p) /\
  (forall (ts : list Token) (sender receiver memo : list byte),
     FungibleTokenPacketDataV2_fits ts sender receiver memo ->
     exists b,
       FungibleTokenPacketDataV2_Marshal
         (FungibleTokenPacketDataV2_of ts sender receiver memo) = Ok b /\
       FungibleTokenPacketDataV2_Unmarshal FungibleTokenPacketDataV2_zero b
       = Ok (FungibleTokenPacketDataV2_of ts sender receiver memo)).
Proof.
  split.
  - intros p Hp. exists (FungibleTokenPacketData_wire p). split.
    + apply FungibleTokenPacketData_Marshal_wire, Hp.
    + apply FungibleTokenPacketData_Unmarshal_wire, Hp.
  - intros ts sender receiver memo [Hwf Hl].
    exists (FungibleTokenPacketDataV2_wire ts sender receiver memo). split.
    + apply FungibleTokenPacketDataV2_Marshal_wire; assumption.
    + apply FungibleTokenPacketDataV2_Unmarshal_wire; assumption.
Qed.

Lemma C1_roundtrip_witness :
  (exists b,
     FungibleTokenPacketData_Marshal sample_packet = Ok b /\
     FungibleTokenPacketData_Unmarshal FungibleTokenPacketData_zero b
     = Ok sample_packet) /\
  (exists b,
     FungibleTokenPacketDataV2_Marshal
       (FungibleTokenPacketDataV2_of [sample_token; Token_zero]
          [x61] [x62] [x7b; x7d]) = Ok b /\
     FungibleTokenPacketDataV2_Unmarshal FungibleTokenPacketDataV2_zero b
     = Ok (FungibleTokenPacketDataV2_of [sample_token; Token_zero]
             [x61] [x62] [x7b; x7d])).
Proof.
  split.
  - apply (proj1 C1_roundtrip sample_packet).
    unfold FungibleTokenPacketData_fits. vm_compute. discriminate.
  - apply (proj2 C1_roundtrip [sample_token; Token_zero] [x61] [x62]
             [x7b; x7d]).
    split; [repeat constructor; vm_compute; discriminate|].
    vm_compute. discriminate.
Defined.

(** C3 (as stated, refuted). Decoding then encoding is not the identity on
    the accepted byte strings: [0a 00] (field 1 with an empty string) is
    accepted and decodes to the zero message, whose encoding is empty. *)
Lemma C3_reencode_counterexample :
  FungibleTokenPacketData_Unmarshal FungibleTokenPacketData_zero [x0a; x00]
  = Ok FungibleTokenPacketData_zero /\
  FungibleTokenPacketData_Marshal FungibleTokenPacketData_zero = Ok [] /\
  [] <> [x0a; x00].
Proof. split; [|split]; [vm_compute; reflexivity..|discriminate]. Qed.

(** C3 (amended). On the byte strings that [Marshal] produces, decoding
    then encoding is the identity: if [Marshal p] returns [b] then
    [Unmarshal b] succeeds with some [m] and [Marshal m] returns [b],
    byte for byte, for both wire forms. *)
Theorem C3_reencode_canonical :
  (forall (p : FungibleTokenPacketData) (b : list byte),
     FungibleTokenPacketData_fits p ->
     FungibleTokenPacketData_Marshal p = Ok b ->
     exists m,
       FungibleTokenPacketData_Unmarshal FungibleTokenPacketData_zero b
       = Ok m /\
       FungibleTokenPacketData_Marshal m = Ok b) /\
  (forall (ts : list Token) (sender receiver memo b : list byte),
     FungibleTokenPacketDataV2_fits ts sender receiver memo ->
     FungibleTokenPacketDataV2_Marshal
       (FungibleTokenPacketDataV2_of ts sender receiver memo) = Ok b ->
     exists m,
       FungibleTokenPacketDataV2_Unmarshal FungibleTokenPacketDataV2_zero b
       = Ok m /\
       FungibleTokenPacketDataV2_Marshal m = Ok b).
Proof.
  split.
  - intros p b Hp Hb. exists p. split; [|exact Hb].
    rewrite FungibleTokenPacketData_Marshal_wire in Hb by exact Hp.
    injection Hb as <-. apply FungibleTokenPacketData_Unmarshal_wire, Hp.
  - intros ts sender receiver memo b [Hwf Hl] Hb.
    exists (FungibleTokenPacketDataV2_of ts sender receiver memo).
    split; [|exact Hb]. unfold FungibleTokenPacketDataV2_of in Hb.
    rewrite FungibleTokenPacketDataV2_Marshal_wire in Hb by assumption.
    injection Hb as <-.
    apply FungibleTokenPacketDataV2_Unmarshal_wire; assumption.
Qed.

Lemma C3_reencode_canonical_witness :
  (exists m,
     FungibleTokenPacketData_Unmarshal FungibleTokenPacketData_zero
       [x0a; x05; x75; x61; x74; x6f; x6d; x12; x03; x31; x30; x30;
        x1a; x05; x61; x6c; x69; x63; x65; x22; x03; x62; x6f; x62]
     = Ok m /\
     FungibleTokenPacketData_Marshal m
     = Ok [x0a; x05; x75; x61; x74; x6f; x6d; x12; x03; x31; x30; x30;
           x1a; x05; x61; x6c; x69; x63; x65; x22; x03; x62; x6f; x62]).
Proof.
  apply (proj1 C3_reencode_canonical sample_packet).
  - unfold FungibleTokenPacketData_fits. vm_compute. discriminate.
  - vm_compute. reflexivity.
Defined.

(** C9. The decoders are total and stay in bounds: on every byte string
    (of a length that is an [int], as every Go slice has), [Unmarshal] of
    the three messages, into any receiver, and [skipPacket] end by
    themselves with a value or an error. No index or slice expression
    leaves the buffer (no [Panic]), and the loops end within the bytes of
    the input (no [OutOfFuel] with one unit of fuel per byte). *)
Theorem C9_decoders_total :
  forall dAtA : list byte,
    len dAtA <= maxInt ->
    (forall m, returns (FungibleTokenPacketData_Unmarshal m dAtA)) /\
    (forall m, returns (FungibleTokenPacketDataV2_Unmarshal m dAtA)) /\
    (forall m, returns (Token_Unmarshal m dAtA)) /\
    returns (skipPacket dAtA).
Proof.
  intros dAtA Hd. repeat split.
  - intros m. apply (unmarshalLoop_returns _ FungibleTokenPacketData_step_ok);
      unfold len in *; lia.
  - intros m.
    apply (unmarshalLoop_returns _ FungibleTokenPacketDataV2_step_ok);
      unfold len in *; lia.
  - intros m. apply Token_Unmarshal_returns, Hd.
  - apply skipPacket_returns, Hd.
Qed.

Lemma C9_decoders_total_witness :
  (forall m, returns (FungibleTokenPacketData_Unmarshal m
                        [x0a; xff; xff; x03; x61])) /\
  (forall m, returns (FungibleTokenPacketDataV2_Unmarshal m
                        [x0a; xff; xff; x03; x61])) /\
  (forall m, returns (Token_Unmarshal m [x0a; xff; xff; x03; x61])) /\
  returns (skipPacket [x0a; xff; xff; x03; x61]).
Proof.
  apply (C9_decoders_total [x0a; xff; xff; x03; x61]).
  vm_compute. discriminate.
Defined.

(** C10 (as stated, refuted). [Marshal] does not succeed on every
    [FungibleTokenPacketDataV2]: with a nil pointer in [Tokens], [Size]
    counts the entry as an empty message (two bytes) and
    [MarshalToSizedBuffer] dereferences it. *)
Lemma C10_nil_token_counterexample :
  FungibleTokenPacketDataV2_Size
    (mkFungibleTokenPacketDataV2 [None] [] [] []) = 2 /\
  FungibleTokenPacketDataV2_Marshal
    (mkFungibleTokenPacketDataV2 [None] [] [] []) = Panic.
Proof. split; vm_compute; reflexivity. Qed.

(** C10 (amended). For every [FungibleTokenPacketData], every [Token] and
    every [FungibleTokenPacketDataV2] without nil entries in [Tokens] (that
    Go can hold), [Marshal] succeeds, returns the wire format of the
    message, and the length of what it returns is [Size]; in the wire
    format an empty string and a zero amount take no byte (and an empty
    list has no element to write). *)
Theorem C10_size_matches_encoding :
  (forall m : FungibleTokenPacketData,
     FungibleTokenPacketData_fits m ->
     FungibleTokenPacketData_Marshal m
     = Ok (FungibleTokenPacketData_wire m) /\
     len (FungibleTokenPacketData_wire m) = FungibleTokenPacketData_Size m) /\
  (forall t : Token,
     Token_fits t ->
     Token_Marshal (Some t) = Ok (Token_wire t) /\
     len (Token_wire t) = Token_Size (Some t)) /\
  (forall (ts : list Token) (sender receiver memo : list byte),
     FungibleTokenPacketDataV2_fits ts sender receiver memo ->
     FungibleTokenPacketDataV2_Marshal
       (FungibleTokenPacketDataV2_of ts sender receiver memo)
     = Ok (FungibleTokenPacketDataV2_wire ts sender receiver memo) /\
     len (FungibleTokenPacketDataV2_wire ts sender receiver memo)
     = FungibleTokenPacketDataV2_Size
         (FungibleTokenPacketDataV2_of ts sender receiver memo)) /\
  (forall tag, wireStringOpt tag [] = []) /\
  wireAmount 0 = [].
Proof.
  repeat split.
  - apply FungibleTokenPacketData_Marshal_wire. assumption.
  - symmetry. apply FungibleTokenPacketData_Size_wire. assumption.
  - destruct H. apply Token_Marshal_wire; assumption.
  - destruct H. symmetry. apply Token_Size_wire; assumption.
  - destruct H. apply FungibleTokenPacketDataV2_Marshal_wire; assumption.
  - destruct H. symmetry.
    apply FungibleTokenPacketDataV2_Size_wire; assumption.
Qed.

Lemma C10_size_matches_encoding_witness :
  FungibleTokenPacketData_Marshal sample_packet
  = Ok (FungibleTokenPacketData_wire sample_packet) /\
  len (FungibleTokenPacketData_wire sample_packet)
  = FungibleTokenPacketData_Size sample_packet.
Proof.
  apply (proj1 C10_size_matches_encoding sample_packet).
  unfold FungibleTokenPacketData_fits. vm_compute. discriminate.
Defined.

(** ** Unknown fields *)

(** Where a varint ends does not depend on what is accumulated. *)
Lemma varintLoop_acc_index acc1 acc2 (d : list byte) (n : nat)
    (s i v1 v2 r1 i1 : Z) :
  varintLoop acc1 d n s i v1 = Ok (r1, i1) ->
  exists r2, varintLoop acc2 d n s i v2 = Ok (r2, i1).
Proof.
  revert s i v1 v2.
  induction n as [|n IH]; intros s i v1 v2 H; simpl in *; [discriminate|].
  destruct (64 <=? s); [discriminate|].
  destruct (len d <=? i); [discriminate|].
  destruct (index d i) as [b| | |]; try discriminate H. cbn [bind] in *.
  destruct (byte_to_Z b <? 128).
  - injection H as <- <-. eauto.
  - eapply IH, H.
Qed.

Lemma skipVarint_varint (pre suf : list byte) (v : Z) :
  0 <= v < 2 ^ 64 -> len (pre ++ varint v ++ suf) <= maxInt ->
  exists r, skipVarint (pre ++ varint v ++ suf) (len pre)
            = Ok (r, len pre + len (varint v)).
Proof.
  intros Hv Hd. unfold skipVarint.
  eapply varintLoop_acc_index. apply readVarintU64_varint; assumption.
Qed.

Lemma tag_decompose (fn wt : Z) :
  0 <= wt < 8 -> fieldNum_wf fn ->
  0 <= fn * 8 + wt < 2 ^ 64 /\
  int32 (Z.shiftr (fn * 8 + wt) 3) = fn /\ Z.land (fn * 8 + wt) 7 = wt.
Proof.
  unfold fieldNum_wf. intros Hwt Hfn. split; [lia|]. split.
  - rewrite Z.shiftr_div_pow2 by lia. change (2 ^ 3) with 8.
    replace ((fn * 8 + wt) / 8) with fn
      by (apply Z.div_unique with (r := wt); lia).
    unfold int32. rewrite Z.mod_small; lia.
  - change 7 with (Z.ones 3). rewrite Z.land_ones by lia.
    change (2 ^ 3) with 8. symmetry.
    apply Z.mod_unique with (q := fn); lia.
Qed.

Lemma wireTypeOf_range (wv : wireValue) :
  0 <= wireTypeOf wv < 8 /\ wireTypeOf wv <> 4 /\ wireTypeOf wv <> 3.
Proof. destruct wv; cbn; lia. Qed.

Lemma readTag_wireField (fn : Z) (wv : wireValue) (suf : list byte) :
  fieldNum_wf fn -> len (wireField fn wv ++ suf) <= maxInt ->
  readVarintU64 (wireField fn wv ++ suf) 0
  = Ok (fn * 8 + wireTypeOf wv, len (wireTag fn wv)) /\
  readTag (wireField fn wv ++ suf) 0
  = Ok (fn, wireTypeOf wv, len (wireTag fn wv)).
Proof.
  intros Hfn Hd.
  destruct (wireTypeOf_range wv) as (Hwt & H4 & _).
  destruct (tag_decompose fn (wireTypeOf wv) Hwt Hfn) as (Hr & Hs & Hl).
  unfold wireField, wireTag in *. rewrite <- app_assoc in *.
  pose proof (readVarintU64_varint [] (wireBody wv ++ suf)
                (fn * 8 + wireTypeOf wv) Hr Hd) as R.
  cbn [app] in R. change (len []) with 0 in R. rewrite Z.add_0_l in R.
  split; [exact R|].
  unfold readTag. rewrite R. cbn [bind]. rewrite Hs, Hl.
  destruct (Z.eqb_spec (wireTypeOf wv) 4); [contradiction|].
  unfold fieldNum_wf in Hfn.
  destruct (Z.leb_spec fn 0); [lia|]. reflexivity.
Qed.

Lemma skipStep_wireField (fn : Z) (wv : wireValue) (suf : list byte) :
  fieldNum_wf fn -> wireValue_wf wv ->
  len (wireField fn wv ++ suf) <= maxInt ->
  skipStep (wireField fn wv ++ suf) 0 0 = Ok (len (wireField fn wv), 0).
Proof.
  intros Hfn Hwf Hd. unfold skipStep.
  rewrite (proj1 (readTag_wireField fn wv suf Hfn Hd)). cbn [bind].
  destruct (wireTypeOf_range wv) as (Hwt & H4 & _).
  destruct (tag_decompose fn (wireTypeOf wv) Hwt Hfn) as (Hr & Hs & ->).
  pose proof (len_nonneg (wireTag fn wv)) as Ht.
  pose proof (len_nonneg suf) as Hsuf.
  assert (Hfin : forall j, 0 <= j ->
            (if j <? 0 then Err ErrInvalidLengthPacket
             else Ok (j, 0) : result (Z * Z)) = Ok (j, 0)).
  { intros j Hj. destruct (Z.ltb_spec j 0); [lia | reflexivity]. }
  unfold wireField in *. rewrite <- app_assoc in *. rewrite len_app.
  destruct wv as [v|bs|bs|bs]; cbn [wireTypeOf wireBody wireValue_wf] in *;
    cbn [Z.eqb Pos.eqb].
  - destruct (skipVarint_varint (wireTag fn (WVarint v)) suf v Hwf Hd)
      as (r & ->).
    cbn [bind]. pose proof (len_nonneg (varint v)). apply Hfin. lia.
  - cbn [bind]. rewrite !len_app in Hd. rewrite addInt_small by lia.
    rewrite Hwf. apply Hfin. lia.
  - assert (Hb : 0 <= len bs < 2 ^ 63).
    { pose proof (len_nonneg bs). pose proof (len_nonneg (varint (len bs))).
      rewrite !len_app in Hd. lia. }
    rewrite <- app_assoc in *.
    rewrite readVarintInt_varint by (try assumption; lia).
    cbn [bind]. destruct (Z.ltb_spec (len bs) 0); [lia|].
    cbn [bind]. pose proof (len_nonneg (varint (len bs))).
    rewrite !len_app in Hd. rewrite addInt_small by lia.
    rewrite len_app, Z.add_assoc. apply Hfin. lia.
  - cbn [bind]. rewrite !len_app in Hd. rewrite addInt_small by lia.
    rewrite Hwf. apply Hfin. lia.
Qed.

Lemma wireField_len_pos (fn : Z) (wv : wireValue) :
  fieldNum_wf fn -> 0 < len (wireTag fn wv) <= len (wireField fn wv).
Proof.
  intros Hfn. destruct (wireTypeOf_range wv) as (Hwt & _).
  destruct (tag_decompose fn (wireTypeOf wv) Hwt Hfn) as (Hr & _).
  unfold wireField, wireTag. rewrite len_app, varint_len by lia.
  pose proof (sovPacket_pos _ Hr). pose proof (len_nonneg (wireBody wv)). lia.
Qed.

Lemma skipUnknown_wireField (fn : Z) (wv : wireValue) :
  fieldNum_wf fn -> wireValue_wf wv ->
  len (wireField fn wv) <= maxInt ->
  skipUnknown (wireField fn wv) 0 = Ok (len (wireField fn wv)).
Proof.
  intros Hfn Hwf Hd. unfold skipUnknown, sliceFrom.
  rewrite slice_all. cbn [bind].
  pose proof (wireField_len_pos fn wv Hfn) as Hp.
  assert (Hk : skipPacket (wireField fn wv) = Ok (len (wireField fn wv))).
  { unfold skipPacket.
    destruct (length (wireField fn wv)) as [|n] eqn:E;
      [unfold len in Hp; lia|].
    cbn [skipLoop]. destruct (Z.ltb_spec 0 (len (wireField fn wv))); [|lia].
    pose proof (skipStep_wireField fn wv [] Hfn Hwf) as S.
    rewrite app_nil_r in S. rewrite S by exact Hd. reflexivity. }
  rewrite Hk. cbn [bind].
  rewrite addInt_small by lia. rewrite Z.add_0_l.
  destruct (Z.ltb_spec (len (wireField fn wv)) 0); [lia|]. cbn [orb].
  rewrite Z.gtb_ltb, Z.ltb_irrefl. reflexivity.
Qed.

Ltac skip_unknown_field step :=
  let fn := fresh "fn" in
  let wv := fresh "wv" in
  let m := fresh "m" in
  let Hfn := fresh "Hfn" in
  let Hwf := fresh "Hwf" in
  let Hn := fresh "Hn" in
  let Hd := fresh "Hd" in
  intros fn wv m Hfn Hwf Hn Hd;
  pose proof (wireField_len_pos fn wv Hfn);
  apply unmarshalLoop_single; [lia|];
  unfold step;
  pose proof (readTag_wireField fn wv [] Hfn) as R;
  rewrite app_nil_r in R; rewrite (proj2 (R Hd)); cbn [bind];
  repeat match goal with
         | |- context [fn =? ?k] => destruct (Z.eqb_spec fn k); [lia|]
         end;
  rewrite skipUnknown_wireField by assumption; reflexivity.

Lemma FungibleTokenPacketData_skip_unknown :
  forall fn wv m,
    fieldNum_wf fn -> wireValue_wf wv -> 5 < fn ->
    len (wireField fn wv) <= maxInt ->
    FungibleTokenPacketData_Unmarshal m (wireField fn wv) = Ok m.
Proof. skip_unknown_field FungibleTokenPacketData_step. Qed.

Lemma FungibleTokenPacketDataV2_skip_unknown :
  forall fn wv m,
    fieldNum_wf fn -> wireValue_wf wv -> 4 < fn ->
    len (wireField fn wv) <= maxInt ->
    FungibleTokenPacketDataV2_Unmarshal m (wireField fn wv) = Ok m.
Proof. skip_unknown_field FungibleTokenPacketDataV2_step. Qed.

Lemma Token_skip_unknown :
  forall fn wv m,
    fieldNum_wf fn -> wireValue_wf wv -> 3 < fn ->
    len (wireField fn wv) <= maxInt ->
    Token_Unmarshal m (wireField fn wv) = Ok m.
Proof. skip_unknown_field Token_step. Qed.

(** C4 (as stated, refuted). Decoding is not strict: [30 01] is field 6, a
    varint, which the schema of [FungibleTokenPacketData] does not define,
    and [Unmarshal] accepts it. *)
Lemma C4_unknown_field_counterexample :
  wireField 6 (WVarint 1) = [x30; x01] /\
  FungibleTokenPacketData_Unmarshal FungibleTokenPacketData_zero [x30; x01]
  = Ok FungibleTokenPacketData_zero.
Proof. split; vm_compute; reflexivity. Qed.

(** C4 (amended). Decoding skips unknown fields: a well-formed field (of
    wire type varint, 64-bit, length-delimited or 32-bit) whose number the
    schema of the message does not define is accepted and ignored. If
    [a] decodes to [m1] and [rest] decodes from [m1] to [m2], then [a],
    the unknown field and [rest] in a row decode to [m2]. *)
Theorem C4_unknown_fields_skipped :
  forall (fn : Z) (wv : wireValue) (a rest : list byte),
    fieldNum_wf fn -> wireValue_wf wv ->
    len (a ++ wireField fn wv ++ rest) <= maxInt ->
    (5 < fn ->
     forall m0 m1 m2,
       FungibleTokenPacketData_Unmarshal m0 a = Ok m1 ->
       FungibleTokenPacketData_Unmarshal m1 rest = Ok m2 ->
       FungibleTokenPacketData_Unmarshal m0 (a ++ wireField fn wv ++ rest)
       = Ok m2) /\
    (4 < fn ->
     forall m0 m1 m2,
       FungibleTokenPacketDataV2_Unmarshal m0 a = Ok m1 ->
       FungibleTokenPacketDataV2_Unmarshal m1 rest = Ok m2 ->
       FungibleTokenPacketDataV2_Unmarshal m0 (a ++ wireField fn wv ++ rest)
       = Ok m2) /\
    (3 < fn ->
     forall m0 m1 m2,
       Token_Unmarshal m0 a = Ok m1 ->
       Token_Unmarshal m1 rest = Ok m2 ->
       Token_Unmarshal m0 (a ++ wireField fn wv ++ rest) = Ok m2).
Proof.
  intros fn wv a rest Hfn Hwf Hd.
  assert (Hu : len (wireField fn wv ++ rest) <= maxInt)
    by (clear -Hd; len_parts; lia).
  assert (Hf : len (wireField fn wv) <= maxInt)
    by (clear -Hd; len_parts; lia).
  repeat split; intros Hn m0 m1 m2 Ha Hr.
  - eapply FungibleTokenPacketData_Unmarshal_app; [exact Hd|exact Ha|].
    eapply FungibleTokenPacketData_Unmarshal_app; [exact Hu| |exact Hr].
    apply FungibleTokenPacketData_skip_unknown; assumption.
  - eapply FungibleTokenPacketDataV2_Unmarshal_app; [exact Hd|exact Ha|].
    eapply FungibleTokenPacketDataV2_Unmarshal_app; [exact Hu| |exact Hr].
    apply FungibleTokenPacketDataV2_skip_unknown; assumption.
  - eapply Token_Unmarshal_app; [exact Hd|exact Ha|].
    eapply Token_Unmarshal_app; [exact Hu| |exact Hr].
    apply Token_skip_unknown; assumption.
Qed.

Lemma C4_unknown_fields_skipped_witness :
  FungibleTokenPacketData_Unmarshal FungibleTokenPacketData_zero
    ([x0a; x01; x61] ++ wireField 6 (WVarint 1) ++ [x12; x01; x31])
  = Ok (mkFungibleTokenPacketData [x61] [x31] [] [] []).
Proof.
  refine (proj1 (C4_unknown_fields_skipped 6 (WVarint 1)
                   [x0a; x01; x61] [x12; x01; x31] _ _ _) _
            FungibleTokenPacketData_zero
            (mkFungibleTokenPacketData [x61] [] [] [] []) _ _ _).
  - unfold fieldNum_wf. lia.
  - cbn. lia.
  - vm_compute. discriminate.
  - lia.
  - vm_compute. reflexivity.
  - vm_compute. reflexivity.
Defined.

(** ** The forwarding state tracker *)

Lemma resolve_removes (k : ForwardingTracker.PacketKey)
    (st : ForwardingTracker.State) :
  ForwardingTracker.tracker (ForwardingTracker.resolve k st).2 !! k = None.
Proof.
  unfold ForwardingTracker.resolve.
  destruct (ForwardingTracker.tracker st !! k) eqn:E; cbn.
  - apply lookup_delete_eq.
  - exact E.
Qed.

Lemma resolve_ledger (k : ForwardingTracker.PacketKey)
    (st : ForwardingTracker.State) :
  ForwardingTracker.ledger (ForwardingTracker.resolve k st).2
  = ForwardingTracker.ledger st.
Proof.
  unfold ForwardingTracker.resolve.
  destruct (ForwardingTracker.tracker st !! k); reflexivity.
Qed.

Lemma resolve_absent (k : ForwardingTracker.PacketKey)
    (st : ForwardingTracker.State) :
  ForwardingTracker.tracker st !! k = None ->
  ForwardingTracker.resolve k st = (ForwardingTracker.NotFound, st).
Proof. intros E. unfold ForwardingTracker.resolve. rewrite E. reflexivity. Qed.

(** C7. At-most-once resolution: after [begin] has recorded [e] under [k],
    the first [resolve k] returns [e] and removes it, leaving the ledger
    alone; every later [resolve k] returns [NotFound] and changes nothing,
    so the state after two calls is the state after one. *)
Theorem C7_resolve_at_most_once :
  forall (k : ForwardingTracker.PacketKey) (e : ForwardingTracker.Entry)
         (st st1 : ForwardingTracker.State),
    ForwardingTracker.begin k e st = ForwardingTracker.Begun st1 ->
    let (r1, st2) := ForwardingTracker.resolve k st1 in
    let (r2, st3) := ForwardingTracker.resolve k st2 in
    r1 = ForwardingTracker.Found e /\
    ForwardingTracker.tracker st2 = ForwardingTracker.tracker st /\
    ForwardingTracker.ledger st2 = ForwardingTracker.ledger st /\
    r2 = ForwardingTracker.NotFound /\
    st3 = st2 /\
    (forall n, Nat.iter n (fun s => (ForwardingTracker.resolve k s).2) st2
               = st2).
Proof.
  intros k e st st1 Hb. unfold ForwardingTracker.begin in Hb.
  destruct (ForwardingTracker.tracker st !! k) eqn:E; [discriminate|].
  injection Hb as <-.
  unfold ForwardingTracker.resolve at 1. cbn.
  rewrite lookup_insert_eq.
  rewrite delete_insert_eq.
  assert (Hd : delete k (ForwardingTracker.tracker st)
               = ForwardingTracker.tracker st) by (apply delete_id, E).
  rewrite Hd.
  assert (Hr : ForwardingTracker.resolve k
                 (ForwardingTracker.mkState (ForwardingTracker.tracker st)
                    (ForwardingTracker.ledger st))
               = (ForwardingTracker.NotFound,
                  ForwardingTracker.mkState (ForwardingTracker.tracker st)
                    (ForwardingTracker.ledger st)))
    by (apply resolve_absent, E).
  rewrite Hr. repeat split.
  induction n as [|n IH]; [reflexivity|].
  rewrite Nat.iter_succ, IH, Hr. reflexivity.
Qed.

Lemma C7_resolve_at_most_once_witness :
  let k : ForwardingTracker.PacketKey :=
    ("channel-1"%string, "transfer"%string, 7%N) in
  let e := ForwardingTracker.mkEntry
             ("channel-0"%string, "transfer"%string, 3%N)
             [ForwardingTracker.Minted "uatom" 100] "alice" None in
  let st := ForwardingTracker.mkState ∅ ∅ in
  let (r1, st2) := ForwardingTracker.resolve k
                     (ForwardingTracker.mkState (<[k := e]> ∅) ∅) in
  let (r2, st3) := ForwardingTracker.resolve k st2 in
  r1 = ForwardingTracker.Found e /\
  ForwardingTracker.tracker st2 = ForwardingTracker.tracker st /\
  ForwardingTracker.ledger st2 = ForwardingTracker.ledger st /\
  r2 = ForwardingTracker.NotFound /\
  st3 = st2 /\
  (forall n, Nat.iter n (fun s => (ForwardingTracker.resolve k s).2) st2
             = st2).
Proof.
  intros k e st.
  apply (C7_resolve_at_most_once k e st
           (ForwardingTracker.mkState (<[k := e]> ∅) ∅)).
  reflexivity.
Defined.

(** ** Validation *)

(** C2 (as stated, refuted). A sender that is not empty but blank is
    rejected: with amount ["1"], sender [" "], receiver ["b"] and
    denomination ["uatom"], every condition of the claim holds and
    [ValidateBasic] returns an invalid-address error. *)
Lemma C2_blank_sender_counterexample :
  valid_as_specified NewIntFromString_decimal ValidatePrefixedDenom_grammar
    blank_sender_packet /\
  ValidateBasic NewIntFromString_decimal TrimSpace_ascii
    ValidatePrefixedDenom_grammar blank_sender_packet
  = Some ErrInvalidAddress.
Proof.
  split; [|vm_compute; reflexivity].
  unfold valid_as_specified.
  split; [exists 1; split; [vm_compute; reflexivity | lia]|].
  split; [discriminate|]. split; [discriminate|].
  vm_compute. reflexivity.
Qed.

(** C2 (amended). [ValidateBasic] returns nil if and only if the amount
    parses to a strictly positive integer, sender and receiver are not
    blank (not empty once white space is trimmed from both ends) and the
    denomination validator accepts the denomination; in every other case
    it returns an error. This holds whatever the parser, the trimming
    function and the denomination validator are. *)
Theorem C2_ValidateBasic_nil_iff :
  forall (NewIntFromString : list byte -> option Z)
         (TrimSpace : list byte -> list byte)
         (ValidatePrefixedDenom : list byte -> option validationError)
         (ftpd : FungibleTokenPacketData),
    ValidateBasic NewIntFromString TrimSpace ValidatePrefixedDenom ftpd = None
    <-> valid_non_blank NewIntFromString TrimSpace ValidatePrefixedDenom ftpd.
Proof.
  intros parse trim validate ftpd.
  unfold ValidateBasic, valid_non_blank, isEmptyString. split.
  - intros H. destruct (parse (Amount ftpd)) as [amount|]; [|discriminate].
    destruct (Z.ltb_spec 0 amount); cbn [negb] in H; [|discriminate].
    destruct (trim (Sender ftpd)); [discriminate|].
    destruct (trim (Receiver ftpd)); [discriminate|].
    repeat split; try discriminate; eauto.
  - intros ((amount & -> & Hpos) & Hs & Hr & Hv).
    destruct (Z.ltb_spec 0 amount); [|lia]. cbn [negb].
    destruct (trim (Sender ftpd)); [contradiction|].
    destruct (trim (Receiver ftpd)); [contradiction|]. exact Hv.
Qed.

(** ** Memo probing *)

Lemma getCallbackData_none json_Unmarshal_map ftpd :
  no_callback_object json_Unmarshal_map ftpd ->
  getCallbackData json_Unmarshal_map ftpd = None.
Proof.
  unfold no_callback_object, getCallbackData.
  intros [H|[H|(jsonObject & H & Hn)]].
  - rewrite H. reflexivity.
  - rewrite H. destruct (len (Memo ftpd) =? 0); reflexivity.
  - rewrite H. destruct (len (Memo ftpd) =? 0); [reflexivity|].
    destruct (mapIndex "callback" jsonObject) as [[]|]; try reflexivity.
    exfalso. eapply Hn. reflexivity.
Qed.

Lemma getCallbackData_some json_Unmarshal_map ftpd callbackData :
  callback_object json_Unmarshal_map ftpd callbackData ->
  getCallbackData json_Unmarshal_map ftpd = Some callbackData.
Proof.
  unfold callback_object, getCallbackData.
  intros (Hm & jsonObject & -> & ->).
  destruct (Z.eqb_spec (len (Memo ftpd)) 0) as [E|]; [|reflexivity].
  apply len_zero_nil in E. contradiction.
Qed.

(** C8. Absence means no-op: when the memo is empty, or is not JSON that
    decodes into a map, or has no object under ["callback"], the two
    address getters return the empty string and the custom message getter
    returns nil; when the callback object is there with a string under
    ["src_callback_address"] (["dest_callback_address"]), the getter
    returns exactly that string. This holds whatever [json.Unmarshal] and
    the base64 decoder do. *)
Theorem C8_memo_probe :
  forall (json_Unmarshal_map :
            list byte -> option (list (string * jsonValue)))
         (base64_DecodeString : list byte -> option (list byte))
         (ftpd : FungibleTokenPacketData),
    (no_callback_object json_Unmarshal_map ftpd ->
     GetSourceCallbackAddress json_Unmarshal_map ftpd = [] /\
     GetDestCallbackAddress json_Unmarshal_map ftpd = [] /\
     GetUserDefinedCustomMessage json_Unmarshal_map base64_DecodeString ftpd
     = None) /\
    (forall callbackData address,
       callback_object json_Unmarshal_map ftpd callbackData ->
       mapIndex "src_callback_address" callbackData = Some (JString address) ->
       GetSourceCallbackAddress json_Unmarshal_map ftpd = address) /\
    (forall callbackData address,
       callback_object json_Unmarshal_map ftpd callbackData ->
       mapIndex "dest_callback_address" callbackData
       = Some (JString address) ->
       GetDestCallbackAddress json_Unmarshal_map ftpd = address).
Proof.
  intros parse b64 ftpd. split; [|split].
  - intros H. apply getCallbackData_none in H.
    unfold GetSourceCallbackAddress, GetDestCallbackAddress,
      GetUserDefinedCustomMessage. rewrite H. auto.
  - intros callbackData address H Ha. apply getCallbackData_some in H.
    unfold GetSourceCallbackAddress. rewrite H, Ha. reflexivity.
  - intros callbackData address H Ha. apply getCallbackData_some in H.
    unfold GetDestCallbackAddress. rewrite H, Ha. reflexivity.
Qed.

Lemma C8_memo_probe_witness :
  GetSourceCallbackAddress json_Unmarshal_sample callback_packet = [x61].
Proof.
  refine (proj1 (proj2 (C8_memo_probe json_Unmarshal_sample (fun _ => None)
                          callback_packet))
            [("src_callback_address"%string, JString [x61])] [x61] _ _).
  - split; [discriminate|].
    exists [("callback"%string,
             JObject [("src_callback_address"%string, JString [x61])])].
    split; vm_compute; reflexivity.
  - vm_compute. reflexivity.
Defined.

(** ** Canonical bytes *)

Lemma Ascii_compare_lt_trans (a b c : Ascii.ascii) :
  Ascii.compare a b = Lt -> Ascii.compare b c = Lt -> Ascii.compare a c = Lt.
Proof.
  unfold Ascii.compare. rewrite !N.compare_lt_iff. lia.
Qed.

Lemma String_compare_lt_trans (s1 s2 s3 : string) :
  String.compare s1 s2 = Lt -> String.compare s2 s3 = Lt ->
  String.compare s1 s3 = Lt.
Proof.
  revert s2 s3. induction s1 as [|a s1 IH]; intros [|b s2] [|c s3];
    cbn; try discriminate; try reflexivity.
  destruct (Ascii.compare a b) eqn:Eab; try discriminate;
    destruct (Ascii.compare b c) eqn:Ebc; try discriminate; intros H1 H2.
  - apply Ascii.compare_eq_iff in Eab, Ebc. subst.
    assert (Ascii.compare c c = Eq) as ->
      by (unfold Ascii.compare; apply N.compare_refl).
    eapply IH; eassumption.
  - apply Ascii.compare_eq_iff in Eab. subst. rewrite Ebc. reflexivity.
  - apply Ascii.compare_eq_iff in Ebc. subst. rewrite Eab. reflexivity.
  - rewrite (Ascii_compare_lt_trans a b c Eab Ebc). reflexivity.
Qed.

Lemma String_compare_refl (s : string) : String.compare s s = Eq.
Proof.
  induction s as [|a s IH]; cbn; [reflexivity|].
  assert (Ascii.compare a a = Eq) as ->
    by (unfold Ascii.compare; apply N.compare_refl).
  exact IH.
Qed.

Lemma String_leb_trans (s1 s2 s3 : string) :
  String.leb s1 s2 = true -> String.leb s2 s3 = true ->
  String.leb s1 s3 = true.
Proof.
  unfold String.leb.
  destruct (String.compare s1 s2) eqn:E12; try discriminate;
    destruct (String.compare s2 s3) eqn:E23; try discriminate; intros _ _.
  - apply String.compare_eq_iff in E12, E23. subst.
    rewrite String_compare_refl. reflexivity.
  - apply String.compare_eq_iff in E12. subst. rewrite E23. reflexivity.
  - apply String.compare_eq_iff in E23. subst. rewrite E12. reflexivity.
  - rewrite (String_compare_lt_trans s1 s2 s3 E12 E23). reflexivity.
Qed.

#[global] Instance keyLe_trans : Transitive keyLe.
Proof. intros x y z. unfold keyLe. apply String_leb_trans. Qed.

#[global] Instance keyLe_total : Total keyLe.
Proof. intros x y. unfold keyLe. apply String.leb_total. Qed.

Lemma keys_filter_NoDup {V} (P : string * V -> bool)
    (l : list (string * V)) :
  NoDup (map fst l) -> NoDup (map fst (List.filter P l)).
Proof.
  induction l as [|x l IH]; cbn; intros H; [constructor|].
  apply NoDup_cons in H as [Hx Hl].
  destruct (P x); cbn; [|apply IH, Hl].
  apply NoDup_cons. split; [|apply IH, Hl].
  intros Hin. apply Hx.
  apply list_elem_of_In in Hin. apply list_elem_of_In.
  apply in_map_iff in Hin as (y & Hy & Hin).
  apply filter_In in Hin as [Hin _].
  apply in_map_iff. eauto.
Qed.

Lemma same_key_same_entry {V} (l : list (string * V)) (x y : string * V) :
  NoDup (map fst l) -> x ∈ l -> y ∈ l -> x.1 = y.1 -> x = y.
Proof.
  induction l as [|z l IH]; cbn; intros H Hx Hy E.
  - apply elem_of_nil in Hx. contradiction.
  - apply NoDup_cons in H as [Hz Hl].
    apply elem_of_cons in Hx as [->|Hx]; apply elem_of_cons in Hy as [->|Hy].
    + reflexivity.
    + exfalso. apply Hz. rewrite E. apply list_elem_of_fmap_2. exact Hy.
    + exfalso. apply Hz. rewrite <- E. apply list_elem_of_fmap_2. exact Hx.
    + apply IH; assumption.
Qed.

Lemma jsonFields_keys_NoDup (ftpd : FungibleTokenPacketData) :
  NoDup (map fst (jsonFields ftpd)).
Proof.
  unfold jsonFields. apply keys_filter_NoDup. cbn.
  repeat (apply NoDup_cons; split;
          [rewrite ?elem_of_cons, elem_of_nil; intuition discriminate|]).
  apply NoDup_nil. exact I.
Qed.

Lemma sortByKey_Permutation (l1 l2 : list (string * list byte)) :
  NoDup (map fst l2) -> l1 ≡ₚ l2 -> sortByKey l1 = sortByKey l2.
Proof.
  intros Hnd Hp. unfold sortByKey.
  apply (Sorted_unique_strong keyLe).
  - intros x1 x2 H1 H2 L12 L21.
    apply (same_key_same_entry l2); try assumption.
    + rewrite <- Hp, <- (merge_sort_Permutation keyLe l1). exact H1.
    + rewrite <- (merge_sort_Permutation keyLe l2). exact H2.
    + apply String.leb_antisym; assumption.
  - apply Sorted_merge_sort, _.
  - apply Sorted_merge_sort, _.
  - rewrite !merge_sort_Permutation. exact Hp.
Qed.

Lemma filter_Permutation_list {A} (f : A -> bool) (l l' : list A) :
  l ≡ₚ l' -> List.filter f l ≡ₚ List.filter f l'.
Proof.
  induction 1 as [|x l l' _ IH|x y l|l l' l'' _ IH1 _ IH2]; cbn.
  - reflexivity.
  - destruct (f x); [apply perm_skip|]; exact IH.
  - destruct (f x), (f y); try reflexivity. apply perm_swap.
  - etransitivity; eassumption.
Qed.

Lemma filter_StronglySorted {A} (R : A -> A -> Prop) (f : A -> bool)
    (l : list A) :
  StronglySorted R l -> StronglySorted R (List.filter f l).
Proof.
  induction 1 as [|x l _ IH Hx]; cbn; [constructor|].
  destruct (f x); [|exact IH]. constructor; [exact IH|].
  rewrite List.Forall_forall in *. intros y Hy.
  apply filter_In in Hy as [Hy _]. apply Hx, Hy.
Qed.

Lemma keyLt_keyLe (x y : string * list byte) : keyLt x y -> keyLe x y.
Proof.
  unfold keyLt, keyLe, String.ltb, String.leb.
  destruct (String.compare x.1 y.1); congruence.
Qed.

Lemma canonicalFields_jsonFields (ftpd : FungibleTokenPacketData) :
  canonicalFields ftpd ≡ₚ jsonFields ftpd.
Proof.
  unfold canonicalFields, jsonFields. apply filter_Permutation_list.
  solve_Permutation.
Qed.

Lemma canonicalFields_sorted (ftpd : FungibleTokenPacketData) :
  StronglySorted keyLt (canonicalFields ftpd).
Proof.
  unfold canonicalFields. apply filter_StronglySorted.
  repeat (constructor; [|repeat (constructor; [reflexivity|]); constructor]).
  constructor.
Qed.

Lemma sortByKey_canonical (ftpd : FungibleTokenPacketData)
    (entries : list (string * list byte)) :
  entries ≡ₚ jsonFields ftpd -> sortByKey entries = canonicalFields ftpd.
Proof.
  intros Hp. unfold sortByKey.
  apply (Sorted_unique_strong keyLe).
  - intros x1 x2 H1 H2 L12 L21.
    apply (same_key_same_entry (jsonFields ftpd)).
    + apply jsonFields_keys_NoDup.
    + rewrite <- Hp, <- (merge_sort_Permutation keyLe entries). exact H1.
    + rewrite <- (canonicalFields_jsonFields ftpd). exact H2.
    + apply String.leb_antisym; assumption.
  - apply Sorted_merge_sort, _.
  - apply StronglySorted_Sorted.
    induction (canonicalFields_sorted ftpd) as [|x l _ IH Hx];
      constructor; [exact IH|].
    eapply List.Forall_impl; [|exact Hx]. intros y. apply keyLt_keyLe.
  - rewrite merge_sort_Permutation, Hp.
    symmetry. apply canonicalFields_jsonFields.
Qed.

(** C6. The canonical encoding is deterministic. Two calls of [GetBytes]
    on equal payloads return the same bytes, whatever the order in which
    the members of the JSON object reach the writer in each call (the
    iteration order of the Go map, the one thing that can differ between
    two calls). The bytes are those of the object whose members are the
    non-empty fields of the payload, no more and no fewer, written with
    their keys in strictly increasing order: amount, denom, memo,
    receiver, sender. This holds for every way of writing a string
    value. *)
Theorem C6_GetBytes_deterministic :
  forall (encodeString : list byte -> list byte)
         (ftpd1 ftpd2 : FungibleTokenPacketData)
         (entries1 entries2 : list (string * list byte)),
    ftpd1 = ftpd2 ->
    entries1 ≡ₚ jsonFields ftpd1 ->
    entries2 ≡ₚ jsonFields ftpd2 ->
    MustSortJSON encodeString entries1 = MustSortJSON encodeString entries2 /\
    MustSortJSON encodeString entries1
    = encodeObject encodeString (canonicalFields ftpd1) /\
    GetBytes encodeString ftpd2
    = encodeObject encodeString (canonicalFields ftpd1) /\
    canonicalFields ftpd1 ≡ₚ jsonFields ftpd1 /\
    StronglySorted keyLt (canonicalFields ftpd1).
Proof.
  intros encodeString ftpd1 ftpd2 entries1 entries2 <- Hp1 Hp2.
  unfold GetBytes, MustSortJSON.
  rewrite (sortByKey_canonical ftpd1 entries1 Hp1).
  rewrite (sortByKey_canonical ftpd1 entries2 Hp2).
  rewrite (sortByKey_canonical ftpd1 (jsonFields ftpd1)) by reflexivity.
  repeat split.
  - apply canonicalFields_jsonFields.
  - apply canonicalFields_sorted.
Qed.

Lemma C6_GetBytes_deterministic_witness :
  MustSortJSON encodeString_plain
    [("sender"%string, Sender sample_packet);
     ("denom"%string, Denom sample_packet);
     ("receiver"%string, Receiver sample_packet);
     ("amount"%string, Amount sample_packet)]
  = MustSortJSON encodeString_plain
      [("receiver"%string, Receiver sample_packet);
       ("amount"%string, Amount sample_packet);
       ("denom"%string, Denom sample_packet);
       ("sender"%string, Sender sample_packet)] /\
  MustSortJSON encodeString_plain
    [("sender"%string, Sender sample_packet);
     ("denom"%string, Denom sample_packet);
     ("receiver"%string, Receiver sample_packet);
     ("amount"%string, Amount sample_packet)]
  = encodeObject encodeString_plain (canonicalFields sample_packet) /\
  GetBytes encodeString_plain sample_packet
  = encodeObject encodeString_plain (canonicalFields sample_packet) /\
  canonicalFields sample_packet ≡ₚ jsonFields sample_packet /\
  StronglySorted keyLt (canonicalFields sample_packet).
Proof.
  apply (C6_GetBytes_deterministic encodeString_plain sample_packet
           sample_packet).
  - reflexivity.
  - cbn. solve_Permutation.
  - cbn. solve_Permutation.
Defined.

(** * Further properties of the codec *)

(** ** Decoding into a receiver that is not empty *)

Lemma FungibleTokenPacketData_Unmarshal_merge
    (m p : FungibleTokenPacketData) :
  len (FungibleTokenPacketData_wire p) <= maxInt ->
  FungibleTokenPacketData_Unmarshal m (FungibleTokenPacketData_wire p)
  = Ok (FungibleTokenPacketData_merge m p).
Proof.
  intros Hd. unfold FungibleTokenPacketData_wire in *.
  set (U := FungibleTokenPacketData_Unmarshal).
  assert (Hnil : forall m, U m [] = Ok m) by reflexivity.
  pose proof (fun s m => decode_opt U set_Denom x0a s m Hnil
     (FungibleTokenPacketData_decode_Denom s m)) as D1.
  pose proof (fun s m => decode_opt U set_Amount x12 s m Hnil
     (FungibleTokenPacketData_decode_Amount s m)) as D2.
  pose proof (fun s m => decode_opt U set_Sender x1a s m Hnil
     (FungibleTokenPacketData_decode_Sender s m)) as D3.
  pose proof (fun s m => decode_opt U set_Receiver x22 s m Hnil
     (FungibleTokenPacketData_decode_Receiver s m)) as D4.
  pose proof (fun s m => decode_opt U set_Memo x2a s m Hnil
     (FungibleTokenPacketData_decode_Memo s m)) as D5.
  unfold U in *.
  eapply FungibleTokenPacketData_Unmarshal_app; [exact Hd | apply D1 | ].
  { clear -Hd. len_parts. lia. }
  eapply FungibleTokenPacketData_Unmarshal_app; [| apply D2 | ].
  { clear -Hd. len_parts. lia. }
  { clear -Hd. len_parts. lia. }
  eapply FungibleTokenPacketData_Unmarshal_app; [| apply D3 | ].
  { clear -Hd. len_parts. lia. }
  { clear -Hd. len_parts. lia. }
  eapply FungibleTokenPacketData_Unmarshal_app; [| apply D4 | ].
  { clear -Hd. len_parts. lia. }
  { clear -Hd. len_parts. lia. }
  rewrite D5 by (clear -Hd; len_parts; lia).
  f_equal. clear. unfold FungibleTokenPacketData_merge, orElse.
  destruct m, p as [[|? ?] [|? ?] [|? ?] [|? ?] [|? ?]]; reflexivity.
Qed.

Lemma Token_Unmarshal_merge (m t : Token) :
  Token_wf t -> len (Token_wire t) <= maxInt ->
  Token_Unmarshal m (Token_wire t) = Ok (Token_merge m t).
Proof.
  intros Hwf Hd. unfold Token_wire, Token_wf in *.
  pose proof (fun s m => decode_opt Token_Unmarshal set_Token_Denom x0a s m
     Token_Unmarshal_nil (Token_decode_Denom s m)) as D1.
  eapply Token_Unmarshal_app; [exact Hd | apply D1 | ].
  { clear -Hd. len_parts. lia. }
  eapply Token_Unmarshal_app; [| apply Token_decode_wireAmount, Hwf | ].
  { clear -Hd. len_parts. lia. }
  rewrite Token_decode_Traces by (clear -Hd; len_parts; lia).
  f_equal. clear -Hwf. unfold Token_merge, orElse.
  destruct m, t as [[|? ?] a tr]; cbn in *;
    destruct (Z.eqb_spec a 0) as [->|]; reflexivity.
Qed.

Lemma FungibleTokenPacketDataV2_Unmarshal_merge
    (m : FungibleTokenPacketDataV2) (ts : list Token)
    (sender receiver memo : list byte) :
  Forall Token_wf ts ->
  len (FungibleTokenPacketDataV2_wire ts sender receiver memo) <= maxInt ->
  FungibleTokenPacketDataV2_Unmarshal m
    (FungibleTokenPacketDataV2_wire ts sender receiver memo)
  = Ok (FungibleTokenPacketDataV2_merge m ts sender receiver memo).
Proof.
  intros Hwf Hd. unfold FungibleTokenPacketDataV2_wire in *.
  set (U := FungibleTokenPacketDataV2_Unmarshal).
  assert (Hnil : forall m, U m [] = Ok m) by reflexivity.
  pose proof (fun s m => decode_opt U set_V2_Sender x12 s m Hnil
     (FungibleTokenPacketDataV2_decode_Sender s m)) as D2.
  pose proof (fun s m => decode_opt U set_V2_Receiver x1a s m Hnil
     (FungibleTokenPacketDataV2_decode_Receiver s m)) as D3.
  pose proof (fun s m => decode_opt U set_V2_Memo x22 s m Hnil
     (FungibleTokenPacketDataV2_decode_Memo s m)) as D4.
  unfold U in *.
  eapply FungibleTokenPacketDataV2_Unmarshal_app; [exact Hd | | ].
  { apply FungibleTokenPacketDataV2_decode_Tokens; [exact Hwf|].
    clear -Hd. len_parts. lia. }
  eapply FungibleTokenPacketDataV2_Unmarshal_app; [| apply D2 | ].
  { clear -Hd. len_parts. lia. }
  { clear -Hd. len_parts. lia. }
  eapply FungibleTokenPacketDataV2_Unmarshal_app; [| apply D3 | ].
  { clear -Hd. len_parts. lia. }
  { clear -Hd. len_parts. lia. }
  rewrite D4 by (clear -Hd; len_parts; lia).
  f_equal. clear. unfold FungibleTokenPacketDataV2_merge, orElse.
  destruct m, sender, receiver, memo; reflexivity.
Qed.

(** X1. [Unmarshal] does not reset its receiver: decoding the bytes that
    [Marshal] returns for [p] into a message [m] merges [p] into [m]. A
    string of [p] that is not empty (an amount that is not zero) replaces
    the one of [m], an empty one leaves it, and the entries of [Tokens] and
    [Trace] are appended to those [m] holds. *)
Theorem Unmarshal_merges_into_receiver :
  (forall (m p : FungibleTokenPacketData) (b : list byte),
     FungibleTokenPacketData_fits p ->
     FungibleTokenPacketData_Marshal p = Ok b ->
     FungibleTokenPacketData_Unmarshal m b
     = Ok (FungibleTokenPacketData_merge m p)) /\
  (forall (m t : Token) (b : list byte),
     Token_fits t ->
     Token_Marshal (Some t) = Ok b ->
     Token_Unmarshal m b = Ok (Token_merge m t)) /\
  (forall (m : FungibleTokenPacketDataV2) (ts : list Token)
          (sender receiver memo b : list byte),
     FungibleTokenPacketDataV2_fits ts sender receiver memo ->
     FungibleTokenPacketDataV2_Marshal
       (FungibleTokenPacketDataV2_of ts sender receiver memo) = Ok b ->
     FungibleTokenPacketDataV2_Unmarshal m b
     = Ok (FungibleTokenPacketDataV2_merge m ts sender receiver memo)).
Proof.
  split; [|split].
  - intros m p b Hp Hb.
    rewrite FungibleTokenPacketData_Marshal_wire in Hb by exact Hp.
    injection Hb as <-. apply FungibleTokenPacketData_Unmarshal_merge, Hp.
  - intros m t b [Hwf Hl] Hb.
    rewrite Token_Marshal_wire in Hb by assumption.
    injection Hb as <-. apply Token_Unmarshal_merge; assumption.
  - intros m ts sender receiver memo b [Hwf Hl] Hb.
    unfold FungibleTokenPacketDataV2_of in Hb.
    rewrite FungibleTokenPacketDataV2_Marshal_wire in Hb by assumption.
    injection Hb as <-.
    apply FungibleTokenPacketDataV2_Unmarshal_merge; assumption.
Qed.

Lemma Unmarshal_merges_into_receiver_witness :
  FungibleTokenPacketData_Unmarshal sample_packet
    [x12; x01; x37; x2a; x02; x68; x69]
  = Ok (mkFungibleTokenPacketData [x75; x61; x74; x6f; x6d] [x37]
          [x61; x6c; x69; x63; x65] [x62; x6f; x62] [x68; x69]).
Proof.
  apply (proj1 Unmarshal_merges_into_receiver sample_packet
           (mkFungibleTokenPacketData [] [x37] [] [] [x68; x69])).
  - unfold FungibleTokenPacketData_fits. vm_compute. discriminate.
  - vm_compute. reflexivity.
Defined.

(** X2. Decoding a concatenation: when [a] decodes into [m0] giving [m1]
    and [b] decodes into [m1] giving [m2], the bytes [a ++ b] decode into
    [m0] giving [m2], for the three messages. The encodings of two
    messages in a row decode as one message. *)
Theorem Unmarshal_concat :
  forall a b : list byte,
    len (a ++ b) <= maxInt ->
    (forall m0 m1 m2,
       FungibleTokenPacketData_Unmarshal m0 a = Ok m1 ->
       FungibleTokenPacketData_Unmarshal m1 b = Ok m2 ->
       FungibleTokenPacketData_Unmarshal m0 (a ++ b) = Ok m2) /\
    (forall m0 m1 m2,
       FungibleTokenPacketDataV2_Unmarshal m0 a = Ok m1 ->
       FungibleTokenPacketDataV2_Unmarshal m1 b = Ok m2 ->
       FungibleTokenPacketDataV2_Unmarshal m0 (a ++ b) = Ok m2) /\
    (forall m0 m1 m2,
       Token_Unmarshal m0 a = Ok m1 ->
       Token_Unmarshal m1 b = Ok m2 ->
       Token_Unmarshal m0 (a ++ b) = Ok m2).
Proof.
  intros a b Hd. split; [|split]; intros m0 m1 m2.
  - apply FungibleTokenPacketData_Unmarshal_app, Hd.
  - apply FungibleTokenPacketDataV2_Unmarshal_app, Hd.
  - apply Token_Unmarshal_app, Hd.
Qed.

Lemma Unmarshal_concat_witness :
  Token_Unmarshal Token_zero ([x10; x05] ++ [x1a; x01; x61; x10; x07])
  = Ok (mkToken [] 7 [[x61]]).
Proof.
  refine (proj2 (proj2 (Unmarshal_concat [x10; x05]
                          [x1a; x01; x61; x10; x07] _))
            Token_zero (mkToken [] 5 []) _ _ _).
  - vm_compute. discriminate.
  - vm_compute. reflexivity.
  - vm_compute. reflexivity.
Defined.

(** X3. [Marshal] is injective: two payloads that Go can hold and that
    [Marshal] maps to the same bytes are equal, for the three messages
    (non-nil tokens with [uint64] amounts). *)
Theorem Marshal_injective :
  (forall (p q : FungibleTokenPacketData) (b : list byte),
     FungibleTokenPacketData_fits p -> FungibleTokenPacketData_fits q ->
     FungibleTokenPacketData_Marshal p = Ok b ->
     FungibleTokenPacketData_Marshal q = Ok b -> p = q) /\
  (forall (t u : Token) (b : list byte),
     Token_fits t -> Token_fits u ->
     Token_Marshal (Some t) = Ok b -> Token_Marshal (Some u) = Ok b ->
     t = u) /\
  (forall (ts us : list Token) (s1 r1 m1 s2 r2 m2 b : list byte),
     FungibleTokenPacketDataV2_fits ts s1 r1 m1 ->
     FungibleTokenPacketDataV2_fits us s2 r2 m2 ->
     FungibleTokenPacketDataV2_Marshal
       (FungibleTokenPacketDataV2_of ts s1 r1 m1) = Ok b ->
     FungibleTokenPacketDataV2_Marshal
       (FungibleTokenPacketDataV2_of us s2 r2 m2) = Ok b ->
     FungibleTokenPacketDataV2_of ts s1 r1 m1
     = FungibleTokenPacketDataV2_of us s2 r2 m2).
Proof.
  split; [|split].
  - intros p q b Hp Hq Ep Eq.
    rewrite FungibleTokenPacketData_Marshal_wire in Ep, Eq by assumption.
    injection Ep as Ep. injection Eq as Eq.
    pose proof (FungibleTokenPacketData_Unmarshal_wire p Hp) as Up.
    pose proof (FungibleTokenPacketData_Unmarshal_wire q Hq) as Uq.
    rewrite Ep in Up. rewrite Eq in Uq. congruence.
  - intros t u b [Wt Ht] [Wu Hu] Et Eu.
    rewrite Token_Marshal_wire in Et, Eu by assumption.
    injection Et as Et. injection Eu as Eu.
    pose proof (Token_Unmarshal_wire t Wt Ht) as Ut.
    pose proof (Token_Unmarshal_wire u Wu Hu) as Uu.
    rewrite Et in Ut. rewrite Eu in Uu. congruence.
  - intros ts us s1 r1 m1 s2 r2 m2 b [Wt Ht] [Wu Hu] Et Eu.
    unfold FungibleTokenPacketDataV2_of in *.
    rewrite FungibleTokenPacketDataV2_Marshal_wire in Et, Eu by assumption.
    injection Et as Et. injection Eu as Eu.
    pose proof (FungibleTokenPacketDataV2_Unmarshal_wire ts s1 r1 m1 Wt Ht)
      as Ut.
    pose proof (FungibleTokenPacketDataV2_Unmarshal_wire us s2 r2 m2 Wu Hu)
      as Uu.
    rewrite Et in Ut. rewrite Eu in Uu. congruence.
Qed.

Lemma Marshal_injective_witness :
  sample_packet
  = mkFungibleTokenPacketData
      [x75; x61; x74; x6f; x6d] [x31; x30; x30] [x61; x6c; x69; x63; x65]
      [x62; x6f; x62] [].
Proof.
  apply (proj1 Marshal_injective sample_packet
           (mkFungibleTokenPacketData
              [x75; x61; x74; x6f; x6d] [x31; x30; x30]
              [x61; x6c; x69; x63; x65] [x62; x6f; x62] [])
           [x0a; x05; x75; x61; x74; x6f; x6d; x12; x03; x31; x30; x30;
            x1a; x05; x61; x6c; x69; x63; x65; x22; x03; x62; x6f; x62]).
  - unfold FungibleTokenPacketData_fits. vm_compute. discriminate.
  - unfold FungibleTokenPacketData_fits. vm_compute. discriminate.
  - vm_compute. reflexivity.
  - vm_compute. reflexivity.
Defined.

(** ** Varints, written and read back *)

(** ** Bytes an encoder does not touch *)

Lemma setAt_neg (dAtA : list byte) (i : Z) (b : byte) :
  i < 0 -> setAt dAtA i b = Panic.
Proof.
  intros Hi. unfold setAt. destruct (Z.ltb_spec i 0); [reflexivity|lia].
Qed.

Lemma agree_refl (j : Z) (a : list byte) : agree j a a.
Proof. split; reflexivity. Qed.

Lemma agree_le (j j' : Z) (a b : list byte) :
  j' <= j -> agree j a b -> agree j' a b.
Proof.
  intros Hj [L T]. split; [exact L|].
  replace (Z.to_nat j') with (Z.to_nat j' `min` Z.to_nat j)%nat by lia.
  rewrite <- !take_take. rewrite T. reflexivity.
Qed.

Lemma agree_trans (j : Z) (a b c : list byte) :
  agree j a b -> agree j b c -> agree j a c.
Proof. intros [L1 T1] [L2 T2]. split; congruence. Qed.

Lemma setAt_agree (d d' : list byte) (j : Z) (b : byte) :
  setAt d j b = Ok d' -> 0 <= j < len d /\ agree j d' d.
Proof.
  unfold setAt. intros H.
  destruct (Z.ltb_spec j 0); [discriminate|].
  destruct (Z.leb_spec (len d) j); [discriminate|].
  injection H as <-. split; [lia|]. split.
  - unfold len. rewrite length_insert. reflexivity.
  - apply take_insert_ge. lia.
Qed.

Lemma copyAt_agree (d d' s : list byte) (j : Z) :
  copyAt d j s = Ok d' -> 0 <= j <= len d /\ agree j d' d.
Proof.
  unfold copyAt. intros H.
  destruct (Z.ltb_spec j 0); [discriminate|].
  destruct (Z.ltb_spec (len d) j); [discriminate|].
  injection H as <-. split; [lia|]. unfold agree, len in *. split.
  - rewrite !length_app, !length_take, length_drop. lia.
  - apply take_app_length'. rewrite length_take. lia.
Qed.

Lemma encodeVarintLoop_agree (k : nat) :
  forall (d d' : list byte) (off v : Z),
    0 <= off -> len d <= maxInt ->
    encodeVarintLoop k d off v = Ok d' -> agree off d' d.
Proof.
  induction k as [|k IH]; intros d d' off v Ho Hd H; [discriminate|].
  cbn [encodeVarintLoop] in H.
  destruct (128 <=? v).
  - destruct (setAt d off _) as [d1| | |] eqn:E; try discriminate H.
    cbn [bind] in H. apply setAt_agree in E as [Hj A1].
    rewrite addInt_small in H by lia.
    apply IH in H; [|lia|destruct A1 as [L _]; lia].
    apply (agree_trans off d' d1 d); [|exact A1].
    apply (agree_le (off + 1)); [lia|exact H].
  - apply setAt_agree in H as [_ A]. exact A.
Qed.

Lemma encodeVarintPacket_agree (d d' : list byte) (i i' v : Z) :
  0 <= i <= len d -> len d <= maxInt -> 0 <= v < 2 ^ 64 ->
  encodeVarintPacket d i v = Ok (d', i') ->
  i' = i - sovPacket v /\ 0 <= i' /\ agree i' d' d.
Proof.
  intros Hi Hd Hv H. pose proof (sovPacket_pos v Hv) as Hp.
  unfold encodeVarintPacket in H. rewrite subInt_small in H by lia.
  destruct (encodeVarintLoop 10 d (i - sovPacket v) v) as [d1| | |] eqn:E;
    try discriminate H.
  injection H as <- <-. split; [reflexivity|].
  destruct (Z.lt_ge_cases (i - sovPacket v) 0) as [Hneg|Hpos].
  - exfalso. cbn [encodeVarintLoop] in E.
    destruct (128 <=? v); rewrite setAt_neg in E by lia; discriminate E.
  - split; [exact Hpos|].
    apply (encodeVarintLoop_agree 10 d d1 _ v Hpos Hd E).
Qed.

(** The front of a result that agrees with the buffer is the front of the
    buffer. *)
Lemma agree_front (front' wire d : list byte) :
  len front' = len d - len wire ->
  agree (len d - len wire) (front' ++ wire) d ->
  front' = take (Z.to_nat (len d - len wire)) d.
Proof.
  intros Hl [_ T]. rewrite <- T.
  rewrite take_app_length'; [reflexivity|]. unfold len in *. lia.
Qed.

(** X4. [encodeVarintPacket] and the varint loop of the decoders are
    inverse: with room for [sovPacket v] bytes before [offset], the call
    writes the varint of [v] into exactly those bytes and returns
    [offset - sovPacket v]; every other byte of the buffer, before and
    after them, is as it was; and reading a varint at the returned
    position gives [v] back and ends at [offset]. *)
Theorem encodeVarintPacket_read_back :
  forall (front done : list byte) (v : Z),
    0 <= v < 2 ^ 64 -> sovPacket v <= len front ->
    len (front ++ done) <= maxInt ->
    encodeVarintPacket (front ++ done) (len front) v
    = Ok (take (Z.to_nat (len front - sovPacket v)) front
            ++ varint v ++ done,
          len front - sovPacket v) /\
    readVarintU64
      (take (Z.to_nat (len front - sovPacket v)) front ++ varint v ++ done)
      (len front - sovPacket v)
    = Ok (v, len front).
Proof.
  intros front done v Hv Hs Hd.
  pose proof (sovPacket_pos v Hv) as Hp.
  pose proof (len_nonneg front) as Hf0. pose proof (len_nonneg done) as Hd0.
  pose proof (varint_len v Hv) as Hl.
  destruct (encodeVarintPacket_spec front done v Hv Hs Hd)
    as (f1 & Hf1 & E).
  assert (Hfront : f1 = take (Z.to_nat (len front - sovPacket v)) front).
  { pose proof E as E'.
    apply encodeVarintPacket_agree in E' as (_ & _ & [_ T]);
      [|rewrite len_app; lia|exact Hd|exact Hv].
    rewrite take_app_length' in T by (unfold len in *; lia).
    rewrite T, Hf1. apply take_app_le. unfold len in *. lia. }
  rewrite <- Hfront, <- Hf1. split; [exact E|].
  assert (Hlen : len (f1 ++ varint v ++ done) = len (front ++ done))
    by (rewrite !len_app; lia).
  rewrite readVarintU64_varint by (try assumption; lia).
  do 2 f_equal. lia.
Qed.

Lemma encodeVarintPacket_read_back_witness :
  encodeVarintPacket ([x01; x02; x03] ++ [xff]) (len [x01; x02; x03]) 300
  = Ok (take (Z.to_nat (len [x01; x02; x03] - sovPacket 300)) [x01; x02; x03]
          ++ varint 300 ++ [xff],
        len [x01; x02; x03] - sovPacket 300) /\
  readVarintU64
    (take (Z.to_nat (len [x01; x02; x03] - sovPacket 300)) [x01; x02; x03]
       ++ varint 300 ++ [xff])
    (len [x01; x02; x03] - sovPacket 300)
  = Ok (300, len [x01; x02; x03]).
Proof.
  apply (encodeVarintPacket_read_back [x01; x02; x03] [xff] 300).
  - lia.
  - vm_compute. discriminate.
  - vm_compute. discriminate.
Defined.

Lemma sovPacket_bounds (k : nat) (x : Z) :
  (1 <= k)%nat -> 0 <= x < 2 ^ (7 * Z.of_nat k) ->
  1 <= sovPacket x <= Z.of_nat k /\
  x < 2 ^ (7 * sovPacket x) /\
  (1 < sovPacket x -> 2 ^ (7 * (sovPacket x - 1)) <= x).
Proof.
  revert x. induction k as [|k IH]; intros x Hk Hx; [lia|].
  destruct (Z.lt_ge_cases x 128) as [Hlt|Hge].
  - rewrite sovPacket_small by lia. cbn. lia.
  - rewrite sovPacket_step by lia.
    assert (Hq : 1 <= x / 128) by (apply Z.div_le_lower_bound; lia).
    assert (Hu : x / 128 < 2 ^ (7 * Z.of_nat k)).
    { apply Z.div_lt_upper_bound; [lia|].
      replace (7 * Z.of_nat (S k)) with (7 + 7 * Z.of_nat k) in Hx by lia.
      rewrite Z.pow_add_r in Hx by lia. lia. }
    assert (Hk1 : (1 <= k)%nat) by (destruct k; [simpl in Hu; lia | lia]).
    destruct (IH (x / 128) Hk1 ltac:(lia)) as (H1 & H2 & H3).
    pose proof (Z.div_mod x 128 ltac:(lia)) as Hdm.
    pose proof (Z.mod_pos_bound x 128 ltac:(lia)) as Hm.
    split; [lia|]. split.
    + replace (7 * (1 + sovPacket (x / 128)))
        with (7 + 7 * sovPacket (x / 128)) by lia.
      rewrite Z.pow_add_r by lia. change (2 ^ 7) with 128. lia.
    + intros _. replace (1 + sovPacket (x / 128) - 1)
        with (sovPacket (x / 128)) by lia.
      destruct (Z.eq_dec (sovPacket (x / 128)) 1) as [E|E].
      * rewrite E. change (2 ^ (7 * 1)) with 128. lia.
      * specialize (H3 ltac:(lia)).
        replace (7 * sovPacket (x / 128))
          with (7 + 7 * (sovPacket (x / 128) - 1)) by lia.
        rewrite Z.pow_add_r by lia. change (2 ^ 7) with 128. lia.
Qed.

(** X5. [sovPacket x] is the number of seven-bit groups of [x]: for a
    [uint64] it lies between 1 and 10, [x] is below [2^(7n)] for
    [n = sovPacket x], and not below [2^(7(n-1))] when [n] is more than
    one. *)
Theorem sovPacket_groups :
  forall x : Z,
    0 <= x < 2 ^ 64 ->
    1 <= sovPacket x <= 10 /\
    x < 2 ^ (7 * sovPacket x) /\
    (1 < sovPacket x -> 2 ^ (7 * (sovPacket x - 1)) <= x).
Proof.
  intros x Hx. apply (sovPacket_bounds 10 x); [lia|].
  assert (2 ^ 64 <= 2 ^ (7 * Z.of_nat 10)) by (apply Z.pow_le_mono_r; lia).
  lia.
Qed.

Lemma sovPacket_groups_witness :
  1 <= sovPacket 16384 <= 10 /\
  16384 < 2 ^ (7 * sovPacket 16384) /\
  (1 < sovPacket 16384 -> 2 ^ (7 * (sovPacket 16384 - 1)) <= 16384).
Proof. apply (sovPacket_groups 16384). lia. Defined.

Lemma lxor_ones_64 (y : Z) :
  0 <= y < 2 ^ 64 -> Z.lxor y (2 ^ 64 - 1) = 2 ^ 64 - 1 - y.
Proof.
  intros Hy. change (2 ^ 64 - 1) with (Z.ones 64).
  rewrite Z.sub_nocarry_ldiff.
  - apply Z.bits_inj'. intros n Hn.
    rewrite Z.lxor_spec, Z.ldiff_spec.
    destruct (Z.lt_ge_cases n 64).
    + rewrite Z.ones_spec_low by lia. destruct (Z.testbit y n); reflexivity.
    + rewrite Z.ones_spec_high by lia.
      rewrite <- (Z.mod_small y (2 ^ 64)) by lia.
      rewrite Z.mod_pow2_bits_high by lia. reflexivity.
  - apply Z.bits_inj'. intros n Hn.
    rewrite Z.ldiff_spec, Z.bits_0.
    destruct (Z.lt_ge_cases n 64).
    + rewrite Z.ones_spec_low by lia. apply andb_false_r.
    + rewrite <- (Z.mod_small y (2 ^ 64)) by lia.
      rewrite Z.mod_pow2_bits_high by lia. reflexivity.
Qed.

(** X6. [sozPacket] is the varint size of the zigzag form: for the
    [uint64] that holds the [int64] number [z], it returns
    [sovPacket (2z)] when [z] is not negative and [sovPacket (-2z - 1)]
    when it is. *)
Theorem sozPacket_zigzag :
  forall z : Z,
    - 2 ^ 63 <= z < 2 ^ 63 ->
    sozPacket (wrapU64 z) = sovPacket (zigzag z).
Proof.
  intros z Hz. unfold sozPacket, zigzag. f_equal.
  destruct (Z.ltb_spec z 0) as [Hneg|Hpos].
  - assert (Hx : wrapU64 z = z + 2 ^ 64).
    { unfold wrapU64. symmetry. apply Z.mod_unique with (q := -1); lia. }
    rewrite Hx.
    assert (Hi : wrapInt (z + 2 ^ 64) = z).
    { unfold wrapInt.
      replace (z + 2 ^ 64 + 2 ^ 63) with (z + 2 ^ 63 + 1 * 2 ^ 64) by lia.
      rewrite Z.mod_add by lia. rewrite Z.mod_small by lia. lia. }
    rewrite Hi. rewrite Z.shiftr_div_pow2 by lia.
    replace (z / 2 ^ 63) with (-1)
      by (apply Z.div_unique with (r := z + 2 ^ 63); lia).
    rewrite Z.shiftl_mul_pow2 by lia. change (2 ^ 1) with 2.
    assert (Hs : wrapU64 ((z + 2 ^ 64) * 2) = 2 * z + 2 ^ 64).
    { unfold wrapU64. symmetry. apply Z.mod_unique with (q := 1); lia. }
    rewrite Hs. change (wrapU64 (-1)) with (2 ^ 64 - 1).
    rewrite lxor_ones_64 by lia. rewrite wrapU64_small by lia. lia.
  - rewrite (wrapU64_small z) by lia. rewrite wrapInt_small by lia.
    rewrite Z.shiftr_div_pow2 by lia. rewrite Z.div_small by lia.
    rewrite Z.shiftl_mul_pow2 by lia. change (2 ^ 1) with 2.
    change (wrapU64 0) with 0. rewrite Z.lxor_0_r.
    rewrite (wrapU64_small (z * 2)) by lia.
    rewrite wrapU64_small by lia. lia.
Qed.

Lemma sozPacket_zigzag_witness :
  sozPacket (wrapU64 (-64)) = sovPacket (zigzag (-64)).
Proof. apply (sozPacket_zigzag (-64)). lia. Defined.

(** ** The other entry points *)

Lemma sliceTo_take (dAtA : list byte) (hi : Z) :
  0 <= hi <= len dAtA -> sliceTo dAtA hi = Ok (take (Z.to_nat hi) dAtA).
Proof.
  intros Hh. unfold sliceTo, slice.
  destruct (Z.leb_spec 0 0); [|lia].
  destruct (Z.leb_spec 0 hi); [|lia].
  destruct (Z.leb_spec hi (len dAtA)); [|lia].
  cbn [andb]. rewrite Z.sub_0_r. reflexivity.
Qed.

Lemma sliceTo_beyond (dAtA : list byte) (hi : Z) :
  len dAtA < hi -> sliceTo dAtA hi = Panic.
Proof.
  intros Hh. unfold sliceTo, slice.
  destruct (Z.leb_spec hi (len dAtA)); [lia|].
  rewrite andb_false_r. reflexivity.
Qed.

(** The frame shared by the three [MarshalTo] functions. *)
Lemma MarshalTo_wire (size : Z) (mtsb : list byte -> result (list byte * Z))
    (wire dAtA : list byte) :
  size = len wire -> len wire <= len dAtA -> len dAtA <= maxInt ->
  (forall d, len wire <= len d -> len d <= maxInt ->
     exists front', len front' = len d - len wire /\
                    mtsb d = Ok (front' ++ wire, len wire)) ->
  (let* sub := sliceTo dAtA size in
   let* (sub, n) := mtsb sub in
   Ok (sub ++ drop (Z.to_nat size) dAtA, n))
  = Ok (wire ++ drop (Z.to_nat (len wire)) dAtA, len wire).
Proof.
  intros -> Hl Hd Hm. pose proof (len_nonneg wire) as H0.
  rewrite sliceTo_take by lia. cbn [bind].
  assert (Ht : len (take (Z.to_nat (len wire)) dAtA) = len wire).
  { unfold len in *. rewrite length_take. lia. }
  destruct (Hm (take (Z.to_nat (len wire)) dAtA) ltac:(lia) ltac:(lia))
    as (f1 & Hf1 & ->).
  cbn [bind].
  assert (f1 = []) as -> by (apply len_zero_nil; lia).
  reflexivity.
Qed.

(** X7. [MarshalTo] writes the encoding at the front of the buffer: given
    a buffer with room for [Size] bytes, it returns [Size], leaves the
    encoding of the message in the first [Size] bytes and does not touch
    the bytes after them. *)
Theorem MarshalTo_writes_front :
  forall dAtA : list byte,
    len dAtA <= maxInt ->
    (forall m : FungibleTokenPacketData,
       len (FungibleTokenPacketData_wire m) <= len dAtA ->
       FungibleTokenPacketData_MarshalTo m dAtA
       = Ok (FungibleTokenPacketData_wire m
             ++ drop (Z.to_nat (FungibleTokenPacketData_Size m)) dAtA,
             FungibleTokenPacketData_Size m)) /\
    (forall t : Token,
       Token_wf t -> len (Token_wire t) <= len dAtA ->
       Token_MarshalTo (Some t) dAtA
       = Ok (Token_wire t ++ drop (Z.to_nat (Token_Size (Some t))) dAtA,
             Token_Size (Some t))) /\
    (forall (ts : list Token) (sender receiver memo : list byte),
       Forall Token_wf ts ->
       len (FungibleTokenPacketDataV2_wire ts sender receiver memo)
       <= len dAtA ->
       FungibleTokenPacketDataV2_MarshalTo
         (FungibleTokenPacketDataV2_of ts sender receiver memo) dAtA
       = Ok (FungibleTokenPacketDataV2_wire ts sender receiver memo
             ++ drop (Z.to_nat (FungibleTokenPacketDataV2_Size
                        (FungibleTokenPacketDataV2_of ts sender receiver
                           memo))) dAtA,
             FungibleTokenPacketDataV2_Size
               (FungibleTokenPacketDataV2_of ts sender receiver memo))).
Proof.
  intros dAtA Hd. split; [|split].
  - intros m Hl. unfold FungibleTokenPacketData_MarshalTo. cbv zeta.
    rewrite (FungibleTokenPacketData_Size_wire m) at 2 3 by lia.
    apply MarshalTo_wire; [|exact Hl|exact Hd|].
    + apply FungibleTokenPacketData_Size_wire. lia.
    + apply FungibleTokenPacketData_MarshalToSizedBuffer_wire.
  - intros t Hwf Hl. unfold Token_MarshalTo. cbv zeta.
    rewrite (Token_Size_wire t) at 2 3 by (try assumption; lia).
    apply MarshalTo_wire; [|exact Hl|exact Hd|].
    + apply Token_Size_wire; [assumption|lia].
    + intros d. apply Token_MarshalToSizedBuffer_wire, Hwf.
  - intros ts sender receiver memo Hwf Hl.
    unfold FungibleTokenPacketDataV2_MarshalTo,
      FungibleTokenPacketDataV2_of. cbv zeta.
    rewrite (FungibleTokenPacketDataV2_Size_wire ts sender receiver memo)
      at 2 3 by (try assumption; lia).
    apply MarshalTo_wire; [|exact Hl|exact Hd|].
    + apply FungibleTokenPacketDataV2_Size_wire; [assumption|lia].
    + intros d. apply FungibleTokenPacketDataV2_MarshalToSizedBuffer_wire.
      exact Hwf.
Qed.

Lemma MarshalTo_writes_front_witness :
  FungibleTokenPacketData_MarshalTo
    (mkFungibleTokenPacketData [x61] [] [] [] []) [xff; xff; xff; xff; xff]
  = Ok (FungibleTokenPacketData_wire
          (mkFungibleTokenPacketData [x61] [] [] [] [])
        ++ drop (Z.to_nat (FungibleTokenPacketData_Size
                   (mkFungibleTokenPacketData [x61] [] [] [] [])))
             [xff; xff; xff; xff; xff],
        FungibleTokenPacketData_Size
          (mkFungibleTokenPacketData [x61] [] [] [] [])).
Proof.
  refine (proj1 (MarshalTo_writes_front [xff; xff; xff; xff; xff] _)
            (mkFungibleTokenPacketData [x61] [] [] [] []) _).
  - vm_compute. discriminate.
  - vm_compute. discriminate.
Defined.

(** X8. [MarshalTo] panics on a buffer that is too small: when the
    capacity of the buffer is below [Size], the slice expression
    [dAtA[:size]] is out of range, for the three messages. *)
Theorem MarshalTo_short_buffer_panics :
  forall dAtA : list byte,
    (forall m : FungibleTokenPacketData,
       len dAtA < FungibleTokenPacketData_Size m ->
       FungibleTokenPacketData_MarshalTo m dAtA = Panic) /\
    (forall m : option Token,
       len dAtA < Token_Size m -> Token_MarshalTo m dAtA = Panic) /\
    (forall m : FungibleTokenPacketDataV2,
       len dAtA < FungibleTokenPacketDataV2_Size m ->
       FungibleTokenPacketDataV2_MarshalTo m dAtA = Panic).
Proof.
  intros dAtA. split; [|split]; intros m Hl.
  - unfold FungibleTokenPacketData_MarshalTo. cbv zeta.
    rewrite sliceTo_beyond by exact Hl. reflexivity.
  - unfold Token_MarshalTo. cbv zeta.
    rewrite sliceTo_beyond by exact Hl. reflexivity.
  - unfold FungibleTokenPacketDataV2_MarshalTo. cbv zeta.
    rewrite sliceTo_beyond by exact Hl. reflexivity.
Qed.

Lemma MarshalTo_short_buffer_panics_witness :
  FungibleTokenPacketData_MarshalTo sample_packet [x00; x00; x00] = Panic.
Proof.
  apply (proj1 (MarshalTo_short_buffer_panics [x00; x00; x00])
           sample_packet).
  vm_compute. reflexivity.
Defined.

(** The frame shared by the three [XXX_Marshal] functions. *)
Lemma XXX_Marshal_wire {M} info (mtsb : M -> list byte -> result (list byte * Z))
    (m : M) (wire b : list byte) :
  len b = len wire -> len wire <= maxInt ->
  (forall d, len wire <= len d -> len d <= maxInt ->
     exists front', len front' = len d - len wire /\
                    mtsb m d = Ok (front' ++ wire, len wire)) ->
  XXX_Marshal info mtsb m b false = Ok wire.
Proof.
  intros Hb Hd Hm. unfold XXX_Marshal.
  destruct (Hm b ltac:(lia) ltac:(lia)) as (f1 & Hf1 & ->).
  cbn [bind].
  assert (f1 = []) as -> by (apply len_zero_nil; lia).
  cbn [app]. apply slice_all.
Qed.

(** X9. The entry points the protobuf library calls agree with [Marshal]
    and round-trip: on a buffer whose capacity is [XXX_Size],
    [XXX_Marshal] without the deterministic flag returns what [Marshal]
    returns, and [XXX_Unmarshal] of these bytes into a fresh message gives
    the message back. *)
Theorem XXX_Marshal_agrees :
  (forall info (m : FungibleTokenPacketData) (b : list byte),
     FungibleTokenPacketData_fits m ->
     len b = FungibleTokenPacketData_XXX_Size m ->
     exists out,
       FungibleTokenPacketData_XXX_Marshal info m b false = Ok out /\
       FungibleTokenPacketData_Marshal m = Ok out /\
       FungibleTokenPacketData_XXX_Unmarshal FungibleTokenPacketData_zero out
       = Ok m) /\
  (forall info (t : Token) (b : list byte),
     Token_fits t ->
     len b = Token_XXX_Size (Some t) ->
     exists out,
       Token_XXX_Marshal info (Some t) b false = Ok out /\
       Token_Marshal (Some t) = Ok out /\
       Token_XXX_Unmarshal Token_zero out = Ok t) /\
  (forall info (ts : list Token) (sender receiver memo b : list byte),
     FungibleTokenPacketDataV2_fits ts sender receiver memo ->
     len b = FungibleTokenPacketDataV2_XXX_Size
               (FungibleTokenPacketDataV2_of ts sender receiver memo) ->
     exists out,
       FungibleTokenPacketDataV2_XXX_Marshal info
         (FungibleTokenPacketDataV2_of ts sender receiver memo) b false
       = Ok out /\
       FungibleTokenPacketDataV2_Marshal
         (FungibleTokenPacketDataV2_of ts sender receiver memo) = Ok out /\
       FungibleTokenPacketDataV2_XXX_Unmarshal
         FungibleTokenPacketDataV2_zero out
       = Ok (FungibleTokenPacketDataV2_of ts sender receiver memo)).
Proof.
  split; [|split].
  - intros info m b Hm Hb. exists (FungibleTokenPacketData_wire m).
    unfold FungibleTokenPacketData_XXX_Size in Hb.
    rewrite FungibleTokenPacketData_Size_wire in Hb by exact Hm.
    split; [|split].
    + apply XXX_Marshal_wire; [exact Hb|exact Hm|].
      apply FungibleTokenPacketData_MarshalToSizedBuffer_wire.
    + apply FungibleTokenPacketData_Marshal_wire, Hm.
    + apply FungibleTokenPacketData_Unmarshal_wire, Hm.
  - intros info t b [Hwf Hl] Hb. exists (Token_wire t).
    unfold Token_XXX_Size in Hb.
    rewrite Token_Size_wire in Hb by assumption.
    split; [|split].
    + apply XXX_Marshal_wire; [exact Hb|exact Hl|].
      intros d. apply Token_MarshalToSizedBuffer_wire, Hwf.
    + apply Token_Marshal_wire; assumption.
    + apply Token_Unmarshal_wire; assumption.
  - intros info ts sender receiver memo b [Hwf Hl] Hb.
    exists (FungibleTokenPacketDataV2_wire ts sender receiver memo).
    unfold FungibleTokenPacketDataV2_XXX_Size,
      FungibleTokenPacketDataV2_of in *.
    rewrite FungibleTokenPacketDataV2_Size_wire in Hb by assumption.
    split; [|split].
    + apply XXX_Marshal_wire; [exact Hb|exact Hl|].
      intros d. apply FungibleTokenPacketDataV2_MarshalToSizedBuffer_wire.
      exact Hwf.
    + apply FungibleTokenPacketDataV2_Marshal_wire; assumption.
    + apply FungibleTokenPacketDataV2_Unmarshal_wire; assumption.
Qed.

Lemma XXX_Marshal_agrees_witness :
  exists out,
    Token_XXX_Marshal (fun _ _ _ => Panic) (Some sample_token)
      (replicate 22 x00) false = Ok out /\
    Token_Marshal (Some sample_token) = Ok out /\
    Token_XXX_Unmarshal Token_zero out = Ok sample_token.
Proof.
  apply (proj1 (proj2 XXX_Marshal_agrees) (fun _ _ _ => Panic) sample_token
           (replicate 22 x00)).
  - split; [vm_compute; split; [discriminate|reflexivity]
           | vm_compute; discriminate].
  - vm_compute. reflexivity.
Defined.

(** ** Skipping a field *)

(** X10. [skipPacket] measures the field at the head of its input: for a
    well-formed field of any number (a varint, a 64-bit, a
    length-delimited or a 32-bit value) followed by any bytes, it returns
    the number of bytes of that field. *)
Theorem skipPacket_field_length :
  forall (fn : Z) (wv : wireValue) (suf : list byte),
    fieldNum_wf fn -> wireValue_wf wv ->
    len (wireField fn wv ++ suf) <= maxInt ->
    skipPacket (wireField fn wv ++ suf) = Ok (len (wireField fn wv)).
Proof.
  intros fn wv suf Hfn Hwf Hd. unfold skipPacket.
  pose proof (wireField_len_pos fn wv Hfn) as Hp.
  pose proof (len_nonneg suf) as Hs.
  destruct (length (wireField fn wv ++ suf)) as [|n] eqn:E.
  { apply (f_equal Z.of_nat) in E. fold (len (wireField fn wv ++ suf)) in E.
    rewrite len_app in E. lia. }
  cbn [skipLoop].
  destruct (Z.ltb_spec 0 (len (wireField fn wv ++ suf)));
    [|rewrite len_app in *; lia].
  rewrite skipStep_wireField by assumption. reflexivity.
Qed.

Lemma skipPacket_field_length_witness :
  skipPacket (wireField 9 (WBytes [x01; x02]) ++ [xff; xff])
  = Ok (len (wireField 9 (WBytes [x01; x02]))).
Proof.
  apply (skipPacket_field_length 9 (WBytes [x01; x02]) [xff; xff]).
  - unfold fieldNum_wf. lia.
  - exact I.
  - vm_compute. discriminate.
Defined.

(** ** Varints as the decoders read them *)

Lemma accU64_wraps : acc_wraps accU64 wrapU64.
Proof.
  split; [|intros x Hx; apply wrapU64_small; lia].
  intros a b s Hs Ha. unfold accU64.
  rewrite land_127, Z.shiftl_mul_pow2 by lia.
  pose proof (Z.mod_pos_bound b 128 ltac:(lia)) as Hb.
  set (bm := b mod 128) in *.
  assert (HP : 0 < 2 ^ s) by (apply Z.pow_pos_nonneg; lia).
  assert (HQ : 0 < 2 ^ (64 - s)) by (apply Z.pow_pos_nonneg; lia).
  assert (E : 2 ^ 64 = 2 ^ (64 - s) * 2 ^ s).
  { rewrite <- Z.pow_add_r by lia. f_equal. lia. }
  pose proof (Z.mod_pos_bound bm (2 ^ (64 - s)) HQ) as Hr.
  pose proof (Z.div_mod bm (2 ^ (64 - s)) ltac:(lia)) as Hdm.
  assert (Ew : wrapU64 (bm * 2 ^ s) = bm mod 2 ^ (64 - s) * 2 ^ s).
  { unfold wrapU64. rewrite E. symmetry.
    apply Z.mod_unique with (q := bm / 2 ^ (64 - s)); [nia|].
    rewrite Hdm at 1. ring. }
  rewrite Ew. rewrite lor_disjoint by lia.
  unfold wrapU64. rewrite E.
  apply Z.mod_unique with (q := bm / 2 ^ (64 - s)); [nia|].
  rewrite Hdm at 1. ring.
Qed.

Lemma accInt_wraps : acc_wraps accInt wrapInt.
Proof.
  split.
  - intros a b s Hs Ha. unfold accInt.
    rewrite land_127, Z.shiftl_mul_pow2 by lia.
    rewrite lor_disjoint by lia. reflexivity.
  - intros x Hx. apply wrapInt_small. lia.
Qed.

Lemma varintEnds_cons (b b' : byte) (c : list byte) :
  varintEnds (b :: b' :: c)
  = (128 <=? byte_to_Z b) && varintEnds (b' :: c).
Proof. reflexivity. Qed.

Lemma varintLoop_value acc W :
  acc_wraps acc W ->
  forall (c pre suf : list byte) (n : nat) (s a : Z),
    varintEnds c = true -> (length c <= n)%nat ->
    0 <= s -> s + 7 * len c <= 70 -> 0 <= a < 2 ^ s ->
    len (pre ++ c ++ suf) <= maxInt ->
    varintLoop acc (pre ++ c ++ suf) n s (len pre) a
    = Ok (W (a + varintValue c * 2 ^ s), len pre + len c).
Proof.
  intros [Hacc HW].
  induction c as [|b c IH]; intros pre suf n s a He Hn Hs Hs7 Ha Hd;
    [discriminate|].
  destruct n as [|n]; [cbn in Hn; lia|].
  pose proof (len_nonneg pre). pose proof (len_nonneg suf).
  pose proof (len_nonneg c).
  pose proof (Z.mod_pos_bound (byte_to_Z b) 128 ltac:(lia)) as Hm.
  assert (HP : 0 < 2 ^ s) by (apply Z.pow_pos_nonneg; lia).
  rewrite len_cons in Hs7.
  assert (Hl : len pre + (1 + len c + len suf) <= maxInt)
    by (rewrite !len_app, len_cons in Hd; lia).
  cbn [varintLoop].
  destruct (Z.leb_spec 64 s); [lia|].
  destruct (Z.leb_spec (len (pre ++ (b :: c) ++ suf)) (len pre)) as [Hc|_].
  { rewrite !len_app, len_cons in Hc. lia. }
  rewrite (index_intro _ (len pre) b);
    [|lia|apply list_lookup_middle; unfold len; lia].
  cbn [bind]. rewrite addInt_small by lia.
  destruct c as [|b' c'].
  - cbn in He. rewrite He. rewrite Hacc by lia. cbn [varintValue].
    change (len [b]) with 1. do 2 f_equal. f_equal. lia.
  - rewrite varintEnds_cons in He. apply andb_true_iff in He as [Hb He].
    apply Z.leb_le in Hb.
    destruct (Z.ltb_spec (byte_to_Z b) 128); [lia|].
    rewrite len_cons in Hs7. pose proof (len_nonneg c').
    assert (HP7 : 2 ^ (s + 7) = 2 ^ s * 128)
      by (rewrite Z.pow_add_r by lia; reflexivity).
    assert (H63 : 2 ^ (s + 7) <= 2 ^ 63) by (apply Z.pow_le_mono_r; lia).
    rewrite Hacc by lia. rewrite HW by nia.
    replace (pre ++ (b :: b' :: c') ++ suf)
      with ((pre ++ [b]) ++ (b' :: c') ++ suf)
      by (rewrite <- app_assoc; reflexivity).
    replace (len pre + 1) with (len (pre ++ [b]))
      by (rewrite len_app, len_cons, len_nil; lia).
    rewrite IH; try assumption.
    + do 2 f_equal.
      * f_equal. change (varintValue (b :: b' :: c'))
          with (byte_to_Z b mod 128 + 128 * varintValue (b' :: c')).
        rewrite HP7. ring.
      * rewrite len_app, !len_cons, len_nil. lia.
    + cbn in Hn |- *. lia.
    + lia.
    + rewrite len_cons. lia.
    + nia.
    + rewrite <- app_assoc. exact Hd.
Qed.

Lemma varintBytes_ends (k : nat) (v : Z) :
  (1 <= k)%nat -> 0 <= v < 2 ^ (7 * Z.of_nat k) ->
  varintEnds (varintBytes k v) = true /\ varintValue (varintBytes k v) = v.
Proof.
  revert v. induction k as [|k IH]; intros v Hk Hv; [lia|].
  rewrite varintBytes_S.
  pose proof (Z.mod_pos_bound v 128 ltac:(lia)) as Hm.
  pose proof (Z.div_mod v 128 ltac:(lia)) as Hdm.
  destruct (Z.leb_spec 128 v) as [Hge|Hlt].
  - rewrite shiftr_7.
    assert (Hq : 1 <= v / 128) by (apply Z.div_le_lower_bound; lia).
    assert (Hu : v / 128 < 2 ^ (7 * Z.of_nat k)).
    { apply Z.div_lt_upper_bound; [lia|].
      replace (7 * Z.of_nat (S k)) with (7 + 7 * Z.of_nat k) in Hv by lia.
      rewrite Z.pow_add_r in Hv by lia. lia. }
    assert (Hk1 : (1 <= k)%nat) by (destruct k; [simpl in Hu; lia | lia]).
    destruct (IH (v / 128) Hk1 ltac:(lia)) as [He Hval].
    assert (Hb0 : byte_to_Z (uint8 (Z.lor (Z.land v 127) 128))
                  = v mod 128 + 128).
    { rewrite byte_to_Z_uint8, lor_128, Z.mod_small; lia. }
    destruct (varintBytes k (v / 128)) as [|b' c'] eqn:E; [discriminate He|].
    rewrite varintEnds_cons, He, Hb0.
    split.
    + destruct (Z.leb_spec 128 (v mod 128 + 128)); [reflexivity|lia].
    + change (varintValue (?b :: b' :: c'))
        with (byte_to_Z b mod 128 + 128 * varintValue (b' :: c')).
      rewrite Hval, Hb0.
      replace ((v mod 128 + 128) mod 128) with (v mod 128); [lia|].
      rewrite <- Z.add_mod_idemp_r by lia. change (128 mod 128) with 0.
      rewrite Z.add_0_r, Z.mod_mod; lia.
  - assert (Hb0 : byte_to_Z (uint8 v) = v).
    { rewrite byte_to_Z_uint8, Z.mod_small; lia. }
    cbn [varintEnds varintValue]. rewrite Hb0. split.
    + destruct (Z.ltb_spec v 128); [reflexivity|lia].
    + rewrite Z.mod_small; lia.
Qed.

Lemma varint_ends (v : Z) :
  0 <= v < 2 ^ 64 ->
  varintEnds (varint v) = true /\ varintValue (varint v) = v /\
  1 <= len (varint v) <= 10.
Proof.
  intros Hv.
  assert (2 ^ 64 <= 2 ^ (7 * Z.of_nat 10)) by (apply Z.pow_le_mono_r; lia).
  destruct (varintBytes_ends 10 v ltac:(lia) ltac:(lia)) as [He Hval].
  split; [exact He|]. split; [exact Hval|].
  rewrite varint_len by lia. apply sovPacket_pos, Hv.
Qed.

Lemma readVarint_value acc W (pre c suf : list byte) :
  acc_wraps acc W ->
  varintEnds c = true -> len c <= 10 ->
  len (pre ++ c ++ suf) <= maxInt ->
  varintLoop acc (pre ++ c ++ suf) varintFuel 0 (len pre) 0
  = Ok (W (varintValue c), len pre + len c).
Proof.
  intros Hacc He Hl Hd.
  rewrite (varintLoop_value acc W Hacc c pre suf varintFuel 0 0);
    try assumption; try lia;
    try (change (2 ^ 0) with 1; lia);
    try (unfold varintFuel, len in *; lia).
  change (2 ^ 0) with 1. do 2 f_equal. f_equal. lia.
Qed.

(** The length varint of a field, read as an [int]: a declared length of
    [2^63] or more comes out negative. *)
Lemma readVarintInt_varint_wrap (pre suf : list byte) (n : Z) :
  0 <= n < 2 ^ 64 -> len (pre ++ varint n ++ suf) <= maxInt ->
  readVarintInt (pre ++ varint n ++ suf) (len pre)
  = Ok (wrapInt n, len pre + len (varint n)).
Proof.
  intros Hn Hd. destruct (varint_ends n Hn) as (He & Hv & Hl).
  unfold readVarintInt.
  rewrite (readVarint_value accInt wrapInt pre (varint n) suf accInt_wraps);
    try assumption; try lia.
  rewrite Hv. reflexivity.
Qed.

(** X11. The varint loops accept every terminated varint of at most ten
    bytes, minimal or not, and keep its value modulo [2^64]: the bits
    that the tenth byte carries beyond the 64th are dropped without an
    error. [Token.Unmarshal] stores that value in [Amount]. *)
Theorem varint_read_modulo :
  forall c : list byte,
    varintEnds c = true -> len c <= 10 ->
    (forall pre suf : list byte,
       len (pre ++ c ++ suf) <= maxInt ->
       readVarintU64 (pre ++ c ++ suf) (len pre)
       = Ok (varintValue c mod 2 ^ 64, len pre + len c) /\
       readVarintInt (pre ++ c ++ suf) (len pre)
       = Ok (wrapInt (varintValue c), len pre + len c)) /\
    (forall m : Token,
       Token_Unmarshal m (x10 :: c)
       = Ok (set_Token_Amount (varintValue c mod 2 ^ 64) m)).
Proof.
  intros c He Hl. split.
  - intros pre suf Hd. split.
    + apply (readVarint_value accU64 wrapU64 pre c suf accU64_wraps He Hl Hd).
    + apply (readVarint_value accInt wrapInt pre c suf accInt_wraps He Hl Hd).
  - intros m.
    assert (Hc : 0 < len c).
    { destruct c; [discriminate He|]. rewrite len_cons.
      pose proof (len_nonneg c). lia. }
    assert (Hd : len (x10 :: c) <= maxInt) by (rewrite len_cons; lia).
    apply unmarshalLoop_single; [rewrite len_cons; lia|].
    unfold Token_step.
    rewrite (readTag_head c x10 2 0);
      [|reflexivity|reflexivity|reflexivity|lia|lia|exact Hd].
    cbn [bind Z.eqb Pos.eqb negb].
    pose proof (readVarint_value accU64 wrapU64 [x10] c [] accU64_wraps He Hl)
      as RU.
    rewrite app_nil_r in RU. cbn [app] in RU.
    change (len [x10]) with 1 in RU. fold (readVarintU64 (x10 :: c) 1) in RU.
    rewrite RU by exact Hd. cbn [bind]. do 2 f_equal. rewrite len_cons. lia.
Qed.

Lemma varint_read_modulo_witness :
  Token_Unmarshal Token_zero
    (x10 :: [x85; x80; x80; x80; x80; x80; x80; x80; x80; x02])
  = Ok (set_Token_Amount
          (varintValue [x85; x80; x80; x80; x80; x80; x80; x80; x80; x02]
           mod 2 ^ 64) Token_zero).
Proof.
  refine (proj2 (varint_read_modulo
            [x85; x80; x80; x80; x80; x80; x80; x80; x80; x02] _ _)
            Token_zero).
  - vm_compute. reflexivity.
  - vm_compute. discriminate.
Defined.

(** ** Malformed input *)

Lemma append_one (pre c : list byte) (b : byte) :
  pre ++ b :: c = (pre ++ [b]) ++ c /\ len (pre ++ [b]) = len pre + 1.
Proof.
  split; [rewrite <- app_assoc; reflexivity|].
  rewrite len_app, len_cons, len_nil. lia.
Qed.

(** A varint that the end of the input cuts. *)
Lemma varintLoop_eof acc (c pre : list byte) (n : nat) (s a : Z) :
  unterminated c -> (length c < n)%nat -> 0 <= s -> s + 7 * len c < 64 ->
  len (pre ++ c) <= maxInt ->
  varintLoop acc (pre ++ c) n s (len pre) a = Err ErrUnexpectedEOF.
Proof.
  revert pre n s a.
  induction c as [|b c IH]; intros pre n s a Hu Hn Hs Hs7 Hd.
  - destruct n; [cbn in Hn; lia|]. cbn [varintLoop]. rewrite app_nil_r.
    change (len (@nil byte)) with 0 in Hs7.
    destruct (Z.leb_spec 64 s); [lia|].
    destruct (Z.leb_spec (len pre) (len pre)); [reflexivity|lia].
  - destruct n; [cbn in Hn; lia|]. inversion Hu as [|? ? Hb Hu']; subst.
    rewrite len_cons in Hs7.
    pose proof (len_nonneg c). pose proof (len_nonneg pre).
    assert (Hl : len pre + (1 + len c) <= maxInt)
      by (rewrite len_app, len_cons in Hd; exact Hd).
    cbn [varintLoop].
    destruct (Z.leb_spec 64 s); [lia|].
    destruct (Z.leb_spec (len (pre ++ b :: c)) (len pre)) as [Hc|_].
    { rewrite len_app, len_cons in Hc. lia. }
    rewrite (index_intro _ (len pre) b);
      [|lia|apply list_lookup_middle; unfold len; lia].
    cbn [bind].
    destruct (Z.ltb_spec (byte_to_Z b) 128); [lia|].
    rewrite addInt_small by lia.
    destruct (append_one pre c b) as [-> <-].
    apply IH; [exact Hu'|cbn in Hn; lia|lia|lia|].
    rewrite !len_app, len_cons, len_nil. lia.
Qed.

(** A varint that goes on after ten bytes. *)
Lemma varintLoop_overflow acc (c pre suf : list byte) (n : nat) (s a : Z) :
  unterminated c -> (length c < n)%nat -> 0 <= s -> 64 <= s + 7 * len c ->
  len (pre ++ c ++ suf) <= maxInt ->
  varintLoop acc (pre ++ c ++ suf) n s (len pre) a
  = Err ErrIntOverflowPacket.
Proof.
  revert pre n s a.
  induction c as [|b c IH]; intros pre n s a Hu Hn Hs Hs7 Hd.
  - destruct n; [cbn in Hn; lia|]. cbn [varintLoop].
    change (len (@nil byte)) with 0 in Hs7.
    destruct (Z.leb_spec 64 s); [reflexivity|lia].
  - destruct n; [cbn in Hn; lia|]. inversion Hu as [|? ? Hb Hu']; subst.
    rewrite len_cons in Hs7.
    pose proof (len_nonneg c). pose proof (len_nonneg pre).
    pose proof (len_nonneg suf).
    assert (Hl : len pre + (1 + len c + len suf) <= maxInt)
      by (rewrite !len_app, len_cons in Hd; lia).
    cbn [varintLoop].
    destruct (Z.leb_spec 64 s); [reflexivity|].
    destruct (Z.leb_spec (len (pre ++ (b :: c) ++ suf)) (len pre)) as [Hc|_].
    { rewrite !len_app, len_cons in Hc. lia. }
    rewrite (index_intro _ (len pre) b);
      [|lia|apply list_lookup_middle; unfold len; lia].
    cbn [bind].
    destruct (Z.ltb_spec (byte_to_Z b) 128); [lia|].
    rewrite addInt_small by lia.
    change ((b :: c) ++ suf) with (b :: c ++ suf).
    destruct (append_one pre (c ++ suf) b) as [-> <-].
    apply IH; [exact Hu'|cbn in Hn; lia|lia|lia|].
    rewrite !len_app, len_cons, len_nil. lia.
Qed.

Lemma readVarint_eof acc (pre c : list byte) :
  unterminated c -> len c < 10 -> len (pre ++ c) <= maxInt ->
  varintLoop acc (pre ++ c) varintFuel 0 (len pre) 0 = Err ErrUnexpectedEOF.
Proof.
  intros Hu Hl Hd. apply varintLoop_eof; try assumption; try lia.
  unfold varintFuel, len in *. lia.
Qed.

Lemma readVarint_overflow acc (pre c suf : list byte) :
  unterminated c -> len c = 10 -> len (pre ++ c ++ suf) <= maxInt ->
  varintLoop acc (pre ++ c ++ suf) varintFuel 0 (len pre) 0
  = Err ErrIntOverflowPacket.
Proof.
  intros Hu Hl Hd. apply varintLoop_overflow; try assumption; try lia.
  unfold varintFuel, len in *. lia.
Qed.

(** From a failing round to a failing run. *)
Lemma rejects_step {M} (step : list byte -> Z -> M -> result (Z * M))
    (a t : list byte) (e : error) :
  step_ok step -> len (a ++ t) <= maxInt -> 0 < len t ->
  (forall m, step (a ++ t) (len a) m = Err e) ->
  rejects (fun m d => unmarshalLoop step d (length d) 0 m) a t e.
Proof.
  intros Hok Hd Ht Hs m0 m1 Ha.
  apply (unmarshalLoop_app_fail step Hok a t m0 m1 e Hd Ht Ha), Hs.
Qed.

Lemma step_tag_fails (d : list byte) (i : Z) (e : error) :
  readTag d i = Err e ->
  (forall m, FungibleTokenPacketData_step d i m = Err e) /\
  (forall m, FungibleTokenPacketDataV2_step d i m = Err e) /\
  (forall m, Token_step d i m = Err e).
Proof.
  intros H. repeat split; intros m;
    unfold FungibleTokenPacketData_step, FungibleTokenPacketDataV2_step,
      Token_step; rewrite H; reflexivity.
Qed.

Lemma readTag_fails (d : list byte) (i : Z) (e : error) :
  readVarintU64 d i = Err e -> readTag d i = Err e.
Proof. intros H. unfold readTag. rewrite H. reflexivity. Qed.

(** The three decoders reject [t] after [a] once the tag at the head of
    [t] cannot be read. *)
Lemma rejects_tag (a t : list byte) (e : error) :
  len (a ++ t) <= maxInt -> 0 < len t ->
  readTag (a ++ t) (len a) = Err e ->
  rejects FungibleTokenPacketData_Unmarshal a t e /\
  rejects FungibleTokenPacketDataV2_Unmarshal a t e /\
  rejects Token_Unmarshal a t e.
Proof.
  intros Hd Ht H. destruct (step_tag_fails _ _ _ H) as (H1 & H2 & H3).
  split; [|split].
  - apply (rejects_step _ a t e FungibleTokenPacketData_step_ok Hd Ht H1).
  - apply (rejects_step _ a t e FungibleTokenPacketDataV2_step_ok Hd Ht H2).
  - apply (rejects_step _ a t e Token_step_ok Hd Ht H3).
Qed.

(** X12. A tag whose varint does not end is an error, not a value: after
    any decoded prefix [a], bytes that all carry the continuation bit make
    the three decoders return [io.ErrUnexpectedEOF] when the input ends
    within the first nine of them, and [ErrIntOverflowPacket] when there
    are ten, whatever follows. *)
Theorem unterminated_tag_rejected :
  forall a c : list byte,
    unterminated c -> 0 < len c ->
    (len c < 10 -> len (a ++ c) <= maxInt ->
     rejects FungibleTokenPacketData_Unmarshal a c ErrUnexpectedEOF /\
     rejects FungibleTokenPacketDataV2_Unmarshal a c ErrUnexpectedEOF /\
     rejects Token_Unmarshal a c ErrUnexpectedEOF) /\
    (len c = 10 ->
     forall suf : list byte,
       len (a ++ c ++ suf) <= maxInt ->
       rejects FungibleTokenPacketData_Unmarshal a (c ++ suf)
         ErrIntOverflowPacket /\
       rejects FungibleTokenPacketDataV2_Unmarshal a (c ++ suf)
         ErrIntOverflowPacket /\
       rejects Token_Unmarshal a (c ++ suf) ErrIntOverflowPacket).
Proof.
  intros a c Hu Hc. split.
  - intros Hl Hd. apply rejects_tag; [exact Hd|exact Hc|].
    apply readTag_fails. apply readVarint_eof; assumption.
  - intros Hl suf Hd. apply rejects_tag; [exact Hd| |].
    + rewrite len_app. pose proof (len_nonneg suf). lia.
    + apply readTag_fails. apply readVarint_overflow; assumption.
Qed.

Lemma unterminated_tag_rejected_witness :
  FungibleTokenPacketData_Unmarshal FungibleTokenPacketData_zero
    ([x0a; x01; x61] ++ [x92; x80])
  = Err ErrUnexpectedEOF.
Proof.
  refine (proj1 (proj1 (unterminated_tag_rejected [x0a; x01; x61] [x92; x80]
                          _ _) _ _)
            FungibleTokenPacketData_zero
            (mkFungibleTokenPacketData [x61] [] [] [] []) _).
  - repeat constructor; vm_compute; discriminate.
  - vm_compute. reflexivity.
  - vm_compute. reflexivity.
  - vm_compute. discriminate.
  - vm_compute. reflexivity.
Defined.

(** X13. A tag that is not legal is an error: after any decoded prefix, a
    tag varint [v] with wire type 4 (end of group) makes the three decoders
    return [ErrWiretypeEndGroup], and one whose field number, taken as an
    [int32], is zero or negative makes them return the illegal-tag error
    with that number and [v]. *)
Theorem illegal_tag_rejected :
  forall (a rest : list byte) (v : Z),
    0 <= v < 2 ^ 64 -> len (a ++ varint v ++ rest) <= maxInt ->
    (Z.land v 7 = 4 ->
     rejects FungibleTokenPacketData_Unmarshal a (varint v ++ rest)
       ErrWiretypeEndGroup /\
     rejects FungibleTokenPacketDataV2_Unmarshal a (varint v ++ rest)
       ErrWiretypeEndGroup /\
     rejects Token_Unmarshal a (varint v ++ rest) ErrWiretypeEndGroup) /\
    (Z.land v 7 <> 4 -> int32 (Z.shiftr v 3) <= 0 ->
     rejects FungibleTokenPacketData_Unmarshal a (varint v ++ rest)
       (ErrIllegalTag (int32 (Z.shiftr v 3)) v) /\
     rejects FungibleTokenPacketDataV2_Unmarshal a (varint v ++ rest)
       (ErrIllegalTag (int32 (Z.shiftr v 3)) v) /\
     rejects Token_Unmarshal a (varint v ++ rest)
       (ErrIllegalTag (int32 (Z.shiftr v 3)) v)).
Proof.
  intros a rest v Hv Hd.
  pose proof (readVarintU64_varint a rest v Hv Hd) as R.
  assert (Ht : 0 < len (varint v ++ rest)).
  { rewrite len_app, varint_len by lia.
    pose proof (sovPacket_pos v Hv). pose proof (len_nonneg rest). lia. }
  split.
  - intros H4. apply rejects_tag; [exact Hd|exact Ht|].
    unfold readTag. rewrite R. cbn [bind]. rewrite H4. reflexivity.
  - intros H4 Hf. apply rejects_tag; [exact Hd|exact Ht|].
    unfold readTag. rewrite R. cbn [bind].
    destruct (Z.eqb_spec (Z.land v 7) 4); [contradiction|].
    destruct (Z.leb_spec (int32 (Z.shiftr v 3)) 0); [reflexivity|lia].
Qed.

Lemma illegal_tag_rejected_witness :
  Token_Unmarshal Token_zero ([] ++ varint 2 ++ [x01; x61])
  = Err (ErrIllegalTag (int32 (Z.shiftr 2 3)) 2).
Proof.
  refine (proj2 (proj2 (proj2 (illegal_tag_rejected [] [x01; x61] 2 _ _)
                          _ _))
            Token_zero Token_zero _).
  - lia.
  - vm_compute. discriminate.
  - vm_compute. discriminate.
  - vm_compute. discriminate.
  - reflexivity.
Defined.

(** ** Fields that do not fit *)

Lemma wrapInt_high (z : Z) :
  2 ^ 63 <= z < 2 ^ 64 -> wrapInt z = z - 2 ^ 64.
Proof.
  intros Hz. unfold wrapInt.
  replace ((z + 2 ^ 63) mod 2 ^ 64) with (z + 2 ^ 63 - 2 ^ 64); [lia|].
  apply Z.mod_unique with (q := 1); lia.
Qed.

Lemma addInt_high (a b : Z) :
  2 ^ 63 <= a + b < 2 ^ 64 -> addInt a b = a + b - 2 ^ 64.
Proof. apply wrapInt_high. Qed.

Lemma wireKey_len (fn wt : Z) :
  fieldNum_wf fn -> 0 <= wt < 8 -> 1 <= len (wireKey fn wt) <= 10.
Proof.
  intros Hfn Hwt. destruct (tag_decompose fn wt Hwt Hfn) as (Hr & _).
  unfold wireKey. rewrite varint_len by lia. apply sovPacket_pos, Hr.
Qed.

Lemma readTag_wireKey (a rest : list byte) (fn wt : Z) :
  fieldNum_wf fn -> 0 <= wt < 8 ->
  len (a ++ wireKey fn wt ++ rest) <= maxInt ->
  readVarintU64 (a ++ wireKey fn wt ++ rest) (len a)
  = Ok (fn * 8 + wt, len a + len (wireKey fn wt)) /\
  (wt <> 4 ->
   readTag (a ++ wireKey fn wt ++ rest) (len a)
   = Ok (fn, wt, len a + len (wireKey fn wt))).
Proof.
  intros Hfn Hwt Hd.
  destruct (tag_decompose fn wt Hwt Hfn) as (Hr & Hs & Hl).
  pose proof (readVarintU64_varint a rest (fn * 8 + wt) Hr Hd) as R.
  split; [exact R|]. intros H4.
  unfold readTag, wireKey in *. rewrite R. cbn [bind]. rewrite Hs, Hl.
  destruct (Z.eqb_spec wt 4); [contradiction|].
  unfold fieldNum_wf in Hfn.
  destruct (Z.leb_spec fn 0); [lia|]. reflexivity.
Qed.

(** What the bounds checks of a length-delimited field make of a declared
    length that does not fit. *)
Lemma readString_bad_length f (d : list byte) (i j n : Z) :
  readVarintU64 d i = Ok (n, j) -> 0 <= n < 2 ^ 64 ->
  0 <= j <= len d -> len d <= maxInt -> len d < j + n ->
  readString f d 2 i = Err (lengthError j n).
Proof.
  intros R Hn Hj Hd Hb. unfold readString, lengthError.
  cbn [Z.eqb Pos.eqb negb]. rewrite R. cbn [bind].
  destruct (Z.ltb_spec n (2 ^ 63)) as [Hlo|Hhi]; cbn [andb].
  - rewrite wrapInt_small by lia.
    destruct (Z.ltb_spec n 0); [lia|].
    destruct (Z.leb_spec (j + n) maxInt).
    + rewrite addInt_small by lia.
      destruct (Z.ltb_spec (j + n) 0); [lia|].
      rewrite Z.gtb_ltb.
      destruct (Z.ltb_spec (len d) (j + n)); [reflexivity|lia].
    + rewrite addInt_high by lia.
      destruct (Z.ltb_spec (j + n - 2 ^ 64) 0); [reflexivity|lia].
  - rewrite wrapInt_high by lia.
    destruct (Z.ltb_spec (n - 2 ^ 64) 0); [reflexivity|lia].
Qed.

Lemma readToken_bad_length (d : list byte) (i j n : Z) :
  readVarintInt d i = Ok (wrapInt n, j) -> 0 <= n < 2 ^ 64 ->
  0 <= j <= len d -> len d <= maxInt -> len d < j + n ->
  readToken d 2 i = Err (lengthError j n).
Proof.
  intros R Hn Hj Hd Hb. unfold readToken, lengthError.
  cbn [Z.eqb Pos.eqb negb]. rewrite R. cbn [bind].
  destruct (Z.ltb_spec n (2 ^ 63)) as [Hlo|Hhi]; cbn [andb].
  - rewrite wrapInt_small by lia.
    destruct (Z.ltb_spec n 0); [lia|].
    destruct (Z.leb_spec (j + n) maxInt).
    + rewrite addInt_small by lia.
      destruct (Z.ltb_spec (j + n) 0); [lia|].
      rewrite Z.gtb_ltb.
      destruct (Z.ltb_spec (len d) (j + n)); [reflexivity|lia].
    + rewrite addInt_high by lia.
      destruct (Z.ltb_spec (j + n - 2 ^ 64) 0); [reflexivity|lia].
  - rewrite wrapInt_high by lia.
    destruct (Z.ltb_spec (n - 2 ^ 64) 0); [reflexivity|lia].
Qed.

Lemma sliceFrom_app (a b : list byte) :
  sliceFrom (a ++ b) (len a) = Ok b.
Proof.
  pose proof (sliceFrom_frame a b [] 0 b) as H.
  rewrite !app_nil_r, Z.add_0_r in H. apply H.
  unfold sliceFrom. apply slice_all.
Qed.

(** The default case, with the field to skip at the head of [b]. *)
Lemma skipUnknown_app (a b : list byte) :
  skipUnknown (a ++ b) (len a)
  = let* skippy := skipPacket b in
    if (skippy <? 0) || (addInt (len a) skippy <? 0)
    then Err ErrInvalidLengthPacket
    else if addInt (len a) skippy >? len (a ++ b) then Err ErrUnexpectedEOF
    else Ok (addInt (len a) skippy).
Proof. unfold skipUnknown. rewrite sliceFrom_app. reflexivity. Qed.

(** [skipPacket] on a field outside a group is one round of its loop. *)
Lemma skipPacket_one (b : list byte) :
  0 < len b ->
  (forall e, skipStep b 0 0 = Err e -> skipPacket b = Err e) /\
  (forall k, skipStep b 0 0 = Ok (k, 0) -> skipPacket b = Ok k).
Proof.
  intros Hb. unfold skipPacket.
  destruct (length b) as [|n] eqn:E; [unfold len in Hb; lia|].
  cbn [skipLoop]. destruct (Z.ltb_spec 0 (len b)); [|lia].
  split; intros x Hx; rewrite Hx; reflexivity.
Qed.

(** The round of [skipPacket] once the tag is read. *)
Lemma skipStep_wireKey (fn wt : Z) (rest : list byte) :
  fieldNum_wf fn -> 0 <= wt < 8 ->
  len (wireKey fn wt ++ rest) <= maxInt ->
  skipStep (wireKey fn wt ++ rest) 0 0
  = let dAtA := wireKey fn wt ++ rest in
    let iNdEx := len (wireKey fn wt) in
    let* (iNdEx, depth) :=
      if wt =? 0 then
        let* (_, iNdEx) := skipVarint dAtA iNdEx in Ok (iNdEx, 0)
      else if wt =? 1 then Ok (addInt iNdEx 8, 0)
      else if wt =? 2 then
        let* (length, iNdEx) := readVarintInt dAtA iNdEx in
        if length <? 0 then Err ErrInvalidLengthPacket
        else Ok (addInt iNdEx length, 0)
      else if wt =? 3 then Ok (iNdEx, addInt 0 1)
      else if wt =? 4 then
        if 0 =? 0 then Err ErrUnexpectedEndOfGroupPacket
        else Ok (iNdEx, subInt 0 1)
      else if wt =? 5 then Ok (addInt iNdEx 4, 0)
      else Err (ErrIllegalWireType wt) in
    if iNdEx <? 0 then Err ErrInvalidLengthPacket
    else Ok (iNdEx, depth).
Proof.
  intros Hfn Hwt Hd.
  destruct (tag_decompose fn wt Hwt Hfn) as (Hr & Hs & Hl).
  pose proof (proj1 (readTag_wireKey [] rest fn wt Hfn Hwt Hd)) as R.
  cbn [app] in R. change (len []) with 0 in R. rewrite Z.add_0_l in R.
  unfold skipStep. rewrite R. cbn [bind]. rewrite Hl. reflexivity.
Qed.

(** Skipping a length-delimited field whose declared length does not
    fit. *)
Lemma skipUnknown_bad_length (a body : list byte) (fn n : Z) :
  fieldNum_wf fn -> 0 <= n < 2 ^ 64 -> len body < n ->
  len (a ++ wireKey fn 2 ++ varint n ++ body) <= maxInt ->
  skipUnknown (a ++ wireKey fn 2 ++ varint n ++ body) (len a)
  = Err (lengthError (len (a ++ wireKey fn 2 ++ varint n)) n).
Proof.
  intros Hfn Hn Hb Hd.
  pose proof (wireKey_len fn 2 Hfn ltac:(lia)) as Hk.
  destruct (varint_ends n Hn) as (_ & _ & Hv).
  pose proof (len_nonneg a). pose proof (len_nonneg body).
  assert (HL : len a + (len (wireKey fn 2) + (len (varint n) + len body))
               <= maxInt) by (rewrite !len_app in Hd; exact Hd).
  set (b := wireKey fn 2 ++ varint n ++ body) in *.
  assert (Hlb : len b = len (wireKey fn 2) + (len (varint n) + len body))
    by (unfold b; rewrite !len_app; reflexivity).
  assert (Hbd : len b <= maxInt) by lia.
  rewrite skipUnknown_app.
  assert (Hs : skipStep b 0 0
               = if (n <? 2 ^ 63)
                    && (len (wireKey fn 2) + len (varint n) + n <=? maxInt)
                 then Ok (len (wireKey fn 2) + len (varint n) + n, 0)
                 else Err ErrInvalidLengthPacket).
  { unfold b. rewrite skipStep_wireKey by (try assumption; lia).
    cbv zeta. cbn [Z.eqb Pos.eqb].
    pose proof (readVarintInt_varint_wrap (wireKey fn 2) body n Hn) as R.
    rewrite R by exact Hbd. cbn [bind].
    destruct (Z.ltb_spec n (2 ^ 63)) as [Hlo|Hhi]; cbn [andb].
    - rewrite wrapInt_small by lia.
      destruct (Z.ltb_spec n 0); [lia|]. cbn [bind].
      destruct (Z.leb_spec (len (wireKey fn 2) + len (varint n) + n) maxInt).
      + rewrite addInt_small by lia.
        match goal with |- context [?x <? 0] =>
          destruct (Z.ltb_spec x 0); [lia|reflexivity] end.
      + rewrite addInt_high by lia.
        match goal with |- context [?x <? 0] =>
          destruct (Z.ltb_spec x 0); [reflexivity|lia] end.
    - rewrite wrapInt_high by lia.
      destruct (Z.ltb_spec (n - 2 ^ 64) 0); [reflexivity|lia]. }
  assert (Hpos : 0 < len b) by lia.
  destruct (skipPacket_one b Hpos) as [SE SO].
  unfold lengthError. rewrite !len_app.
  destruct (Z.ltb_spec n (2 ^ 63)) as [Hlo|Hhi]; cbn [andb] in *.
  - destruct (Z.leb_spec (len (wireKey fn 2) + len (varint n) + n) maxInt).
    + rewrite (SO _ Hs). cbn [bind].
      match goal with |- context [?x <? 0] =>
        destruct (Z.ltb_spec x 0); [lia|] end.
      cbn [orb].
      destruct (Z.leb_spec
                  (len a + (len (wireKey fn 2) + len (varint n)) + n) maxInt).
      * rewrite addInt_small by lia.
        match goal with |- context [?x <? 0] =>
          destruct (Z.ltb_spec x 0); [lia|] end.
        rewrite Z.gtb_ltb, ?len_app, ?Hlb.
        match goal with |- context [?x <? ?y] =>
          destruct (Z.ltb_spec x y); [reflexivity|lia] end.
      * rewrite addInt_high by lia.
        match goal with |- context [?x <? 0] =>
          destruct (Z.ltb_spec x 0); [reflexivity|lia] end.
    + rewrite (SE _ Hs). cbn [bind].
      destruct (Z.leb_spec
                  (len a + (len (wireKey fn 2) + len (varint n)) + n) maxInt);
        [lia|reflexivity].
  - rewrite (SE _ Hs). reflexivity.
Qed.

Lemma length_varint_read (a key body : list byte) (n : Z) :
  0 <= n < 2 ^ 64 -> len (a ++ key ++ varint n ++ body) <= maxInt ->
  readVarintU64 (a ++ key ++ varint n ++ body) (len a + len key)
  = Ok (n, len (a ++ key ++ varint n)) /\
  readVarintInt (a ++ key ++ varint n ++ body) (len a + len key)
  = Ok (wrapInt n, len (a ++ key ++ varint n)).
Proof.
  intros Hn Hd.
  assert (E : a ++ key ++ varint n ++ body = (a ++ key) ++ varint n ++ body)
    by (rewrite <- app_assoc; reflexivity).
  rewrite E in *. rewrite <- (len_app a key).
  replace (len (a ++ key ++ varint n))
    with (len (a ++ key) + len (varint n))
    by (rewrite !len_app; lia).
  split.
  - apply readVarintU64_varint; assumption.
  - apply readVarintInt_varint_wrap; assumption.
Qed.

(** Opens a round of one of the three decoders whose tag has been read
    ([RT]) and splits the [switch] on the field number. *)
Ltac open_step RT :=
  unfold FungibleTokenPacketData_step, FungibleTokenPacketDataV2_step,
    Token_step;
  rewrite RT; cbn [bind];
  repeat match goal with
         | |- context [Z.eqb ?x ?k] => destruct (Z.eqb_spec x k)
         end;
  cbn [negb].

(** X14. The declared length of a length-delimited field is checked
    against what is left of the input: after any decoded prefix, a field
    of wire type 2 whose length varint [n] exceeds the bytes that follow
    is rejected, with [ErrInvalidLengthPacket] when [n] is negative as an
    [int] or the end index overflows, and with [io.ErrUnexpectedEOF]
    otherwise. This holds for every field number, known to the message or
    not (for [Token], field 2 excepted, which is a varint). *)
Theorem declared_length_rejected :
  forall (a body : list byte) (fn n : Z),
    fieldNum_wf fn -> 0 <= n < 2 ^ 64 -> len body < n ->
    len (a ++ wireKey fn 2 ++ varint n ++ body) <= maxInt ->
    rejects FungibleTokenPacketData_Unmarshal a
      (wireKey fn 2 ++ varint n ++ body)
      (lengthError (len (a ++ wireKey fn 2 ++ varint n)) n) /\
    rejects FungibleTokenPacketDataV2_Unmarshal a
      (wireKey fn 2 ++ varint n ++ body)
      (lengthError (len (a ++ wireKey fn 2 ++ varint n)) n) /\
    (fn <> 2 ->
     rejects Token_Unmarshal a
       (wireKey fn 2 ++ varint n ++ body)
       (lengthError (len (a ++ wireKey fn 2 ++ varint n)) n)).
Proof.
  intros a body fn n Hfn Hn Hb Hd.
  pose proof (wireKey_len fn 2 Hfn ltac:(lia)) as Hk.
  destruct (varint_ends n Hn) as (_ & _ & Hv).
  pose proof (len_nonneg a). pose proof (len_nonneg body).
  assert (HL : len (a ++ wireKey fn 2 ++ varint n ++ body)
               = len (a ++ wireKey fn 2 ++ varint n) + len body)
    by (rewrite !len_app; lia).
  assert (HP : 0 <= len (a ++ wireKey fn 2 ++ varint n))
    by apply len_nonneg.
  destruct (readTag_wireKey a (varint n ++ body) fn 2 Hfn ltac:(lia) Hd)
    as [_ RT].
  specialize (RT ltac:(lia)).
  destruct (length_varint_read a (wireKey fn 2) body n Hn Hd) as [RU RI].
  assert (RS : forall f,
            readString f (a ++ wireKey fn 2 ++ varint n ++ body) 2
              (len a + len (wireKey fn 2))
            = Err (lengthError (len (a ++ wireKey fn 2 ++ varint n)) n)).
  { intros f. apply readString_bad_length; try assumption; lia. }
  assert (HT : readToken (a ++ wireKey fn 2 ++ varint n ++ body) 2
                 (len a + len (wireKey fn 2))
               = Err (lengthError (len (a ++ wireKey fn 2 ++ varint n)) n)).
  { apply readToken_bad_length; try assumption; lia. }
  pose proof (skipUnknown_bad_length a body fn n Hfn Hn Hb Hd) as HU.
  assert (Ht : 0 < len (wireKey fn 2 ++ varint n ++ body))
    by (rewrite !len_app; lia).
  split; [|split].
  - apply (rejects_step _ _ _ _ FungibleTokenPacketData_step_ok Hd Ht).
    intros m. open_step RT;
      first [rewrite RS; reflexivity | rewrite HU; reflexivity].
  - apply (rejects_step _ _ _ _ FungibleTokenPacketDataV2_step_ok Hd Ht).
    intros m. open_step RT;
      first [rewrite RS; reflexivity | rewrite HT; reflexivity
            | rewrite HU; reflexivity].
  - intros H2.
    apply (rejects_step _ _ _ _ Token_step_ok Hd Ht).
    intros m. open_step RT;
      first [contradiction | rewrite RS; reflexivity
            | rewrite HU; reflexivity].
Qed.

Lemma declared_length_rejected_witness :
  FungibleTokenPacketData_Unmarshal FungibleTokenPacketData_zero
    ([x0a; x01; x61] ++ wireKey 3 2 ++ varint 5 ++ [x62; x63])
  = Err (lengthError (len ([x0a; x01; x61] ++ wireKey 3 2 ++ varint 5)) 5).
Proof.
  refine (proj1 (declared_length_rejected [x0a; x01; x61] [x62; x63] 3 5
                   _ _ _ _)
            FungibleTokenPacketData_zero
            (mkFungibleTokenPacketData [x61] [] [] [] []) _).
  - unfold fieldNum_wf. lia.
  - lia.
  - vm_compute. reflexivity.
  - vm_compute. discriminate.
  - vm_compute. reflexivity.
Defined.

(** A varint that cannot be read after the tag, in the position of a
    length or of a value. *)
Lemma after_key_varint_fails (a t : list byte) (fn wt : Z) (e : error) :
  fieldNum_wf fn -> wt = 0 \/ wt = 2 ->
  len (a ++ wireKey fn wt ++ t) <= maxInt ->
  (forall acc pre, len (pre ++ t) <= maxInt ->
     varintLoop acc (pre ++ t) varintFuel 0 (len pre) 0 = Err e) ->
  (wt = 2 \/ 5 < fn ->
   rejects FungibleTokenPacketData_Unmarshal a (wireKey fn wt ++ t) e) /\
  (wt = 2 \/ 4 < fn ->
   rejects FungibleTokenPacketDataV2_Unmarshal a (wireKey fn wt ++ t) e) /\
  (wt = 2 /\ fn <> 2 \/ wt = 0 /\ (fn = 2 \/ 3 < fn) ->
   rejects Token_Unmarshal a (wireKey fn wt ++ t) e).
Proof.
  intros Hfn Hwt Hd HV.
  assert (Hw : 0 <= wt < 8) by lia.
  pose proof (wireKey_len fn wt Hfn Hw) as Hk.
  pose proof (len_nonneg a). pose proof (len_nonneg t).
  destruct (readTag_wireKey a t fn wt Hfn Hw Hd) as [_ RT].
  specialize (RT ltac:(lia)).
  assert (HVd : forall acc,
            varintLoop acc (a ++ wireKey fn wt ++ t) varintFuel 0
              (len a + len (wireKey fn wt)) 0 = Err e).
  { intros acc. rewrite app_assoc, <- len_app. apply HV.
    rewrite <- app_assoc. exact Hd. }
  assert (Hbd : len (wireKey fn wt ++ t) <= maxInt)
    by (rewrite !len_app in *; lia).
  assert (HU : skipUnknown (a ++ wireKey fn wt ++ t) (len a) = Err e).
  { rewrite skipUnknown_app.
    assert (Hpos : 0 < len (wireKey fn wt ++ t)) by (rewrite len_app; lia).
    destruct (skipPacket_one _ Hpos) as [SE _].
    rewrite (SE e); [reflexivity|].
    rewrite skipStep_wireKey by assumption. cbv zeta.
    destruct Hwt as [->| ->]; cbn [Z.eqb Pos.eqb];
      unfold skipVarint, readVarintInt; rewrite (HV _ _ Hbd); reflexivity. }
  assert (RS : forall f,
            readString f (a ++ wireKey fn wt ++ t) 2
              (len a + len (wireKey fn wt)) = Err e).
  { intros f. unfold readString. cbn [Z.eqb Pos.eqb negb].
    unfold readVarintU64. rewrite HVd. reflexivity. }
  assert (HT : readToken (a ++ wireKey fn wt ++ t) 2
                 (len a + len (wireKey fn wt)) = Err e).
  { unfold readToken. cbn [Z.eqb Pos.eqb negb].
    unfold readVarintInt. rewrite HVd. reflexivity. }
  assert (HA : readVarintU64 (a ++ wireKey fn wt ++ t)
                 (len a + len (wireKey fn wt)) = Err e)
    by apply HVd.
  assert (Ht : 0 < len (wireKey fn wt ++ t)) by (rewrite len_app; lia).
  split; [|split]; intros Hc.
  - apply (rejects_step _ _ _ _ FungibleTokenPacketData_step_ok Hd Ht).
    intros m. destruct Hwt as [->| ->]; open_step RT;
      first [lia | rewrite RS; reflexivity | rewrite HU; reflexivity].
  - apply (rejects_step _ _ _ _ FungibleTokenPacketDataV2_step_ok Hd Ht).
    intros m. destruct Hwt as [->| ->]; open_step RT;
      first [lia | rewrite RS; reflexivity | rewrite HT; reflexivity
            | rewrite HU; reflexivity].
  - apply (rejects_step _ _ _ _ Token_step_ok Hd Ht).
    intros m. destruct Hwt as [->| ->]; open_step RT;
      first [lia | rewrite RS; reflexivity | rewrite HA; reflexivity
            | rewrite HU; reflexivity].
Qed.

(** X15. A varint that does not end after the tag is an error, in the
    place of a length (wire type 2) as in the place of a value (wire type
    0, for [Token.Amount] and for the fields a message skips): the
    decoders return [io.ErrUnexpectedEOF] when the input ends within its
    first nine bytes (or right after the tag), and [ErrIntOverflowPacket]
    after ten bytes with the continuation bit, whatever follows. *)
Theorem unterminated_value_rejected :
  forall (a c : list byte) (fn wt : Z),
    fieldNum_wf fn -> wt = 0 \/ wt = 2 -> unterminated c ->
    (len c < 10 -> len (a ++ wireKey fn wt ++ c) <= maxInt ->
     (wt = 2 \/ 5 < fn ->
      rejects FungibleTokenPacketData_Unmarshal a (wireKey fn wt ++ c)
        ErrUnexpectedEOF) /\
     (wt = 2 \/ 4 < fn ->
      rejects FungibleTokenPacketDataV2_Unmarshal a (wireKey fn wt ++ c)
        ErrUnexpectedEOF) /\
     (wt = 2 /\ fn <> 2 \/ wt = 0 /\ (fn = 2 \/ 3 < fn) ->
      rejects Token_Unmarshal a (wireKey fn wt ++ c) ErrUnexpectedEOF)) /\
    (len c = 10 ->
     forall suf : list byte,
       len (a ++ wireKey fn wt ++ c ++ suf) <= maxInt ->
       (wt = 2 \/ 5 < fn ->
        rejects FungibleTokenPacketData_Unmarshal a
          (wireKey fn wt ++ c ++ suf) ErrIntOverflowPacket) /\
       (wt = 2 \/ 4 < fn ->
        rejects FungibleTokenPacketDataV2_Unmarshal a
          (wireKey fn wt ++ c ++ suf) ErrIntOverflowPacket) /\
       (wt = 2 /\ fn <> 2 \/ wt = 0 /\ (fn = 2 \/ 3 < fn) ->
        rejects Token_Unmarshal a (wireKey fn wt ++ c ++ suf)
          ErrIntOverflowPacket)).
Proof.
  intros a c fn wt Hfn Hwt Hu. split.
  - intros Hl Hd. apply after_key_varint_fails; try assumption.
    intros acc pre Hp. apply readVarint_eof; assumption.
  - intros Hl suf Hd. apply after_key_varint_fails; try assumption.
    intros acc pre Hp. apply readVarint_overflow; assumption.
Qed.

Lemma unterminated_value_rejected_witness :
  Token_Unmarshal Token_zero ([] ++ wireKey 2 0 ++ [xac; x82])
  = Err ErrUnexpectedEOF.
Proof.
  refine (proj2 (proj2 (proj1 (unterminated_value_rejected [] [xac; x82] 2 0
                                 _ _ _) _ _)) _
            Token_zero Token_zero _).
  - unfold fieldNum_wf. lia.
  - left. reflexivity.
  - repeat constructor; vm_compute; discriminate.
  - vm_compute. reflexivity.
  - vm_compute. discriminate.
  - right. split; [reflexivity|]. left. reflexivity.
  - reflexivity.
Defined.

(** ** Wire types *)

Ltac wrong_wire_type step_ok_lemma :=
  let a := fresh "a" in
  let rest := fresh "rest" in
  let fn := fresh "fn" in
  let wt := fresh "wt" in
  let wt' := fresh "wt'" in
  let name := fresh "name" in
  let Hin := fresh "Hin" in
  let Hw := fresh "Hw" in
  let H4 := fresh "H4" in
  let Hne := fresh "Hne" in
  let Hd := fresh "Hd" in
  let RT := fresh "RT" in
  let Hfn := fresh "Hfn" in
  let Hk := fresh "Hk" in
  let Ht := fresh "Ht" in
  intros a rest fn wt wt' name Hin Hw H4 Hne Hd;
  assert (Hfn : fieldNum_wf fn)
    by (unfold fieldNum_wf; cbn in Hin;
        repeat (destruct Hin as [Hin|Hin]; [injection Hin as <- <- <-; lia|]);
        contradiction);
  pose proof (wireKey_len fn wt Hfn Hw) as Hk;
  destruct (readTag_wireKey a rest fn wt Hfn Hw Hd) as [_ RT];
  specialize (RT H4);
  assert (Ht : 0 < len (wireKey fn wt ++ rest))
    by (rewrite len_app; pose proof (len_nonneg rest); lia);
  apply (rejects_step _ _ _ _ step_ok_lemma Hd Ht);
  intros m; cbn in Hin;
  repeat (destruct Hin as [Hin|Hin];
          [injection Hin as <- <- <-;
           unfold FungibleTokenPacketData_step,
             FungibleTokenPacketDataV2_step, Token_step;
           rewrite RT; cbn [bind Z.eqb Pos.eqb];
           unfold readString, readToken;
           first [ destruct (Z.eqb_spec wt 2); [contradiction|reflexivity]
                 | destruct (Z.eqb_spec wt 0); [contradiction|reflexivity] ]
          |]);
  contradiction.

Lemma FungibleTokenPacketData_wrong_wire_type :
  forall (a rest : list byte) (fn wt wt' : Z) (name : string),
    In (fn, (wt', name)) FungibleTokenPacketData_fields ->
    0 <= wt < 8 -> wt <> 4 -> wt <> wt' ->
    len (a ++ wireKey fn wt ++ rest) <= maxInt ->
    rejects FungibleTokenPacketData_Unmarshal a (wireKey fn wt ++ rest)
      (ErrWrongWireType wt name).
Proof. wrong_wire_type FungibleTokenPacketData_step_ok. Qed.

Lemma FungibleTokenPacketDataV2_wrong_wire_type :
  forall (a rest : list byte) (fn wt wt' : Z) (name : string),
    In (fn, (wt', name)) FungibleTokenPacketDataV2_fields ->
    0 <= wt < 8 -> wt <> 4 -> wt <> wt' ->
    len (a ++ wireKey fn wt ++ rest) <= maxInt ->
    rejects FungibleTokenPacketDataV2_Unmarshal a (wireKey fn wt ++ rest)
      (ErrWrongWireType wt name).
Proof. wrong_wire_type FungibleTokenPacketDataV2_step_ok. Qed.

Lemma Token_wrong_wire_type :
  forall (a rest : list byte) (fn wt wt' : Z) (name : string),
    In (fn, (wt', name)) Token_fields ->
    0 <= wt < 8 -> wt <> 4 -> wt <> wt' ->
    len (a ++ wireKey fn wt ++ rest) <= maxInt ->
    rejects Token_Unmarshal a (wireKey fn wt ++ rest)
      (ErrWrongWireType wt name).
Proof. wrong_wire_type Token_step_ok. Qed.

(** X16. A field of the message that arrives with another wire type than
    its own is an error: after any decoded prefix, the tag of a known
    field with a wire type that is not the field's (and not 4, which the
    tag check refuses first) makes the decoder return the wrong-wire-type
    error with that wire type and the name of the field, before reading
    any byte of the value. *)
Theorem wrong_wire_type_rejected :
  forall (a rest : list byte) (fn wt wt' : Z) (name : string),
    0 <= wt < 8 -> wt <> 4 -> wt <> wt' ->
    len (a ++ wireKey fn wt ++ rest) <= maxInt ->
    (In (fn, (wt', name)) FungibleTokenPacketData_fields ->
     rejects FungibleTokenPacketData_Unmarshal a (wireKey fn wt ++ rest)
       (ErrWrongWireType wt name)) /\
    (In (fn, (wt', name)) FungibleTokenPacketDataV2_fields ->
     rejects FungibleTokenPacketDataV2_Unmarshal a (wireKey fn wt ++ rest)
       (ErrWrongWireType wt name)) /\
    (In (fn, (wt', name)) Token_fields ->
     rejects Token_Unmarshal a (wireKey fn wt ++ rest)
       (ErrWrongWireType wt name)).
Proof.
  intros a rest fn wt wt' name Hw H4 Hne Hd. split; [|split]; intros Hin.
  - eapply FungibleTokenPacketData_wrong_wire_type; eassumption.
  - eapply FungibleTokenPacketDataV2_wrong_wire_type; eassumption.
  - eapply Token_wrong_wire_type; eassumption.
Qed.

Lemma wrong_wire_type_rejected_witness :
  Token_Unmarshal Token_zero ([] ++ wireKey 2 2 ++ [x01; x31])
  = Err (ErrWrongWireType 2 "Amount").
Proof.
  refine (proj2 (proj2 (wrong_wire_type_rejected [] [x01; x31] 2 2 0
                          "Amount" _ _ _ _)) _ Token_zero Token_zero _).
  - lia.
  - lia.
  - lia.
  - vm_compute. discriminate.
  - right. left. reflexivity.
  - reflexivity.
Defined.

(** ** Fields the message does not know *)

(** A field that the message does not know is rejected when skipping it
    fails. *)
Lemma unknown_field_fails (a t : list byte) (fn wt : Z) (e : error) :
  fieldNum_wf fn -> 0 <= wt < 8 -> wt <> 4 ->
  len (a ++ wireKey fn wt ++ t) <= maxInt ->
  skipUnknown (a ++ wireKey fn wt ++ t) (len a) = Err e ->
  (5 < fn ->
   rejects FungibleTokenPacketData_Unmarshal a (wireKey fn wt ++ t) e) /\
  (4 < fn ->
   rejects FungibleTokenPacketDataV2_Unmarshal a (wireKey fn wt ++ t) e) /\
  (3 < fn -> rejects Token_Unmarshal a (wireKey fn wt ++ t) e).
Proof.
  intros Hfn Hw H4 Hd HU.
  pose proof (wireKey_len fn wt Hfn Hw) as Hk.
  destruct (readTag_wireKey a t fn wt Hfn Hw Hd) as [_ RT].
  specialize (RT H4).
  assert (Ht : 0 < len (wireKey fn wt ++ t))
    by (rewrite len_app; pose proof (len_nonneg t); lia).
  split; [|split]; intros Hc.
  - apply (rejects_step _ _ _ _ FungibleTokenPacketData_step_ok Hd Ht).
    intros m. open_step RT; first [lia | rewrite HU; reflexivity].
  - apply (rejects_step _ _ _ _ FungibleTokenPacketDataV2_step_ok Hd Ht).
    intros m. open_step RT; first [lia | rewrite HU; reflexivity].
  - apply (rejects_step _ _ _ _ Token_step_ok Hd Ht).
    intros m. open_step RT; first [lia | rewrite HU; reflexivity].
Qed.

(** X17. A 64-bit or 32-bit value of an unknown field that the end of the
    input cuts is an error: [skipPacket] steps over the eight (four) bytes
    without looking, and the decoder that called it finds the index past
    the end and returns [io.ErrUnexpectedEOF]. *)
Theorem truncated_fixed_rejected :
  forall (a body : list byte) (fn wt width : Z),
    fieldNum_wf fn -> wt = 1 /\ width = 8 \/ wt = 5 /\ width = 4 ->
    len body < width -> len (a ++ wireKey fn wt) + width <= maxInt ->
    (5 < fn ->
     rejects FungibleTokenPacketData_Unmarshal a (wireKey fn wt ++ body)
       ErrUnexpectedEOF) /\
    (4 < fn ->
     rejects FungibleTokenPacketDataV2_Unmarshal a (wireKey fn wt ++ body)
       ErrUnexpectedEOF) /\
    (3 < fn ->
     rejects Token_Unmarshal a (wireKey fn wt ++ body) ErrUnexpectedEOF).
Proof.
  intros a body fn wt width Hfn Hwt Hb Hm.
  assert (Hw : 0 <= wt < 8) by lia.
  pose proof (wireKey_len fn wt Hfn Hw) as Hk.
  pose proof (len_nonneg a). pose proof (len_nonneg body).
  rewrite len_app in Hm.
  assert (Hd : len (a ++ wireKey fn wt ++ body) <= maxInt)
    by (rewrite !len_app; lia).
  apply unknown_field_fails; try assumption; [lia|].
  rewrite skipUnknown_app.
  assert (Hpos : 0 < len (wireKey fn wt ++ body))
    by (rewrite len_app; lia).
  destruct (skipPacket_one _ Hpos) as [_ SO].
  rewrite (SO (len (wireKey fn wt) + width)).
  - cbn [bind]. rewrite addInt_small by lia.
    match goal with |- context [?x <? 0] =>
      destruct (Z.ltb_spec x 0); [lia|] end.
    match goal with |- context [?x <? 0] =>
      destruct (Z.ltb_spec x 0); [lia|] end.
    cbn [orb]. rewrite Z.gtb_ltb, !len_app.
    match goal with |- context [?x <? ?y] =>
      destruct (Z.ltb_spec x y); [reflexivity|lia] end.
  - rewrite skipStep_wireKey by (try assumption; rewrite len_app; lia).
    cbv zeta.
    destruct Hwt as [[-> ->]|[-> ->]]; cbn [Z.eqb Pos.eqb bind];
      rewrite addInt_small by lia;
      match goal with |- context [?x <? 0] =>
        destruct (Z.ltb_spec x 0); [lia|reflexivity] end.
Qed.

Lemma truncated_fixed_rejected_witness :
  FungibleTokenPacketData_Unmarshal FungibleTokenPacketData_zero
    ([] ++ wireKey 9 5 ++ [x01; x02; x03])
  = Err ErrUnexpectedEOF.
Proof.
  refine (proj1 (truncated_fixed_rejected [] [x01; x02; x03] 9 5 4 _ _ _ _)
            _ FungibleTokenPacketData_zero FungibleTokenPacketData_zero _).
  - unfold fieldNum_wf. lia.
  - right. split; reflexivity.
  - vm_compute. reflexivity.
  - vm_compute. discriminate.
  - lia.
  - reflexivity.
Defined.

(** X18. The wire types 6 and 7 do not exist: an unknown field that
    carries one of them makes [skipPacket], and the decoder that called
    it, return the illegal-wire-type error, whatever follows the tag. *)
Theorem illegal_wire_type_rejected :
  forall (a rest : list byte) (fn wt : Z),
    fieldNum_wf fn -> wt = 6 \/ wt = 7 ->
    len (a ++ wireKey fn wt ++ rest) <= maxInt ->
    skipPacket (wireKey fn wt ++ rest) = Err (ErrIllegalWireType wt) /\
    (5 < fn ->
     rejects FungibleTokenPacketData_Unmarshal a (wireKey fn wt ++ rest)
       (ErrIllegalWireType wt)) /\
    (4 < fn ->
     rejects FungibleTokenPacketDataV2_Unmarshal a (wireKey fn wt ++ rest)
       (ErrIllegalWireType wt)) /\
    (3 < fn ->
     rejects Token_Unmarshal a (wireKey fn wt ++ rest)
       (ErrIllegalWireType wt)).
Proof.
  intros a rest fn wt Hfn Hwt Hd.
  assert (Hw : 0 <= wt < 8) by lia.
  pose proof (wireKey_len fn wt Hfn Hw) as Hk.
  pose proof (len_nonneg a). pose proof (len_nonneg rest).
  assert (Hb : len (wireKey fn wt ++ rest) <= maxInt)
    by (rewrite !len_app in *; lia).
  assert (Hpos : 0 < len (wireKey fn wt ++ rest))
    by (rewrite len_app; lia).
  assert (HS : skipPacket (wireKey fn wt ++ rest)
               = Err (ErrIllegalWireType wt)).
  { destruct (skipPacket_one _ Hpos) as [SE _]. apply SE.
    rewrite skipStep_wireKey by assumption. cbv zeta.
    destruct Hwt as [->| ->]; reflexivity. }
  split; [exact HS|].
  apply unknown_field_fails; try assumption; [lia|].
  rewrite skipUnknown_app, HS. reflexivity.
Qed.

Lemma illegal_wire_type_rejected_witness :
  Token_Unmarshal Token_zero ([x10; x05] ++ wireKey 4 6 ++ [x00])
  = Err (ErrIllegalWireType 6).
Proof.
  refine (proj2 (proj2 (proj2 (illegal_wire_type_rejected [x10; x05] [x00]
                                 4 6 _ _ _))) _
            Token_zero (mkToken [] 5 []) _).
  - unfold fieldNum_wf. lia.
  - left. reflexivity.
  - vm_compute. discriminate.
  - lia.
  - vm_compute. reflexivity.
Defined.

(** ** Embedded tokens *)

Lemma readToken_fails (pre suf w : list byte) (e : error) :
  Token_Unmarshal Token_zero w = Err e ->
  len (pre ++ varint (len w) ++ w ++ suf) <= maxInt ->
  readToken (pre ++ varint (len w) ++ w ++ suf) 2 (len pre) = Err e.
Proof.
  intros Ht Hd. unfold readToken. cbn [Z.eqb Pos.eqb negb].
  pose proof (len_nonneg pre). pose proof (len_nonneg w).
  pose proof (len_nonneg suf). pose proof (len_nonneg (varint (len w))).
  assert (Hl : len pre + (len (varint (len w)) + (len w + len suf))
               <= maxInt) by (rewrite !len_app in Hd; exact Hd).
  rewrite readVarintInt_varint by (try assumption; lia). cbn [bind].
  destruct (Z.ltb_spec (len w) 0); [lia|].
  rewrite addInt_small by lia.
  destruct (Z.ltb_spec (len pre + len (varint (len w)) + len w) 0); [lia|].
  rewrite Z.gtb_ltb, !len_app.
  match goal with |- context [?a <? ?b] =>
    destruct (Z.ltb_spec a b); [lia|] end.
  replace (pre ++ varint (len w) ++ w ++ suf)
    with ((pre ++ varint (len w)) ++ w ++ suf)
    by (rewrite <- app_assoc; reflexivity).
  replace (len pre + len (varint (len w))) with (len (pre ++ varint (len w)))
    by (rewrite len_app; reflexivity).
  rewrite slice_middle. cbn [bind]. rewrite Ht. reflexivity.
Qed.

(** X19. The error of an embedded token is the error of the payload:
    when [Token.Unmarshal] rejects the bytes [w] with [e], a multi-token
    payload that carries [w] as an entry of [Tokens] (field 1, length
    [len w]) is rejected with [e], after any decoded prefix and whatever
    follows the entry. *)
Theorem embedded_token_error :
  forall (a w rest : list byte) (e : error),
    Token_Unmarshal Token_zero w = Err e ->
    len (a ++ wireString x0a w ++ rest) <= maxInt ->
    rejects FungibleTokenPacketDataV2_Unmarshal a (wireString x0a w ++ rest)
      e.
Proof.
  intros a w rest e Hw Hd.
  pose proof (wireString_len_pos x0a w) as Hp.
  assert (Ht : 0 < len (wireString x0a w ++ rest))
    by (rewrite len_app; pose proof (len_nonneg rest); lia).
  apply (rejects_step _ _ _ _ FungibleTokenPacketDataV2_step_ok Hd Ht).
  intros m. unfold FungibleTokenPacketDataV2_step, wireString in *.
  cbn [app] in *. rewrite <- app_assoc in *.
  rewrite (readTag_byte a (varint (len w) ++ w ++ rest) x0a 1 2);
    [|reflexivity|reflexivity|reflexivity|lia|lia|exact Hd].
  cbn [bind Z.eqb Pos.eqb].
  destruct (append_one a (varint (len w) ++ w ++ rest) x0a) as [E El].
  rewrite E in *. rewrite <- El.
  rewrite (readToken_fails _ _ _ _ Hw Hd). reflexivity.
Qed.

Lemma embedded_token_error_witness :
  FungibleTokenPacketDataV2_Unmarshal FungibleTokenPacketDataV2_zero
    ([] ++ wireString x0a [x10; x80] ++ [x12; x01; x61])
  = Err ErrUnexpectedEOF.
Proof.
  refine (embedded_token_error [] [x10; x80] [x12; x01; x61]
            ErrUnexpectedEOF _ _
            FungibleTokenPacketDataV2_zero FungibleTokenPacketDataV2_zero _).
  - vm_compute. reflexivity.
  - vm_compute. discriminate.
  - reflexivity.
Defined.

(** ** Inputs made of well-formed fields *)

(** Decoding field by field. *)
Lemma decode_fields {M F} (U : M -> list byte -> result M)
    (bytes : F -> list byte) (wf : F -> Prop) (apply : M -> F -> M) :
  (forall m, U m [] = Ok m) ->
  (forall a b m0 m1 m2, len (a ++ b) <= maxInt ->
     U m0 a = Ok m1 -> U m1 b = Ok m2 -> U m0 (a ++ b) = Ok m2) ->
  (forall f m, wf f -> len (bytes f) <= maxInt ->
     U m (bytes f) = Ok (apply m f)) ->
  forall (fs : list F) (m : M),
    Forall wf fs -> len (concat (map bytes fs)) <= maxInt ->
    U m (concat (map bytes fs)) = Ok (fold_left apply fs m).
Proof.
  intros Hnil Happ Hone fs.
  induction fs as [|f fs IH]; intros m Hwf Hd; [apply Hnil|].
  inversion Hwf as [|? ? Hf Hfs]; subst.
  cbn [map concat fold_left] in *.
  pose proof (len_nonneg (bytes f)).
  pose proof (len_nonneg (concat (map bytes fs))).
  rewrite len_app in Hd.
  eapply Happ; [rewrite len_app; lia| |].
  - apply Hone; [exact Hf|lia].
  - apply IH; [exact Hfs|lia].
Qed.

Lemma Token_decode_fields (fs : list Token_field) (m : Token) :
  Forall Token_field_wf fs ->
  len (concat (map Token_field_bytes fs)) <= maxInt ->
  Token_Unmarshal m (concat (map Token_field_bytes fs))
  = Ok (fold_left Token_field_apply fs m).
Proof.
  apply (decode_fields Token_Unmarshal Token_field_bytes Token_field_wf
           Token_field_apply Token_Unmarshal_nil Token_Unmarshal_app).
  intros f m0 Hf Hl. destruct f as [s|v|s|fn wv]; cbn in *.
  - apply Token_decode_Denom, Hl.
  - apply Token_decode_Amount, Hf.
  - apply Token_decode_Trace, Hl.
  - destruct Hf as (Hfn & Hwv & Hn). apply Token_skip_unknown; assumption.
Qed.

(** X20. What the decoders compute on an input made of well-formed
    fields, in any order, with repetitions and with unknown fields in
    between: they run through the fields from first to last; a string or
    an amount replaces the value the message holds (the last one wins), a
    [Trace] element and a [Tokens] entry are appended, an entry of
    [Tokens] is decoded as a token of its own starting from the zero
    token, and a field the message does not know changes nothing. *)
Theorem Unmarshal_field_by_field :
  (forall (fs : list FungibleTokenPacketData_field)
          (m : FungibleTokenPacketData),
     Forall FungibleTokenPacketData_field_wf fs ->
     len (concat (map FungibleTokenPacketData_field_bytes fs)) <= maxInt ->
     FungibleTokenPacketData_Unmarshal m
       (concat (map FungibleTokenPacketData_field_bytes fs))
     = Ok (fold_left FungibleTokenPacketData_field_apply fs m)) /\
  (forall (fs : list Token_field) (m : Token),
     Forall Token_field_wf fs ->
     len (concat (map Token_field_bytes fs)) <= maxInt ->
     Token_Unmarshal m (concat (map Token_field_bytes fs))
     = Ok (fold_left Token_field_apply fs m)) /\
  (forall (fs : list FungibleTokenPacketDataV2_field)
          (m : FungibleTokenPacketDataV2),
     Forall FungibleTokenPacketDataV2_field_wf fs ->
     len (concat (map FungibleTokenPacketDataV2_field_bytes fs)) <= maxInt ->
     FungibleTokenPacketDataV2_Unmarshal m
       (concat (map FungibleTokenPacketDataV2_field_bytes fs))
     = Ok (fold_left FungibleTokenPacketDataV2_field_apply fs m)).
Proof.
  split; [|split].
  - apply (decode_fields FungibleTokenPacketData_Unmarshal _
             FungibleTokenPacketData_field_wf _
             FungibleTokenPacketData_Unmarshal_nil
             FungibleTokenPacketData_Unmarshal_app).
    intros f m0 Hf Hl. destruct f as [s|s|s|s|s|fn wv]; cbn in *.
    + apply FungibleTokenPacketData_decode_Denom, Hl.
    + apply FungibleTokenPacketData_decode_Amount, Hl.
    + apply FungibleTokenPacketData_decode_Sender, Hl.
    + apply FungibleTokenPacketData_decode_Receiver, Hl.
    + apply FungibleTokenPacketData_decode_Memo, Hl.
    + destruct Hf as (Hfn & Hwv & Hn).
      apply FungibleTokenPacketData_skip_unknown; assumption.
  - apply Token_decode_fields.
  - apply (decode_fields FungibleTokenPacketDataV2_Unmarshal _
             FungibleTokenPacketDataV2_field_wf _
             FungibleTokenPacketDataV2_Unmarshal_nil
             FungibleTokenPacketDataV2_Unmarshal_app).
    intros f m0 Hf Hl. destruct f as [tfs|s|s|s|fn wv]; cbn in *.
    + apply FungibleTokenPacketDataV2_decode_Token; [|exact Hl].
      apply Token_decode_fields; [exact Hf|].
      pose proof (wireString_len_gt x0a
                    (concat (map Token_field_bytes tfs))). lia.
    + apply FungibleTokenPacketDataV2_decode_Sender, Hl.
    + apply FungibleTokenPacketDataV2_decode_Receiver, Hl.
    + apply FungibleTokenPacketDataV2_decode_Memo, Hl.
    + destruct Hf as (Hfn & Hwv & Hn).
      apply FungibleTokenPacketDataV2_skip_unknown; assumption.
Qed.

Lemma Unmarshal_field_by_field_witness :
  FungibleTokenPacketData_Unmarshal FungibleTokenPacketData_zero
    (concat (map FungibleTokenPacketData_field_bytes
               [FMemo [x68]; FDenom [x61]; FUnknown 9 (WVarint 7);
                FDenom [x62]; FMemo []]))
  = Ok (fold_left FungibleTokenPacketData_field_apply
          [FMemo [x68]; FDenom [x61]; FUnknown 9 (WVarint 7);
           FDenom [x62]; FMemo []] FungibleTokenPacketData_zero).
Proof.
  apply (proj1 Unmarshal_field_by_field).
  - repeat constructor; try (unfold fieldNum_wf; lia); cbn; lia.
  - vm_compute. discriminate.
Defined.

(** * Further properties of the memo getters *)

(** X21. With a callback object in the memo, the custom message getter
    returns what the base64 decoder makes of the string under
    ["callback_msg"] (nil when the decoder reports an error); a value of
    another JSON type under a key, or no value, counts as absent: the
    message is nil and the address is the empty string. *)
Theorem callback_values :
  forall (json_Unmarshal_map :
            list byte -> option (list (string * jsonValue)))
         (base64_DecodeString : list byte -> option (list byte))
         (ftpd : FungibleTokenPacketData)
         (callbackData : list (string * jsonValue)),
    callback_object json_Unmarshal_map ftpd callbackData ->
    (forall msg,
       mapIndex "callback_msg" callbackData = Some (JString msg) ->
       GetUserDefinedCustomMessage json_Unmarshal_map base64_DecodeString ftpd
       = base64_DecodeString msg) /\
    ((forall msg,
        mapIndex "callback_msg" callbackData <> Some (JString msg)) ->
     GetUserDefinedCustomMessage json_Unmarshal_map base64_DecodeString ftpd
     = None) /\
    ((forall s,
        mapIndex "src_callback_address" callbackData <> Some (JString s)) ->
     GetSourceCallbackAddress json_Unmarshal_map ftpd = []) /\
    ((forall s,
        mapIndex "dest_callback_address" callbackData <> Some (JString s)) ->
     GetDestCallbackAddress json_Unmarshal_map ftpd = []).
Proof.
  intros parse b64 ftpd callbackData H.
  apply getCallbackData_some in H.
  unfold GetUserDefinedCustomMessage, GetSourceCallbackAddress,
    GetDestCallbackAddress. rewrite H.
  split; [|split; [|split]].
  - intros msg ->. reflexivity.
  - intros Hn.
    destruct (mapIndex "callback_msg" callbackData) as [[]|];
      try reflexivity.
    exfalso. eapply Hn. reflexivity.
  - intros Hn.
    destruct (mapIndex "src_callback_address" callbackData) as [[]|];
      try reflexivity.
    exfalso. eapply Hn. reflexivity.
  - intros Hn.
    destruct (mapIndex "dest_callback_address" callbackData) as [[]|];
      try reflexivity.
    exfalso. eapply Hn. reflexivity.
Qed.

Lemma callback_values_witness :
  GetDestCallbackAddress json_Unmarshal_sample callback_packet = [].
Proof.
  refine (proj2 (proj2 (proj2 (callback_values json_Unmarshal_sample
                                 (fun _ => None) callback_packet
                                 [("src_callback_address"%string,
                                   JString [x61])] _))) _).
  - split; [discriminate|].
    exists [("callback"%string,
             JObject [("src_callback_address"%string, JString [x61])])].
    split; vm_compute; reflexivity.
  - intros s. vm_compute. discriminate.
Defined.

(** * Encoding into a buffer that is too short *)

Lemma copyAt_neg (dAtA s : list byte) (i : Z) :
  i < 0 -> copyAt dAtA i s = Panic.
Proof.
  intros Hi. unfold copyAt. destruct (Z.ltb_spec i 0); [reflexivity|lia].
Qed.

Lemma encodeVarintPacket_short (front done : list byte) (v : Z) :
  0 <= v < 2 ^ 64 -> len front < sovPacket v ->
  len (front ++ done) <= maxInt ->
  encodeVarintPacket (front ++ done) (len front) v = Panic.
Proof.
  intros Hv Hs Hd. pose proof (sovPacket_pos v Hv).
  pose proof (len_nonneg front). pose proof (len_nonneg done).
  rewrite len_app in Hd.
  unfold encodeVarintPacket. rewrite subInt_small by lia.
  cbn [encodeVarintLoop].
  destruct (128 <=? v); rewrite setAt_neg by lia; reflexivity.
Qed.

(** The end of a block: the varint of a length or of a value, then the
    tag, with [k] bytes already written before [done]. *)
Lemma varint_and_tag_short (front done : list byte) (v : Z) (t : byte) :
  0 <= v < 2 ^ 64 -> len front < sovPacket v + 1 ->
  len (front ++ done) <= maxInt ->
  (let* (dAtA, i) := encodeVarintPacket (front ++ done) (len front) v in
   let i := subInt i 1 in
   let* dAtA := setAt dAtA i t in
   Ok (dAtA, i)) = Panic.
Proof.
  intros Hv Hs Hd. pose proof (sovPacket_pos v Hv).
  pose proof (len_nonneg front). pose proof (len_nonneg done).
  destruct (Z.lt_ge_cases (len front) (sovPacket v)) as [Hlt|Hge].
  - rewrite encodeVarintPacket_short by assumption. reflexivity.
  - destruct (encodeVarintPacket_spec front done v Hv Hge Hd)
      as (f2 & Hf2 & ->).
    cbn [bind]. rewrite len_app in Hd.
    rewrite subInt_small by lia.
    rewrite setAt_neg by lia. reflexivity.
Qed.

Lemma putString_overflows (t : byte) (s : list byte) :
  overflows (putString t s) (wireString t s).
Proof.
  intros front done Hlt Hc Hd.
  pose proof (len_nonneg s) as Hs0. pose proof (len_nonneg front).
  pose proof (len_nonneg done).
  pose proof (wireString_len_gt t s) as Hgt.
  assert (Hs : len s < 2 ^ 63) by lia.
  rewrite wireString_len in Hlt, Hc by lia.
  pose proof (sovPacket_pos (len s) ltac:(lia)) as Hp.
  unfold putString.
  rewrite subInt_small by (rewrite len_app in Hd; lia).
  destruct (Z.lt_ge_cases (len front) (len s)) as [Hsm|Hge].
  - rewrite copyAt_neg by lia. reflexivity.
  - destruct (copyAt_front front done s ltac:(lia)) as (f1 & Hf1 & ->).
    cbn [bind]. rewrite <- Hf1. rewrite wrapU64_small by lia.
    apply varint_and_tag_short; [lia|lia|].
    rewrite !len_app in *. lia.
Qed.

Lemma overflows_nil : overflows Ok [].
Proof.
  intros front done Hlt _ _. change (len (@nil byte)) with 0 in Hlt.
  pose proof (len_nonneg front). lia.
Qed.

Lemma putStringOpt_overflows (t : byte) (s : list byte) :
  overflows (putStringOpt t s) (wireStringOpt t s).
Proof.
  unfold putStringOpt, wireStringOpt.
  destruct (len s >? 0); [apply putString_overflows | apply overflows_nil].
Qed.

Lemma overflows_seq f g (c1 c2 : list byte) :
  writes f c1 -> overflows f c1 -> overflows g c2 ->
  overflows (fun st => let* st := f st in g st) (c2 ++ c1).
Proof.
  intros Wf Of Og front done Hlt Hc Hd.
  rewrite len_app in Hlt, Hc.
  pose proof (len_nonneg c1). pose proof (len_nonneg c2).
  destruct (Z.lt_ge_cases (len front) (len c1)) as [Hsm|Hge].
  - rewrite Of by (try assumption; lia). reflexivity.
  - destruct (Wf front done ltac:(lia) Hd) as (f1 & Hf1 & ->).
    cbn [bind]. apply Og; [lia|lia|].
    rewrite !len_app in *. lia.
Qed.

Lemma overflows_forEach {A}
    (f : A -> list byte * Z -> result (list byte * Z))
    (c : A -> list byte) (l : list A) :
  (forall a, In a l -> writes (f a) (c a)) ->
  (forall a, In a l -> overflows (f a) (c a)) ->
  overflows (forEach f l) (concat (map c (rev l))).
Proof.
  induction l as [|a l IH]; intros Wf Of.
  - apply overflows_nil.
  - cbn [rev]. rewrite map_app, concat_app. cbn [map concat].
    rewrite app_nil_r. cbn [forEach].
    apply overflows_seq.
    + apply Wf. left. reflexivity.
    + apply Of. left. reflexivity.
    + apply IH; intros b Hb; [apply Wf|apply Of]; right; exact Hb.
Qed.

(** From a block that overflows to the function that panics. *)
Lemma overflows_sized f (wire dAtA : list byte) :
  overflows f wire -> len dAtA < len wire -> len wire <= maxInt ->
  (let* (d, i) := f (dAtA, len dAtA) in Ok (d, subInt (len d) i))
  = @Panic (list byte * Z).
Proof.
  intros Ho Hl Hw.
  pose proof (Ho dAtA [] Hl Hw) as E. rewrite !app_nil_r in E.
  rewrite E by lia. reflexivity.
Qed.

Lemma FungibleTokenPacketData_MarshalToSizedBuffer_short
    (m : FungibleTokenPacketData) (dAtA : list byte) :
  len dAtA < len (FungibleTokenPacketData_wire m) ->
  len (FungibleTokenPacketData_wire m) <= maxInt ->
  FungibleTokenPacketData_MarshalToSizedBuffer m dAtA = Panic.
Proof.
  intros Hl Hw.
  pose proof (overflows_seq _ _ _ _
    (putStringOpt_writes x2a (Memo m)) (putStringOpt_overflows x2a (Memo m))
    (overflows_seq _ _ _ _
    (putStringOpt_writes x22 (Receiver m))
    (putStringOpt_overflows x22 (Receiver m))
    (overflows_seq _ _ _ _
    (putStringOpt_writes x1a (Sender m))
    (putStringOpt_overflows x1a (Sender m))
    (overflows_seq _ _ _ _
    (putStringOpt_writes x12 (Amount m))
    (putStringOpt_overflows x12 (Amount m))
    (putStringOpt_overflows x0a (Denom m)))))) as O.
  rewrite <- !app_assoc in O.
  rewrite <- (overflows_sized _ _ dAtA O Hl Hw).
  unfold FungibleTokenPacketData_MarshalToSizedBuffer. cbv beta zeta.
  same_binds.
Qed.

Lemma wireAmount_overflows (v : Z) :
  0 <= v < 2 ^ 64 ->
  overflows (fun st =>
               if negb (v =? 0) then
                 let '(dAtA, i) := st in
                 let* (dAtA, i) := encodeVarintPacket dAtA i v in
                 let i := subInt i 1 in
                 let* dAtA := setAt dAtA i x10 in
                 Ok (dAtA, i)
               else Ok st) (wireAmount v).
Proof.
  intros Hv. unfold wireAmount.
  destruct (v =? 0); cbn [negb]; [apply overflows_nil|].
  intros front done Hlt Hc Hd. rewrite len_cons, varint_len in Hlt by lia.
  apply varint_and_tag_short; [assumption|lia|assumption].
Qed.

Lemma Token_block_writes (t : Token) :
  Token_wf t ->
  writes (fun st =>
            let* st := forEach (putString x1a) (rev (Token_Trace t)) st in
            let* st :=
              (fun st =>
                 if negb (Token_Amount t =? 0) then
                   let '(dAtA, i) := st in
                   let* (dAtA, i) := encodeVarintPacket dAtA i
                                       (Token_Amount t) in
                   let i := subInt i 1 in
                   let* dAtA := setAt dAtA i x10 in
                   Ok (dAtA, i)
                 else Ok st) st in
            putStringOpt x0a (Token_Denom t) st) (Token_wire t) /\
  overflows (fun st =>
            let* st := forEach (putString x1a) (rev (Token_Trace t)) st in
            let* st :=
              (fun st =>
                 if negb (Token_Amount t =? 0) then
                   let '(dAtA, i) := st in
                   let* (dAtA, i) := encodeVarintPacket dAtA i
                                       (Token_Amount t) in
                   let i := subInt i 1 in
                   let* dAtA := setAt dAtA i x10 in
                   Ok (dAtA, i)
                 else Ok st) st in
            putStringOpt x0a (Token_Denom t) st) (Token_wire t).
Proof.
  intros Hwf. unfold Token_wire.
  pose proof (writes_forEach (putString x1a) (wireString x1a)
                (rev (Token_Trace t)) (fun a _ => putString_writes x1a a))
    as W1.
  pose proof (overflows_forEach (putString x1a) (wireString x1a)
                (rev (Token_Trace t)) (fun a _ => putString_writes x1a a)
                (fun a _ => putString_overflows x1a a)) as O1.
  rewrite rev_involutive in W1, O1.
  pose proof (wireAmount_writes (Token_Amount t) Hwf) as W2.
  pose proof (wireAmount_overflows (Token_Amount t) Hwf) as O2.
  pose proof (putStringOpt_writes x0a (Token_Denom t)) as W3.
  pose proof (putStringOpt_overflows x0a (Token_Denom t)) as O3.
  split.
  - pose proof (writes_seq _ _ _ _ W1 (writes_seq _ _ _ _ W2 W3)) as W.
    rewrite <- !app_assoc in W. exact W.
  - pose proof (overflows_seq _ _ _ _ W1 O1
                  (overflows_seq _ _ _ _ W2 O2 O3)) as O.
    rewrite <- !app_assoc in O. exact O.
Qed.

Lemma Token_MarshalToSizedBuffer_short (t : Token) (dAtA : list byte) :
  Token_wf t ->
  len dAtA < len (Token_wire t) -> len (Token_wire t) <= maxInt ->
  Token_MarshalToSizedBuffer (Some t) dAtA = Panic.
Proof.
  intros Hwf Hl Hw.
  destruct (Token_block_writes t Hwf) as [_ O].
  rewrite <- (overflows_sized _ _ dAtA O Hl Hw).
  unfold Token_MarshalToSizedBuffer. cbv beta zeta.
  destruct (forEach (putString x1a) (rev (Token_Trace t)) (dAtA, len dAtA))
    as [[d1 i1]| | |]; cbn [bind]; try reflexivity.
  destruct (negb (Token_Amount t =? 0)); [|reflexivity].
  same_binds.
Qed.

Lemma putToken_overflows (t : Token) :
  Token_wf t -> overflows (putToken (Some t)) (wireToken t).
Proof.
  intros Hwf front done Hlt Hc Hd.
  pose proof (len_nonneg (Token_wire t)) as Hw0.
  pose proof (len_nonneg front). pose proof (len_nonneg done).
  pose proof (wireString_len_gt x0a (Token_wire t)) as Hgt.
  fold (wireToken t) in Hgt.
  assert (Hw : len (Token_wire t) < 2 ^ 63) by lia.
  rewrite wireToken_len in Hlt, Hc by lia.
  pose proof (sovPacket_pos (len (Token_wire t)) ltac:(lia)) as Hp.
  unfold putToken. rewrite sliceTo_front. cbn [bind].
  destruct (Z.lt_ge_cases (len front) (len (Token_wire t))) as [Hsm|Hge].
  - rewrite Token_MarshalToSizedBuffer_short by (try assumption; lia).
    reflexivity.
  - destruct (Token_MarshalToSizedBuffer_wire t front Hwf)
      as (f1 & Hf1 & ->); [lia | rewrite len_app in Hd; lia |].
    cbn [bind].
    replace (drop (Z.to_nat (len front)) (front ++ done)) with done
      by (unfold len; rewrite Nat2Z.id, drop_app_length; reflexivity).
    rewrite subInt_small by (rewrite len_app in Hd; lia).
    rewrite <- Hf1, <- app_assoc. rewrite wrapU64_small by lia.
    apply varint_and_tag_short; [lia|lia|].
    rewrite !len_app in *. lia.
Qed.

Lemma FungibleTokenPacketDataV2_MarshalToSizedBuffer_short
    (ts : list Token) (sender receiver memo dAtA : list byte) :
  Forall Token_wf ts ->
  len dAtA < len (FungibleTokenPacketDataV2_wire ts sender receiver memo) ->
  len (FungibleTokenPacketDataV2_wire ts sender receiver memo) <= maxInt ->
  FungibleTokenPacketDataV2_MarshalToSizedBuffer
    (mkFungibleTokenPacketDataV2 (map Some ts) sender receiver memo) dAtA
  = Panic.
Proof.
  intros Hwf Hl Hw.
  assert (Ht : forall a, In a (rev (map Some ts)) ->
                 writes (putToken a) (wireTokenPtr a) /\
                 overflows (putToken a) (wireTokenPtr a)).
  { intros a Ha. apply in_rev, in_map_iff in Ha as (t & <- & Hin).
    rewrite List.Forall_forall in Hwf.
    split; [apply putToken_writes | apply putToken_overflows];
      apply Hwf, Hin. }
  pose proof (writes_forEach putToken wireTokenPtr (rev (map Some ts))
                (fun a Ha => proj1 (Ht a Ha))) as W4.
  pose proof (overflows_forEach putToken wireTokenPtr (rev (map Some ts))
                (fun a Ha => proj1 (Ht a Ha))
                (fun a Ha => proj2 (Ht a Ha))) as O4.
  pose proof (overflows_seq _ _ _ _
    (putStringOpt_writes x22 memo) (putStringOpt_overflows x22 memo)
    (overflows_seq _ _ _ _
    (putStringOpt_writes x1a receiver) (putStringOpt_overflows x1a receiver)
    (overflows_seq _ _ _ _
    (putStringOpt_writes x12 sender) (putStringOpt_overflows x12 sender)
    O4))) as O.
  rewrite rev_involutive, wireTokenPtr_map, <- !app_assoc in O.
  rewrite <- (overflows_sized _ _ dAtA O Hl Hw).
  unfold FungibleTokenPacketDataV2_MarshalToSizedBuffer.
  cbv beta zeta. cbn [V2_Tokens V2_Sender V2_Receiver V2_Memo].
  same_binds.
Qed.

(** X22. The encoders do not write outside the buffer and do not return a
    cut encoding: on a buffer shorter than [Size], [MarshalToSizedBuffer]
    panics (an index or slice expression is out of range), for the three
    messages, and so does [XXX_Marshal] without the deterministic flag on
    a buffer whose capacity is below [Size]. *)
Theorem MarshalToSizedBuffer_short_buffer_panics :
  forall dAtA : list byte,
    (forall m : FungibleTokenPacketData,
       FungibleTokenPacketData_fits m ->
       len dAtA < FungibleTokenPacketData_Size m ->
       FungibleTokenPacketData_MarshalToSizedBuffer m dAtA = Panic /\
       forall info,
         FungibleTokenPacketData_XXX_Marshal info m dAtA false = Panic) /\
    (forall t : Token,
       Token_fits t ->
       len dAtA < Token_Size (Some t) ->
       Token_MarshalToSizedBuffer (Some t) dAtA = Panic /\
       forall info, Token_XXX_Marshal info (Some t) dAtA false = Panic) /\
    (forall (ts : list Token) (sender receiver memo : list byte),
       FungibleTokenPacketDataV2_fits ts sender receiver memo ->
       len dAtA < FungibleTokenPacketDataV2_Size
                    (FungibleTokenPacketDataV2_of ts sender receiver memo) ->
       FungibleTokenPacketDataV2_MarshalToSizedBuffer
         (FungibleTokenPacketDataV2_of ts sender receiver memo) dAtA
       = Panic /\
       forall info,
         FungibleTokenPacketDataV2_XXX_Marshal info
           (FungibleTokenPacketDataV2_of ts sender receiver memo) dAtA false
         = Panic).
Proof.
  intros dAtA. split; [|split].
  - intros m Hm Hl.
    rewrite FungibleTokenPacketData_Size_wire in Hl by exact Hm.
    pose proof (FungibleTokenPacketData_MarshalToSizedBuffer_short m dAtA
                  Hl Hm) as E.
    split; [exact E|]. intros info.
    unfold FungibleTokenPacketData_XXX_Marshal, XXX_Marshal.
    rewrite E. reflexivity.
  - intros t [Hwf Hw] Hl.
    rewrite Token_Size_wire in Hl by assumption.
    pose proof (Token_MarshalToSizedBuffer_short t dAtA Hwf Hl Hw) as E.
    split; [exact E|]. intros info.
    unfold Token_XXX_Marshal, XXX_Marshal. rewrite E. reflexivity.
  - intros ts sender receiver memo [Hwf Hw] Hl.
    unfold FungibleTokenPacketDataV2_of in *.
    rewrite FungibleTokenPacketDataV2_Size_wire in Hl by assumption.
    pose proof (FungibleTokenPacketDataV2_MarshalToSizedBuffer_short ts
                  sender receiver memo dAtA Hwf Hl Hw) as E.
    split; [exact E|]. intros info.
    unfold FungibleTokenPacketDataV2_XXX_Marshal, XXX_Marshal.
    rewrite E. reflexivity.
Qed.

Lemma MarshalToSizedBuffer_short_buffer_panics_witness :
  FungibleTokenPacketData_MarshalToSizedBuffer sample_packet
    (replicate 23 x00) = Panic /\
  forall info,
    FungibleTokenPacketData_XXX_Marshal info sample_packet
      (replicate 23 x00) false = Panic.
Proof.
  apply (proj1 (MarshalToSizedBuffer_short_buffer_panics (replicate 23 x00))
           sample_packet).
  - unfold FungibleTokenPacketData_fits. vm_compute. discriminate.
  - vm_compute. reflexivity.
Defined.

(** * Groups in [skipPacket] *)

Lemma wireItem_induction (P : wireItem -> Prop) :
  (forall fn wv, P (IField fn wv)) ->
  (forall fn en items, Forall P items -> P (IGroup fn en items)) ->
  forall it, P it.
Proof.
  intros HF HG. fix IH 1. intros [fn wv|fn en items]; [apply HF|].
  apply HG. induction items as [|it items IHl]; constructor;
    [apply IH | exact IHl].
Qed.

Lemma wireItem_wf_group (fn en : Z) (items : list wireItem) :
  wireItem_wf (IGroup fn en items)
  <-> fieldNum_wf fn /\ fieldNum_wf en /\ Forall wireItem_wf items.
Proof.
  cbn [wireItem_wf].
  assert (E : forall l,
            (fix all (l : list wireItem) : Prop :=
               match l with
               | [] => True
               | it' :: l' => wireItem_wf it' /\ all l'
               end) l <-> Forall wireItem_wf l).
  { induction l as [|x l IH]; [split; [constructor|exact (fun _ => I)]|].
    rewrite Forall_cons, IH. reflexivity. }
  rewrite E. reflexivity.
Qed.

Lemma skipLoop_fuel_mono_gen (d : list byte) (fuel fuel' : nat)
    (i depth : Z) r :
  (fuel <= fuel')%nat -> r <> OutOfFuel ->
  skipLoop d fuel i depth = r -> skipLoop d fuel' i depth = r.
Proof.
  revert fuel' i depth.
  induction fuel as [|fuel IH]; intros fuel' i depth Hf Hr H.
  - simpl in H. destruct fuel'; simpl; destruct (i <? len d);
      try assumption; congruence.
  - destruct fuel' as [|fuel']; [lia|]. simpl in *.
    destruct (i <? len d); [|assumption].
    destruct (skipStep d i depth) as [[i1 d1]| | |]; cbn [bind] in *;
      try assumption.
    destruct (d1 =? 0); [assumption|].
    apply IH; [lia | assumption | assumption].
Qed.

(** One round of the loop that does not end it. *)
Lemma skipLoop_round (d : list byte) (fuel : nat) (i depth i' depth' : Z) :
  i < len d -> skipStep d i depth = Ok (i', depth') -> depth' <> 0 ->
  skipLoop d (S fuel) i depth = skipLoop d fuel i' depth'.
Proof.
  intros Hi Hs Hd. cbn [skipLoop].
  destruct (Z.ltb_spec i (len d)); [|lia].
  rewrite Hs. cbn [bind].
  destruct (Z.eqb_spec depth' 0); [contradiction|reflexivity].
Qed.

(** The round of [skipPacket] at any position, once the tag is read. *)
Lemma skipStep_key_at (pre rest : list byte) (fn wt depth : Z) :
  fieldNum_wf fn -> 0 <= wt < 8 ->
  len (pre ++ wireKey fn wt ++ rest) <= maxInt ->
  skipStep (pre ++ wireKey fn wt ++ rest) (len pre) depth
  = let dAtA := pre ++ wireKey fn wt ++ rest in
    let iNdEx := len pre + len (wireKey fn wt) in
    let* (iNdEx, depth) :=
      if wt =? 0 then
        let* (_, iNdEx) := skipVarint dAtA iNdEx in Ok (iNdEx, depth)
      else if wt =? 1 then Ok (addInt iNdEx 8, depth)
      else if wt =? 2 then
        let* (length, iNdEx) := readVarintInt dAtA iNdEx in
        if length <? 0 then Err ErrInvalidLengthPacket
        else Ok (addInt iNdEx length, depth)
      else if wt =? 3 then Ok (iNdEx, addInt depth 1)
      else if wt =? 4 then
        if depth =? 0 then Err ErrUnexpectedEndOfGroupPacket
        else Ok (iNdEx, subInt depth 1)
      else if wt =? 5 then Ok (addInt iNdEx 4, depth)
      else Err (ErrIllegalWireType wt) in
    if iNdEx <? 0 then Err ErrInvalidLengthPacket
    else Ok (iNdEx, depth).
Proof.
  intros Hfn Hwt Hd.
  destruct (tag_decompose fn wt Hwt Hfn) as (Hr & Hs & Hl).
  pose proof (proj1 (readTag_wireKey pre rest fn wt Hfn Hwt Hd)) as R.
  unfold skipStep. rewrite R. cbn [bind]. rewrite Hl. reflexivity.
Qed.

Lemma skipStep_field_at (pre suf : list byte) (fn : Z) (wv : wireValue)
    (depth : Z) :
  fieldNum_wf fn -> wireValue_wf wv ->
  len (pre ++ wireField fn wv ++ suf) <= maxInt ->
  skipStep (pre ++ wireField fn wv ++ suf) (len pre) depth
  = Ok (len pre + len (wireField fn wv), depth).
Proof.
  intros Hfn Hwf Hd.
  destruct (wireTypeOf_range wv) as (Hwt & H4 & H3).
  unfold wireField in *.
  change (wireTag fn wv) with (wireKey fn (wireTypeOf wv)) in *.
  rewrite <- app_assoc in *.
  pose proof (wireKey_len fn (wireTypeOf wv) Hfn Hwt) as Hk.
  pose proof (len_nonneg pre). pose proof (len_nonneg suf).
  pose proof (len_nonneg (wireBody wv)) as Hb.
  assert (HL : len pre + (len (wireKey fn (wireTypeOf wv))
                          + (len (wireBody wv) + len suf)) <= maxInt)
    by (rewrite !len_app in Hd; exact Hd).
  rewrite skipStep_key_at by assumption. cbv zeta.
  assert (Hfin : forall j, 0 <= j ->
            (if j <? 0 then Err ErrInvalidLengthPacket
             else Ok (j, depth) : result (Z * Z)) = Ok (j, depth)).
  { intros j Hj. destruct (Z.ltb_spec j 0); [lia | reflexivity]. }
  assert (E : forall body,
            pre ++ wireKey fn (wireTypeOf wv) ++ body ++ suf
            = (pre ++ wireKey fn (wireTypeOf wv)) ++ body ++ suf)
    by (intros; rewrite <- app_assoc; reflexivity).
  rewrite len_app.
  destruct wv as [v|bs|bs|bs]; cbn [wireTypeOf wireBody wireValue_wf] in *;
    cbn [Z.eqb Pos.eqb].
  - rewrite E in *. rewrite <- len_app.
    destruct (skipVarint_varint (pre ++ wireKey fn 0) suf v Hwf Hd)
      as (r & ->).
    cbn [bind]. rewrite len_app. rewrite Hfin by lia. do 2 f_equal. lia.
  - cbn [bind]. rewrite addInt_small by lia.
    rewrite Hwf in *. rewrite Hfin by lia. do 2 f_equal. lia.
  - rewrite len_app in Hb, HL |- *. pose proof (len_nonneg bs).
    pose proof (len_nonneg (varint (len bs))).
    replace (pre ++ wireKey fn 2 ++ (varint (len bs) ++ bs) ++ suf)
      with ((pre ++ wireKey fn 2) ++ varint (len bs) ++ bs ++ suf) in *
      by (rewrite <- !app_assoc; reflexivity).
    rewrite <- len_app.
    rewrite readVarintInt_varint by (try assumption; lia).
    cbn [bind]. destruct (Z.ltb_spec (len bs) 0); [lia|].
    cbn [bind]. rewrite len_app. rewrite addInt_small by lia.
    rewrite Hfin by lia. do 2 f_equal. lia.
  - cbn [bind]. rewrite addInt_small by lia.
    rewrite Hwf in *. rewrite Hfin by lia. do 2 f_equal. lia.
Qed.

(** Inside a group ([1 <= depth]) the loop steps over an item and goes
    on; the bytes of the item are enough fuel for it. *)
Definition steps_over (it : wireItem) : Prop :=
  wireItem_wf it ->
  forall (pre suf : list byte) (depth : Z) (fuel : nat) r,
    len (pre ++ wireItem_bytes it ++ suf) <= maxInt ->
    1 <= depth -> depth + len (wireItem_bytes it) <= maxInt ->
    r <> OutOfFuel ->
    skipLoop (pre ++ wireItem_bytes it ++ suf) fuel
      (len pre + len (wireItem_bytes it)) depth = r ->
    skipLoop (pre ++ wireItem_bytes it ++ suf)
      (length (wireItem_bytes it) + fuel) (len pre) depth = r.

Lemma steps_over_items (items : list wireItem) :
  Forall steps_over items -> Forall wireItem_wf items ->
  forall (pre suf : list byte) (depth : Z) (fuel : nat) r,
    len (pre ++ concat (map wireItem_bytes items) ++ suf) <= maxInt ->
    1 <= depth ->
    depth + len (concat (map wireItem_bytes items)) <= maxInt ->
    r <> OutOfFuel ->
    skipLoop (pre ++ concat (map wireItem_bytes items) ++ suf) fuel
      (len pre + len (concat (map wireItem_bytes items))) depth = r ->
    skipLoop (pre ++ concat (map wireItem_bytes items) ++ suf)
      (length (concat (map wireItem_bytes items)) + fuel) (len pre) depth
    = r.
Proof.
  intros HS. induction HS as [|it items Hit _ IH];
    intros Hwf pre suf depth fuel r Hd Hdep Hm Hr H.
  - cbn [map concat] in *. change (len (@nil byte)) with 0 in H.
    rewrite Z.add_0_r in H. exact H.
  - apply Forall_cons in Hwf as [Hw Hws].
    cbn [map concat] in *. unfold steps_over in Hit.
    remember (wireItem_bytes it) as b eqn:Eb.
    remember (concat (map wireItem_bytes items)) as bs eqn:Ebs.
    pose proof (len_nonneg b). pose proof (len_nonneg bs).
    rewrite len_app in Hm, H.
    rewrite <- app_assoc in *.
    rewrite length_app, <- Nat.add_assoc.
    apply (Hit Hw pre (bs ++ suf) depth (length bs + fuel)%nat r Hd Hdep);
      [lia|exact Hr|].
    replace (pre ++ b ++ bs ++ suf) with ((pre ++ b) ++ bs ++ suf) in *
      by (rewrite <- app_assoc; reflexivity).
    rewrite <- len_app.
    apply (IH Hws (pre ++ b) suf depth fuel r Hd Hdep); [lia|exact Hr|].
    rewrite len_app. rewrite <- H. f_equal. lia.
Qed.

Lemma skipLoop_item (it : wireItem) : steps_over it.
Proof.
  induction it as [fn wv|fn en items IH] using wireItem_induction;
    intros Hwf pre suf depth fuel r Hd Hdep Hm Hr H.
  - destruct Hwf as [Hfn Hwv]. cbn [wireItem_bytes] in *.
    pose proof (wireField_len_pos fn wv Hfn) as Hp.
    pose proof (len_nonneg pre). pose proof (len_nonneg suf).
    destruct (length (wireField fn wv)) as [|k] eqn:E;
      [unfold len in Hp; lia|].
    cbn [Nat.add].
    rewrite (skipLoop_round _ _ (len pre) depth
               (len pre + len (wireField fn wv)) depth).
    + apply skipLoop_fuel_mono_gen with (fuel := fuel); [lia|exact Hr|].
      exact H.
    + rewrite !len_app. lia.
    + apply skipStep_field_at; assumption.
    + lia.
  - apply wireItem_wf_group in Hwf as (Hfn & Hen & Hws).
    cbn [wireItem_bytes] in *.
    set (bs := concat (map wireItem_bytes items)) in *.
    pose proof (wireKey_len fn 3 Hfn ltac:(lia)) as Hk3.
    pose proof (wireKey_len en 4 Hen ltac:(lia)) as Hk4.
    pose proof (len_nonneg pre). pose proof (len_nonneg suf).
    pose proof (len_nonneg bs).
    rewrite !len_app in Hm, H.
    assert (HL : len pre + (len (wireKey fn 3)
                            + (len bs + (len (wireKey en 4) + len suf)))
                 <= maxInt)
      by (rewrite !len_app in Hd; lia).
    rewrite <- !app_assoc in *.
    set (d := pre ++ wireKey fn 3 ++ bs ++ wireKey en 4 ++ suf) in *.
    assert (Hlen : len d = len pre + (len (wireKey fn 3)
                     + (len bs + (len (wireKey en 4) + len suf))))
      by (unfold d; rewrite !len_app; reflexivity).
    (* the round of the end tag *)
    assert (Hend : skipLoop d (S fuel)
                     (len pre + len (wireKey fn 3) + len bs) (depth + 1)
                   = r).
    { rewrite (skipLoop_round _ _ _ (depth + 1)
                 (len pre + len (wireKey fn 3) + len bs
                  + len (wireKey en 4)) depth).
      - rewrite <- H. f_equal. lia.
      - lia.
      - unfold d.
        replace (pre ++ wireKey fn 3 ++ bs ++ wireKey en 4 ++ suf)
          with ((pre ++ wireKey fn 3 ++ bs) ++ wireKey en 4 ++ suf)
          by (rewrite <- !app_assoc; reflexivity).
        replace (len pre + len (wireKey fn 3) + len bs)
          with (len (pre ++ wireKey fn 3 ++ bs))
          by (rewrite !len_app; lia).
        rewrite skipStep_key_at; [|exact Hen|lia|].
        + cbv zeta. cbn [Z.eqb Pos.eqb bind].
          destruct (Z.eqb_spec (depth + 1) 0); [lia|]. cbn [bind].
          rewrite subInt_small by lia.
          match goal with |- context [?x <? 0] =>
            destruct (Z.ltb_spec x 0) as [Hneg|_] end.
          { rewrite !len_app in Hneg. lia. }
          do 2 f_equal; lia.
        + rewrite <- !app_assoc. exact Hd.
      - lia. }
    (* the items *)
    assert (Hitems : skipLoop d (length bs + S fuel)
                       (len pre + len (wireKey fn 3)) (depth + 1) = r).
    { unfold d, bs in *.
      replace (pre ++ wireKey fn 3 ++ concat (map wireItem_bytes items)
               ++ wireKey en 4 ++ suf)
        with ((pre ++ wireKey fn 3) ++ concat (map wireItem_bytes items)
              ++ wireKey en 4 ++ suf) in *
        by (rewrite <- !app_assoc; reflexivity).
      replace (len pre + len (wireKey fn 3))
        with (len (pre ++ wireKey fn 3)) by (rewrite len_app; reflexivity).
      apply (steps_over_items items IH Hws); try assumption; try lia.
      rewrite len_app. rewrite <- Hend. f_equal; lia. }
    (* the round of the start tag *)
    assert (Hstart : skipLoop d (S (length bs + S fuel)) (len pre) depth = r).
    { rewrite (skipLoop_round _ _ _ depth
                 (len pre + len (wireKey fn 3)) (depth + 1)).
      - exact Hitems.
      - lia.
      - unfold d. rewrite skipStep_key_at; [|exact Hfn|lia|exact Hd].
        cbv zeta. cbn [Z.eqb Pos.eqb bind].
        rewrite addInt_small by lia.
        match goal with |- context [?x <? 0] =>
          destruct (Z.ltb_spec x 0); [lia|reflexivity] end.
      - lia. }
    apply skipLoop_fuel_mono_gen with (fuel := S (length bs + S fuel)%nat);
      [|exact Hr|exact Hstart].
    rewrite !length_app. unfold len in *. lia.
Qed.

Lemma all_steps_over (items : list wireItem) : Forall steps_over items.
Proof. apply Forall_forall. intros it _. apply skipLoop_item. Qed.

(** A whole group at the head of the input. *)
Lemma skipPacket_group (fn en : Z) (items : list wireItem) :
  fieldNum_wf fn -> fieldNum_wf en -> Forall wireItem_wf items ->
  len (wireItem_bytes (IGroup fn en items)) <= maxInt ->
  skipPacket (wireItem_bytes (IGroup fn en items))
  = Ok (len (wireItem_bytes (IGroup fn en items))).
Proof.
  intros Hfn Hen Hws Hd. cbn [wireItem_bytes] in *.
  pose proof (wireKey_len fn 3 Hfn ltac:(lia)) as Hk3.
  pose proof (wireKey_len en 4 Hen ltac:(lia)) as Hk4.
  pose proof (len_nonneg (concat (map wireItem_bytes items))) as Hb.
  assert (HL : len (wireKey fn 3)
               + (len (concat (map wireItem_bytes items))
                  + len (wireKey en 4)) <= maxInt)
    by (rewrite !len_app in Hd; exact Hd).
  unfold skipPacket.
  apply skipLoop_fuel_mono
    with (fuel := S (length (concat (map wireItem_bytes items)) + 1)%nat).
  { rewrite !length_app. unfold len in *. lia. }
  rewrite (skipLoop_round _ _ 0 0 (len (wireKey fn 3)) 1); cycle 1.
  { rewrite !len_app. lia. }
  { pose proof (skipStep_key_at [] (concat (map wireItem_bytes items)
                                    ++ wireKey en 4) fn 3 0 Hfn ltac:(lia))
      as S3.
    cbn [app] in S3. change (len []) with 0 in S3. rewrite S3 by exact Hd.
    cbv zeta. cbn [Z.eqb Pos.eqb bind]. rewrite Z.add_0_l.
    destruct (Z.ltb_spec (len (wireKey fn 3)) 0); [lia|reflexivity]. }
  { lia. }
  pose proof (steps_over_items items (all_steps_over items) Hws
                (wireKey fn 3) (wireKey en 4) 1 1%nat
                (Ok (len (wireKey fn 3 ++ concat (map wireItem_bytes items)
                          ++ wireKey en 4)))) as Hitems.
  apply Hitems; [exact Hd|lia|lia|discriminate|].
  cbn [skipLoop].
  match goal with |- context [?x <? ?y] =>
    destruct (Z.ltb_spec x y) as [_|Hc] end;
    [|rewrite !len_app in Hc; lia].
  replace (wireKey fn 3 ++ concat (map wireItem_bytes items) ++ wireKey en 4)
    with ((wireKey fn 3 ++ concat (map wireItem_bytes items))
          ++ wireKey en 4 ++ [])
    by (rewrite app_nil_r, <- app_assoc; reflexivity).
  rewrite <- (len_app (wireKey fn 3)).
  rewrite skipStep_key_at; [|exact Hen|lia|].
  - cbv zeta. cbn [Z.eqb Pos.eqb bind].
    change (subInt 1 1) with 0.
    match goal with |- context [?x <? 0] =>
      destruct (Z.ltb_spec x 0) as [Hneg|_] end.
    { rewrite !len_app in Hneg. lia. }
    cbn [bind Z.eqb]. f_equal. rewrite !len_app.
    change (len (@nil byte)) with 0. lia.
  - rewrite app_nil_r, <- app_assoc. exact Hd.
Qed.

Lemma skipPacket_item (it : wireItem) :
  wireItem_wf it -> len (wireItem_bytes it) <= maxInt ->
  skipPacket (wireItem_bytes it) = Ok (len (wireItem_bytes it)).
Proof.
  intros Hwf Hd. destruct it as [fn wv|fn en items].
  - destruct Hwf as [Hfn Hwv]. cbn [wireItem_bytes] in *.
    pose proof (wireField_len_pos fn wv Hfn) as Hp.
    destruct (skipPacket_one (wireField fn wv) ltac:(lia)) as [_ SO].
    apply SO.
    pose proof (skipStep_field_at [] [] fn wv 0 Hfn Hwv) as S.
    rewrite app_nil_r in S. cbn [app] in S. change (len []) with 0 in S.
    rewrite Z.add_0_l in S. apply S, Hd.
  - apply wireItem_wf_group in Hwf as (Hfn & Hen & Hws).
    apply skipPacket_group; assumption.
Qed.

Lemma skipUnknown_whole (d : list byte) :
  len d <= maxInt -> skipPacket d = Ok (len d) ->
  skipUnknown d 0 = Ok (len d).
Proof.
  intros Hd Hs. pose proof (skipUnknown_app [] d) as E.
  cbn [app] in E. change (len []) with 0 in E. rewrite E, Hs.
  cbn [bind]. pose proof (len_nonneg d).
  rewrite addInt_small by lia. rewrite Z.add_0_l.
  destruct (Z.ltb_spec (len d) 0); [lia|]. cbn [orb].
  rewrite Z.gtb_ltb, Z.ltb_irrefl. reflexivity.
Qed.

Lemma wireItem_head (it : wireItem) :
  wireItem_wf it -> len (wireItem_bytes it) <= maxInt ->
  0 < len (wireItem_bytes it) /\
  exists wt k, readTag (wireItem_bytes it) 0 = Ok (wireItem_num it, wt, k).
Proof.
  intros Hwf Hd. destruct it as [fn wv|fn en items];
    cbn [wireItem_bytes wireItem_num] in *.
  - destruct Hwf as [Hfn Hwv].
    pose proof (wireField_len_pos fn wv Hfn). split; [lia|].
    pose proof (readTag_wireField fn wv [] Hfn) as R.
    rewrite app_nil_r in R. destruct (R Hd) as [_ ->]. eauto.
  - apply wireItem_wf_group in Hwf as (Hfn & Hen & Hws).
    pose proof (wireKey_len fn 3 Hfn ltac:(lia)) as Hk3.
    split.
    { rewrite len_app.
      pose proof (len_nonneg (concat (map wireItem_bytes items)
                              ++ wireKey en 4)). lia. }
    destruct (readTag_wireKey [] (concat (map wireItem_bytes items)
                                  ++ wireKey en 4) fn 3 Hfn ltac:(lia) Hd)
      as [_ R].
    cbn [app] in R. change (len []) with 0 in R.
    rewrite R by lia. eauto.
Qed.

(** X23. [skipPacket] steps over groups, nested to any depth: for a
    well-formed item (a field, or a group of items between a start tag and
    an end tag) followed by any bytes it returns the number of bytes of
    the item; and a decoder that meets such an item under a number it does
    not know skips all of it and leaves the message as it is. *)
Theorem skipPacket_skips_groups :
  forall it : wireItem,
    wireItem_wf it -> len (wireItem_bytes it) <= maxInt ->
    (forall suf : list byte,
       len (wireItem_bytes it ++ suf) <= maxInt ->
       skipPacket (wireItem_bytes it ++ suf)
       = Ok (len (wireItem_bytes it))) /\
    (5 < wireItem_num it ->
     forall m, FungibleTokenPacketData_Unmarshal m (wireItem_bytes it)
               = Ok m) /\
    (4 < wireItem_num it ->
     forall m, FungibleTokenPacketDataV2_Unmarshal m (wireItem_bytes it)
               = Ok m) /\
    (3 < wireItem_num it ->
     forall m, Token_Unmarshal m (wireItem_bytes it) = Ok m).
Proof.
  intros it Hwf Hd.
  pose proof (skipPacket_item it Hwf Hd) as HS.
  pose proof (skipUnknown_whole _ Hd HS) as HU.
  destruct (wireItem_head it Hwf Hd) as (Hp & wt & k & RT).
  split; [|split; [|split]].
  - intros suf Hs. apply skipPacket_suffix; assumption.
  - intros Hn m. apply unmarshalLoop_single; [exact Hp|].
    open_step RT; first [lia | rewrite HU; reflexivity].
  - intros Hn m. apply unmarshalLoop_single; [exact Hp|].
    open_step RT; first [lia | rewrite HU; reflexivity].
  - intros Hn m. apply unmarshalLoop_single; [exact Hp|].
    open_step RT; first [lia | rewrite HU; reflexivity].
Qed.

Lemma skipPacket_skips_groups_witness :
  skipPacket
    (wireItem_bytes
       (IGroup 7 7 [IField 1 (WVarint 5); IGroup 2 2 [];
                    IField 3 (WBytes [x61])]) ++ [x0a])
  = Ok (len (wireItem_bytes
               (IGroup 7 7 [IField 1 (WVarint 5); IGroup 2 2 [];
                            IField 3 (WBytes [x61])]))).
Proof.
  refine (proj1 (skipPacket_skips_groups
                   (IGroup 7 7 [IField 1 (WVarint 5); IGroup 2 2 [];
                                IField 3 (WBytes [x61])]) _ _) [x0a] _).
  - cbn. unfold fieldNum_wf. lia.
  - vm_compute. discriminate.
  - vm_compute. discriminate.
Defined.

(** A group that the input does not close. *)
Lemma skipPacket_open_group (fn : Z) (items : list wireItem) :
  fieldNum_wf fn -> Forall wireItem_wf items ->
  len (wireKey fn 3 ++ concat (map wireItem_bytes items)) <= maxInt ->
  skipPacket (wireKey fn 3 ++ concat (map wireItem_bytes items))
  = Err ErrUnexpectedEOF.
Proof.
  intros Hfn Hws Hd.
  pose proof (wireKey_len fn 3 Hfn ltac:(lia)) as Hk3.
  pose proof (len_nonneg (concat (map wireItem_bytes items))) as Hb.
  assert (HL : len (wireKey fn 3) + len (concat (map wireItem_bytes items))
               <= maxInt) by (rewrite !len_app in Hd; exact Hd).
  unfold skipPacket.
  apply skipLoop_fuel_mono_gen
    with (fuel := S (length (concat (map wireItem_bytes items)) + 0)%nat);
    [rewrite !length_app; unfold len in *; lia|discriminate|].
  rewrite (skipLoop_round _ _ 0 0 (len (wireKey fn 3)) 1); cycle 1.
  { rewrite !len_app. lia. }
  { pose proof (skipStep_key_at [] (concat (map wireItem_bytes items))
                  fn 3 0 Hfn ltac:(lia)) as S3.
    cbn [app] in S3. change (len []) with 0 in S3. rewrite S3 by exact Hd.
    cbv zeta. cbn [Z.eqb Pos.eqb bind]. rewrite Z.add_0_l.
    destruct (Z.ltb_spec (len (wireKey fn 3)) 0); [lia|reflexivity]. }
  { lia. }
  pose proof (steps_over_items items (all_steps_over items) Hws
                (wireKey fn 3) [] 1 0%nat (Err ErrUnexpectedEOF)) as Hitems.
  rewrite app_nil_r in Hitems.
  apply Hitems; [exact Hd|lia|lia|discriminate|].
  cbn [skipLoop]. rewrite len_app, Z.ltb_irrefl. reflexivity.
Qed.

(** X24. Groups that are not well formed are errors: an end-group tag
    with no group open makes [skipPacket] return
    [ErrUnexpectedEndOfGroupPacket]; a group that the input does not
    close makes it return [io.ErrUnexpectedEOF], and so does the decoder
    that meets that group under a number it does not know, after any
    decoded prefix. *)
Theorem group_errors :
  (forall (fn : Z) (rest : list byte),
     fieldNum_wf fn -> len (wireKey fn 4 ++ rest) <= maxInt ->
     skipPacket (wireKey fn 4 ++ rest) = Err ErrUnexpectedEndOfGroupPacket) /\
  (forall (a : list byte) (fn : Z) (items : list wireItem),
     fieldNum_wf fn -> Forall wireItem_wf items ->
     len (a ++ wireKey fn 3 ++ concat (map wireItem_bytes items)) <= maxInt ->
     skipPacket (wireKey fn 3 ++ concat (map wireItem_bytes items))
     = Err ErrUnexpectedEOF /\
     (5 < fn ->
      rejects FungibleTokenPacketData_Unmarshal a
        (wireKey fn 3 ++ concat (map wireItem_bytes items))
        ErrUnexpectedEOF) /\
     (4 < fn ->
      rejects FungibleTokenPacketDataV2_Unmarshal a
        (wireKey fn 3 ++ concat (map wireItem_bytes items))
        ErrUnexpectedEOF) /\
     (3 < fn ->
      rejects Token_Unmarshal a
        (wireKey fn 3 ++ concat (map wireItem_bytes items))
        ErrUnexpectedEOF)).
Proof.
  split.
  - intros fn rest Hfn Hd.
    pose proof (wireKey_len fn 4 Hfn ltac:(lia)) as Hk.
    assert (Hpos : 0 < len (wireKey fn 4 ++ rest))
      by (rewrite len_app; pose proof (len_nonneg rest); lia).
    destruct (skipPacket_one _ Hpos) as [SE _]. apply SE.
    rewrite skipStep_wireKey by (try assumption; lia). reflexivity.
  - intros a fn items Hfn Hws Hd.
    assert (Hb : len (wireKey fn 3 ++ concat (map wireItem_bytes items))
                 <= maxInt).
    { rewrite !len_app in *. pose proof (len_nonneg a). lia. }
    pose proof (skipPacket_open_group fn items Hfn Hws Hb) as HS.
    split; [exact HS|].
    apply unknown_field_fails; try assumption; try lia.
    rewrite skipUnknown_app, HS. reflexivity.
Qed.

Lemma group_errors_witness :
  skipPacket (wireKey 7 3 ++ concat (map wireItem_bytes
                                       [IField 1 (WVarint 5)]))
  = Err ErrUnexpectedEOF /\
  (5 < 7 ->
   rejects FungibleTokenPacketData_Unmarshal [x0a; x01; x61]
     (wireKey 7 3 ++ concat (map wireItem_bytes [IField 1 (WVarint 5)]))
     ErrUnexpectedEOF) /\
  (4 < 7 ->
   rejects FungibleTokenPacketDataV2_Unmarshal [x0a; x01; x61]
     (wireKey 7 3 ++ concat (map wireItem_bytes [IField 1 (WVarint 5)]))
     ErrUnexpectedEOF) /\
  (3 < 7 ->
   rejects Token_Unmarshal [x0a; x01; x61]
     (wireKey 7 3 ++ concat (map wireItem_bytes [IField 1 (WVarint 5)]))
     ErrUnexpectedEOF).
Proof.
  apply (proj2 group_errors [x0a; x01; x61] 7 [IField 1 (WVarint 5)]).
  - unfold fieldNum_wf. lia.
  - repeat constructor; cbn; unfold fieldNum_wf; lia.
  - vm_compute. discriminate.
Defined.

(** * What a decoded message holds *)

Lemma lor_range_64 (a b : Z) :
  0 <= a < 2 ^ 64 -> 0 <= b < 2 ^ 64 -> 0 <= Z.lor a b < 2 ^ 64.
Proof.
  intros Ha Hb.
  assert (H0 : 0 <= Z.lor a b) by (apply Z.lor_nonneg; lia).
  split; [exact H0|].
  destruct (Z.eq_dec (Z.lor a b) 0) as [->|Hn]; [lia|].
  apply Z.log2_lt_pow2; [lia|].
  rewrite Z.log2_lor by lia.
  destruct (Z.eq_dec a 0) as [->|Ha0]; destruct (Z.eq_dec b 0) as [->|Hb0].
  - cbn. lia.
  - rewrite Z.max_r by (cbn; apply Z.log2_nonneg).
    apply Z.log2_lt_pow2; lia.
  - rewrite Z.max_l by (cbn; apply Z.log2_nonneg).
    apply Z.log2_lt_pow2; lia.
  - apply Z.max_lub_lt; apply Z.log2_lt_pow2; lia.
Qed.

Lemma varintLoop_accU64_range (d : list byte) (n : nat) (s i v v' i' : Z) :
  0 <= v < 2 ^ 64 ->
  varintLoop accU64 d n s i v = Ok (v', i') -> 0 <= v' < 2 ^ 64.
Proof.
  revert s i v.
  induction n as [|n IH]; intros s i v Hv H; simpl in H; [discriminate|].
  destruct (64 <=? s); [discriminate|].
  destruct (len d <=? i); [discriminate|].
  destruct (index d i) as [b| | |]; try discriminate H. cbn [bind] in H.
  assert (Hr : 0 <= accU64 v (byte_to_Z b) s < 2 ^ 64)
    by (apply lor_range_64; [exact Hv|apply wrapU64_range]).
  destruct (byte_to_Z b <? 128).
  - injection H as <- <-. exact Hr.
  - eapply IH; [|exact H]. exact Hr.
Qed.

Lemma unmarshalLoop_invariant {M}
    (step : list byte -> Z -> M -> result (Z * M)) (P : M -> Prop) :
  (forall d i m i' m', P m -> step d i m = Ok (i', m') -> P m') ->
  forall (d : list byte) (fuel : nat) (i : Z) (m m' : M),
    P m -> unmarshalLoop step d fuel i m = Ok m' -> P m'.
Proof.
  intros Hstep d fuel. induction fuel as [|fuel IH]; intros i m m' Hm H.
  - simpl in H. destruct (i <? len d); [discriminate|].
    destruct (i >? len d); [discriminate|]. injection H as <-. exact Hm.
  - simpl in H. destruct (i <? len d).
    + destruct (step d i m) as [[i1 m1]| | |] eqn:E; try discriminate H.
      cbn [bind] in H. eapply IH; [|exact H]. eapply Hstep; eassumption.
    + destruct (i >? len d); [discriminate|]. injection H as <-. exact Hm.
Qed.

Lemma Token_step_wf (d : list byte) (i : Z) (m : Token) i' m' :
  Token_wf m -> Token_step d i m = Ok (i', m') -> Token_wf m'.
Proof.
  intros Hm H. unfold Token_step in H.
  destruct (readTag d i) as [[[fn wt] j]| | |]; try discriminate H.
  cbn [bind] in H.
  destruct (fn =? 1).
  { destruct (readString "Denom" d wt j) as [[s k]| | |];
      try discriminate H. injection H as <- <-. exact Hm. }
  destruct (fn =? 2).
  { destruct (negb (wt =? 0)); [discriminate|].
    destruct (readVarintU64 d j) as [[v k]| | |] eqn:E; try discriminate H.
    injection H as <- <-. unfold Token_wf, set_Token_Amount. cbn.
    eapply varintLoop_accU64_range; [|exact E]. lia. }
  destruct (fn =? 3).
  { destruct (readString "Trace" d wt j) as [[s k]| | |];
      try discriminate H. injection H as <- <-. exact Hm. }
  destruct (skipUnknown d i) as [k| | |]; try discriminate H.
  injection H as <- <-. exact Hm.
Qed.

Lemma Token_Unmarshal_wf (m m' : Token) (d : list byte) :
  Token_wf m -> Token_Unmarshal m d = Ok m' -> Token_wf m'.
Proof.
  apply (unmarshalLoop_invariant Token_step Token_wf).
  intros d0 i m0 i' m1. apply Token_step_wf.
Qed.

Lemma FungibleTokenPacketDataV2_step_wf (d : list byte) (i : Z) m i' m' :
  FungibleTokenPacketDataV2_wf m ->
  FungibleTokenPacketDataV2_step d i m = Ok (i', m') ->
  FungibleTokenPacketDataV2_wf m'.
Proof.
  intros Hm H. unfold FungibleTokenPacketDataV2_step in H.
  destruct (readTag d i) as [[[fn wt] j]| | |]; try discriminate H.
  cbn [bind] in H.
  destruct (fn =? 1).
  { destruct (readToken d wt j) as [[t k]| | |] eqn:E; try discriminate H.
    injection H as <- <-.
    unfold FungibleTokenPacketDataV2_wf, append_V2_Tokens. cbn.
    apply Forall_app. split; [exact Hm|]. constructor; [|constructor].
    exists t. split; [reflexivity|].
    unfold readToken in E.
    destruct (negb (wt =? 2)); [discriminate|].
    destruct (readVarintInt d j) as [[n k']| | |]; try discriminate E.
    cbn [bind] in E.
    destruct (n <? 0); [discriminate|].
    destruct (addInt k' n <? 0); [discriminate|].
    destruct (addInt k' n >? len d); [discriminate|].
    destruct (slice d k' (addInt k' n)) as [sub| | |]; try discriminate E.
    cbn [bind] in E.
    destruct (Token_Unmarshal Token_zero sub) as [t'| | |] eqn:Et;
      try discriminate E.
    injection E as <- <-.
    apply (Token_Unmarshal_wf Token_zero t' sub); [|exact Et].
    unfold Token_wf. cbn. lia. }
  destruct (fn =? 2).
  { destruct (readString "Sender" d wt j) as [[s k]| | |];
      try discriminate H. injection H as <- <-. exact Hm. }
  destruct (fn =? 3).
  { destruct (readString "Receiver" d wt j) as [[s k]| | |];
      try discriminate H. injection H as <- <-. exact Hm. }
  destruct (fn =? 4).
  { destruct (readString "Memo" d wt j) as [[s k]| | |];
      try discriminate H. injection H as <- <-. exact Hm. }
  destruct (skipUnknown d i) as [k| | |]; try discriminate H.
  injection H as <- <-. exact Hm.
Qed.

(** X25. The decoders keep the messages well formed: whatever the input,
    the [Amount] that [Token.Unmarshal] leaves is a [uint64], and every
    entry that [FungibleTokenPacketDataV2.Unmarshal] adds to [Tokens] is a
    non-nil pointer to such a token. A payload decoded into a fresh
    message never holds the nil entry on which [Marshal] panics. *)
Theorem decoded_messages_well_formed :
  forall d : list byte,
    (forall m m' : Token,
       Token_wf m -> Token_Unmarshal m d = Ok m' -> Token_wf m') /\
    (forall m m' : FungibleTokenPacketDataV2,
       FungibleTokenPacketDataV2_wf m ->
       FungibleTokenPacketDataV2_Unmarshal m d = Ok m' ->
       FungibleTokenPacketDataV2_wf m') /\
    (forall m' : FungibleTokenPacketDataV2,
       FungibleTokenPacketDataV2_Unmarshal FungibleTokenPacketDataV2_zero d
       = Ok m' ->
       exists ts, V2_Tokens m' = map Some ts /\ Forall Token_wf ts).
Proof.
  intros d.
  assert (HV : forall m m' : FungibleTokenPacketDataV2,
            FungibleTokenPacketDataV2_wf m ->
            FungibleTokenPacketDataV2_Unmarshal m d = Ok m' ->
            FungibleTokenPacketDataV2_wf m').
  { intros m m'.
    apply (unmarshalLoop_invariant FungibleTokenPacketDataV2_step
             FungibleTokenPacketDataV2_wf).
    intros d0 i m0 i' m1. apply FungibleTokenPacketDataV2_step_wf. }
  split; [|split].
  - intros m m'. apply Token_Unmarshal_wf.
  - exact HV.
  - intros m' H.
    assert (Hz : FungibleTokenPacketDataV2_wf FungibleTokenPacketDataV2_zero)
      by constructor.
    pose proof (HV _ _ Hz H) as Hw. unfold FungibleTokenPacketDataV2_wf in Hw.
    induction (V2_Tokens m') as [|o l IH].
    + exists []. split; [reflexivity|constructor].
    + apply Forall_cons in Hw as [(t & -> & Ht) Hl].
      destruct (IH Hl) as (ts & -> & Hts).
      exists (t :: ts). split; [reflexivity|]. constructor; assumption.
Qed.

Lemma decoded_messages_well_formed_witness :
  exists ts,
    V2_Tokens (mkFungibleTokenPacketDataV2
                 [Some (mkToken [] 1 [])] [] [] [])
    = map Some ts /\ Forall Token_wf ts.
Proof.
  refine (proj2 (proj2 (decoded_messages_well_formed
                          [x0a; x02; x10; x01])) _ _).
  vm_compute. reflexivity.
Defined.

(** * What the encoders leave of the buffer *)

Lemma varint_and_tag_keeps (d d' : list byte) (i i' v : Z) (t : byte) :
  0 <= i <= len d -> len d <= maxInt -> 0 <= v < 2 ^ 64 ->
  (let* (dAtA, i) := encodeVarintPacket d i v in
   let i := subInt i 1 in
   let* dAtA := setAt dAtA i t in
   Ok (dAtA, i)) = Ok (d', i') ->
  0 <= i' <= i /\ agree i' d' d.
Proof.
  intros Hi Hd Hv H. pose proof (sovPacket_pos v Hv) as Hp.
  destruct (encodeVarintPacket d i v) as [[d1 i1]| | |] eqn:E;
    try discriminate H.
  cbn [bind] in H.
  apply encodeVarintPacket_agree in E as (-> & H1 & A1); try assumption.
  rewrite subInt_small in H by lia.
  destruct (setAt d1 (i - sovPacket v - 1) t) as [d2| | |] eqn:E2;
    try discriminate H.
  injection H as <- <-.
  apply setAt_agree in E2 as [Hj A2]. split; [lia|].
  apply (agree_trans _ d2 d1 d); [exact A2|].
  apply (agree_le (i - sovPacket v)); [lia|exact A1].
Qed.

Lemma putString_keeps (t : byte) (s : list byte) :
  len s <= maxInt -> keeps_front (putString t s).
Proof.
  intros Hs d d' i i' Hi Hd H. pose proof (len_nonneg s).
  unfold putString in H. rewrite subInt_small in H by lia.
  destruct (copyAt d (i - len s) s) as [d1| | |] eqn:E; try discriminate H.
  cbn [bind] in H. apply copyAt_agree in E as [Hj A1].
  destruct A1 as [L1 T1].
  apply varint_and_tag_keeps in H as [Hi' A2];
    [|lia|lia|apply wrapU64_range].
  split; [lia|].
  apply (agree_trans _ d' d1 d); [exact A2|].
  apply (agree_le (i - len s)); [lia|]. split; assumption.
Qed.

Lemma keeps_nil : keeps_front Ok.
Proof.
  intros d d' i i' Hi Hd H. injection H as <- <-.
  split; [lia|apply agree_refl].
Qed.

Lemma putStringOpt_keeps (t : byte) (s : list byte) :
  len s <= maxInt -> keeps_front (putStringOpt t s).
Proof.
  intros Hs. unfold putStringOpt.
  destruct (len s >? 0); [apply putString_keeps, Hs | apply keeps_nil].
Qed.

Lemma keeps_seq f g :
  keeps_front f -> keeps_front g ->
  keeps_front (fun st => let* st := f st in g st).
Proof.
  intros Kf Kg d d' i i' Hi Hd H.
  destruct (f (d, i)) as [[d1 i1]| | |] eqn:E; try discriminate H.
  cbn [bind] in H.
  apply Kf in E as [Hi1 A1]; [|assumption..].
  destruct A1 as [L1 T1].
  apply Kg in H as [Hi2 A2]; [|lia|lia].
  split; [lia|].
  apply (agree_trans _ d' d1 d); [exact A2|].
  apply (agree_le i1); [lia|]. split; assumption.
Qed.

Lemma keeps_forEach {A}
    (f : A -> list byte * Z -> result (list byte * Z)) (l : list A) :
  (forall a, In a l -> keeps_front (f a)) -> keeps_front (forEach f l).
Proof.
  induction l as [|a l IH]; intros Kf.
  - apply keeps_nil.
  - cbn [forEach]. apply keeps_seq.
    + apply Kf. left. reflexivity.
    + apply IH. intros b Hb. apply Kf. right. exact Hb.
Qed.

Lemma wireAmount_keeps (v : Z) :
  0 <= v < 2 ^ 64 ->
  keeps_front (fun st =>
                 if negb (v =? 0) then
                   let '(dAtA, i) := st in
                   let* (dAtA, i) := encodeVarintPacket dAtA i v in
                   let i := subInt i 1 in
                   let* dAtA := setAt dAtA i x10 in
                   Ok (dAtA, i)
                 else Ok st).
Proof.
  intros Hv. destruct (v =? 0); cbn [negb]; [apply keeps_nil|].
  intros d d' i i' Hi Hd H.
  apply varint_and_tag_keeps in H; assumption.
Qed.

(** From a block that keeps the front to the function that returns the
    buffer and the number of bytes written. *)
Lemma keeps_sized f (d d' : list byte) (n : Z) :
  keeps_front f -> len d <= maxInt ->
  (let* (d1, i) := f (d, len d) in Ok (d1, subInt (len d1) i)) = Ok (d', n) ->
  0 <= n <= len d /\ agree (len d - n) d' d.
Proof.
  intros Kf Hd H. pose proof (len_nonneg d).
  destruct (f (d, len d)) as [[d1 i1]| | |] eqn:E; try discriminate H.
  cbn [bind] in H. injection H as <- <-.
  apply Kf in E as [Hi A]; [|lia|assumption].
  destruct A as [L T]. rewrite L, subInt_small by lia.
  split; [lia|]. replace (len d - (len d - i1)) with i1 by lia.
  split; assumption.
Qed.

(** The strings of a message that Go can hold are Go strings. *)
Lemma wireStringOpt_bound (t : byte) (s : list byte) :
  len (wireStringOpt t s) <= maxInt -> len s <= maxInt.
Proof.
  unfold wireStringOpt. intros H.
  destruct (Z.gtb_spec (len s) 0); [|lia].
  pose proof (wireString_len_gt t s). lia.
Qed.

Lemma wireStrings_bound (t : byte) (l : list (list byte)) :
  len (concat (map (wireString t) l)) <= maxInt ->
  forall s, In s l -> len s <= maxInt.
Proof.
  induction l as [|x l IH]; intros H s Hin; [contradiction|].
  cbn [map concat] in H. rewrite len_app in H.
  pose proof (len_nonneg (wireString t x)).
  pose proof (len_nonneg (concat (map (wireString t) l))).
  destruct Hin as [->|Hin].
  - pose proof (wireString_len_gt t s). lia.
  - apply IH; [lia|exact Hin].
Qed.

Lemma FungibleTokenPacketData_MarshalToSizedBuffer_keeps
    (m : FungibleTokenPacketData) (d d' : list byte) (n : Z) :
  len (FungibleTokenPacketData_wire m) <= maxInt -> len d <= maxInt ->
  FungibleTokenPacketData_MarshalToSizedBuffer m d = Ok (d', n) ->
  0 <= n <= len d /\ agree (len d - n) d' d.
Proof.
  intros Hw Hd H. unfold FungibleTokenPacketData_wire in Hw.
  rewrite !len_app in Hw.
  pose proof (len_nonneg (wireStringOpt x0a (Denom m))).
  pose proof (len_nonneg (wireStringOpt x12 (Amount m))).
  pose proof (len_nonneg (wireStringOpt x1a (Sender m))).
  pose proof (len_nonneg (wireStringOpt x22 (Receiver m))).
  pose proof (len_nonneg (wireStringOpt x2a (Memo m))).
  pose proof (keeps_seq _ _
    (putStringOpt_keeps x2a (Memo m)
       (wireStringOpt_bound x2a (Memo m) ltac:(lia)))
    (keeps_seq _ _
    (putStringOpt_keeps x22 (Receiver m)
       (wireStringOpt_bound x22 (Receiver m) ltac:(lia)))
    (keeps_seq _ _
    (putStringOpt_keeps x1a (Sender m)
       (wireStringOpt_bound x1a (Sender m) ltac:(lia)))
    (keeps_seq _ _
    (putStringOpt_keeps x12 (Amount m)
       (wireStringOpt_bound x12 (Amount m) ltac:(lia)))
    (putStringOpt_keeps x0a (Denom m)
       (wireStringOpt_bound x0a (Denom m) ltac:(lia))))))) as K.
  apply (keeps_sized _ d d' n K Hd). rewrite <- H.
  unfold FungibleTokenPacketData_MarshalToSizedBuffer. cbv beta zeta.
  same_binds.
Qed.

Lemma Token_MarshalToSizedBuffer_keeps (t : Token) (d d' : list byte) (n : Z) :
  Token_fits t -> len d <= maxInt ->
  Token_MarshalToSizedBuffer (Some t) d = Ok (d', n) ->
  0 <= n <= len d /\ agree (len d - n) d' d.
Proof.
  intros [Hwf Hw] Hd H. unfold Token_wire in Hw. rewrite !len_app in Hw.
  pose proof (len_nonneg (wireStringOpt x0a (Token_Denom t))).
  pose proof (len_nonneg (wireAmount (Token_Amount t))).
  pose proof (len_nonneg (concat (map (wireString x1a) (Token_Trace t)))).
  assert (Ht : forall s, In s (rev (Token_Trace t)) ->
                 keeps_front (putString x1a s)).
  { intros s Hs. apply putString_keeps. apply in_rev in Hs.
    apply (wireStrings_bound x1a (Token_Trace t)); [lia|exact Hs]. }
  pose proof (keeps_seq _ _
    (keeps_forEach (putString x1a) (rev (Token_Trace t)) Ht)
    (keeps_seq _ _ (wireAmount_keeps (Token_Amount t) Hwf)
       (putStringOpt_keeps x0a (Token_Denom t)
          (wireStringOpt_bound x0a (Token_Denom t) ltac:(lia))))) as K.
  apply (keeps_sized _ d d' n K Hd). rewrite <- H.
  unfold Token_MarshalToSizedBuffer. cbv beta zeta.
  same_binds.
Qed.

Lemma putToken_keeps (t : Token) :
  Token_fits t -> keeps_front (putToken (Some t)).
Proof.
  intros Hf d d' i i' Hi Hd H. unfold putToken in H.
  rewrite sliceTo_take in H by lia. cbn [bind] in H.
  destruct (Token_MarshalToSizedBuffer (Some t) (take (Z.to_nat i) d))
    as [[sub size]| | |] eqn:E; try discriminate H.
  cbn [bind] in H.
  assert (Hlt : len (take (Z.to_nat i) d) = i).
  { unfold len in *. rewrite length_take. lia. }
  apply Token_MarshalToSizedBuffer_keeps in E as [Hn [L T]];
    [|exact Hf|lia].
  rewrite Hlt in *.
  assert (A1 : agree (i - size) (sub ++ drop (Z.to_nat i) d) d).
  { split.
    - rewrite len_app, L. unfold len in *. rewrite length_drop. lia.
    - rewrite take_app_le by (unfold len in *; lia).
      rewrite T, take_take. f_equal. lia. }
  rewrite subInt_small in H by lia.
  apply varint_and_tag_keeps in H as [Hi' A2];
    [|destruct A1 as [L1 _]; lia|destruct A1 as [L1 _]; lia
     |apply wrapU64_range].
  split; [lia|].
  apply (agree_trans _ d' (sub ++ drop (Z.to_nat i) d) d); [exact A2|].
  apply (agree_le (i - size)); [lia|exact A1].
Qed.

Lemma wireTokens_bound (ts : list Token) :
  Forall Token_wf ts -> len (concat (map wireToken ts)) <= maxInt ->
  forall t, In t ts -> Token_fits t.
Proof.
  induction ts as [|x ts IH]; intros Hwf H t Hin; [contradiction|].
  cbn [map concat] in H. rewrite len_app in H.
  pose proof (len_nonneg (wireToken x)).
  pose proof (len_nonneg (concat (map wireToken ts))).
  apply Forall_cons in Hwf as [Hx Hts].
  destruct Hin as [->|Hin].
  - split; [exact Hx|].
    pose proof (wireString_len_gt x0a (Token_wire t)) as Hgt.
    fold (wireToken t) in Hgt. lia.
  - apply IH; [exact Hts|lia|exact Hin].
Qed.

Lemma FungibleTokenPacketDataV2_MarshalToSizedBuffer_keeps
    (ts : list Token) (sender receiver memo d d' : list byte) (n : Z) :
  FungibleTokenPacketDataV2_fits ts sender receiver memo ->
  len d <= maxInt ->
  FungibleTokenPacketDataV2_MarshalToSizedBuffer
    (FungibleTokenPacketDataV2_of ts sender receiver memo) d = Ok (d', n) ->
  0 <= n <= len d /\ agree (len d - n) d' d.
Proof.
  intros [Hwf Hw] Hd H. unfold FungibleTokenPacketDataV2_wire in Hw.
  rewrite !len_app in Hw.
  pose proof (len_nonneg (concat (map wireToken ts))).
  pose proof (len_nonneg (wireStringOpt x12 sender)).
  pose proof (len_nonneg (wireStringOpt x1a receiver)).
  pose proof (len_nonneg (wireStringOpt x22 memo)).
  assert (Ht : forall a, In a (rev (map Some ts)) ->
                 keeps_front (putToken a)).
  { intros a Ha. apply in_rev, in_map_iff in Ha as (t & <- & Hin).
    apply putToken_keeps.
    apply (wireTokens_bound ts Hwf ltac:(lia) t Hin). }
  pose proof (keeps_seq _ _
    (putStringOpt_keeps x22 memo (wireStringOpt_bound x22 memo ltac:(lia)))
    (keeps_seq _ _
    (putStringOpt_keeps x1a receiver
       (wireStringOpt_bound x1a receiver ltac:(lia)))
    (keeps_seq _ _
    (putStringOpt_keeps x12 sender
       (wireStringOpt_bound x12 sender ltac:(lia)))
    (keeps_forEach putToken (rev (map Some ts)) Ht)))) as K.
  apply (keeps_sized _ d d' n K Hd). rewrite <- H.
  unfold FungibleTokenPacketDataV2_MarshalToSizedBuffer,
    FungibleTokenPacketDataV2_of.
  cbv beta zeta. cbn [V2_Tokens V2_Sender V2_Receiver V2_Memo].
  same_binds.
Qed.

Lemma FungibleTokenPacketData_MarshalToSizedBuffer_exact
    (m : FungibleTokenPacketData) (dAtA : list byte) :
  len (FungibleTokenPacketData_wire m) <= len dAtA -> len dAtA <= maxInt ->
  FungibleTokenPacketData_MarshalToSizedBuffer m dAtA
  = Ok (take (Z.to_nat (len dAtA - len (FungibleTokenPacketData_wire m)))
          dAtA ++ FungibleTokenPacketData_wire m,
        len (FungibleTokenPacketData_wire m)).
Proof.
  intros Hl Hd.
  destruct (FungibleTokenPacketData_MarshalToSizedBuffer_wire m dAtA Hl Hd)
    as (f1 & Hf1 & E).
  rewrite E. do 2 f_equal. f_equal.
  apply FungibleTokenPacketData_MarshalToSizedBuffer_keeps in E as [_ A];
    [|lia|exact Hd].
  apply agree_front; assumption.
Qed.

Lemma Token_MarshalToSizedBuffer_exact (t : Token) (dAtA : list byte) :
  Token_wf t -> len (Token_wire t) <= len dAtA -> len dAtA <= maxInt ->
  Token_MarshalToSizedBuffer (Some t) dAtA
  = Ok (take (Z.to_nat (len dAtA - len (Token_wire t))) dAtA ++ Token_wire t,
        len (Token_wire t)).
Proof.
  intros Hwf Hl Hd.
  destruct (Token_MarshalToSizedBuffer_wire t dAtA Hwf Hl Hd)
    as (f1 & Hf1 & E).
  rewrite E. do 2 f_equal. f_equal.
  apply Token_MarshalToSizedBuffer_keeps in E as [_ A];
    [|split; [exact Hwf|lia]|exact Hd].
  apply agree_front; assumption.
Qed.

Lemma FungibleTokenPacketDataV2_MarshalToSizedBuffer_exact
    (ts : list Token) (sender receiver memo dAtA : list byte) :
  Forall Token_wf ts ->
  len (FungibleTokenPacketDataV2_wire ts sender receiver memo) <= len dAtA ->
  len dAtA <= maxInt ->
  FungibleTokenPacketDataV2_MarshalToSizedBuffer
    (FungibleTokenPacketDataV2_of ts sender receiver memo) dAtA
  = Ok (take (Z.to_nat
                (len dAtA
                 - len (FungibleTokenPacketDataV2_wire ts sender receiver memo)))
          dAtA ++ FungibleTokenPacketDataV2_wire ts sender receiver memo,
        len (FungibleTokenPacketDataV2_wire ts sender receiver memo)).
Proof.
  intros Hwf Hl Hd.
  destruct (FungibleTokenPacketDataV2_MarshalToSizedBuffer_wire
              ts sender receiver memo dAtA Hwf Hl Hd) as (f1 & Hf1 & E).
  fold (FungibleTokenPacketDataV2_of ts sender receiver memo) in E.
  rewrite E. do 2 f_equal. f_equal.
  apply FungibleTokenPacketDataV2_MarshalToSizedBuffer_keeps in E as [_ A];
    [|split; [exact Hwf|lia]|exact Hd].
  apply agree_front; assumption.
Qed.

(** X26. [MarshalToSizedBuffer] fills the end of the buffer and nothing
    else: on a buffer with room for the encoding, each of the three
    encoders returns the buffer with its last bytes replaced by the
    encoding and every byte before them as it was, together with the length
    of the encoding. *)
Theorem MarshalToSizedBuffer_fills_the_end :
  (forall (m : FungibleTokenPacketData) (dAtA : list byte),
     len (FungibleTokenPacketData_wire m) <= len dAtA -> len dAtA <= maxInt ->
     FungibleTokenPacketData_MarshalToSizedBuffer m dAtA
     = Ok (take (Z.to_nat (len dAtA - len (FungibleTokenPacketData_wire m)))
             dAtA ++ FungibleTokenPacketData_wire m,
           len (FungibleTokenPacketData_wire m))) /\
  (forall (t : Token) (dAtA : list byte),
     Token_wf t -> len (Token_wire t) <= len dAtA -> len dAtA <= maxInt ->
     Token_MarshalToSizedBuffer (Some t) dAtA
     = Ok (take (Z.to_nat (len dAtA - len (Token_wire t))) dAtA
             ++ Token_wire t,
           len (Token_wire t))) /\
  (forall (ts : list Token) (sender receiver memo dAtA : list byte),
     Forall Token_wf ts ->
     len (FungibleTokenPacketDataV2_wire ts sender receiver memo)
     <= len dAtA ->
     len dAtA <= maxInt ->
     FungibleTokenPacketDataV2_MarshalToSizedBuffer
       (FungibleTokenPacketDataV2_of ts sender receiver memo) dAtA
     = Ok (take (Z.to_nat
                   (len dAtA
                    - len (FungibleTokenPacketDataV2_wire
                             ts sender receiver memo)))
             dAtA ++ FungibleTokenPacketDataV2_wire ts sender receiver memo,
           len (FungibleTokenPacketDataV2_wire ts sender receiver memo))).
Proof.
  split; [|split].
  - exact FungibleTokenPacketData_MarshalToSizedBuffer_exact.
  - exact Token_MarshalToSizedBuffer_exact.
  - exact FungibleTokenPacketDataV2_MarshalToSizedBuffer_exact.
Qed.

Lemma MarshalToSizedBuffer_fills_the_end_witness :
  Token_MarshalToSizedBuffer (Some sample_token) (replicate 30 xff)
  = Ok (take (Z.to_nat (len (replicate 30 xff) - len (Token_wire sample_token)))
          (replicate 30 xff) ++ Token_wire sample_token,
        len (Token_wire sample_token)).
Proof.
  apply (proj1 (proj2 MarshalToSizedBuffer_fills_the_end) sample_token
           (replicate 30 xff)).
  - vm_compute. split; [discriminate|reflexivity].
  - vm_compute. discriminate.
  - vm_compute. discriminate.
Defined.

(** [XXX_Marshal] returns the first [n] bytes of the buffer that
    [MarshalToSizedBuffer] filled from the end. *)
Lemma XXX_Marshal_front {M : Type} info
    (mtsb : M -> list byte -> result (list byte * Z))
    (m : M) (wire b : list byte) :
  2 * len wire <= len b ->
  mtsb m b = Ok (take (Z.to_nat (len b - len wire)) b ++ wire, len wire) ->
  XXX_Marshal info mtsb m b false = Ok (take (Z.to_nat (len wire)) b).
Proof.
  intros Hb E. pose proof (len_nonneg wire).
  unfold XXX_Marshal. rewrite E. cbn [bind].
  rewrite sliceTo_take.
  - f_equal. rewrite take_app_le.
    + rewrite take_take. f_equal. lia.
    + rewrite length_take. unfold len in *. lia.
  - rewrite len_app. unfold len in *. rewrite length_take. lia.
Qed.

(** X27. [XXX_Marshal] without the deterministic flag expects a buffer
    whose capacity is the size of the message. Given one of at least twice
    that capacity, it does not return the encoding: the encoding is written
    at the end of the buffer and the bytes returned are the first ones of
    the buffer, as they were before the call. *)
Theorem XXX_Marshal_large_buffer :
  (forall info (m : FungibleTokenPacketData) (b : list byte),
     2 * len (FungibleTokenPacketData_wire m) <= len b -> len b <= maxInt ->
     FungibleTokenPacketData_XXX_Marshal info m b false
     = Ok (take (Z.to_nat (len (FungibleTokenPacketData_wire m))) b)) /\
  (forall info (t : Token) (b : list byte),
     Token_wf t -> 2 * len (Token_wire t) <= len b -> len b <= maxInt ->
     Token_XXX_Marshal info (Some t) b false
     = Ok (take (Z.to_nat (len (Token_wire t))) b)) /\
  (forall info (ts : list Token) (sender receiver memo b : list byte),
     Forall Token_wf ts ->
     2 * len (FungibleTokenPacketDataV2_wire ts sender receiver memo)
     <= len b ->
     len b <= maxInt ->
     FungibleTokenPacketDataV2_XXX_Marshal info
       (FungibleTokenPacketDataV2_of ts sender receiver memo) b false
     = Ok (take (Z.to_nat
                   (len (FungibleTokenPacketDataV2_wire
                           ts sender receiver memo))) b)).
Proof.
  split; [|split].
  - intros info m b Hb Hd.
    pose proof (len_nonneg (FungibleTokenPacketData_wire m)).
    apply XXX_Marshal_front; [exact Hb|].
    apply FungibleTokenPacketData_MarshalToSizedBuffer_exact; lia.
  - intros info t b Hwf Hb Hd.
    pose proof (len_nonneg (Token_wire t)).
    apply XXX_Marshal_front; [exact Hb|].
    apply Token_MarshalToSizedBuffer_exact; [exact Hwf|lia|lia].
  - intros info ts sender receiver memo b Hwf Hb Hd.
    pose proof
      (len_nonneg (FungibleTokenPacketDataV2_wire ts sender receiver memo)).
    apply XXX_Marshal_front; [exact Hb|].
    apply FungibleTokenPacketDataV2_MarshalToSizedBuffer_exact;
      [exact Hwf|lia|lia].
Qed.

Lemma XXX_Marshal_large_buffer_witness :
  Token_XXX_Marshal (fun _ _ _ => Panic) (Some sample_token)
    (replicate 44 xff) false
  = Ok (take (Z.to_nat (len (Token_wire sample_token))) (replicate 44 xff)).
Proof.
  apply (proj1 (proj2 XXX_Marshal_large_buffer) (fun _ _ _ => Panic)
           sample_token (replicate 44 xff)).
  - vm_compute. split; [discriminate|reflexivity].
  - vm_compute. discriminate.
  - vm_compute. discriminate.
Defined.
